(** * WebSocket server: connection registry, subscriptions, fan-out,
      heartbeat and request-rate window

    A shallow embedding of the server side of the repository:
    - [src/server.js]              (class [WebServer]: statistics window,
                                    system and metrics broadcasts),
    - [src/websocket/server.js]    ([setupWebSocketServer]: admission,
                                    heartbeat, pong, close and error handlers,
                                    message dispatch),
    - [src/websocket/handlers.js]  ([handleChatMessage], [handleDrawing],
                                    [handleSubscription]),
    - [src/utils/router.js]        (class [Router]), with [setupRoutes] and
                                    the dispatch of [handleRequest],
    - [sanitizeFilename]           of [src/utils/uploadHandler.js] and
                                    [src/middleware/sanitize.js].

    The program is event driven and single threaded: every callback runs to
    completion.  The embedding is a state type [World] and one function per
    callback, each a function on [World], total but for the two that spin on
    [statsLock]; the callbacks deferred with [setImmediate] sit in a queue of
    the world, the timers in a table.  Time is a clock of the world that the
    event [EAdvance] moves, forward only; a timer fires when it is due or
    later, and [Date.now()] reads the same clock.  A run ends before the
    WebSocket server is closed. *)

From Stdlib Require Import ZArith List String Ascii Lia Sorted.
From Stdlib Require Import Floats.SpecFloat.
From stdpp Require Import base decidable option list fin_maps gmap.

Local Open Scope Z_scope.
Set Warnings "-register-all".

(** ** JavaScript strings and JSON values *)

(** A JavaScript string is a sequence of UTF-16 code units; [length] of the
    list is the [.length] of the string. *)
Abbreviation jsstring := (list N).

Definition js (s : string) : jsstring :=
  List.map N_of_ascii (list_ascii_of_string s).

(** [Array.prototype.join] on strings. *)
Fixpoint join (sep : jsstring) (l : list jsstring) : jsstring :=
  match l with
  | [] => []
  | [x] => x
  | x :: rest => x ++ sep ++ join sep rest
  end.

(** WhiteSpace and LineTerminator code points of ECMAScript, the characters
    [String.prototype.trim] strips: TAB, LF, VT, FF, CR, SP, NBSP, the
    Unicode space separators, LS, PS and the byte order mark. *)
Definition isWhiteSpace (c : N) : bool :=
  ((9 <=? c) && (c <=? 13) || (c =? 32) || (c =? 160) || (c =? 5760)
   || (8192 <=? c) && (c <=? 8202) || (c =? 8232) || (c =? 8233)
   || (c =? 8239) || (c =? 8287) || (c =? 12288) || (c =? 65279))%N.

Fixpoint trimStart (s : jsstring) : jsstring :=
  match s with
  | [] => []
  | c :: rest => if isWhiteSpace c then trimStart rest else s
  end.

Definition trim (s : jsstring) : jsstring :=
  rev (trimStart (rev (trimStart s))).

(** [s.substring(0, n)]. *)
Definition substring0 (n : nat) (s : jsstring) : jsstring := take n s.

(** A JSON number is a double; [num_text] is the text [String(x)] gives for
    it, carried along so that no float printing is needed. *)
Record jsnumber := mkNumber { num_value : spec_float; num_text : jsstring }.

(** The values [JSON.parse] returns. *)
Inductive json :=
  | JNull
  | JBool (b : bool)
  | JNum (x : jsnumber)
  | JStr (s : jsstring)
  | JArr (items : list json)
  | JObj (fields : list (jsstring * json)).

(** A JavaScript value read from parsed input: [None] is [undefined]. *)
Abbreviation jsval := (option json).

Fixpoint assoc (k : jsstring) (fields : list (jsstring * json)) : jsval :=
  match fields with
  | [] => None
  | (k', v) :: rest => if decide (k = k') then Some v else assoc k rest
  end.

(** [v.k] for a value that is neither [null] nor [undefined]: only objects
    have the properties the handlers read ([message], [from], [user],
    [channels], [action], [type], [data]). *)
Definition prop (k : jsstring) (v : json) : jsval :=
  match v with
  | JObj fields => assoc k fields
  | _ => None
  end.

(** ToBoolean. *)
Definition truthy (v : jsval) : bool :=
  match v with
  | None | Some JNull => false
  | Some (JBool b) => b
  | Some (JNum x) =>
      match num_value x with
      | S754_zero _ | S754_nan => false
      | _ => true
      end
  | Some (JStr s) => negb (bool_decide (s = []))
  | Some (JArr _) | Some (JObj _) => true
  end.

(** [typeof v === 'string'] and [Array.isArray(v)], and the string or array
    a value is once the test has passed. *)
Definition isString (v : jsval) : bool :=
  match v with Some (JStr _) => true | _ => false end.

Definition isArray (v : jsval) : bool :=
  match v with Some (JArr _) => true | _ => false end.

Definition asString (v : jsval) : jsstring :=
  match v with Some (JStr s) => s | _ => [] end.

Definition asArray (v : jsval) : list json :=
  match v with Some (JArr items) => items | _ => [] end.

(** [arr.includes(s)] for a string [s]: SameValueZero only matches a string
    element with the same code units. *)
Definition includesStr (arr : list json) (s : jsstring) : bool :=
  existsb (fun v => match v with
                    | JStr t => bool_decide (t = s)
                    | _ => false
                    end) arr.

(** [strs.includes(v)] for an array of strings and any value [v]. *)
Definition strIncludes (strs : list jsstring) (v : json) : bool :=
  match v with
  | JStr s => bool_decide (s ∈ strs)
  | _ => false
  end.

(** [Object.prototype.hasOwnProperty.call(v, k)] for a parsed object. *)
Definition hasOwn (k : jsstring) (fields : list (jsstring * json)) : bool :=
  existsb (fun entry => bool_decide (entry.1 = k)) fields.

(** ToString, as [join] and template literals apply it; [None] when it
    raises.  An object is converted by its [toString] method and then by its
    [valueOf] method, whichever is callable and returns a primitive.  A
    parsed object inherits both from [Object.prototype], but a property
    [toString] of its own, which [JSON.parse] never makes a function, hides
    the inherited method; [valueOf], own or inherited, gives no primitive;
    so the conversion raises a [TypeError].  An array is converted by [join],
    which converts its elements. *)
Fixpoint toString (v : json) : option jsstring :=
  match v with
  | JNull => Some (js "null")
  | JBool true => Some (js "true")
  | JBool false => Some (js "false")
  | JNum x => Some (num_text x)
  | JStr s => Some s
  | JArr items =>
      join (js ",") <$>
        (fix elements (l : list json) : option (list jsstring) :=
           match l with
           | [] => Some []
           | x :: rest =>
               match (match x with JNull => Some [] | _ => toString x end) with
               | Some text =>
                   match elements rest with
                   | Some texts => Some (text :: texts)
                   | None => None
                   end
               | None => None
               end
           end) items
  | JObj fields =>
      if hasOwn (js "toString") fields then None else Some (js "[object Object]")
  end.

(** The texts [arr.join] joins: [null] elements give the empty string, and
    the first element whose conversion raises makes [join] raise. *)
Fixpoint elementTexts (arr : list json) : option (list jsstring) :=
  match arr with
  | [] => Some []
  | x :: rest =>
      match (match x with JNull => Some [] | _ => toString x end) with
      | Some text =>
          match elementTexts rest with
          | Some texts => Some (text :: texts)
          | None => None
          end
      | None => None
      end
  end.

(** [arr.join(sep)]. *)
Definition joinValues (sep : jsstring) (arr : list json) : option jsstring :=
  join sep <$> elementTexts arr.

(** ** Messages, sockets and the server state *)

(** The objects the server serialises with [JSON.stringify] and sends, one
    constructor per [type]; the arguments are the fields of [data].  A
    [timestamp] is the instant whose ISO text is sent. *)
Inductive ServerMsg :=
  | MsgError (message : jsstring)
  | MsgSystem (message clientId : jsstring) (timestamp : Z)
              (activeConnections : nat) (maxConnections : Z)
  | MsgMetrics (totalRequests : Z) (activeConnections : nat)
               (requestsPerSecond : nat) (uptime : Z)
  | MsgChat (from user : json) (message : jsstring) (timestamp : Z)
            (clientId : option jsstring)
  | MsgDraw (fields : list (jsstring * json)) (clientId : jsstring)
            (timestamp : Z)
  | MsgSubscription (message : jsstring) (channels : list json)
                    (timestamp : Z)
  | MsgPong (timestamp : Z).

(** Sockets ([ws] objects) and timer handles are references. *)
Abbreviation ref := nat.
Abbreviation handle := nat.

(** The fields the connection handler bolts onto a [ws] object, and the
    [readyState] the library keeps on it (0 CONNECTING, 1 OPEN, 2 CLOSING,
    3 CLOSED). *)
Record Session := mkSession {
  id : jsstring;
  ip : jsstring;
  subscriptions : list json;
  isAlive : bool;
  connectedAt : Z;
  pingTimeout : option handle;
  readyState : Z
}.

Definition setSubscriptions (v : list json) (s : Session) : Session :=
  mkSession (id s) (ip s) v (isAlive s) (connectedAt s) (pingTimeout s)
            (readyState s).
Definition setIsAlive (v : bool) (s : Session) : Session :=
  mkSession (id s) (ip s) (subscriptions s) v (connectedAt s) (pingTimeout s)
            (readyState s).
Definition setPingTimeout (v : option handle) (s : Session) : Session :=
  mkSession (id s) (ip s) (subscriptions s) (isAlive s) (connectedAt s) v
            (readyState s).
Definition setReadyState (v : Z) (s : Session) : Session :=
  mkSession (id s) (ip s) (subscriptions s) (isAlive s) (connectedAt s)
            (pingTimeout s) v.

(** Method calls the server makes on sockets, in the order it makes them. *)
Inductive call :=
  | Send (ws : ref) (m : ServerMsg)
  | Ping (ws : ref)
  | CloseWith (ws : ref) (code : Z) (reason : jsstring)
  | Terminate (ws : ref).

(** Pending timers with the socket their closure captured and the instant
    they are due: the [setInterval] of the connection handler and the
    [setTimeout] armed by each probe (which also captured the interval). *)
Inductive timer :=
  | HeartbeatInterval (ws : ref) (due : Z)
  | PongTimeout (ws : ref) (interval : handle) (due : Z).

Definition due (t : timer) : Z :=
  match t with
  | HeartbeatInterval _ d => d
  | PongTimeout _ _ d => d
  end.

(** Callbacks queued with [setImmediate]. *)
Inductive task :=
  | ChatFanOut (sender : ref) (payload : ServerMsg)
  | DrawFanOut (sender : ref) (payload : ServerMsg)
  | SystemChatFanOut (payload : ServerMsg)
  | MetricsFanOut (payload : ServerMsg)
  | CallBroadcastMetrics
  | CallBroadcastChatMessage (message from : jsstring).

(** [WebServer] ([clients], [serverStats], [statsLock]), the [heartbeats]
    map of [setupWebSocketServer], and the runtime around them: the socket
    objects, the timer table, the [setImmediate] queue, the calls made so
    far and the clock [Date.now()] reads. *)
Record World := mkWorld {
  heap : gmap ref Session;
  clients : gmap jsstring ref;
  heartbeats : gmap jsstring handle;
  timers : gmap handle timer;
  nextHandle : handle;
  totalRequests : Z;
  requestsPerSecond : nat;
  startTime : Z;
  requestTimestamps : list Z;
  statsLock : bool;
  immediates : list task;
  out : list call;
  clock : Z
}.

Definition setHeap (v : gmap ref Session) (w : World) : World :=
  mkWorld v (clients w) (heartbeats w) (timers w) (nextHandle w)
    (totalRequests w) (requestsPerSecond w) (startTime w)
    (requestTimestamps w) (statsLock w) (immediates w) (out w) (clock w).
Definition setClients (v : gmap jsstring ref) (w : World) : World :=
  mkWorld (heap w) v (heartbeats w) (timers w) (nextHandle w)
    (totalRequests w) (requestsPerSecond w) (startTime w)
    (requestTimestamps w) (statsLock w) (immediates w) (out w) (clock w).
Definition setHeartbeats (v : gmap jsstring handle) (w : World) : World :=
  mkWorld (heap w) (clients w) v (timers w) (nextHandle w)
    (totalRequests w) (requestsPerSecond w) (startTime w)
    (requestTimestamps w) (statsLock w) (immediates w) (out w) (clock w).
Definition setTimers (v : gmap handle timer) (w : World) : World :=
  mkWorld (heap w) (clients w) (heartbeats w) v (nextHandle w)
    (totalRequests w) (requestsPerSecond w) (startTime w)
    (requestTimestamps w) (statsLock w) (immediates w) (out w) (clock w).
Definition setNextHandle (v : handle) (w : World) : World :=
  mkWorld (heap w) (clients w) (heartbeats w) (timers w) v
    (totalRequests w) (requestsPerSecond w) (startTime w)
    (requestTimestamps w) (statsLock w) (immediates w) (out w) (clock w).
Definition setTotalRequests (v : Z) (w : World) : World :=
  mkWorld (heap w) (clients w) (heartbeats w) (timers w) (nextHandle w)
    v (requestsPerSecond w) (startTime w)
    (requestTimestamps w) (statsLock w) (immediates w) (out w) (clock w).
Definition setRequestsPerSecond (v : nat) (w : World) : World :=
  mkWorld (heap w) (clients w) (heartbeats w) (timers w) (nextHandle w)
    (totalRequests w) v (startTime w)
    (requestTimestamps w) (statsLock w) (immediates w) (out w) (clock w).
Definition setRequestTimestamps (v : list Z) (w : World) : World :=
  mkWorld (heap w) (clients w) (heartbeats w) (timers w) (nextHandle w)
    (totalRequests w) (requestsPerSecond w) (startTime w)
    v (statsLock w) (immediates w) (out w) (clock w).
Definition setStatsLock (v : bool) (w : World) : World :=
  mkWorld (heap w) (clients w) (heartbeats w) (timers w) (nextHandle w)
    (totalRequests w) (requestsPerSecond w) (startTime w)
    (requestTimestamps w) v (immediates w) (out w) (clock w).
Definition setImmediates (v : list task) (w : World) : World :=
  mkWorld (heap w) (clients w) (heartbeats w) (timers w) (nextHandle w)
    (totalRequests w) (requestsPerSecond w) (startTime w)
    (requestTimestamps w) (statsLock w) v (out w) (clock w).
Definition setOut (v : list call) (w : World) : World :=
  mkWorld (heap w) (clients w) (heartbeats w) (timers w) (nextHandle w)
    (totalRequests w) (requestsPerSecond w) (startTime w)
    (requestTimestamps w) (statsLock w) (immediates w) v (clock w).
Definition setClock (v : Z) (w : World) : World :=
  mkWorld (heap w) (clients w) (heartbeats w) (timers w) (nextHandle w)
    (totalRequests w) (requestsPerSecond w) (startTime w)
    (requestTimestamps w) (statsLock w) (immediates w) (out w) v.

(** ** Runtime primitives *)

(** A method call on a socket.  Where the source wraps the call in
    [try]/[catch] and only logs, both outcomes leave the same state. *)
Definition emit (c : call) (w : World) : World := setOut (out w ++ [c]) w.

Definition setImmediate (t : task) (w : World) : World :=
  setImmediates (immediates w ++ [t]) w.

(** [clearInterval] and [clearTimeout]. *)
Definition clearTimer (h : handle) (w : World) : World :=
  setTimers (delete h (timers w)) w.

(** [setInterval] and [setTimeout]: a fresh handle for the new timer. *)
Definition armTimer (t : timer) (w : World) : handle * World :=
  (nextHandle w,
   setNextHandle (S (nextHandle w)) (setTimers (<[nextHandle w := t]> (timers w)) w)).

(** Assignment to a field of the socket object [ws]. *)
Definition updateSocket (ws : ref) (f : Session -> Session) (w : World) : World :=
  setHeap (alter f ws (heap w)) w.

(** The body [k] reads fields of the socket object [ws]. *)
Definition withSocket (ws : ref) (w : World) (k : Session -> World) : World :=
  match heap w !! ws with
  | Some s => k s
  | None => w
  end.

(** [if (ws.pingTimeout) { clearTimeout(ws.pingTimeout); }] *)
Definition clearPingTimeout (ws : ref) (w : World) : World :=
  withSocket ws w (fun s =>
    match pingTimeout s with
    | Some t => clearTimer t w
    | None => w
    end).

(** [if (ws.pingTimeout) { clearTimeout(ws.pingTimeout); ws.pingTimeout = null; }] *)
Definition dropPingTimeout (ws : ref) (w : World) : World :=
  withSocket ws w (fun s =>
    match pingTimeout s with
    | Some t => updateSocket ws (setPingTimeout None) (clearTimer t w)
    | None => w
    end).

(** ** Admission, heartbeat and teardown ([setupWebSocketServer]) *)

Definition MAX_CONNECTIONS : Z := 1000.
Definition HEARTBEAT_INTERVAL : Z := 30000.
Definition PING_TIMEOUT : Z := 10000.

(** The [metrics] object built by [broadcastMetrics] and by the connection
    handler; [activeConnections] is [clients.size], read live. *)
Definition metricsMsg (w : World) : ServerMsg :=
  MsgMetrics (totalRequests w) (size (clients w)) (requestsPerSecond w)
             ((clock w - startTime w) / 1000).

(** [wss.on('connection', (ws, req) => ...)].  [clientId] is the string made
    from [Date.now()] and [Math.random()], [ip] the peer address; the socket
    handed over by the library is open. *)
Definition onConnection (ws : ref) (clientId ip : jsstring) (w : World) : World :=
  if MAX_CONNECTIONS <=? Z.of_nat (size (clients w)) then
    emit (CloseWith ws 1008 (js "Server at capacity")) w
  else
    let w := setHeap (<[ws := mkSession clientId ip [] true (clock w) None 1]> (heap w)) w in
    let w := setClients (<[clientId := ws]> (clients w)) w in
    let '(heartbeatInterval, w) :=
      armTimer (HeartbeatInterval ws (clock w + HEARTBEAT_INTERVAL)) w in
    let w := setHeartbeats (<[clientId := heartbeatInterval]> (heartbeats w)) w in
    let w := emit (Send ws (MsgSystem (js "Connected to WebSocket server") clientId
                                      (clock w) (size (clients w)) MAX_CONNECTIONS)) w in
    emit (Send ws (metricsMsg w)) w.

(** The teardown shared by the dead-peer branch of the heartbeat callback
    and by its [catch] block: [clearInterval], drop the pong timeout,
    [heartbeats.delete], [ws.terminate()]. *)
Definition reapOnTick (heartbeatInterval : handle) (ws : ref) (w : World) : World :=
  withSocket ws w (fun s =>
    let w := clearTimer heartbeatInterval w in
    let w := dropPingTimeout ws w in
    let w := setHeartbeats (delete (id s) (heartbeats w)) w in
    emit (Terminate ws) w).

(** The [setInterval] callback.  [pingThrows] tells whether [ws.ping()]
    raised, which sends control to the [catch] block. *)
Definition heartbeatTick (heartbeatInterval : handle) (ws : ref)
    (pingThrows : bool) (w : World) : World :=
  withSocket ws w (fun s =>
    if negb (isAlive s) then reapOnTick heartbeatInterval ws w
    else
      let w := updateSocket ws (setIsAlive false) w in
      let w := emit (Ping ws) w in
      if pingThrows then reapOnTick heartbeatInterval ws w
      else
        let w := clearPingTimeout ws w in
        let '(t, w) :=
          armTimer (PongTimeout ws heartbeatInterval (clock w + PING_TIMEOUT)) w in
        updateSocket ws (setPingTimeout (Some t)) w).

(** The [setTimeout] callback armed by a probe. *)
Definition pongTimeoutFired (heartbeatInterval : handle) (ws : ref) (w : World) : World :=
  withSocket ws w (fun s =>
    if negb (isAlive s) && (readyState s =? 1) then
      let w := clearTimer heartbeatInterval w in
      let w := setHeartbeats (delete (id s) (heartbeats w)) w in
      let w := updateSocket ws (setPingTimeout None) w in
      emit (Terminate ws) w
    else w).

(** The timer [h] fires: an interval is re-armed one period after the
    instant it fires at and its callback runs; a timeout leaves the table and
    its callback runs. *)
Definition fireTimer (h : handle) (pingThrows : bool) (w : World) : World :=
  match timers w !! h with
  | Some (HeartbeatInterval ws d) =>
      heartbeatTick h ws pingThrows
        (setTimers (<[h := HeartbeatInterval ws (clock w + HEARTBEAT_INTERVAL)]> (timers w)) w)
  | Some (PongTimeout ws interval _) => pongTimeoutFired interval ws (clearTimer h w)
  | None => w
  end.

(** [ws.on('pong', ...)]. *)
Definition onPong (ws : ref) (w : World) : World :=
  dropPingTimeout ws (updateSocket ws (setIsAlive true) w).

(** [const heartbeat = heartbeats.get(clientId); if (heartbeat) { ... }] of the
    close and error handlers. *)
Definition dropHeartbeat (clientId : jsstring) (w : World) : World :=
  match heartbeats w !! clientId with
  | Some heartbeat => setHeartbeats (delete clientId (heartbeats w)) (clearTimer heartbeat w)
  | None => w
  end.

(** [serverInstance.clients.delete(clientId)], the removal primitive of the
    registry. *)
Definition removeClient (clientId : jsstring) (w : World) : World :=
  setClients (delete clientId (clients w)) w.

(** [ws.on('close', ...)]; [clientId] is the constant stored in [ws.id]. *)
Definition onClose (ws : ref) (w : World) : World :=
  withSocket ws w (fun s =>
    let clientId := id s in
    let w := dropHeartbeat clientId w in
    let w := dropPingTimeout ws w in
    let w := removeClient clientId w in
    let w := setImmediate CallBroadcastMetrics w in
    setImmediate (CallBroadcastChatMessage
                    (js "User " ++ substring0 6 clientId ++ js " disconnected")
                    (js "System")) w).

(** [ws.on('error', ...)]. *)
Definition onError (ws : ref) (w : World) : World :=
  withSocket ws w (fun s => removeClient (id s) (dropHeartbeat (id s) w)).

(** ** Message handlers ([handlers.js]) *)

Definition dquote : jsstring := [34%N].

Definition chatFormatError : jsstring :=
  js "Invalid chat message format. Required: { type: " ++ dquote ++ js "chat"
  ++ dquote ++ js ", data: { message: " ++ dquote ++ js "..." ++ dquote ++ js " } }".

(** [a || b] where [b] is defined. *)
Definition jsOr (a : jsval) (b : json) : json :=
  match a with
  | Some v => if truthy a then v else b
  | None => b
  end.

(** [data.k], reached only where [data] is truthy. *)
Definition field (k : string) (data : jsval) : jsval := data ≫= prop (js k).

(** The [chatMessage] object of [handleChatMessage]. *)
Definition chatPayload (s : Session) (data : jsval) (messageText : jsstring)
    (now : Z) : ServerMsg :=
  let fallback := JStr (js "User_" ++ substring0 6 (id s)) in
  MsgChat (jsOr (field "from" data) (jsOr (field "user" data) fallback))
          (jsOr (field "user" data) (jsOr (field "from" data) fallback))
          messageText now (Some (id s)).

Definition handleChatMessage (ws : ref) (data : jsval) (w : World) : World :=
  if negb (truthy data) || negb (truthy (field "message" data))
     || negb (isString (field "message" data)) then
    emit (Send ws (MsgError chatFormatError)) w
  else
    let messageText := trim (asString (field "message" data)) in
    if (length messageText =? 0)%nat then
      emit (Send ws (MsgError (js "Message cannot be empty"))) w
    else if (500 <? length messageText)%nat then
      emit (Send ws (MsgError (js "Message too long. Maximum 500 characters."))) w
    else
      withSocket ws w (fun s =>
        setImmediate (ChatFanOut ws (chatPayload s data messageText (clock w))) w).

(** The own properties [{...data}] copies. *)
Definition ownFields (v : jsval) : list (jsstring * json) :=
  match v with Some (JObj fields) => fields | _ => [] end.

Definition handleDrawing (ws : ref) (data : jsval) (w : World) : World :=
  if negb (truthy data) || negb (truthy (field "action" data)) then
    emit (Send ws (MsgError (js "Invalid drawing message format"))) w
  else
    withSocket ws w (fun s =>
      setImmediate (DrawFanOut ws (MsgDraw (ownFields data) (id s) (clock w))) w).

Definition validChannels : list jsstring :=
  [js "chat"; js "metrics"; js "draw"; js "notification"].

Definition invalidChannels (channels : list json) : list json :=
  List.filter (fun ch => negb (strIncludes validChannels ch)) channels.

(** [handleSubscription].  The text of the second error is built inside the
    [try] whose [catch] only logs: when [join] raises, nothing is sent. *)
Definition handleSubscription (ws : ref) (data : jsval) (w : World) : World :=
  if negb (truthy data) || negb (truthy (field "channels" data))
     || negb (isArray (field "channels" data)) then
    emit (Send ws (MsgError (js "Invalid subscription format. Expected channels array."))) w
  else
    let channels := asArray (field "channels" data) in
    if (0 <? length (invalidChannels channels))%nat then
      match joinValues (js ", ") (invalidChannels channels) with
      | Some names =>
          emit (Send ws (MsgError
                 (js "Invalid channel names: " ++ names
                  ++ js ". Valid channels: " ++ join (js ", ") validChannels))) w
      | None => w
      end
    else
      let w := updateSocket ws (setSubscriptions channels) w in
      withSocket ws w (fun s =>
        emit (Send ws (MsgSubscription (js "Subscriptions updated") (subscriptions s)
                                       (clock w))) w).

(** ** Fan-out *)

(** The deferred passes of [handleChatMessage], [handleDrawing],
    [broadcastChatMessage] and [broadcastMetrics] share one loop body, up to
    the channel and the sender to skip.  The registry is a finite map: a pass
    visits the entries in the order of the map, not in the order of
    insertion, and no property below depends on that order.
    [WebServer.broadcast], which nothing calls, is left out. *)

(** What [client.send(messageStr)] did: it returned, or it raised and
    [client.readyState] reads [readyStateAfter] in the [catch] block. *)
Inductive sendResult :=
  | SendOk
  | SendThrows (readyStateAfter : Z).

(** [client.subscriptions && client.subscriptions.length > 0 &&
     client.subscriptions.includes(channel)] *)
Definition wantsChannel (c : Session) (channel : jsstring) : bool :=
  (0 <? length (subscriptions c))%nat && includesStr (subscriptions c) channel.

(** One iteration of [clientsArray.forEach(([clientId, client]) => ...)].
    [skip] is [ws.id] in the chat and draw handlers, which do not echo, and
    absent in [broadcastChatMessage] and [broadcastMetrics]. *)
Definition visit (skip : option jsstring) (channel : jsstring) (messageStr : ServerMsg)
    (oracle : jsstring -> sendResult) (acc : World * list jsstring)
    (entry : jsstring * ref) : World * list jsstring :=
  let '(w, clientsToRemove) := acc in
  let '(clientId, client) := entry in
  if bool_decide (skip = Some clientId) then acc
  else
    match heap w !! client with
    | None => acc
    | Some c =>
        if readyState c =? 1 then
          if wantsChannel c channel then
            let w := emit (Send client messageStr) w in
            match oracle clientId with
            | SendOk => (w, clientsToRemove)
            | SendThrows rs =>
                let w := updateSocket client (setReadyState rs) w in
                if rs =? 1 then (w, clientsToRemove)
                else (w, clientsToRemove ++ [clientId])
            end
          else acc
        else (w, clientsToRemove ++ [clientId])
    end.

(** The pass over the snapshot [Array.from(clients.entries())]. *)
Definition fanOutPass (skip : option jsstring) (channel : jsstring)
    (messageStr : ServerMsg) (oracle : jsstring -> sendResult) (w : World)
  : World * list jsstring :=
  foldl (visit skip channel messageStr oracle) (w, []) (map_to_list (clients w)).

(** [clientsToRemove.forEach(clientId => clients.delete(clientId))] *)
Definition removeAll (clientsToRemove : list jsstring) (w : World) : World :=
  foldl (fun w clientId => removeClient clientId w) w clientsToRemove.

(** The body of the deferred callback: the pass, then the removals. *)
Definition fanOut (skip : option jsstring) (channel : jsstring)
    (messageStr : ServerMsg) (oracle : jsstring -> sendResult) (w : World) : World :=
  let '(w', clientsToRemove) := fanOutPass skip channel messageStr oracle w in
  removeAll clientsToRemove w'.

(** [WebServer.broadcastMetrics] and [WebServer.broadcastChatMessage]: the
    payload is built at the call, the pass is deferred. *)
Definition broadcastMetrics (w : World) : World :=
  setImmediate (MetricsFanOut (metricsMsg w)) w.

Definition broadcastChatMessage (message from : jsstring) (w : World) : World :=
  setImmediate (SystemChatFanOut
                  (MsgChat (JStr from) (JStr from) message (clock w) None)) w.

(** A deferred callback runs. *)
Definition runTask (t : task) (oracle : jsstring -> sendResult) (w : World) : World :=
  match t with
  | ChatFanOut sender messageStr =>
      withSocket sender w (fun s => fanOut (Some (id s)) (js "chat") messageStr oracle w)
  | DrawFanOut sender messageStr =>
      withSocket sender w (fun s => fanOut (Some (id s)) (js "draw") messageStr oracle w)
  | SystemChatFanOut messageStr => fanOut None (js "chat") messageStr oracle w
  | MetricsFanOut messageStr => fanOut None (js "metrics") messageStr oracle w
  | CallBroadcastMetrics => broadcastMetrics w
  | CallBroadcastChatMessage message from => broadcastChatMessage message from w
  end.

(** ** Request-rate window ([WebServer]) *)

(** [while (this.statsLock) {}] never exits when the flag is set: on the one
    thread nothing can reset it.  [None] is that divergence. *)
Definition withStatsLock (body : World -> World) (w : World) : option World :=
  if statsLock w then None
  else Some (setStatsLock false (body (setStatsLock true w))).

(** [n++] on a counter.  The counter is a double that holds a natural
    number: up to [2^53] every sum is exact, and [2^53 + 1], which is no
    double, rounds back to [2^53] (ties go to the even significand), so a
    counter started at 0 stops there. *)
Definition MAX_COUNT : Z := 2 ^ 53.

Definition increment (n : Z) : Z := if n <? MAX_COUNT then n + 1 else n.

(** The recording part of [handleRequest]. *)
Definition recordRequest (w : World) : option World :=
  withStatsLock (fun w => setRequestTimestamps (requestTimestamps w ++ [clock w]) w)
                (setTotalRequests (increment (totalRequests w)) w).

(** The callback of [startMetricsCalculation]. *)
Definition evict (now : Z) (window : list Z) : list Z :=
  List.filter (fun timestamp => now - timestamp <? 1000) window.

Definition metricsTick (w : World) : option World :=
  let now := clock w in
  withStatsLock (fun w =>
    let w := setRequestTimestamps (evict now (requestTimestamps w)) w in
    setRequestsPerSecond (length (requestTimestamps w)) w) w.

(** ** Dispatch and the event loop *)

Definition typeIs (k : string) (message : json) : bool :=
  match prop (js "type") message with
  | Some (JStr t) => bool_decide (t = js k)
  | _ => false
  end.

(** A template literal applied to a value that may be [undefined]; [None]
    when the conversion raises. *)
Definition interpolate (v : jsval) : option jsstring :=
  match v with
  | None => Some (js "undefined")
  | Some x => toString x
  end.

(** [handleWebSocketMessage].  In the default branch the template literal
    is evaluated inside the [try] whose [catch] only logs: when the
    conversion of [message.type] raises, nothing is sent. *)
Definition handleWebSocketMessage (ws : ref) (message : json) (w : World) : World :=
  let data := prop (js "data") message in
  if typeIs "chat" message then handleChatMessage ws data w
  else if typeIs "draw" message then handleDrawing ws data w
  else if typeIs "subscribe" message then handleSubscription ws data w
  else if typeIs "ping" message then emit (Send ws (MsgPong (clock w))) w
  else
    match interpolate (prop (js "type") message) with
    | Some type => emit (Send ws (MsgError (js "Unknown message type: " ++ type))) w
    | None => w
    end.

(** [ws.on('message', ...)]: [None] is a frame [JSON.parse] rejects; reading
    [message.type] of [null] raises as well. *)
Definition onMessage (ws : ref) (parsed : option json) (w : World) : World :=
  match parsed with
  | None | Some JNull => emit (Send ws (MsgError (js "Invalid message format"))) w
  | Some message => handleWebSocketMessage ws message w
  end.

(** What can happen next.  The library and the peers decide when sockets
    connect, speak, change state and close; the runtime fires timers when
    they are due and runs deferred callbacks.  These are the events of a
    server whose WebSocket server is open: the callback of its close is
    [onServerClose], applied to the world a run ends in. *)
Inductive event :=
  | EConnection (ws : ref) (clientId ip : jsstring)
  | EMessage (ws : ref) (parsed : option json)
  | EPong (ws : ref)
  | EClose (ws : ref)
  | EError (ws : ref)
  | ESocketState (ws : ref) (readyState : Z)
  | ETimer (h : handle) (pingThrows : bool)
  | EImmediate (oracle : jsstring -> sendResult)
  | EHttpRequest
  | EMetricsTick
  | EBroadcastTick
  | EAdvance (t : Z).

(** An event can occur: sockets that speak were admitted, a new socket is a
    new object, a timer fires only when pending and due (it may fire late),
    and time does not move backwards.  The one clock of the world is the
    time of the timers and the reading of [Date.now()]: a run has no step
    back of the wall clock (see [recordRequestAt] for a reading of any
    kind). *)
Definition enabled (e : event) (w : World) : bool :=
  match e with
  | EConnection ws _ _ => bool_decide (heap w !! ws = None)
  | EMessage ws _ | EPong ws | EClose ws | EError ws | ESocketState ws _ =>
      bool_decide (is_Some (heap w !! ws))
  | ETimer h _ =>
      match timers w !! h with
      | Some t => due t <=? clock w
      | None => false
      end
  | EImmediate _ => negb (bool_decide (immediates w = []))
  | EHttpRequest | EMetricsTick | EBroadcastTick => true
  | EAdvance t => clock w <=? t
  end.

Definition fire (e : event) (w : World) : option World :=
  match e with
  | EConnection ws clientId ip => Some (onConnection ws clientId ip w)
  | EMessage ws parsed => Some (onMessage ws parsed w)
  | EPong ws => Some (onPong ws w)
  | EClose ws => Some (onClose ws w)
  | EError ws => Some (onError ws w)
  | ESocketState ws rs => Some (updateSocket ws (setReadyState rs) w)
  | ETimer h pingThrows => Some (fireTimer h pingThrows w)
  | EImmediate oracle =>
      match immediates w with
      | t :: rest => Some (runTask t oracle (setImmediates rest w))
      | [] => Some w
      end
  | EHttpRequest => recordRequest w
  | EMetricsTick => metricsTick w
  | EBroadcastTick => Some (broadcastMetrics w)
  | EAdvance t => Some (setClock t w)
  end.

Definition step (e : event) (w : World) : option World :=
  if enabled e w then fire e w else None.

Fixpoint run (es : list event) (w : World) : option World :=
  match es with
  | [] => Some w
  | e :: rest => step e w ≫= run rest
  end.

(** The runtime is on time when no timer is kept waiting: time does not move
    past a pending timer, so that each one fires at the instant it is due. *)
Definition punctual (e : event) (w : World) : bool :=
  match e with
  | EAdvance t => bool_decide (map_Forall (fun _ tm => t <= due tm) (timers w))
  | _ => true
  end.

Definition stepOnTime (e : event) (w : World) : option World :=
  if punctual e w then step e w else None.

Fixpoint runOnTime (es : list event) (w : World) : option World :=
  match es with
  | [] => Some w
  | e :: rest => stepOnTime e w ≫= runOnTime rest
  end.

(** [new WebServer()] at instant [t0], before any connection. *)
Definition initialWorld (t0 : Z) : World :=
  mkWorld ∅ ∅ ∅ ∅ 0%nat 0 0%nat t0 [] false [] [] t0.

(** ** Worlds used as concrete inputs *)

(** A socket as the connection handler leaves it. *)
Definition freshSession (clientId : jsstring) (now : Z) : Session :=
  mkSession clientId (js "10.0.0.1") [] true now None 1.

(** A frame [{ type, data }] as [JSON.parse] returns it. *)
Definition frame (type : string) (data : json) : option json :=
  Some (JObj [(js "type", JStr (js type)); (js "data", data)]).

(** One admitted socket, reference 0, id [k3x9a2f7q]. *)
Definition oneClient : World :=
  onConnection 0%nat (js "k3x9a2f7q") (js "10.0.0.1") (initialWorld 0).


(** A subscribe request for [chat] and an unknown channel. *)
Definition bogusRequest : jsval :=
  Some (JObj [(js "channels", JArr [JStr (js "chat"); JStr (js "bogus")])]).

(** The test [handleChatMessage] applies before it broadcasts: [message] is a
    string, and trimmed it has between 1 and 500 code units. *)
Definition chatAccepted (data : jsval) : bool :=
  isString (field "message" data)
  && negb (length (trim (asString (field "message" data))) =? 0)%nat
  && (length (trim (asString (field "message" data))) <=? 500)%nat.

(** A chat frame of 501 letters between blanks. *)
Definition longChat : jsval :=
  Some (JObj [(js "message", JStr (js "  " ++ repeat 97%N 501 ++ js " "))]).

(** A chat frame that supplies an empty [from] and no [user]. *)
Definition emptyFromChat : jsval :=
  Some (JObj [(js "message", JStr (js "hi")); (js "from", JStr [])]).

(** A chat frame that supplies [user] only. *)
Definition userOnlyChat : jsval :=
  Some (JObj [(js "message", JStr (js "hi")); (js "user", JStr (js "ada"))]).

(** The naming rule of the chat payload in terms of the properties the frame
    supplies: the fallback when it supplies neither [from] nor [user], the
    supplied value for both fields when it supplies exactly one. *)
Definition namesFollowSupplied (s : Session) (data : jsval) (p : ServerMsg) : Prop :=
  match p with
  | MsgChat from user _ _ _ =>
      (field "from" data = None -> field "user" data = None ->
       from = JStr (js "User_" ++ substring0 6 (id s)) /\ user = from)
      /\ (forall v, field "from" data = Some v -> field "user" data = None ->
                    from = v /\ user = v)
      /\ (forall v, field "user" data = Some v -> field "from" data = None ->
                    from = v /\ user = v)
  | _ => False
  end.

(** The same rule in terms of the properties that are truthy. *)
Definition namesFollowTruthy (s : Session) (data : jsval) (p : ServerMsg) : Prop :=
  match p with
  | MsgChat from user _ _ _ =>
      (truthy (field "from" data) = false -> truthy (field "user" data) = false ->
       from = JStr (js "User_" ++ substring0 6 (id s)) /\ user = from)
      /\ (forall v, field "from" data = Some v -> truthy (Some v) = true ->
                    truthy (field "user" data) = false -> from = v /\ user = v)
      /\ (forall v, field "user" data = Some v -> truthy (Some v) = true ->
                    truthy (field "from" data) = false -> from = v /\ user = v)
      /\ (forall v v', field "from" data = Some v -> truthy (Some v) = true ->
                       field "user" data = Some v' -> truthy (Some v') = true ->
                       from = v /\ user = v')
  | _ => False
  end.

(** ** The fan-out pass, entry by entry *)

(** The registry refers to socket objects that carry the key as their id:
    [clients.set(clientId, ws)] follows [ws.id = clientId]. *)
Definition registryWF (w : World) : Prop :=
  map_Forall (fun clientId client => id <$> heap w !! client = Some clientId) (clients w).

(** The entry is one the pass calls [send] on: not the sender, open, and
    subscribed to the channel, all read in world [w]. *)
Definition eligible (skip : option jsstring) (channel : jsstring) (w : World)
    (entry : jsstring * ref) : bool :=
  negb (bool_decide (skip = Some entry.1))
  && match heap w !! entry.2 with
     | Some c => (readyState c =? 1) && wantsChannel c channel
     | None => false
     end.

Definition callsFor (skip : option jsstring) (channel : jsstring)
    (messageStr : ServerMsg) (w : World) (entry : jsstring * ref) : list call :=
  if eligible skip channel w entry then [Send entry.2 messageStr] else [].

(** The entry is one the pass pushes on [clientsToRemove]: not the sender,
    and either not open, or sent to with a [send] that raised and left the
    socket not open. *)
Definition marked (skip : option jsstring) (channel : jsstring)
    (oracle : jsstring -> sendResult) (w : World) (entry : jsstring * ref) : bool :=
  negb (bool_decide (skip = Some entry.1))
  && match heap w !! entry.2 with
     | Some c =>
         if readyState c =? 1 then
           wantsChannel c channel
           && match oracle entry.1 with
              | SendThrows rs => negb (rs =? 1)
              | SendOk => false
              end
         else true
     | None => false
     end.

Definition marksFor (skip : option jsstring) (channel : jsstring)
    (oracle : jsstring -> sendResult) (w : World) (entry : jsstring * ref)
  : list jsstring :=
  if marked skip channel oracle w entry then [entry.1] else [].

(** Everything but the socket objects and the call log is the same. *)
Definition sameRegistry (w w' : World) : Prop :=
  clients w' = clients w /\ heartbeats w' = heartbeats w /\ timers w' = timers w
  /\ nextHandle w' = nextHandle w /\ immediates w' = immediates w
  /\ clock w' = clock w /\ statsLock w' = statsLock w.

(** The calls made between two worlds. *)
Definition newCalls (w w' : World) : list call := drop (length (out w)) (out w').

(** The channel and the sender of a deferred chat or draw fan-out. *)
Definition taskChannel (t : task) : option (ref * jsstring * ServerMsg) :=
  match t with
  | ChatFanOut sender p => Some (sender, js "chat", p)
  | DrawFanOut sender p => Some (sender, js "draw", p)
  | _ => None
  end.

(** [n] sockets connect one after the other, socket [i] drawing the id made
    of the letter c and the code unit [i]. *)
Definition admissions (n : nat) : list event :=
  List.map (fun i => EConnection i (js "c" ++ [N.of_nat i]) (js "10.0.0.1")) (seq 0 n).

(** The server after a thousand admissions. *)
Definition fullWorld : World :=
  default (initialWorld 0) (run (admissions 1000) (initialWorld 0)).

#[global] Instance registryWF_dec w : Decision (registryWF w).
Proof. unfold registryWF. apply _. Defined.

(** ** Two clients *)

Definition subscribeChat : json := JObj [(js "channels", JArr [JStr (js "chat")])].

Definition sayHi : json := JObj [(js "message", JStr (js "hi"))].

(** Socket 0 and socket 1 connect; socket 1 subscribes to [chat]. *)
Definition twoClients : list event :=
  [EConnection 0%nat (js "k3x9a2f7q") (js "10.0.0.1");
   EConnection 1%nat (js "m7p2w8d4z") (js "10.0.0.2");
   EMessage 1%nat (frame "subscribe" subscribeChat)].

(** The payload socket 0 publishes when it says hi at instant 0. *)
Definition hiPayload : ServerMsg :=
  MsgChat (JStr (js "User_k3x9a2")) (JStr (js "User_k3x9a2")) (js "hi") 0
          (Some (js "k3x9a2f7q")).

(** Socket 1 is subscribed and open when socket 0 says hi; the fan-out is
    queued, and in [listeningPeer] it is about to run. *)
Definition listeningPeerEvents : list event :=
  twoClients ++ [EMessage 0%nat (frame "chat" sayHi)].

Definition listeningPeerQueued : World :=
  default (initialWorld 0) (run listeningPeerEvents (initialWorld 0)).

Definition listeningPeer : World := setImmediates [] listeningPeerQueued.

(** The same, but socket 1 has entered the closing handshake (state 2)
    before socket 0 says hi. *)
Definition closingPeerEvents : list event :=
  twoClients ++ [ESocketState 1%nat 2; EMessage 0%nat (frame "chat" sayHi)].

Definition closingPeerQueued : World :=
  default (initialWorld 0) (run closingPeerEvents (initialWorld 0)).

Definition closingPeer : World := setImmediates [] closingPeerQueued.

(** The delivery rule of a chat or draw fan-out [t] as the specification
    words it: a socket of the snapshot is sent the payload if and only if it
    is subscribed to the channel and is not the sender. *)
Definition deliveredIffSubscribed (t : task) (oracle : jsstring -> sendResult)
    (w : World) : Prop :=
  forall sender channel payload k r s o,
    taskChannel t = Some (sender, channel, payload) ->
    clients w !! k = Some r -> heap w !! r = Some s -> heap w !! sender = Some o ->
    (In (Send r payload) (newCalls w (runTask t oracle w))
     <-> includesStr (subscriptions s) channel = true /\ id s <> id o).

(** The failure rule of a pass as the specification words it: a recipient
    whose [send] raised is marked for removal. *)
Definition failedSendMarked (skip : option jsstring) (channel : jsstring)
    (payload : ServerMsg) (oracle : jsstring -> sendResult) (w : World) : Prop :=
  forall k r rs,
    clients w !! k = Some r -> eligible skip channel w (k, r) = true ->
    oracle k = SendThrows rs ->
    In k (fanOutPass skip channel payload oracle w).2.

(** ** Timers and their sockets *)

(** The socket whose closure a timer runs. *)
Definition owner (t : timer) : ref :=
  match t with
  | HeartbeatInterval ws _ => ws
  | PongTimeout ws _ _ => ws
  end.

(** What the timer table, the heartbeat map and the [pingTimeout] fields
    have to do with each other in every world the server reaches: handles
    are never reused; a pending pong timeout is the one its socket holds in
    [pingTimeout]; a handle held in [pingTimeout], captured by a pong
    timeout or stored in [heartbeats] is stale or denotes the timer of that
    very socket; a socket has one interval, due within a period. *)
Record timersWF (w : World) : Prop := mkTimersWF {
  wf_fresh_timer : forall h tm,
    timers w !! h = Some tm -> (h < nextHandle w)%nat;
  wf_fresh_heartbeat : forall k h,
    heartbeats w !! k = Some h -> (h < nextHandle w)%nat;
  wf_fresh_ping : forall ws s h,
    heap w !! ws = Some s -> pingTimeout s = Some h -> (h < nextHandle w)%nat;
  wf_fresh_captured : forall h ws i d,
    timers w !! h = Some (PongTimeout ws i d) -> (i < nextHandle w)%nat;
  wf_pending_is_field : forall h ws i d,
    timers w !! h = Some (PongTimeout ws i d) ->
    pingTimeout <$> heap w !! ws = Some (Some h);
  wf_field_is_own : forall ws s h tm,
    heap w !! ws = Some s -> pingTimeout s = Some h -> timers w !! h = Some tm ->
    exists i d, tm = PongTimeout ws i d;
  wf_captured_is_own : forall h ws i d tm,
    timers w !! h = Some (PongTimeout ws i d) -> timers w !! i = Some tm ->
    exists d', tm = HeartbeatInterval ws d';
  wf_heartbeat_is_own : forall k h tm,
    heartbeats w !! k = Some h -> timers w !! h = Some tm ->
    exists ws d, tm = HeartbeatInterval ws d /\ id <$> heap w !! ws = Some k;
  wf_owner : forall h ws d,
    timers w !! h = Some (HeartbeatInterval ws d) -> is_Some (heap w !! ws);
  wf_one_interval : forall h h' ws d d',
    timers w !! h = Some (HeartbeatInterval ws d) ->
    timers w !! h' = Some (HeartbeatInterval ws d') -> h = h';
  wf_interval_soon : forall h ws d,
    timers w !! h = Some (HeartbeatInterval ws d) -> d <= clock w + HEARTBEAT_INTERVAL
}.

(** No pending timer is overdue. *)
Definition onTime (w : World) : Prop :=
  map_Forall (fun _ tm => clock w <= due tm) (timers w).

#[global] Instance onTime_dec w : Decision (onTime w).
Proof. unfold onTime. apply _. Defined.

(** [w'] comes from [w] with time standing still and every timer it arms due
    later. *)
Definition arms (w w' : World) : Prop :=
  clock w' = clock w
  /\ forall h tm, timers w' !! h = Some tm ->
       timers w !! h = Some tm \/ clock w <= due tm.

(** A socket object changed at most in fields the timers do not depend on,
    or lost its [pingTimeout] while no pong timeout of it is pending in
    [w']. *)
Definition socketKept (w' : World) (ws : ref) (before after : option Session) : Prop :=
  match before, after with
  | Some s, Some s' =>
      id s' = id s
      /\ (pingTimeout s' = pingTimeout s
          \/ (pingTimeout s' = None
              /\ forall h i d, timers w' !! h <> Some (PongTimeout ws i d)))
  | None, None => True
  | _, _ => False
  end.

(** [w'] comes from [w] by cancelling timers, deleting heartbeat entries
    and updating sockets as above: nothing is armed, time stands still. *)
Definition shrinks (w w' : World) : Prop :=
  timers w' ⊆ timers w
  /\ heartbeats w' ⊆ heartbeats w
  /\ nextHandle w' = nextHandle w
  /\ clock w' = clock w
  /\ forall ws, socketKept w' ws (heap w !! ws) (heap w' !! ws).

(** ** A probed socket *)

(** Socket 0 connects at instant 0 and is probed at instant 30000: its pong
    timeout, handle 1, is pending. *)
Definition probedEvents : list event :=
  [EConnection 0%nat (js "k3x9a2f7q") (js "10.0.0.1"); EAdvance 30000;
   ETimer 0%nat false].

Definition probedWorld : World :=
  default (initialWorld 0) (run probedEvents (initialWorld 0)).

(** Socket 0 is alive and still holds its pending pong timeout, as after a
    pong that had only set [isAlive]; its interval is due. *)
Definition staleWorld : World :=
  setClock 60000 (updateSocket 0%nat (setIsAlive true) probedWorld).

(** ** A silent peer *)

(** The fields of a socket the heartbeat reads. *)
Definition vitals (s : Session) : jsstring * bool * option handle * Z :=
  (id s, isAlive s, pingTimeout s, readyState s).

(** Socket [r] carries [clientId], and no other socket object does. *)
Definition soleId (r : ref) (clientId : jsstring) (w : World) : Prop :=
  forall ws, id <$> heap w !! ws = Some clientId <-> ws = r.

(** [w'] shows socket [r], of id [clientId], as [w] does: same vitals, same
    pending timers of [r], same heartbeat entry. *)
Definition keeps (r : ref) (clientId : jsstring) (w w' : World) : Prop :=
  vitals <$> heap w' !! r = vitals <$> heap w !! r
  /\ (forall h tm, owner tm = r ->
        (timers w' !! h = Some tm <-> timers w !! h = Some tm))
  /\ heartbeats w' !! clientId = heartbeats w !! clientId.

(** Socket [r] has just acknowledged, or has just been admitted: it is open
    and alive, holds no pong timeout, and its interval is pending and
    registered in [heartbeats] under its id. *)
Definition acknowledged (r : ref) (w : World) : Prop :=
  exists s hi Ti,
    heap w !! r = Some s /\ readyState s = 1 /\ isAlive s = true
    /\ pingTimeout s = None /\ heartbeats w !! id s = Some hi
    /\ timers w !! hi = Some (HeartbeatInterval r Ti).

(** Socket [r] is open and monitored, and whatever comes next without a pong
    terminates it by [deadline]: either it is alive and its interval fires at
    least [PING_TIMEOUT] before the deadline, or a probe is out and its pong
    timeout falls due by the deadline. *)
Definition armed (r : ref) (deadline : Z) (w : World) : Prop :=
  exists s hi Ti,
    heap w !! r = Some s /\ readyState s = 1
    /\ heartbeats w !! id s = Some hi
    /\ timers w !! hi = Some (HeartbeatInterval r Ti)
    /\ ((isAlive s = true /\ pingTimeout s = None /\ Ti + PING_TIMEOUT <= deadline)
        \/ (isAlive s = false
            /\ exists ho To, pingTimeout s = Some ho
                             /\ timers w !! ho = Some (PongTimeout r hi To)
                             /\ To <= deadline)).

(** Socket [r] has been reaped: no timer of it is pending, its heartbeat
    entry is deleted, and [terminate] has been called on it, unless its close
    handler has already taken it out of the registry. *)
Definition reaped (r : ref) (clientId : jsstring) (w : World) : Prop :=
  heartbeats w !! clientId = None
  /\ (forall h tm, timers w !! h = Some tm -> owner tm <> r)
  /\ (In (Terminate r) (out w) \/ clients w !! clientId = None).

(** Socket [r] is on its way out after an error or a termination: its
    heartbeat entry is deleted, its interval is cancelled, a pong timeout of
    it that is still pending falls due by [deadline], and [terminate] has
    been called on it, unless a handler has already taken it out of the
    registry. *)
Definition fading (r : ref) (clientId : jsstring) (deadline : Z) (w : World) : Prop :=
  heartbeats w !! clientId = None
  /\ (forall h tm, timers w !! h = Some tm -> owner tm = r ->
        exists i d, tm = PongTimeout r i d /\ d <= deadline)
  /\ (In (Terminate r) (out w) \/ clients w !! clientId = None).

(** An event that leaves the peer of [r] silent and its socket open: no pong
    from it, no change of its [readyState], by the library or by a [send]
    that raises; and no later socket draws the same id. *)
Definition quiet (r : ref) (clientId : jsstring) (e : event) : Prop :=
  match e with
  | EPong ws | ESocketState ws _ => ws <> r
  | EConnection _ k _ => k <> clientId
  | EImmediate oracle => forall rs, oracle clientId = SendThrows rs -> rs = 1
  | _ => True
  end.

(** An event that is not a callback of socket [r]: not its close, not its
    error, not one of its timers. *)
Definition foreign (r : ref) (e : event) (w : World) : Prop :=
  match e with
  | EClose ws | EError ws => ws <> r
  | ETimer h _ => forall tm, timers w !! h = Some tm -> owner tm <> r
  | _ => True
  end.

(** The deadline as the specification words it: once a period and a timeout
    have passed since the acknowledgment without a pong from [r], with every
    timer fired on time, the socket is out of the registry, terminated, and
    its heartbeat entry is gone. *)
Definition reapedInTime (r : ref) (w : World) (es : list event) : Prop :=
  forall s w',
    heap w !! r = Some s -> acknowledged r w ->
    Forall (fun e => e <> EPong r) es -> runOnTime es w = Some w' ->
    clock w + HEARTBEAT_INTERVAL + PING_TIMEOUT < clock w' ->
    clients w' !! id s = None /\ In (Terminate r) (out w')
    /\ heartbeats w' !! id s = None.

(** Socket 0 is probed at 30000 and enters the closing handshake before its
    pong timeout fires at 40000. *)
Definition stalledEvents : list event :=
  [EAdvance 30000; ETimer 0%nat false; ESocketState 0%nat 2; EAdvance 40000;
   ETimer 1%nat false; EAdvance 40001].

(** Socket 0 stays open and silent: probe at 30000, timeout at 40000, then
    the close event of the terminated socket. *)
Definition silentEvents : list event :=
  [EAdvance 30000; ETimer 0%nat false; EAdvance 40000; ETimer 1%nat false;
   EClose 0%nat; EAdvance 40001].

Definition stalledWorld : World :=
  default (initialWorld 0) (run stalledEvents oneClient).

Definition silentWorld : World :=
  default (initialWorld 0) (run silentEvents oneClient).

(** ** Subscriptions of any shape *)

(** The test [handleSubscription] applies before it replaces the
    subscriptions: [channels] is an array and each of its entries is one of
    the four channel names. *)
Definition subscribeAccepted (data : jsval) : bool :=
  match field "channels" data with
  | Some (JArr channels) => forallb (strIncludes validChannels) channels
  | _ => false
  end.

(** A subscribe request whose [channels] holds a number and [null]. *)
Definition oddRequest : jsval :=
  Some (JObj [(js "channels",
               JArr [JNum (mkNumber (S754_finite false 1 0) (js "1")); JNull])]).

(** A value none of whose objects has a property [toString] of its own: its
    conversion to a string does not raise. *)
Fixpoint plain (v : json) : bool :=
  match v with
  | JArr items => forallb plain items
  | JObj fields =>
      negb (hasOwn (js "toString") fields)
      && forallb (fun entry => match entry with (_, x) => plain x end) fields
  | _ => true
  end.

(** A frame whose type is an object with a property [toString], and a
    subscribe request for such a channel. *)
Definition oddType : json :=
  JObj [(js "type", JObj [(js "toString", JNum (mkNumber (S754_finite false 1 0) (js "1")))])].

Definition oddChannel : jsval :=
  Some (JObj [(js "channels",
               JArr [JObj [(js "toString",
                            JNum (mkNumber (S754_finite false 1 0) (js "1")))]])]).

(** Every socket is subscribed to channel names of the whitelist only. *)
Definition subscriptionsValid (w : World) : Prop :=
  forall ws s, heap w !! ws = Some s ->
    Forall (fun c => strIncludes validChannels c = true) (subscriptions s).

(** What no fan-out changes of a socket: every field but [readyState]. *)
Definition static (s : Session)
  : jsstring * jsstring * list json * bool * Z * option handle :=
  (id s, ip s, subscriptions s, isAlive s, connectedAt s, pingTimeout s).

(** ** The object a draw frame is relayed as *)

(** A property value of [drawMessage.data]: copied from the frame, or set by
    the server to [ws.id] or to the instant of the relay. *)
Inductive drawValue :=
  | FromFrame (v : json)
  | SenderId (clientId : jsstring)
  | ServerTime (timestamp : Z).

(** [{ ...obj, k: v }] on the list of own properties: a property the object
    already has keeps its place and takes the new value, a new one comes
    last. *)
Fixpoint setProp {A} (k : jsstring) (v : A) (fields : list (jsstring * A))
  : list (jsstring * A) :=
  match fields with
  | [] => [(k, v)]
  | (k', v') :: rest =>
      if decide (k = k') then (k, v) :: rest else (k', v') :: setProp k v rest
  end.

Fixpoint getProp {A} (k : jsstring) (fields : list (jsstring * A)) : option A :=
  match fields with
  | [] => None
  | (k', v) :: rest => if decide (k = k') then Some v else getProp k rest
  end.

(** [{ ...data, clientId: ws.id, timestamp: new Date().toISOString() }], the
    [data] of the message a draw frame is relayed as. *)
Definition drawData (m : ServerMsg) : list (jsstring * drawValue) :=
  match m with
  | MsgDraw fields clientId timestamp =>
      setProp (js "timestamp") (ServerTime timestamp)
        (setProp (js "clientId") (SenderId clientId)
           (List.map (fun kv => (kv.1, FromFrame kv.2)) fields))
  | _ => []
  end.

(** A stroke that claims to come from somebody else. *)
Definition forgedStroke : jsval :=
  Some (JObj [(js "action", JStr (js "draw")); (js "clientId", JStr (js "m7p2w8d4z"));
              (js "x", JNum (mkNumber (S754_finite false 3 0) (js "3")))]).

(** ** The passes of the server itself *)

(** The channel and the payload of a deferred pass of [broadcastChatMessage]
    or [broadcastMetrics]. *)
Definition systemChannel (t : task) : option (jsstring * ServerMsg) :=
  match t with
  | SystemChatFanOut p => Some (js "chat", p)
  | MetricsFanOut p => Some (js "metrics", p)
  | _ => None
  end.

(** ** Who pings and who terminates *)

(** The calls a callback adds to the log. *)
Definition adds (w w' : World) (calls : list call) : Prop := out w' = out w ++ calls.

(** Calls that are replies or refusals: [send], or the [close] of the
    capacity check; no [ping], no [terminate]. *)
Definition sendsOnly (calls : list call) : Prop :=
  Forall (fun c => match c with
                   | Send _ _ | CloseWith _ _ _ => True
                   | Ping _ | Terminate _ => False
                   end) calls.

(** ** A peer that answers *)

(** Socket [r] answers every probe at once: whenever one of its timers
    fires, [ping] does not raise and the next event is the pong of [r]. *)
Fixpoint answered (r : ref) (es : list event) (w : World) : bool :=
  match es with
  | [] => true
  | e :: rest =>
      match e with
      | ETimer h pingThrows =>
          match timers w !! h with
          | Some tm =>
              negb (bool_decide (owner tm = r))
              || negb pingThrows
                 && match rest with
                    | EPong ws :: _ => bool_decide (ws = r)
                    | _ => false
                    end
          | None => true
          end
      | _ => true
      end
      && match step e w with
         | Some w' => answered r rest w'
         | None => true
         end
  end.

(** Socket 0 is probed three times and answers each time, while the clock
    runs to 90 s. *)
Definition answeringEvents : list event :=
  [EConnection 0%nat (js "k3x9a2f7q") (js "10.0.0.1");
   EAdvance 30000; ETimer 0%nat false; EPong 0%nat;
   EAdvance 60000; ETimer 0%nat false; EPong 0%nat;
   EAdvance 90000; ETimer 0%nat false; EPong 0%nat].

Definition answeringWorld : World :=
  default (initialWorld 0) (run answeringEvents (initialWorld 0)).

(** ** Requests and the window *)

Definition isHttpRequest (e : event) : bool :=
  match e with EHttpRequest => true | _ => false end.

(** The statistics of [serverStats]. *)
Definition stats (w : World) : Z * nat * Z * list Z :=
  (totalRequests w, requestsPerSecond w, startTime w, requestTimestamps w).

(** Three requests, at 0, 400 and 1200 ms, and the periodic task at 1300. *)
Definition requestEvents : list event :=
  [EHttpRequest; EAdvance 400; EHttpRequest; EAdvance 1200; EHttpRequest;
   EAdvance 1300; EMetricsTick].

Definition requestWorld : World :=
  default (initialWorld 0) (run requestEvents (initialWorld 0)).

(** The recording part of [handleRequest] when [Date.now()] reads [now]:
    [recordRequest] is this at the clock of the world. *)
Definition recordRequestAt (now : Z) (w : World) : option World :=
  withStatsLock (fun w => setRequestTimestamps (requestTimestamps w ++ [now]) w)
                (setTotalRequests (increment (totalRequests w)) w).

(** The window holds instants between the start and now, oldest first. *)
Definition windowOrdered (w : World) : Prop :=
  StronglySorted Z.le (requestTimestamps w)
  /\ Forall (fun ts => startTime w <= ts <= clock w) (requestTimestamps w)
  /\ startTime w <= clock w.

(** ** Teardown *)

(** No two socket objects carry the same id. *)
Definition uniqueIds (w : World) : Prop :=
  forall ws1 ws2 k,
    id <$> heap w !! ws1 = Some k -> id <$> heap w !! ws2 = Some k -> ws1 = ws2.

(** A pending interval is the one [heartbeats] holds under the id of its
    socket. *)
Definition intervalsRegistered (w : World) : Prop :=
  forall h ws d, timers w !! h = Some (HeartbeatInterval ws d) ->
    exists s, heap w !! ws = Some s /\ heartbeats w !! id s = Some h.

(** The interval a pending pong timeout captured is the interval of its
    socket. *)
Definition capturedIsInterval (w : World) : Prop :=
  forall h ws i d h' d',
    timers w !! h = Some (PongTimeout ws i d) ->
    timers w !! h' = Some (HeartbeatInterval ws d') -> i = h'.

(** The id a connection draws is new: no socket object carries it. *)
Definition freshId (e : event) (w : World) : bool :=
  match e with
  | EConnection _ clientId _ =>
      bool_decide (map_Forall (fun _ s => id s <> clientId) (heap w))
  | _ => true
  end.

Fixpoint freshIds (es : list event) (w : World) : bool :=
  match es with
  | [] => true
  | e :: rest =>
      freshId e w
      && match step e w with
         | Some w' => freshIds rest w'
         | None => true
         end
  end.

(** [wss.on('close', ...)]: [clearInterval] on every entry of [heartbeats],
    then [heartbeats.clear()]. *)
Definition onServerClose (w : World) : World :=
  setHeartbeats ∅
    (foldl (fun w entry => clearTimer entry.2 w) w (map_to_list (heartbeats w))).

(** Socket 0 is probed at 30 s and closes at 35 s; socket 1 arrives
    later. *)
Definition closedEvents : list event :=
  [EConnection 0%nat (js "k3x9a2f7q") (js "10.0.0.1"); EAdvance 30000;
   ETimer 0%nat false; EAdvance 35000; EClose 0%nat;
   EConnection 1%nat (js "m7p2w8d4z") (js "10.0.0.2"); EAdvance 70000].

Definition closedWorld : World :=
  default (initialWorld 0) (run closedEvents (initialWorld 0)).
(** While a probe is out, the next probe is due [HEARTBEAT_INTERVAL -
    PING_TIMEOUT] after the pong timeout. *)
Definition probeGap (w : World) : Prop :=
  forall h ws i d di,
    timers w !! h = Some (PongTimeout ws i d) ->
    timers w !! i = Some (HeartbeatInterval ws di) ->
    di = d + (HEARTBEAT_INTERVAL - PING_TIMEOUT).

(** ** File names ([sanitizeFilename] of the upload handler and of
    [sanitize.js]) *)

Module Filename.

(** [s.startsWith(pat)]. *)
Fixpoint startsWith (pat s : jsstring) : bool :=
  match pat, s with
  | [], _ => true
  | p :: pat', c :: s' => (p =? c)%N && startsWith pat' s'
  | _ :: _, [] => false
  end.

(** [s.replace(/pat/g, '')] for a literal, non-empty [pat]: one pass from
    left to right; the search resumes after each occurrence, so what the
    removals bring together is not looked at again.  [skip] counts the code
    units of the current occurrence still to drop. *)
Fixpoint removeLiteral (pat : jsstring) (skip : nat) (s : jsstring) : jsstring :=
  match s with
  | [] => []
  | c :: rest =>
      match skip with
      | S k => removeLiteral pat k rest
      | O =>
          if startsWith pat s then removeLiteral pat (length pat - 1) rest
          else c :: removeLiteral pat 0 rest
      end
  end.

(** [/[\0-\x1F\x7F]/]. *)
Definition isControl (c : N) : bool := ((c <=? 31) || (c =? 127))%N.

(** [/[a-zA-Z0-9._-]/]. *)
Definition isSafe (c : N) : bool :=
  ((97 <=? c) && (c <=? 122) || (65 <=? c) && (c <=? 90)
   || (48 <=? c) && (c <=? 57) || (c =? 46) || (c =? 95) || (c =? 45))%N.

(** [s.lastIndexOf(c)] for a single code unit: [-1] when there is none. *)
Fixpoint lastIndexOf (c : N) (s : jsstring) : Z :=
  match s with
  | [] => -1
  | x :: rest =>
      let later := lastIndexOf c rest in
      if 0 <=? later then later + 1 else if (x =? c)%N then 0 else -1
  end.

(** [s.substring(a, b)]: both indices are clamped to [0 .. s.length] and
    swapped when out of order. *)
Definition clamp (n : Z) (len : nat) : nat :=
  Z.to_nat (Z.min (Z.max n 0) (Z.of_nat len)).

Definition substring (a b : Z) (s : jsstring) : jsstring :=
  let a := clamp a (length s) in
  let b := clamp b (length s) in
  take (Nat.max a b - Nat.min a b) (drop (Nat.min a b) s).

(** [s.substring(a)]. *)
Definition substringFrom (a : Z) (s : jsstring) : jsstring :=
  substring a (Z.of_nat (length s)) s.

(** The five replacements. *)
Definition clean (filename : jsstring) : jsstring :=
  let sanitized := removeLiteral (js "../") 0 filename in
  let sanitized := removeLiteral [46; 46; 92]%N 0 sanitized in
  let sanitized := List.filter (fun c => negb (c =? 0)%N) sanitized in
  let sanitized := List.filter (fun c => negb (isControl c)) sanitized in
  List.map (fun c => if isSafe c then c else 95%N) sanitized.

(** The [// Limit length] block. *)
Definition limitLength (sanitized : jsstring) : jsstring :=
  if 255 <? Z.of_nat (length sanitized) then
    let extIndex := lastIndexOf 46 sanitized in
    if 0 <? extIndex then
      let name := substring 0 extIndex sanitized in
      let ext := substringFrom extIndex sanitized in
      substring 0 (255 - Z.of_nat (length ext)) name ++ ext
    else substring 0 255 sanitized
  else sanitized.

Definition sanitizeFilename (filename : jsstring) : jsstring :=
  limitLength (clean filename).

(** A short name padded with dots and slashes, and a name whose last dot
    comes early. *)
Definition dottedName : jsstring := js "....//etc/passwd".

Definition earlyDot : jsstring := js "a." ++ repeat 98%N 300.

End Filename.

(** ** Routing ([Router], [setupRoutes] and the dispatch of
    [handleRequest]) *)

Module Router.

(** The own properties of [this.routes]; no method adds or removes one. *)
Inductive verb := GET | POST | PUT | DELETE | PATCH.

#[global] Instance verb_eq_dec : EqDecision verb.
Proof. solve_decision. Defined.

Definition verbOf (method : jsstring) : option verb :=
  if decide (method = js "GET") then Some GET
  else if decide (method = js "POST") then Some POST
  else if decide (method = js "PUT") then Some PUT
  else if decide (method = js "DELETE") then Some DELETE
  else if decide (method = js "PATCH") then Some PATCH
  else None.

(** [this.routes] is an object literal: for these names [this.routes[method]]
    is a property of [Object.prototype], which is truthy and has no [has]. *)
Definition inheritedNames : list jsstring :=
  [js "constructor"; js "__proto__"; js "hasOwnProperty"; js "isPrototypeOf";
   js "propertyIsEnumerable"; js "toLocaleString"; js "toString"; js "valueOf";
   js "__defineGetter__"; js "__defineSetter__"; js "__lookupGetter__";
   js "__lookupSetter__"].

(** [route.includes(':')]. *)
Definition includesColon (route : jsstring) : bool := existsb (N.eqb 58) route.

Section Routes.

(** The handlers are functions; [get], [post], ... reject anything else. *)
Context {handler : Type}.

(** [this.createRoutePattern(route).test(pathname)].  The regular expression
    is built from the text of the route and run by the engine; [None] stands
    for a route the engine refuses. *)
Variable test : jsstring -> jsstring -> option bool.

(** A [Map] with string keys, in insertion order. *)
Definition jsMap : Type := list (jsstring * handler).

(** [m.set(k, v)]: a key that is present keeps its place. *)
Fixpoint mapSet (k : jsstring) (v : handler) (m : jsMap) : jsMap :=
  match m with
  | [] => [(k, v)]
  | (k', v') :: rest =>
      if decide (k = k') then (k, v) :: rest else (k', v') :: mapSet k v rest
  end.

(** [m.get(k)]; [m.has(k)] is [is_Some]. *)
Fixpoint mapGet (k : jsstring) (m : jsMap) : option handler :=
  match m with
  | [] => None
  | (k', v) :: rest => if decide (k = k') then Some v else mapGet k rest
  end.

Definition routes : Type := verb -> jsMap.

(** [constructor()]. *)
Definition empty : routes := fun _ => [].

(** [this.routes.V.set(path, handler)], the body of the five registration
    methods. *)
Definition register (v : verb) (path : jsstring) (h : handler) (r : routes) : routes :=
  fun v' => if decide (v' = v) then mapSet path h (r v') else r v'.

Definition get := register GET.
Definition post := register POST.
Definition put := register PUT.
Definition delete := register DELETE.
Definition patch := register PATCH.

(** What [find] does: return a handler, return [null], or raise. *)
Inductive found :=
  | Found (h : handler)
  | NotFound
  | Raises.

(** The loop over the dynamic routes. *)
Fixpoint dynamic (entries : jsMap) (pathname : jsstring) : found :=
  match entries with
  | [] => NotFound
  | (route, h) :: rest =>
      if includesColon route then
        match test route pathname with
        | Some true => Found h
        | Some false => dynamic rest pathname
        | None => Raises
        end
      else dynamic rest pathname
  end.

Definition find (r : routes) (method pathname : jsstring) : found :=
  match verbOf method with
  | Some v =>
      let methodRoutes := r v in
      match mapGet pathname methodRoutes with
      | Some h => Found h
      | None =>
          match mapGet (js "*") methodRoutes with
          | Some h => Found h
          | None => dynamic methodRoutes pathname
          end
      end
  | None => if bool_decide (method ∈ inheritedNames) then Raises else NotFound
  end.

(** A series of registrations, and the handler a path was last registered
    with. *)
Definition registerAll (regs : list (verb * jsstring * handler)) (r : routes) : routes :=
  foldl (fun r reg => register reg.1.1 reg.1.2 reg.2 r) r regs.

Fixpoint lastRegistered (v : verb) (path : jsstring)
    (regs : list (verb * jsstring * handler)) : option handler :=
  match regs with
  | [] => None
  | reg :: rest =>
      match lastRegistered v path rest with
      | Some h => Some h
      | None =>
          if decide (reg.1.1 = v /\ reg.1.2 = path) then Some reg.2 else None
      end
  end.

End Routes.

(** The closures [setupRoutes] registers. *)
Inductive serverHandler :=
  | ServePage (file : jsstring)
  | HandleUpload
  | ApiStats
  | ApiData
  | ApiEvolution
  | ApiPostData
  | ServeUploaded
  | ServeStaticPath.

(** [setupRoutes()]. *)
Definition setupRoutes (r : routes) : routes :=
  let r := get (js "/") (ServePage (js "/index.html")) r in
  let r := get (js "/websocket-demo") (ServePage (js "/websocket-demo.html")) r in
  let r := get (js "/whiteboard") (ServePage (js "/whiteboard.html")) r in
  let r := get (js "/upload") (ServePage (js "/upload.html")) r in
  let r := post (js "/upload") HandleUpload r in
  let r := get (js "/api/stats") ApiStats r in
  let r := get (js "/api/data") ApiData r in
  let r := get (js "/api/evolution") ApiEvolution r in
  let r := post (js "/api/data") ApiPostData r in
  let r := get (js "/uploads/*") ServeUploaded r in
  get (js "*") ServeStaticPath r.

(** How [handleRequest] answers once the request is recorded and its body
    parsed: the preflight reply, a handler, [serveStatic] on the path, or
    the rejection of its promise when [find] raises. *)
Inductive action :=
  | Preflight
  | Run (h : serverHandler)
  | ServeStatic (pathname : jsstring)
  | Rejected.

Definition dispatch (test : jsstring -> jsstring -> option bool) (r : routes)
    (method pathname : jsstring) : action :=
  if decide (method = js "OPTIONS") then Preflight
  else
    match find test r method pathname with
    | Found h => Run h
    | NotFound => ServeStatic pathname
    | Raises => Rejected
    end.

(** The paths [setupRoutes] registers for GET, [*] apart. *)
Definition pages : list jsstring :=
  [js "/"; js "/websocket-demo"; js "/whiteboard"; js "/upload"; js "/api/stats";
   js "/api/data"; js "/api/evolution"; js "/uploads/*"].

End Router.

(** ** The registry and the heartbeat *)

(** Every socket of the registry is under the heartbeat, its next probe due
    within a period, or has been terminated. *)
Definition watched (w : World) : Prop :=
  forall k r, clients w !! k = Some r ->
    (exists h d, timers w !! h = Some (HeartbeatInterval r d)
                 /\ d <= clock w + HEARTBEAT_INTERVAL)
    \/ In (Terminate r) (out w).

(** An alive socket holds no pong timeout. *)
Definition aliveIdle (w : World) : Prop :=
  forall ws s, heap w !! ws = Some s -> isAlive s = true -> pingTimeout s = None.

(** * Properties *)

(** ** Sockets and fields *)

Lemma updateSocket_insert ws f s w :
  heap w !! ws = Some s ->
  updateSocket ws f w = setHeap (<[ws := f s]> (heap w)) w.
Proof.
  intros Hs. unfold updateSocket. f_equal.
  apply map_eq; intros i. rewrite lookup_alter, lookup_insert.
  case_decide; subst; rewrite ?Hs; done.
Qed.

Lemma withSocket_some ws w k s :
  heap w !! ws = Some s -> withSocket ws w k = k s.
Proof. intros Hs. unfold withSocket. by rewrite Hs. Qed.

Lemma field_some_truthy k data v :
  field k data = Some v -> truthy data = true.
Proof.
  destruct data as [d|]; [|done]. destruct d; simpl; try done.
Qed.

(** ** Request-rate window *)





(** ** Subscriptions *)

Lemma invalidChannels_strings cs :
  invalidChannels (List.map JStr cs) =
  List.map JStr (List.filter (fun c => negb (bool_decide (c ∈ validChannels))) cs).
Proof.
  unfold invalidChannels. induction cs as [|c cs IH]; [done|].
  simpl. destruct (bool_decide (c ∈ validChannels)); simpl; by rewrite IH.
Qed.

Lemma elementTexts_strings l : elementTexts (List.map JStr l) = Some l.
Proof. induction l as [|x rest IH]; [done|]. simpl. by rewrite IH. Qed.

Lemma joinValues_strings sep l : joinValues sep (List.map JStr l) = Some (join sep l).
Proof. unfold joinValues. by rewrite elementTexts_strings. Qed.

Lemma filter_nil_iff {A} (f : A -> bool) (l : list A) :
  List.filter f l = [] <-> forall x, In x l -> f x = false.
Proof.
  induction l as [|a l IH]; simpl; [done|]. destruct (f a) eqn:Ha; split.
  - done.
  - intros H. specialize (H a (or_introl eq_refl)). congruence.
  - intros Hnil x [<-|Hx]; [done|]. by apply IH.
  - intros H. apply IH. intros x Hx. apply H. by right.
Qed.

(** Claim C3.  For a socket [s] and a request whose [channels] is the array
    of strings [cs]: if some entry is outside the whitelist, the handler only
    sends [s] an error naming the entries outside it, in order, and the world,
    [s.subscriptions] included, is otherwise unchanged; if all entries are in
    it ([cs] empty included), [s.subscriptions] becomes [cs] and [s] is sent
    an acknowledgment carrying [cs]. *)
Theorem handleSubscription_whitelist ws s data cs w
    (Hs : heap w !! ws = Some s)
    (Hcs : field "channels" data = Some (JArr (List.map JStr cs))) :
  let invalid := List.filter (fun c => negb (bool_decide (c ∈ validChannels))) cs in
  (forall c, In c invalid <-> In c cs /\ c ∉ validChannels)
  /\ ((exists c, In c cs /\ c ∉ validChannels) ->
      handleSubscription ws data w =
        emit (Send ws (MsgError (js "Invalid channel names: " ++ join (js ", ") invalid
                                 ++ js ". Valid channels: chat, metrics, draw, notification"))) w
      /\ heap (handleSubscription ws data w) !! ws = Some s)
  /\ ((forall c, In c cs -> c ∈ validChannels) ->
      handleSubscription ws data w =
        emit (Send ws (MsgSubscription (js "Subscriptions updated") (List.map JStr cs) (clock w)))
             (setHeap (<[ws := setSubscriptions (List.map JStr cs) s]> (heap w)) w)
      /\ subscriptions <$> heap (handleSubscription ws data w) !! ws = Some (List.map JStr cs)).
Proof.
  intros invalid.
  assert (Hin : forall c, In c invalid <-> In c cs /\ c ∉ validChannels).
  { intros c. unfold invalid. rewrite filter_In, negb_true_iff, bool_decide_eq_false. done. }
  split; [exact Hin|].
  unfold handleSubscription. rewrite (field_some_truthy _ _ _ Hcs), Hcs. simpl.
  rewrite invalidChannels_strings, joinValues_strings, length_map. fold invalid.
  split.
  - intros (c & Hc & Hbad).
    destruct invalid as [|c0 rest] eqn:Hinv.
    { exfalso. apply (Hin c). done. }
    simpl. split; [reflexivity|]. simpl. exact Hs.
  - intros Hall.
    assert (invalid = []) as ->.
    { apply filter_nil_iff. intros c Hc. apply negb_false_iff, bool_decide_eq_true. by apply Hall. }
    simpl. rewrite (updateSocket_insert _ _ _ _ Hs).
    unfold withSocket. simpl. rewrite lookup_insert_eq. simpl.
    split; [reflexivity|]. by rewrite lookup_insert_eq.
Qed.

Lemma handleSubscription_whitelist_witness :
  heap oneClient !! 0%nat = Some (freshSession (js "k3x9a2f7q") 0)
  /\ field "channels" bogusRequest = Some (JArr (List.map JStr [js "chat"; js "bogus"]))
  /\ out (handleSubscription 0%nat bogusRequest oneClient) =
       out oneClient ++ [Send 0%nat (MsgError (js "Invalid channel names: bogus. Valid channels: chat, metrics, draw, notification"))]
  /\ heap (handleSubscription 0%nat bogusRequest oneClient) !! 0%nat
     = Some (freshSession (js "k3x9a2f7q") 0).
Proof.
  assert (H1 : heap oneClient !! 0%nat = Some (freshSession (js "k3x9a2f7q") 0))
    by (vm_compute; reflexivity).
  assert (H2 : field "channels" bogusRequest
               = Some (JArr (List.map JStr [js "chat"; js "bogus"]))) by reflexivity.
  split; [exact H1|]. split; [exact H2|].
  destruct (handleSubscription_whitelist 0%nat _ bogusRequest _ oneClient H1 H2)
    as (_ & Hbad & _).
  destruct Hbad as [Heq Hheap].
  - exists (js "bogus"). split; [simpl; tauto|].
    assert (Hb : bool_decide (js "bogus" ∈ validChannels) = false)
      by (vm_compute; reflexivity).
    by apply bool_decide_eq_false in Hb.
  - split; [|exact Hheap]. rewrite Heq. vm_compute. reflexivity.
Defined.

(** ** Chat frames *)

Lemma isString_inv (v : jsval) : isString v = true -> exists s, v = Some (JStr s).
Proof. destruct v as [[]|]; try done. eauto. Qed.

Lemma handleChatMessage_accepts ws data w :
  chatAccepted data = true ->
  handleChatMessage ws data w =
    withSocket ws w (fun s =>
      setImmediate (ChatFanOut ws (chatPayload s data
                                     (trim (asString (field "message" data))) (clock w))) w).
Proof.
  unfold chatAccepted, handleChatMessage. intros Hacc.
  apply andb_prop in Hacc as [Hacc Hle]. apply andb_prop in Hacc as [Hstr Hne].
  destruct (isString_inv _ Hstr) as [text Htext].
  rewrite (field_some_truthy _ _ _ Htext). rewrite Htext in *. simpl in *.
  destruct text as [|c text]; [done|]. simpl.
  apply negb_true_iff in Hne. rewrite Hne.
  apply Nat.leb_le in Hle. apply Nat.ltb_ge in Hle. by rewrite Hle.
Qed.

Lemma chatAccepted_false data :
  chatAccepted data = false <->
  isString (field "message" data) = false
  \/ trim (asString (field "message" data)) = []
  \/ (500 < length (trim (asString (field "message" data))))%nat.
Proof.
  unfold chatAccepted.
  rewrite !andb_false_iff, negb_false_iff, Nat.eqb_eq, Nat.leb_gt, length_zero_iff_nil.
  tauto.
Qed.

(** Claim C7.  A chat frame is rejected exactly when [data.message] is not a
    string (missing included), or is empty once trimmed, or has more than 500
    code units once trimmed.  A rejected frame makes one call, a [send] of an
    [error] to the sender: nothing is deferred, no socket object, registry
    entry or timer changes and the sender is neither closed nor terminated.
    An accepted frame makes no call at all: the sender is sent no error, and
    the fan-out is deferred. *)
Theorem handleChatMessage_validation ws data w :
  let text := trim (asString (field "message" data)) in
  let rejected := isString (field "message" data) = false \/ text = []
                  \/ (500 < length text)%nat in
  (rejected ->
     exists e, handleChatMessage ws data w = emit (Send ws (MsgError e)) w
               /\ out (handleChatMessage ws data w) = out w ++ [Send ws (MsgError e)]
               /\ immediates (handleChatMessage ws data w) = immediates w
               /\ heap (handleChatMessage ws data w) = heap w
               /\ clients (handleChatMessage ws data w) = clients w
               /\ timers (handleChatMessage ws data w) = timers w
               /\ heartbeats (handleChatMessage ws data w) = heartbeats w)
  /\ (~ rejected ->
      out (handleChatMessage ws data w) = out w
      /\ forall s, heap w !! ws = Some s ->
           handleChatMessage ws data w =
             setImmediate (ChatFanOut ws (chatPayload s data text (clock w))) w).
Proof.
  intros text rejected. split.
  - intros Hrej. apply chatAccepted_false in Hrej.
    assert (exists e, handleChatMessage ws data w = emit (Send ws (MsgError e)) w)
      as [e He]; [|exists e; rewrite He; done].
    unfold chatAccepted in Hrej. unfold handleChatMessage.
    destruct (isString (field "message" data)) eqn:Hstr; simpl in *.
    + destruct (isString_inv _ Hstr) as [t Ht].
      rewrite (field_some_truthy _ _ _ Ht). rewrite Ht in *. simpl in *.
      destruct (bool_decide (t = [])); simpl; [eauto|].
      destruct (length (trim t) =? 0)%nat; simpl in *; [eauto|].
      apply Nat.leb_gt in Hrej. apply Nat.ltb_lt in Hrej. rewrite Hrej. eauto.
    + rewrite orb_true_r. eauto.
  - intros Hacc.
    assert (chatAccepted data = true) as Hok.
    { destruct (chatAccepted data) eqn:E; [done|]. by apply chatAccepted_false in E. }
    rewrite (handleChatMessage_accepts _ _ _ Hok). split.
    + unfold withSocket. by destruct (heap w !! ws).
    + intros s Hs. by rewrite (withSocket_some _ _ _ _ Hs).
Qed.

Lemma handleChatMessage_validation_witness :
  (500 < length (trim (asString (field "message" longChat))))%nat
  /\ exists e, handleChatMessage 0%nat longChat oneClient
               = emit (Send 0%nat (MsgError e)) oneClient.
Proof.
  assert (H : (500 < length (trim (asString (field "message" longChat))))%nat).
  { apply Nat.ltb_lt. vm_compute. reflexivity. }
  split; [exact H|].
  destruct (handleChatMessage_validation 0%nat longChat oneClient) as [Hrej _].
  destruct Hrej as (e & He & _); [by right; right|]. by exists e.
Defined.

(** Claim C10 as worded fails on a frame that supplies an empty [from] and no
    [user]: the frame is accepted, and both names of the payload are the
    fallback [User_k3x9a2], not the empty string supplied. *)
Lemma chat_names_supplied_counterexample :
  let s := freshSession (js "k3x9a2f7q") 0 in
  let p := chatPayload s emptyFromChat (js "hi") 0 in
  heap oneClient !! 0%nat = Some s
  /\ chatAccepted emptyFromChat = true
  /\ field "from" emptyFromChat = Some (JStr [])
  /\ field "user" emptyFromChat = None
  /\ handleChatMessage 0%nat emptyFromChat oneClient = setImmediate (ChatFanOut 0%nat p) oneClient
  /\ p = MsgChat (JStr (js "User_k3x9a2")) (JStr (js "User_k3x9a2")) (js "hi") 0
               (Some (js "k3x9a2f7q"))
  /\ ~ namesFollowSupplied s emptyFromChat p.
Proof.
  repeat split; try (vm_compute; reflexivity).
  intros (_ & H & _). destruct (H (JStr []) eq_refl eq_refl) as [H1 _].
  vm_compute in H1. discriminate H1.
Qed.

Lemma jsOr_truthy v b : truthy (Some v) = true -> jsOr (Some v) b = v.
Proof. unfold jsOr. by intros ->. Qed.

Lemma jsOr_falsy a b : truthy a = false -> jsOr a b = b.
Proof. unfold jsOr. intros ->. by destruct a. Qed.

(** Claim C10, amended.  For an accepted chat frame the handler defers a
    fan-out of the payload whose [from] and [user] are: the string [User_]
    followed by the first six code units of the sender's id when neither
    [data.from] nor [data.user] is truthy; the truthy one of the two, for
    both fields, when exactly one is truthy; [data.from] and [data.user]
    themselves when both are. *)
Theorem chat_payload_names ws s data w
    (Hs : heap w !! ws = Some s) (Hacc : chatAccepted data = true) :
  let p := chatPayload s data (trim (asString (field "message" data))) (clock w) in
  handleChatMessage ws data w = setImmediate (ChatFanOut ws p) w
  /\ namesFollowTruthy s data p.
Proof.
  intros p. split.
  - rewrite (handleChatMessage_accepts _ _ _ Hacc). by rewrite (withSocket_some _ _ _ _ Hs).
  - unfold p, chatPayload, namesFollowTruthy. repeat split.
    + rewrite !jsOr_falsy by done. done.
    + rewrite !jsOr_falsy by done. done.
    + rewrite H. by apply jsOr_truthy.
    + rewrite (jsOr_falsy _ _ H1). rewrite H. by apply jsOr_truthy.
    + rewrite (jsOr_falsy _ _ H1). rewrite H. by apply jsOr_truthy.
    + rewrite H. by apply jsOr_truthy.
    + rewrite H. by apply jsOr_truthy.
    + rewrite H1. by apply jsOr_truthy.
Qed.

Lemma chat_payload_names_witness :
  heap oneClient !! 0%nat = Some (freshSession (js "k3x9a2f7q") 0)
  /\ chatAccepted userOnlyChat = true
  /\ handleChatMessage 0%nat userOnlyChat oneClient =
       setImmediate (ChatFanOut 0%nat (MsgChat (JStr (js "ada")) (JStr (js "ada")) (js "hi") 0
                                              (Some (js "k3x9a2f7q")))) oneClient.
Proof.
  assert (H1 : heap oneClient !! 0%nat = Some (freshSession (js "k3x9a2f7q") 0))
    by (vm_compute; reflexivity).
  assert (H2 : chatAccepted userOnlyChat = true) by (vm_compute; reflexivity).
  split; [exact H1|]. split; [exact H2|].
  destruct (chat_payload_names 0%nat _ userOnlyChat oneClient H1 H2) as [Heq _].
  rewrite Heq. vm_compute. reflexivity.
Defined.

(** ** Removal from the registry *)

Lemma removeClient_absent clientId w :
  clients w !! clientId = None -> removeClient clientId w = w.
Proof.
  intros Habs. unfold removeClient, setClients. destruct w; simpl in *.
  f_equal. by apply delete_id.
Qed.

Lemma removeClient_twice clientId w :
  removeClient clientId (removeClient clientId w) = removeClient clientId w.
Proof. apply removeClient_absent. simpl. apply lookup_delete_eq. Qed.

Lemma dropHeartbeat_absent clientId w :
  heartbeats w !! clientId = None -> dropHeartbeat clientId w = w.
Proof. unfold dropHeartbeat. by intros ->. Qed.

Lemma dropPingTimeout_none ws s w :
  heap w !! ws = Some s -> pingTimeout s = None -> dropPingTimeout ws w = w.
Proof. intros Hs Hp. unfold dropPingTimeout, withSocket. by rewrite Hs, Hp. Qed.

Lemma dropHeartbeat_heap clientId w : heap (dropHeartbeat clientId w) = heap w.
Proof. unfold dropHeartbeat. by destruct (heartbeats w !! clientId). Qed.

Lemma dropHeartbeat_clients clientId w : clients (dropHeartbeat clientId w) = clients w.
Proof. unfold dropHeartbeat. by destruct (heartbeats w !! clientId). Qed.

Lemma dropHeartbeat_lookup clientId w :
  heartbeats (dropHeartbeat clientId w) !! clientId = None.
Proof.
  unfold dropHeartbeat. destruct (heartbeats w !! clientId) eqn:E; [|done].
  simpl. apply lookup_delete_eq.
Qed.

Lemma dropPingTimeout_heartbeats ws w :
  heartbeats (dropPingTimeout ws w) = heartbeats w.
Proof.
  unfold dropPingTimeout, withSocket. destruct (heap w !! ws) as [s|]; [|done].
  by destruct (pingTimeout s).
Qed.

Lemma dropPingTimeout_clients ws w : clients (dropPingTimeout ws w) = clients w.
Proof.
  unfold dropPingTimeout, withSocket. destruct (heap w !! ws) as [s|]; [|done].
  by destruct (pingTimeout s).
Qed.

Lemma dropPingTimeout_socket ws s w :
  heap w !! ws = Some s ->
  heap (dropPingTimeout ws w) !! ws = Some (setPingTimeout None s).
Proof.
  intros Hs. unfold dropPingTimeout, withSocket. rewrite Hs.
  destruct (pingTimeout s) eqn:Hp; simpl.
  - rewrite lookup_alter_eq. by rewrite Hs.
  - rewrite Hs. destruct s; simpl in *; by subst.
Qed.

(** After the close handler has run for a socket, running it again only
    queues its two notifications again. *)
Lemma onClose_settled ws s w :
  heap w !! ws = Some s -> pingTimeout s = None ->
  heartbeats w !! id s = None -> clients w !! id s = None ->
  onClose ws w =
    setImmediate (CallBroadcastChatMessage
                    (js "User " ++ substring0 6 (id s) ++ js " disconnected") (js "System"))
      (setImmediate CallBroadcastMetrics w).
Proof.
  intros Hs Hp Hh Hc. unfold onClose. rewrite (withSocket_some _ _ _ _ Hs).
  rewrite (dropHeartbeat_absent _ _ Hh), (dropPingTimeout_none _ _ _ Hs Hp).
  by rewrite (removeClient_absent _ _ Hc).
Qed.

Lemma onClose_post ws s w :
  heap w !! ws = Some s ->
  heap (onClose ws w) !! ws = Some (setPingTimeout None s)
  /\ heartbeats (onClose ws w) !! id s = None
  /\ clients (onClose ws w) !! id s = None.
Proof.
  intros Hs. unfold onClose. rewrite (withSocket_some _ _ _ _ Hs). simpl.
  split; [|split].
  - apply dropPingTimeout_socket. by rewrite dropHeartbeat_heap.
  - rewrite dropPingTimeout_heartbeats. apply dropHeartbeat_lookup.
  - apply lookup_delete_eq.
Qed.

(** Claim C9.  [clients.delete(id)] on an id that is absent changes nothing
    and raises nothing (the function is total); removing twice gives the same
    world as removing once; removal touches no other id.  The close handler,
    where a close racing with a reap runs it a second time, leaves the
    registry, its size, the heartbeat map, the timers and the socket objects
    as the first run left them. *)
Theorem removeClient_idempotent clientId ws w :
  (clients w !! clientId = None -> removeClient clientId w = w)
  /\ removeClient clientId (removeClient clientId w) = removeClient clientId w
  /\ clients (removeClient clientId w) !! clientId = None
  /\ (forall k, k <> clientId ->
                clients (removeClient clientId w) !! k = clients w !! k)
  /\ (let once := onClose ws w in
      let twice := onClose ws once in
      clients twice = clients once
      /\ size (clients twice) = size (clients once)
      /\ heartbeats twice = heartbeats once
      /\ timers twice = timers once
      /\ heap twice = heap once).
Proof.
  split; [apply removeClient_absent|]. split; [apply removeClient_twice|].
  split; [apply lookup_delete_eq|].
  split; [intros k Hk; simpl; by apply lookup_delete_ne|].
  cbv zeta. destruct (heap w !! ws) as [s|] eqn:Hs.
  - destruct (onClose_post _ _ _ Hs) as (Hheap & Hhb & Hcl).
    rewrite (onClose_settled ws _ (onClose ws w) Hheap eq_refl Hhb Hcl). done.
  - unfold onClose, withSocket. rewrite Hs. simpl. by rewrite Hs.
Qed.

Lemma removeClient_idempotent_witness :
  clients oneClient !! js "nobody" = None
  /\ removeClient (js "nobody") oneClient = oneClient
  /\ size (clients (onClose 0%nat (onClose 0%nat oneClient))) = 0%nat.
Proof.
  assert (H : clients oneClient !! js "nobody" = None) by (vm_compute; reflexivity).
  destruct (removeClient_idempotent (js "nobody") 0%nat oneClient)
    as (Habs & _ & _ & _ & _ & Hsize & _).
  split; [exact H|]. split; [exact (Habs H)|].
  rewrite Hsize. vm_compute. reflexivity.
Defined.

(** ** What each callback leaves alone *)

(** Unfolds the callbacks down to the primitive field updates and splits on
    every test they make. *)
Ltac split_tests :=
  repeat match goal with
    | |- context [match ?x with _ => _ end] =>
        lazymatch x with
        | context [match _ with _ => _ end] => fail
        | _ => destruct x eqn:?
        end
    end.

Ltac unfold_callbacks :=
  unfold onMessage, handleWebSocketMessage, handleChatMessage, handleDrawing,
    handleSubscription, onPong, onError, fireTimer, heartbeatTick, reapOnTick,
    pongTimeoutFired, dropHeartbeat, dropPingTimeout, clearPingTimeout,
    broadcastMetrics, broadcastChatMessage, recordRequest, metricsTick,
    withStatsLock, withSocket, armTimer, updateSocket, clearTimer, emit,
    setImmediate in *.

Ltac frame := intros; unfold_callbacks; simpl; split_tests; simpl in *; try done.

Lemma onMessage_clients ws parsed w : clients (onMessage ws parsed w) = clients w.
Proof. frame. Qed.

Lemma onMessage_timers ws parsed w : timers (onMessage ws parsed w) = timers w.
Proof. frame. Qed.

Lemma onPong_clients ws w : clients (onPong ws w) = clients w.
Proof. frame. Qed.

Lemma fireTimer_clients h p w : clients (fireTimer h p w) = clients w.
Proof. frame. Qed.

Lemma recordRequest_clients w w' : recordRequest w = Some w' -> clients w' = clients w.
Proof.
  unfold recordRequest, withStatsLock. simpl. destruct (statsLock w); [done|].
  by intros [= <-].
Qed.

Lemma metricsTick_clients w w' : metricsTick w = Some w' -> clients w' = clients w.
Proof.
  unfold metricsTick, withStatsLock. destruct (statsLock w); [done|].
  by intros [= <-].
Qed.

Lemma onClose_clients ws w : clients (onClose ws w) ⊆ clients w.
Proof.
  unfold onClose, withSocket. destruct (heap w !! ws) as [s|]; [|done]. simpl.
  rewrite dropPingTimeout_clients, dropHeartbeat_clients. apply delete_subseteq.
Qed.

Lemma onError_clients ws w : clients (onError ws w) ⊆ clients w.
Proof.
  unfold onError, withSocket. destruct (heap w !! ws) as [s|]; [|done]. simpl.
  rewrite dropHeartbeat_clients. apply delete_subseteq.
Qed.

(** ** The fan-out pass *)

Lemma sameRegistry_refl w : sameRegistry w w.
Proof. by repeat split. Qed.

Lemma sameRegistry_trans w1 w2 w3 :
  sameRegistry w1 w2 -> sameRegistry w2 w3 -> sameRegistry w1 w3.
Proof.
  unfold sameRegistry. intros (?&?&?&?&?&?&?) (?&?&?&?&?&?&?).
  repeat split; congruence.
Qed.

Lemma visit_props skip channel payload oracle w rem e :
  let res := visit skip channel payload oracle (w, rem) e in
  out res.1 = out w ++ callsFor skip channel payload w e
  /\ res.2 = rem ++ marksFor skip channel oracle w e
  /\ sameRegistry w res.1
  /\ (forall r, r <> e.2 -> heap res.1 !! r = heap w !! r)
  /\ (forall r, id <$> heap res.1 !! r = id <$> heap w !! r).
Proof.
  destruct e as [k r]. unfold visit, callsFor, marksFor, eligible, marked. simpl.
  destruct (bool_decide (skip = Some k)); simpl.
  { rewrite !app_nil_r. repeat split; done. }
  destruct (heap w !! r) as [c|] eqn:Hc; simpl.
  2:{ rewrite !app_nil_r. repeat split; done. }
  destruct (readyState c =? 1); simpl.
  2:{ rewrite !app_nil_r. repeat split; done. }
  destruct (wantsChannel c channel); simpl.
  2:{ rewrite !app_nil_r. repeat split; done. }
  destruct (oracle k) as [|rs]; simpl.
  { rewrite !app_nil_r. repeat split; done. }
  assert (Hid : forall r0, id <$> alter (setReadyState rs) r (heap w) !! r0
                           = id <$> heap w !! r0).
  { intros r0. rewrite lookup_alter. case_decide; [subst|done].
    by destruct (heap w !! r0). }
  destruct (rs =? 1); simpl; rewrite ?app_nil_r;
    repeat split; try done; intros r0 Hr0; by rewrite lookup_alter_ne.
Qed.

Lemma foldl_step {A B} (f : A -> B -> A) (a : A) (x : B) (l : list B) :
  foldl f a (x :: l) = foldl f (f a x) l.
Proof. reflexivity. Qed.

Lemma flat_map_agree {A B} (f g : A -> list B) (l : list A) :
  (forall a, a ∈ l -> f a = g a) -> flat_map f l = flat_map g l.
Proof.
  induction l as [|a l IH]; intros H; [done|]. simpl.
  rewrite (H a) by left. rewrite IH; [done|]. intros b Hb. apply H. by right.
Qed.

Lemma eligible_agree skip channel w w' e :
  heap w' !! e.2 = heap w !! e.2 -> eligible skip channel w' e = eligible skip channel w e.
Proof. unfold eligible. by intros ->. Qed.

Lemma marked_agree skip channel oracle w w' e :
  heap w' !! e.2 = heap w !! e.2 ->
  marked skip channel oracle w' e = marked skip channel oracle w e.
Proof. unfold marked. by intros ->. Qed.

(** The pass over a list of entries with pairwise distinct sockets: the calls
    and the marks are those of each entry read in the starting world; the
    registry is not touched. *)
Lemma pass_spec skip channel payload oracle l :
  NoDup (l.*2) -> forall w rem,
  let res := foldl (visit skip channel payload oracle) (w, rem) l in
  out res.1 = out w ++ flat_map (callsFor skip channel payload w) l
  /\ res.2 = rem ++ flat_map (marksFor skip channel oracle w) l
  /\ sameRegistry w res.1
  /\ (forall r, r ∉ l.*2 -> heap res.1 !! r = heap w !! r)
  /\ (forall r, id <$> heap res.1 !! r = id <$> heap w !! r).
Proof.
  induction l as [|e l IH]; intros Hnd w rem; cbv zeta.
  { simpl. rewrite !app_nil_r. repeat split; done. }
  rewrite fmap_cons in Hnd. apply NoDup_cons in Hnd as [Hnotin Hnd].
  rewrite foldl_step.
  destruct (visit skip channel payload oracle (w, rem) e) as [w1 rem1] eqn:Hv.
  pose proof (visit_props skip channel payload oracle w rem e) as Hp.
  cbv zeta in Hp. rewrite Hv in Hp. simpl in Hp.
  destruct Hp as (Hout1 & Hrem1 & Hsame1 & Hheap1 & Hid1).
  specialize (IH Hnd w1 rem1). cbv zeta in IH.
  destruct IH as (Hout & Hrem & Hsame & Hheap & Hid).
  assert (Hrest : forall e', e' ∈ l -> heap w1 !! e'.2 = heap w !! e'.2).
  { intros e' He'. apply Hheap1. intros Heq. apply Hnotin. rewrite <- Heq.
    apply list_elem_of_fmap. by exists e'. }
  split; [|split; [|split; [|split]]].
  - rewrite Hout, Hout1. simpl. rewrite <- app_assoc. do 2 f_equal.
    apply flat_map_agree. intros e' He'. unfold callsFor.
    by rewrite (eligible_agree _ _ _ _ _ (Hrest e' He')).
  - rewrite Hrem, Hrem1. simpl. rewrite <- app_assoc. do 2 f_equal.
    apply flat_map_agree. intros e' He'. unfold marksFor.
    by rewrite (marked_agree _ _ _ _ _ _ (Hrest e' He')).
  - by apply (sameRegistry_trans _ w1).
  - intros r Hr. rewrite fmap_cons in Hr. apply not_elem_of_cons in Hr as [Hne Hr].
    rewrite (Hheap r Hr). by apply Hheap1.
  - intros r. by rewrite Hid, Hid1.
Qed.

(** Without the assumption on sockets the pass still leaves the registry
    alone. *)
Lemma pass_sameRegistry skip channel payload oracle l : forall w rem,
  sameRegistry w (foldl (visit skip channel payload oracle) (w, rem) l).1.
Proof.
  induction l as [|e l IH]; intros w rem; [apply sameRegistry_refl|].
  rewrite foldl_step.
  destruct (visit skip channel payload oracle (w, rem) e) as [w1 rem1] eqn:Hv.
  pose proof (visit_props skip channel payload oracle w rem e) as Hp.
  cbv zeta in Hp. rewrite Hv in Hp. simpl in Hp.
  apply (sameRegistry_trans _ w1); [tauto|apply IH].
Qed.

Lemma removeAll_lookup l : forall w k,
  clients (removeAll l w) !! k = if bool_decide (k ∈ l) then None else clients w !! k.
Proof.
  unfold removeAll. induction l as [|x l IH]; intros w k; [done|].
  simpl. rewrite IH. simpl.
  destruct (decide (k = x)) as [->|Hne].
  - rewrite lookup_delete_eq. rewrite (bool_decide_eq_true_2 (x ∈ x :: l)) by left.
    by destruct (bool_decide (x ∈ l)).
  - rewrite lookup_delete_ne by done.
    destruct (bool_decide (k ∈ l)) eqn:E.
    + apply bool_decide_eq_true in E. rewrite bool_decide_eq_true_2; [done|by right].
    + apply bool_decide_eq_false in E. rewrite bool_decide_eq_false_2; [done|].
      intros [?|?]%elem_of_cons; done.
Qed.

Lemma removeAll_frame l : forall w,
  heap (removeAll l w) = heap w /\ out (removeAll l w) = out w
  /\ heartbeats (removeAll l w) = heartbeats w /\ timers (removeAll l w) = timers w
  /\ nextHandle (removeAll l w) = nextHandle w
  /\ immediates (removeAll l w) = immediates w /\ clock (removeAll l w) = clock w
  /\ statsLock (removeAll l w) = statsLock w.
Proof.
  unfold removeAll. induction l as [|x l IH]; intros w; [done|].
  simpl. destruct (IH (removeClient x w)) as (?&?&?&?&?&?&?&?). done.
Qed.

Lemma removeAll_subseteq l w : clients (removeAll l w) ⊆ clients w.
Proof.
  apply map_subseteq_spec. intros k r. rewrite removeAll_lookup.
  by destruct (bool_decide (k ∈ l)).
Qed.

Lemma fanOut_clients skip channel payload oracle w :
  clients (fanOut skip channel payload oracle w) ⊆ clients w.
Proof.
  unfold fanOut, fanOutPass.
  pose proof (pass_sameRegistry skip channel payload oracle
                (map_to_list (clients w)) w []) as Hs.
  destruct (foldl _ _ _) as [w' rem]. simpl in Hs.
  destruct Hs as [<- _]. apply removeAll_subseteq.
Qed.

Lemma runTask_clients t oracle w : clients (runTask t oracle w) ⊆ clients w.
Proof.
  destruct t; simpl; unfold withSocket; try destruct (heap w !! sender);
    try done; apply fanOut_clients.
Qed.

(** ** Capacity *)

Lemma run_invariant (P : World -> Prop) :
  (forall e w w', P w -> step e w = Some w' -> P w') ->
  forall es w w', P w -> run es w = Some w' -> P w'.
Proof.
  intros Hstep es. induction es as [|e es IH]; intros w w' HP Hrun; simpl in Hrun.
  - by injection Hrun as <-.
  - destruct (step e w) as [w1|] eqn:He; [|done]. simpl in Hrun.
    apply (IH w1); [|done]. by apply (Hstep e w).
Qed.

Lemma run_app es1 es2 w :
  run (es1 ++ es2) w = run es1 w ≫= run es2.
Proof.
  revert w. induction es1 as [|e es1 IH]; intros w; simpl; [done|].
  destruct (step e w); simpl; [apply IH|done].
Qed.

Lemma run_default es w d :
  match run es w with Some _ => true | None => false end = true ->
  run es w = Some (default d (run es w)).
Proof. by destruct (run es w). Qed.

(** Every event but a connection leaves the registry as it was or smaller. *)
Lemma step_clients e w w' :
  step e w = Some w' ->
  match e with
  | EConnection ws clientId ip => w' = onConnection ws clientId ip w
  | _ => clients w' ⊆ clients w
  end.
Proof.
  unfold step. destruct (enabled e w); [|done].
  destruct e; simpl; intros Hf; try (injection Hf as <-).
  - done.
  - by rewrite onMessage_clients.
  - by rewrite onPong_clients.
  - apply onClose_clients.
  - apply onError_clients.
  - done.
  - by rewrite fireTimer_clients.
  - destruct (immediates w) as [|t rest]; injection Hf as <-; [done|].
    apply (runTask_clients t oracle (setImmediates rest w)).
  - by rewrite (recordRequest_clients _ _ Hf).
  - by rewrite (metricsTick_clients _ _ Hf).
  - done.
  - done.
Qed.

Lemma onConnection_at_capacity ws clientId ip w :
  MAX_CONNECTIONS <= Z.of_nat (size (clients w)) ->
  onConnection ws clientId ip w = emit (CloseWith ws 1008 (js "Server at capacity")) w.
Proof.
  intros Hfull. unfold onConnection.
  by replace (MAX_CONNECTIONS <=? Z.of_nat (size (clients w))) with true
    by (symmetry; by apply Z.leb_le).
Qed.

Lemma onConnection_size ws clientId ip w :
  Z.of_nat (size (clients w)) <= MAX_CONNECTIONS ->
  Z.of_nat (size (clients (onConnection ws clientId ip w))) <= MAX_CONNECTIONS.
Proof.
  intros Hle. unfold onConnection.
  destruct (MAX_CONNECTIONS <=? Z.of_nat (size (clients w))) eqn:Hfull; [done|].
  apply Z.leb_gt in Hfull. simpl.
  destruct (clients w !! clientId) as [r|] eqn:Hk.
  - rewrite (map_size_insert_Some clientId ws (clients w)) by eauto. lia.
  - rewrite (map_size_insert_None clientId ws (clients w)) by done.
    unfold MAX_CONNECTIONS in *. lia.
Qed.

Lemma step_capacity e w w' :
  Z.of_nat (size (clients w)) <= MAX_CONNECTIONS -> step e w = Some w' ->
  Z.of_nat (size (clients w')) <= MAX_CONNECTIONS.
Proof.
  intros Hle Hstep. pose proof (step_clients e w w' Hstep) as Hc.
  destruct e; try (apply map_subseteq_size in Hc; lia).
  subst w'. by apply onConnection_size.
Qed.

(** Claim C1.  In every world the server reaches, whatever the sequence of
    connections, closes, errors, timers and broadcasts, the registry holds at
    most [MAX_CONNECTIONS = 1000] sockets; and a connection that arrives while
    it holds 1000 only gets [ws.close(1008, 'Server at capacity')]: the
    registry map, the socket objects, the heartbeat map and the timers are as
    before. *)
Theorem registry_capacity es t0 w (Hrun : run es (initialWorld t0) = Some w) :
  Z.of_nat (size (clients w)) <= 1000
  /\ forall ws clientId ip,
       Z.of_nat (size (clients w)) = 1000 ->
       let w' := onConnection ws clientId ip w in
       w' = emit (CloseWith ws 1008 (js "Server at capacity")) w
       /\ clients w' = clients w /\ heap w' = heap w
       /\ heartbeats w' = heartbeats w /\ timers w' = timers w.
Proof.
  split.
  - apply (run_invariant (fun w => Z.of_nat (size (clients w)) <= MAX_CONNECTIONS)
             step_capacity es (initialWorld t0) w); [|done].
    simpl. unfold MAX_CONNECTIONS. rewrite map_size_empty. lia.
  - intros ws clientId ip Hfull w'. unfold w'.
    rewrite onConnection_at_capacity by (unfold MAX_CONNECTIONS; lia). done.
Qed.

Lemma registry_capacity_witness :
  run (admissions 1000) (initialWorld 0) = Some fullWorld
  /\ Z.of_nat (size (clients fullWorld)) = 1000
  /\ clients (onConnection 1000%nat (js "late") (js "10.0.0.1") fullWorld)
     = clients fullWorld.
Proof.
  assert (Hrun : run (admissions 1000) (initialWorld 0) = Some fullWorld).
  { unfold fullWorld. apply run_default. vm_compute. reflexivity. }
  assert (Hsize : Z.of_nat (size (clients fullWorld)) = 1000)
    by (vm_compute; reflexivity).
  split; [exact Hrun|]. split; [exact Hsize|].
  destruct (registry_capacity _ _ _ Hrun) as [_ Hrefuse].
  exact (proj1 (proj2 (Hrefuse 1000%nat (js "late") (js "10.0.0.1") Hsize))).
Defined.

(** ** The statistics lock *)

Lemma fanOut_statsLock skip channel payload oracle w :
  statsLock (fanOut skip channel payload oracle w) = statsLock w.
Proof.
  unfold fanOut, fanOutPass.
  pose proof (pass_sameRegistry skip channel payload oracle
                (map_to_list (clients w)) w []) as Hs.
  destruct (foldl _ _ _) as [w' rem]. simpl in Hs.
  destruct Hs as (_ & _ & _ & _ & _ & _ & <-).
  by destruct (removeAll_frame rem w') as (_ & _ & _ & _ & _ & _ & _ & ->).
Qed.

Lemma runTask_statsLock t oracle w : statsLock (runTask t oracle w) = statsLock w.
Proof.
  destruct t; simpl; unfold withSocket; try destruct (heap w !! sender);
    try done; apply fanOut_statsLock.
Qed.

Lemma onClose_statsLock ws w : statsLock (onClose ws w) = statsLock w.
Proof. unfold onClose, removeClient. frame. Qed.

Lemma onError_statsLock ws w : statsLock (onError ws w) = statsLock w.
Proof. unfold removeClient. frame. Qed.

Lemma onConnection_statsLock ws k ip w :
  statsLock (onConnection ws k ip w) = statsLock w.
Proof. unfold onConnection. by destruct (MAX_CONNECTIONS <=? _). Qed.

(** Every callback that takes the lock releases it before it returns, and on
    the one thread nothing runs in between: the lock is free whenever a
    callback starts, and the spin loops never spin. *)
Lemma step_statsLock e w w' :
  statsLock w = false -> step e w = Some w' -> statsLock w' = false.
Proof.
  intros Hfree. unfold step. destruct (enabled e w); [|done].
  destruct e; simpl; intros Hf; try (injection Hf as <-); try done.
  - by rewrite onConnection_statsLock.
  - rewrite <- Hfree. frame.
  - rewrite <- Hfree. frame.
  - by rewrite onClose_statsLock.
  - by rewrite onError_statsLock.
  - rewrite <- Hfree. frame.
  - destruct (immediates w) as [|t rest]; injection Hf as <-; [done|].
    by rewrite runTask_statsLock.
  - unfold recordRequest, withStatsLock in Hf. simpl in Hf. rewrite Hfree in Hf.
    by injection Hf as <-.
  - unfold metricsTick, withStatsLock in Hf. rewrite Hfree in Hf.
    by injection Hf as <-.
Qed.

Lemma run_statsLock es t0 w : run es (initialWorld t0) = Some w -> statsLock w = false.
Proof. by apply (run_invariant (fun w => statsLock w = false) step_statsLock). Qed.

(** So the two tasks that take the lock always return. *)
Lemma run_metricsTick es t0 w :
  run es (initialWorld t0) = Some w ->
  is_Some (metricsTick w) /\ is_Some (recordRequest w).
Proof.
  intros Hrun. pose proof (run_statsLock _ _ _ Hrun) as Hfree.
  unfold metricsTick, recordRequest, withStatsLock. simpl. rewrite Hfree. eauto.
Qed.

(** ** The registry refers to sockets by their own id *)

Lemma lookup_alter_id (f : Session -> Session) ws (m : gmap ref Session) r :
  (forall s, id (f s) = id s) -> id <$> alter f ws m !! r = id <$> m !! r.
Proof.
  intros Hf. rewrite lookup_alter. case_decide; [subst|done].
  destruct (m !! r); simpl; [by rewrite Hf|done].
Qed.

Ltac same_ids :=
  frame; repeat (rewrite lookup_alter_id by (by intros [])); try done.

Lemma onMessage_ids ws parsed w r :
  id <$> heap (onMessage ws parsed w) !! r = id <$> heap w !! r.
Proof. same_ids. Qed.

Lemma onPong_ids ws w r : id <$> heap (onPong ws w) !! r = id <$> heap w !! r.
Proof. same_ids. Qed.

Lemma onClose_ids ws w r : id <$> heap (onClose ws w) !! r = id <$> heap w !! r.
Proof. unfold onClose, removeClient. same_ids. Qed.

Lemma onError_ids ws w r : id <$> heap (onError ws w) !! r = id <$> heap w !! r.
Proof. unfold removeClient. same_ids. Qed.

Lemma fireTimer_ids h p w r : id <$> heap (fireTimer h p w) !! r = id <$> heap w !! r.
Proof. same_ids. Qed.

Lemma pass_ids skip channel payload oracle l : forall w rem r,
  id <$> heap (foldl (visit skip channel payload oracle) (w, rem) l).1 !! r
  = id <$> heap w !! r.
Proof.
  induction l as [|e l IH]; intros w rem r; [done|].
  rewrite foldl_step.
  destruct (visit skip channel payload oracle (w, rem) e) as [w1 rem1] eqn:Hv.
  pose proof (visit_props skip channel payload oracle w rem e) as Hp.
  cbv zeta in Hp. rewrite Hv in Hp. simpl in Hp.
  rewrite IH. apply Hp.
Qed.

Lemma fanOut_ids skip channel payload oracle w r :
  id <$> heap (fanOut skip channel payload oracle w) !! r = id <$> heap w !! r.
Proof.
  unfold fanOut, fanOutPass.
  pose proof (pass_ids skip channel payload oracle (map_to_list (clients w)) w [] r) as Hi.
  destruct (foldl _ _ _) as [w' rem]. simpl in Hi.
  destruct (removeAll_frame rem w') as [-> _]. done.
Qed.

Lemma runTask_ids t oracle w r :
  id <$> heap (runTask t oracle w) !! r = id <$> heap w !! r.
Proof.
  destruct t; simpl; unfold withSocket; try destruct (heap w !! sender);
    try done; apply fanOut_ids.
Qed.

Lemma step_ids e w w' r :
  step e w = Some w' ->
  match e with
  | EConnection _ _ _ => True
  | _ => id <$> heap w' !! r = id <$> heap w !! r
  end.
Proof.
  unfold step. destruct (enabled e w); [|done].
  destruct e; simpl; intros Hf; try (injection Hf as <-).
  - done.
  - apply onMessage_ids.
  - apply onPong_ids.
  - apply onClose_ids.
  - apply onError_ids.
  - by apply lookup_alter_id.
  - apply fireTimer_ids.
  - destruct (immediates w) as [|t rest]; injection Hf as <-; [done|].
    apply (runTask_ids t oracle (setImmediates rest w)).
  - unfold recordRequest, withStatsLock in Hf. simpl in Hf.
    destruct (statsLock w); [done|]. by injection Hf as <-.
  - unfold metricsTick, withStatsLock in Hf.
    destruct (statsLock w); [done|]. by injection Hf as <-.
  - done.
  - done.
Qed.

Lemma onConnection_registryWF ws clientId ip w :
  heap w !! ws = None -> registryWF w -> registryWF (onConnection ws clientId ip w).
Proof.
  intros Hfresh Hwf. unfold onConnection.
  destruct (MAX_CONNECTIONS <=? Z.of_nat (size (clients w))); [done|].
  unfold registryWF. simpl. intros k r Hk.
  destruct (decide (k = clientId)) as [->|Hne].
  - rewrite lookup_insert_eq in Hk. injection Hk as <-. by rewrite lookup_insert_eq.
  - rewrite lookup_insert_ne in Hk by done. specialize (Hwf k r Hk). simpl in Hwf.
    rewrite lookup_insert_ne; [done|]. intros <-. by rewrite Hfresh in Hwf.
Qed.

Lemma step_registryWF e w w' : registryWF w -> step e w = Some w' -> registryWF w'.
Proof.
  intros Hwf Hstep.
  pose proof (step_clients e w w' Hstep) as Hc.
  pose proof (fun r => step_ids e w w' r Hstep) as Hi.
  destruct e;
    try (intros k r Hk; simpl; rewrite Hi;
         apply (Hwf k r); by eapply lookup_weaken).
  subst w'. apply onConnection_registryWF; [|done].
  unfold step in Hstep. simpl in Hstep.
  destruct (bool_decide (heap w !! ws = None)) eqn:E; [|done].
  by apply bool_decide_eq_true in E.
Qed.

Lemma run_registryWF es t0 w : run es (initialWorld t0) = Some w -> registryWF w.
Proof.
  apply (run_invariant registryWF step_registryWF). unfold registryWF. simpl.
  apply map_Forall_empty.
Qed.

(** Distinct keys of a well-formed registry refer to distinct sockets. *)
Lemma snapshot_NoDup w : registryWF w -> NoDup (map_to_list (clients w)).*2.
Proof.
  intros Hwf.
  assert (Hl : Forall (fun e => id <$> heap w !! e.2 = Some e.1) (map_to_list (clients w))).
  { apply Forall_forall. intros [k r] He. apply elem_of_map_to_list in He.
    by apply (Hwf k r). }
  pose proof (NoDup_fst_map_to_list (clients w)) as Hnd.
  induction Hl as [|[k r] l Hkr Hl IH]; [constructor|].
  rewrite fmap_cons in *. apply NoDup_cons in Hnd as [Hk Hnd].
  apply NoDup_cons. split; [|by apply IH].
  intros Hr. apply Hk. simpl in *.
  apply list_elem_of_fmap in Hr as ([k' r'] & -> & He').
  rewrite Forall_forall in Hl. specialize (Hl _ He'). simpl in *.
  rewrite Hkr in Hl. injection Hl as ->.
  apply list_elem_of_fmap. by exists (k', r').
Qed.

(** ** Who a fan-out sends to *)

Lemma wantsChannel_includes c channel :
  wantsChannel c channel = includesStr (subscriptions c) channel.
Proof.
  unfold wantsChannel. destruct (subscriptions c); [done|]. done.
Qed.

Lemma newCalls_app w w' calls : out w' = out w ++ calls -> newCalls w w' = calls.
Proof. intros H. unfold newCalls. rewrite H. apply drop_app_length. Qed.

(** The whole deferred callback on a well-formed registry. *)
Lemma fanOut_spec skip channel payload oracle w :
  registryWF w ->
  let snapshot := map_to_list (clients w) in
  let marks := flat_map (marksFor skip channel oracle w) snapshot in
  fanOutPass skip channel payload oracle w
    = ((fanOutPass skip channel payload oracle w).1, marks)
  /\ sameRegistry w (fanOutPass skip channel payload oracle w).1
  /\ newCalls w (fanOutPass skip channel payload oracle w).1
     = flat_map (callsFor skip channel payload w) snapshot
  /\ newCalls w (fanOut skip channel payload oracle w)
     = flat_map (callsFor skip channel payload w) snapshot
  /\ forall k, clients (fanOut skip channel payload oracle w) !! k
               = if bool_decide (k ∈ marks) then None else clients w !! k.
Proof.
  intros Hwf snapshot marks.
  pose proof (pass_spec skip channel payload oracle snapshot (snapshot_NoDup w Hwf) w [])
    as Hp.
  cbv zeta in Hp. unfold fanOut, fanOutPass. fold snapshot.
  destruct (foldl _ _ _) as [w' rem]. simpl in *.
  destruct Hp as (Hout & -> & Hsame & _). fold marks.
  split; [done|]. split; [done|]. split; [by apply newCalls_app|].
  destruct (removeAll_frame marks w') as (_ & Hout' & _).
  split.
  - apply newCalls_app. by rewrite Hout'.
  - intros k. rewrite removeAll_lookup. by destruct Hsame as [-> _].
Qed.

Lemma fanOut_calls skip channel payload oracle w :
  registryWF w ->
  newCalls w (fanOut skip channel payload oracle w)
  = flat_map (callsFor skip channel payload w) (map_to_list (clients w)).
Proof. intros Hwf. by destruct (fanOut_spec skip channel payload oracle w Hwf) as (_&_&_&->&_). Qed.

Lemma in_callsFor skip channel payload w l r :
  In (Send r payload) (flat_map (callsFor skip channel payload w) l)
  <-> exists k, (k, r) ∈ l /\ eligible skip channel w (k, r) = true.
Proof.
  rewrite in_flat_map. split.
  - intros ([k r'] & He & Hin). unfold callsFor in Hin.
    destruct (eligible skip channel w (k, r')) eqn:E; [|done].
    destruct Hin as [[= ->]|[]]. exists k. split; [|done]. by apply list_elem_of_In.
  - intros (k & He & Hel). exists (k, r). split; [by apply list_elem_of_In|].
    unfold callsFor. rewrite Hel. by left.
Qed.

Lemma in_marksFor skip channel oracle w l k :
  k ∈ flat_map (marksFor skip channel oracle w) l
  <-> exists r, (k, r) ∈ l /\ marked skip channel oracle w (k, r) = true.
Proof.
  rewrite list_elem_of_In, in_flat_map. split.
  - intros ([k' r] & He & Hin). unfold marksFor in Hin.
    destruct (marked skip channel oracle w (k', r)) eqn:E; [|done].
    destruct Hin as [<-|[]]. exists r. split; [|done]. by apply list_elem_of_In.
  - intros (r & He & Hm). exists (k, r). split; [by apply list_elem_of_In|].
    unfold marksFor. rewrite Hm. by left.
Qed.

(** With socket 1 in the closing handshake the rule as worded fails: socket 1
    is in the snapshot, subscribed to [chat] and not the sender, and the
    fan-out makes no call on it. *)
Lemma closing_peer_not_sent_counterexample :
  run closingPeerEvents (initialWorld 0) = Some closingPeerQueued
  /\ immediates closingPeerQueued = [ChatFanOut 0%nat hiPayload]
  /\ clients closingPeer !! js "m7p2w8d4z" = Some 1%nat
  /\ (exists s, heap closingPeer !! 1%nat = Some s
                /\ includesStr (subscriptions s) (js "chat") = true
                /\ readyState s = 2 /\ id s <> js "k3x9a2f7q")
  /\ newCalls closingPeer (runTask (ChatFanOut 0%nat hiPayload) (fun _ => SendOk) closingPeer)
     = []
  /\ ~ deliveredIffSubscribed (ChatFanOut 0%nat hiPayload) (fun _ => SendOk) closingPeer.
Proof.
  assert (Hcalls : newCalls closingPeer
            (runTask (ChatFanOut 0%nat hiPayload) (fun _ => SendOk) closingPeer) = [])
    by (vm_compute; reflexivity).
  split; [vm_compute; reflexivity|]. split; [vm_compute; reflexivity|].
  split; [vm_compute; reflexivity|]. split.
  { eexists. split; [vm_compute; reflexivity|]. simpl.
    repeat split; try (vm_compute; reflexivity). vm_compute. discriminate. }
  split; [exact Hcalls|].
  intros Hrule.
  specialize (Hrule 0%nat (js "chat") hiPayload (js "m7p2w8d4z") 1%nat
                (mkSession (js "m7p2w8d4z") (js "10.0.0.2") [JStr (js "chat")] true 0 None 2)
                (freshSession (js "k3x9a2f7q") 0)).
  rewrite Hcalls in Hrule. apply Hrule; try (vm_compute; reflexivity).
  split; [vm_compute; reflexivity|]. vm_compute. discriminate.
Qed.

(** Claim C2, amended.  For a deferred chat or draw fan-out with sender [o],
    and every socket [s] the registry holds under key [k] when the callback
    runs: the callback calls [send] with the payload on [s] if and only if
    [s] is open ([readyState] 1), the channel is in [s.subscriptions] and
    [s.id] differs from [o.id].  So a socket with no subscription is sent
    nothing, and the sender is never sent its own payload. *)
Theorem fanOut_delivery t oracle w sender channel payload k r s o
    (Ht : taskChannel t = Some (sender, channel, payload))
    (Hwf : registryWF w)
    (Hk : clients w !! k = Some r) (Hs : heap w !! r = Some s)
    (Ho : heap w !! sender = Some o) :
  let calls := newCalls w (runTask t oracle w) in
  id s = k
  /\ (In (Send r payload) calls
      <-> readyState s = 1 /\ includesStr (subscriptions s) channel = true
          /\ id s <> id o)
  /\ (subscriptions s = [] -> ~ In (Send r payload) calls)
  /\ ~ In (Send sender payload) calls.
Proof.
  intros calls.
  assert (Hid : id s = k).
  { specialize (Hwf k r Hk). simpl in Hwf. rewrite Hs in Hwf. by injection Hwf. }
  assert (Hcalls : calls = flat_map (callsFor (Some (id o)) channel payload w)
                                    (map_to_list (clients w))).
  { unfold calls. destruct t; try done; simpl in Ht; injection Ht as <- <- <-;
      simpl; rewrite (withSocket_some _ _ _ _ Ho);
      by apply fanOut_calls. }
  assert (Hiff : In (Send r payload) calls
      <-> readyState s = 1 /\ includesStr (subscriptions s) channel = true /\ id s <> id o).
  { rewrite Hcalls, in_callsFor. split.
    - intros (k' & He & Hel). apply elem_of_map_to_list in He.
      assert (k' = k) as ->.
      { specialize (Hwf k' r He). simpl in Hwf. rewrite Hs in Hwf.
        injection Hwf as <-. done. }
      unfold eligible in Hel. simpl in Hel. rewrite Hs, wantsChannel_includes in Hel.
      apply andb_prop in Hel as [Hskip Hel]. apply andb_prop in Hel as [Hopen Hsub].
      apply Z.eqb_eq in Hopen. apply negb_true_iff, bool_decide_eq_false in Hskip.
      repeat split; try done. intros Heq. apply Hskip. by rewrite <- Heq, Hid.
    - intros (Hopen & Hsub & Hne). exists k. split; [by apply elem_of_map_to_list|].
      unfold eligible. simpl. rewrite Hs, wantsChannel_includes, Hsub, Hopen. simpl.
      rewrite andb_true_r. apply negb_true_iff, bool_decide_eq_false.
      intros [= Heq]. apply Hne. by rewrite Hid. }
  split; [exact Hid|]. split; [exact Hiff|]. split.
  - intros Hnone Hin. apply Hiff in Hin as (_ & Hsub & _). by rewrite Hnone in Hsub.
  - rewrite Hcalls, in_callsFor. intros (k' & He & Hel).
    apply elem_of_map_to_list in He. specialize (Hwf k' sender He). simpl in Hwf.
    rewrite Ho in Hwf. injection Hwf as <-.
    unfold eligible in Hel. simpl in Hel.
    by rewrite (bool_decide_eq_true_2 (Some (id o) = Some (id o))) in Hel.
Qed.

Lemma fanOut_delivery_witness :
  registryWF listeningPeer
  /\ clients listeningPeer !! js "m7p2w8d4z" = Some 1%nat
  /\ In (Send 1%nat hiPayload)
        (newCalls listeningPeer
           (runTask (ChatFanOut 0%nat hiPayload) (fun _ => SendOk) listeningPeer))
  /\ ~ In (Send 0%nat hiPayload)
          (newCalls listeningPeer
             (runTask (ChatFanOut 0%nat hiPayload) (fun _ => SendOk) listeningPeer)).
Proof.
  assert (Hwf : registryWF listeningPeer).
  { apply (bool_decide_eq_true_1 (registryWF listeningPeer)). vm_compute. reflexivity. }
  assert (Hk : clients listeningPeer !! js "m7p2w8d4z" = Some 1%nat)
    by (vm_compute; reflexivity).
  assert (Hs : heap listeningPeer !! 1%nat
               = Some (mkSession (js "m7p2w8d4z") (js "10.0.0.2") [JStr (js "chat")]
                                 true 0 None 1)) by (vm_compute; reflexivity).
  assert (Ho : heap listeningPeer !! 0%nat = Some (freshSession (js "k3x9a2f7q") 0))
    by (vm_compute; reflexivity).
  destruct (fanOut_delivery (ChatFanOut 0%nat hiPayload) (fun _ => SendOk) listeningPeer
              0%nat (js "chat") hiPayload _ _ _ _ eq_refl Hwf Hk Hs Ho)
    as (_ & Hiff & _ & Hsender).
  split; [exact Hwf|]. split; [exact Hk|]. split; [|exact Hsender].
  apply Hiff. simpl. split; [reflexivity|]. split; [vm_compute; reflexivity|].
  vm_compute. discriminate.
Defined.

(** ** Send failures during a pass *)

(** A [send] to socket 1 that raises and leaves it open: the call is made,
    socket 1 is not marked, and it is still registered after the removals.
    The rule as worded, that a recipient whose [send] failed is marked for
    removal, fails here. *)
Lemma failed_send_not_marked_counterexample :
  let skip := Some (js "k3x9a2f7q") in
  let oracle := fun _ : jsstring => SendThrows 1 in
  let pass := fanOutPass skip (js "chat") hiPayload oracle listeningPeer in
  clients listeningPeer !! js "m7p2w8d4z" = Some 1%nat
  /\ eligible skip (js "chat") listeningPeer (js "m7p2w8d4z", 1%nat) = true
  /\ newCalls listeningPeer pass.1 = [Send 1%nat hiPayload]
  /\ pass.2 = []
  /\ clients (fanOut skip (js "chat") hiPayload oracle listeningPeer) !! js "m7p2w8d4z"
     = Some 1%nat
  /\ ~ failedSendMarked skip (js "chat") hiPayload oracle listeningPeer.
Proof.
  cbv zeta.
  assert (Hk : clients listeningPeer !! js "m7p2w8d4z" = Some 1%nat)
    by (vm_compute; reflexivity).
  assert (He : eligible (Some (js "k3x9a2f7q")) (js "chat") listeningPeer
                 (js "m7p2w8d4z", 1%nat) = true) by (vm_compute; reflexivity).
  assert (Hm : (fanOutPass (Some (js "k3x9a2f7q")) (js "chat") hiPayload
                  (fun _ => SendThrows 1) listeningPeer).2 = [])
    by (vm_compute; reflexivity).
  split; [exact Hk|]. split; [exact He|]. split; [vm_compute; reflexivity|].
  split; [exact Hm|]. split; [vm_compute; reflexivity|].
  intros Hrule. specialize (Hrule (js "m7p2w8d4z") 1%nat 1 Hk He eq_refl).
  rewrite Hm in Hrule. destruct Hrule.
Qed.

(** Claim C4, amended.  In the pass of a deferred fan-out over the snapshot
    of a well-formed registry:
    - the registry is not touched during the pass;
    - [send] is called on exactly the entries that are not the sender, open
      and subscribed, whatever the calls on other entries did: the calls made
      are the same under any other outcome of the sends;
    - an entry that is not the sender is marked for removal if and only if it
      is not open, or its [send] raised and its [readyState] is no longer 1
      afterwards (a [send] that raised on a socket still open is only
      logged);
    - the marked entries are removed after the pass, and only they. *)
Theorem fanOut_failure_isolation skip channel payload oracle w
    (Hwf : registryWF w) :
  let pass := fanOutPass skip channel payload oracle w in
  let after := fanOut skip channel payload oracle w in
  sameRegistry w pass.1
  /\ (forall k r, clients w !! k = Some r ->
        (In (Send r payload) (newCalls w pass.1) <-> eligible skip channel w (k, r) = true))
  /\ (forall oracle',
        newCalls w (fanOutPass skip channel payload oracle' w).1 = newCalls w pass.1)
  /\ (forall k r s, clients w !! k = Some r -> heap w !! r = Some s -> skip <> Some k ->
        (In k pass.2 <->
         readyState s <> 1
         \/ (wantsChannel s channel = true
             /\ exists rs, oracle k = SendThrows rs /\ rs <> 1)))
  /\ (forall k, In k pass.2 -> is_Some (clients w !! k))
  /\ after = removeAll pass.2 pass.1
  /\ (forall k, clients after !! k
               = if bool_decide (k ∈ pass.2) then None else clients w !! k).
Proof.
  intros pass after.
  destruct (fanOut_spec skip channel payload oracle w Hwf)
    as (Hpass & Hsame & Hcalls & _ & Hafter).
  fold pass in Hpass, Hsame, Hcalls.
  assert (Hmarks : pass.2 = flat_map (marksFor skip channel oracle w)
                                     (map_to_list (clients w))) by (by rewrite Hpass).
  split; [exact Hsame|]. split; [|split; [|split; [|split; [|split]]]].
  - intros k r Hk. rewrite Hcalls, in_callsFor. split.
    + intros (k' & He & Hel). apply elem_of_map_to_list in He.
      pose proof (Hwf k r Hk) as H1. pose proof (Hwf k' r He) as H2. simpl in *.
      rewrite H1 in H2. by injection H2 as ->.
    + intros Hel. exists k. split; [by apply elem_of_map_to_list|done].
  - intros oracle'.
    destruct (fanOut_spec skip channel payload oracle' w Hwf) as (_ & _ & -> & _).
    by rewrite Hcalls.
  - intros k r s Hk Hs Hskip. rewrite <- list_elem_of_In, Hmarks, in_marksFor. split.
    + intros (r' & He & Hm). apply elem_of_map_to_list in He.
      rewrite Hk in He. injection He as <-.
      unfold marked in Hm. simpl in Hm. rewrite Hs in Hm.
      apply andb_prop in Hm as [_ Hm].
      destruct (readyState s =? 1) eqn:Hopen; [|left; by apply Z.eqb_neq].
      right. apply andb_prop in Hm as [Hsub Hm]. split; [done|].
      destruct (oracle k) as [|rs]; [done|]. exists rs. split; [done|].
      by apply negb_true_iff, Z.eqb_neq in Hm.
    + intros Hcase. exists r. split; [by apply elem_of_map_to_list|].
      unfold marked. simpl. rewrite Hs.
      rewrite (bool_decide_eq_false_2 (skip = Some k)) by done. simpl.
      destruct Hcase as [Hclosed|(Hsub & rs & Hrs & Hne)].
      * apply Z.eqb_neq in Hclosed. by rewrite Hclosed.
      * destruct (readyState s =? 1); [|done]. rewrite Hsub, Hrs. simpl.
        by apply negb_true_iff, Z.eqb_neq.
  - intros k Hin. rewrite <- list_elem_of_In, Hmarks, in_marksFor in Hin.
    destruct Hin as (r & He & _). apply elem_of_map_to_list in He. eauto.
  - unfold after, pass, fanOut. by destruct (fanOutPass skip channel payload oracle w).
  - intros k. rewrite Hafter. by rewrite Hmarks.
Qed.

Lemma fanOut_failure_isolation_witness :
  let skip := Some (js "k3x9a2f7q") in
  let oracle := fun _ : jsstring => SendThrows 3 in
  registryWF listeningPeer
  /\ In (Send 1%nat hiPayload)
        (newCalls listeningPeer (fanOutPass skip (js "chat") hiPayload oracle listeningPeer).1)
  /\ In (js "m7p2w8d4z") (fanOutPass skip (js "chat") hiPayload oracle listeningPeer).2
  /\ clients (fanOutPass skip (js "chat") hiPayload oracle listeningPeer).1
     = clients listeningPeer.
Proof.
  cbv zeta.
  assert (Hwf : registryWF listeningPeer).
  { apply (bool_decide_eq_true_1 (registryWF listeningPeer)). vm_compute. reflexivity. }
  assert (Hk : clients listeningPeer !! js "m7p2w8d4z" = Some 1%nat)
    by (vm_compute; reflexivity).
  assert (Hs : heap listeningPeer !! 1%nat
               = Some (mkSession (js "m7p2w8d4z") (js "10.0.0.2") [JStr (js "chat")]
                                 true 0 None 1)) by (vm_compute; reflexivity).
  destruct (fanOut_failure_isolation (Some (js "k3x9a2f7q")) (js "chat") hiPayload
              (fun _ => SendThrows 3) listeningPeer Hwf)
    as (Hsame & Hcalls & _ & Hmarks & _).
  split; [exact Hwf|]. split; [|split].
  - apply (Hcalls _ _ Hk). vm_compute. reflexivity.
  - apply (Hmarks _ _ _ Hk Hs).
    + intros H. vm_compute in H. discriminate H.
    + right. split; [vm_compute; reflexivity|]. exists 3. split; [reflexivity|lia].
  - by destruct Hsame as [-> _].
Defined.

(** ** Timers: what cancelling preserves *)

Lemma socketKept_refl w ws o : socketKept w ws o o.
Proof. destruct o; simpl; auto. Qed.

Lemma shrinks_refl w : shrinks w w.
Proof. repeat split; try done. intros ws. apply socketKept_refl. Qed.

Lemma shrinks_trans w1 w2 w3 : shrinks w1 w2 -> shrinks w2 w3 -> shrinks w1 w3.
Proof.
  intros (Ht1 & Hh1 & Hn1 & Hc1 & Hs1) (Ht2 & Hh2 & Hn2 & Hc2 & Hs2).
  split; [by etrans|]. split; [by etrans|]. split; [congruence|]. split; [congruence|].
  intros ws. specialize (Hs1 ws). specialize (Hs2 ws). unfold socketKept in *.
  destruct (heap w1 !! ws) as [s1|], (heap w2 !! ws) as [s2|], (heap w3 !! ws) as [s3|];
    try done.
  destruct Hs1 as [Hid1 Hp1], Hs2 as [Hid2 Hp2]. split; [congruence|].
  destruct Hp2 as [Hp2|[Hp2 Hno]]; [|by right].
  destruct Hp1 as [Hp1|[Hp1 Hno]]; [left; congruence|].
  right. split; [congruence|]. intros h i d Hh.
  apply (Hno h i d). exact (lookup_weaken _ _ _ _ Hh Ht2).
Qed.

Lemma timersWF_shrinks w w' : timersWF w -> shrinks w w' -> timersWF w'.
Proof.
  intros Hwf (Hts & Hhs & Hn & Hc & Hs).
  assert (Hup : forall h tm, timers w' !! h = Some tm -> timers w !! h = Some tm)
    by (intros h tm H; exact (lookup_weaken _ _ _ _ H Hts)).
  assert (Hhb : forall k h, heartbeats w' !! k = Some h -> heartbeats w !! k = Some h)
    by (intros k h H; exact (lookup_weaken _ _ _ _ H Hhs)).
  assert (Hsock : forall ws s', heap w' !! ws = Some s' ->
            exists s, heap w !! ws = Some s /\ id s' = id s
                      /\ (pingTimeout s' = pingTimeout s
                          \/ (pingTimeout s' = None
                              /\ forall h i d, timers w' !! h <> Some (PongTimeout ws i d)))).
  { intros ws s' Hs'. specialize (Hs ws). rewrite Hs' in Hs. unfold socketKept in Hs.
    destruct (heap w !! ws) as [s|]; [|done]. exists s. tauto. }
  assert (Hsock' : forall ws s, heap w !! ws = Some s ->
            exists s', heap w' !! ws = Some s' /\ id s' = id s
                      /\ (pingTimeout s' = pingTimeout s
                          \/ (pingTimeout s' = None
                              /\ forall h i d, timers w' !! h <> Some (PongTimeout ws i d)))).
  { intros ws s Hs0. specialize (Hs ws). rewrite Hs0 in Hs. unfold socketKept in Hs.
    destruct (heap w' !! ws) as [s'|]; [|done]. exists s'. tauto. }
  constructor.
  - intros h tm Hh. rewrite Hn. eapply wf_fresh_timer; eauto.
  - intros k h Hk. rewrite Hn. eapply wf_fresh_heartbeat; eauto.
  - intros ws s' h Hs' Hp. rewrite Hn.
    destruct (Hsock ws s' Hs') as (s & Hs0 & _ & [Heq|[Heq _]]); [|congruence].
    eapply wf_fresh_ping; eauto. congruence.
  - intros h ws i d Hh. rewrite Hn. eapply wf_fresh_captured; eauto.
  - intros h ws i d Hh.
    pose proof (wf_pending_is_field w Hwf h ws i d (Hup _ _ Hh)) as Hf.
    destruct (heap w !! ws) as [s|] eqn:Hs0; [|done]. simpl in Hf.
    destruct (Hsock' ws s Hs0) as (s' & -> & _ & [Heq|[_ Hno]]); simpl.
    + congruence.
    + by destruct (Hno h i d).
  - intros ws s' h tm Hs' Hp Hh.
    destruct (Hsock ws s' Hs') as (s & Hs0 & _ & [Heq|[Heq _]]); [|congruence].
    eapply wf_field_is_own; eauto. congruence.
  - intros h ws i d tm Hh Hi. eapply wf_captured_is_own; eauto.
  - intros k h tm Hk Hh.
    destruct (wf_heartbeat_is_own w Hwf k h tm (Hhb _ _ Hk) (Hup _ _ Hh))
      as (ws & d & -> & Hid).
    exists ws, d. split; [done|].
    destruct (heap w !! ws) as [s|] eqn:Hs0; [|done].
    destruct (Hsock' ws s Hs0) as (s' & -> & Hid' & _). simpl in *. congruence.
  - intros h ws d Hh.
    destruct (wf_owner w Hwf h ws d (Hup _ _ Hh)) as [s Hs0].
    destruct (Hsock' ws s Hs0) as (s' & -> & _). eauto.
  - intros h h' ws d d' Hh Hh'. eapply wf_one_interval; eauto.
  - intros h ws d Hh. rewrite Hc. eapply wf_interval_soon; eauto.
Qed.

(** *** The primitives that only cancel *)

Lemma shrinks_clearTimer h w : shrinks w (clearTimer h w).
Proof.
  split; [apply delete_subseteq|]. repeat split; try done.
  intros ws. apply socketKept_refl.
Qed.

Lemma shrinks_deleteHeartbeat k w :
  shrinks w (setHeartbeats (delete k (heartbeats w)) w).
Proof.
  split; [done|]. split; [apply delete_subseteq|]. repeat split; try done.
  intros ws. apply socketKept_refl.
Qed.

Lemma shrinks_emit c w : shrinks w (emit c w).
Proof. repeat split; try done. intros ws. apply socketKept_refl. Qed.

Lemma shrinks_setImmediate t w : shrinks w (setImmediate t w).
Proof. repeat split; try done. intros ws. apply socketKept_refl. Qed.

Lemma shrinks_setImmediates t w : shrinks w (setImmediates t w).
Proof. repeat split; try done. intros ws. apply socketKept_refl. Qed.

Lemma shrinks_removeClient k w : shrinks w (removeClient k w).
Proof. repeat split; try done. intros ws. apply socketKept_refl. Qed.

Lemma shrinks_updateSocket ws f w :
  (forall s, id (f s) = id s) -> (forall s, pingTimeout (f s) = pingTimeout s) ->
  shrinks w (updateSocket ws f w).
Proof.
  intros Hid Hp. repeat split; try done. intros r. simpl.
  rewrite lookup_alter. case_decide; [subst|apply socketKept_refl].
  destruct (heap w !! r); simpl; auto.
Qed.

(** Dropping [pingTimeout] after its timer left the table. *)
Lemma shrinks_forgetPingTimeout ws w :
  timersWF w ->
  (forall s h, heap w !! ws = Some s -> pingTimeout s = Some h -> timers w !! h = None) ->
  shrinks w (updateSocket ws (setPingTimeout None) w).
Proof.
  intros Hwf Hgone. repeat split; try done. intros r. simpl.
  rewrite lookup_alter. case_decide; [subst|apply socketKept_refl].
  destruct (heap w !! r) as [s|] eqn:Hs; simpl; [|done]. split; [done|].
  right. split; [done|]. intros h i d Hh.
  pose proof (wf_pending_is_field w Hwf h r i d Hh) as Hf.
  rewrite Hs in Hf. simpl in Hf. injection Hf as Hf.
  by rewrite (Hgone s h eq_refl Hf) in Hh.
Qed.

Lemma shrinks_dropPingTimeout ws w : timersWF w -> shrinks w (dropPingTimeout ws w).
Proof.
  intros Hwf. unfold dropPingTimeout, withSocket.
  destruct (heap w !! ws) as [s|] eqn:Hs; [|apply shrinks_refl].
  destruct (pingTimeout s) as [t|] eqn:Hp; [|apply shrinks_refl].
  apply (shrinks_trans _ (clearTimer t w)); [apply shrinks_clearTimer|].
  apply shrinks_forgetPingTimeout.
  - eapply timersWF_shrinks; [done|apply shrinks_clearTimer].
  - intros s' h Hs' Hp'. simpl in *. rewrite Hs in Hs'. injection Hs' as <-.
    rewrite Hp in Hp'. injection Hp' as <-. apply lookup_delete_eq.
Qed.

Lemma shrinks_clearPingTimeout ws w : shrinks w (clearPingTimeout ws w).
Proof.
  unfold clearPingTimeout, withSocket.
  destruct (heap w !! ws) as [s|]; [|apply shrinks_refl].
  destruct (pingTimeout s); [apply shrinks_clearTimer|apply shrinks_refl].
Qed.

Lemma shrinks_dropHeartbeat k w : shrinks w (dropHeartbeat k w).
Proof.
  unfold dropHeartbeat. destruct (heartbeats w !! k) as [h|]; [|apply shrinks_refl].
  apply (shrinks_trans _ (clearTimer h w)); [apply shrinks_clearTimer|].
  apply (shrinks_deleteHeartbeat k (clearTimer h w)).
Qed.

(** *** The callbacks that only cancel *)

Ltac shrink_step :=
  lazymatch goal with
  | |- shrinks ?w ?w => apply shrinks_refl
  | |- shrinks ?w (emit ?c ?w') =>
      apply (shrinks_trans w w'); [|apply shrinks_emit]
  | |- shrinks ?w (setImmediate ?t ?w') =>
      apply (shrinks_trans w w'); [|apply shrinks_setImmediate]
  | |- shrinks ?w (setImmediates ?t ?w') =>
      apply (shrinks_trans w w'); [|apply shrinks_setImmediates]
  | |- shrinks ?w (removeClient ?k ?w') =>
      apply (shrinks_trans w w'); [|apply shrinks_removeClient]
  | |- shrinks ?w (clearTimer ?h ?w') =>
      apply (shrinks_trans w w'); [|apply shrinks_clearTimer]
  | |- shrinks ?w (dropHeartbeat ?k ?w') =>
      apply (shrinks_trans w w'); [|apply shrinks_dropHeartbeat]
  | |- shrinks ?w (clearPingTimeout ?ws ?w') =>
      apply (shrinks_trans w w'); [|apply shrinks_clearPingTimeout]
  | |- shrinks ?w (setHeartbeats (delete ?k (heartbeats ?w')) ?w') =>
      apply (shrinks_trans w w'); [|apply shrinks_deleteHeartbeat]
  | |- shrinks ?w (updateSocket ?ws (setIsAlive ?b) ?w') =>
      apply (shrinks_trans w w'); [|by apply shrinks_updateSocket]
  | |- shrinks ?w (updateSocket ?ws (setSubscriptions ?b) ?w') =>
      apply (shrinks_trans w w'); [|by apply shrinks_updateSocket]
  | |- shrinks ?w (updateSocket ?ws (setReadyState ?b) ?w') =>
      apply (shrinks_trans w w'); [|by apply shrinks_updateSocket]
  | |- shrinks ?w (dropPingTimeout ?ws ?w') =>
      let H := fresh "Hshrink" in
      assert (H : shrinks w w');
      [|apply (shrinks_trans w w' _ H); apply shrinks_dropPingTimeout;
        eapply timersWF_shrinks; eassumption]
  end.

Lemma shrinks_onMessage ws parsed w : shrinks w (onMessage ws parsed w).
Proof.
  unfold onMessage, handleWebSocketMessage, handleChatMessage, handleDrawing,
    handleSubscription, withSocket.
  repeat case_match; repeat shrink_step.
Qed.

Lemma shrinks_onPong ws w : timersWF w -> shrinks w (onPong ws w).
Proof. intros Hwf. unfold onPong. repeat shrink_step. Qed.

Lemma shrinks_onClose ws w : timersWF w -> shrinks w (onClose ws w).
Proof.
  intros Hwf. unfold onClose, withSocket. case_match; repeat shrink_step.
Qed.

Lemma shrinks_onError ws w : shrinks w (onError ws w).
Proof. unfold onError, withSocket. case_match; repeat shrink_step. Qed.

Lemma shrinks_reapOnTick h ws w : timersWF w -> shrinks w (reapOnTick h ws w).
Proof.
  intros Hwf. unfold reapOnTick, withSocket. case_match; repeat shrink_step.
Qed.

Lemma shrinks_pongTimeoutFired h ws i d w :
  timersWF w -> timers w !! h = Some (PongTimeout ws i d) ->
  shrinks w (pongTimeoutFired i ws (clearTimer h w)).
Proof.
  intros Hwf Hh. unfold pongTimeoutFired, withSocket.
  destruct (heap (clearTimer h w) !! ws) as [s|] eqn:Hs; [|repeat shrink_step].
  case_match; [|repeat shrink_step].
  shrink_step.
  match goal with
  | |- shrinks w (updateSocket ws (setPingTimeout None) ?w') =>
      assert (Hshrink : shrinks w w') by repeat shrink_step;
      apply (shrinks_trans w w' _ Hshrink)
  end.
  apply shrinks_forgetPingTimeout; [by eapply timersWF_shrinks|].
  simpl. intros s' h' Hs' Hp'. simpl in Hs. rewrite Hs in Hs'. injection Hs' as <-.
  pose proof (wf_pending_is_field w Hwf h ws i d Hh) as Hf.
  rewrite Hs in Hf. simpl in Hf. rewrite Hp' in Hf. injection Hf as ->.
  simpl. rewrite lookup_delete. case_decide; [done|]. apply lookup_delete_eq.
Qed.

Lemma shrinks_visit skip channel payload oracle w rem e :
  shrinks w (visit skip channel payload oracle (w, rem) e).1.
Proof.
  unfold visit. destruct e as [k r]. repeat case_match; simpl; repeat shrink_step.
Qed.

Lemma shrinks_pass skip channel payload oracle l : forall w rem,
  shrinks w (foldl (visit skip channel payload oracle) (w, rem) l).1.
Proof.
  induction l as [|e l IH]; intros w rem; [apply shrinks_refl|].
  rewrite foldl_step.
  pose proof (shrinks_visit skip channel payload oracle w rem e) as Hv.
  destruct (visit skip channel payload oracle (w, rem) e) as [w1 rem1].
  apply (shrinks_trans _ w1); [done|apply IH].
Qed.

Lemma shrinks_removeAll l : forall w, shrinks w (removeAll l w).
Proof.
  unfold removeAll. induction l as [|k l IH]; intros w; [apply shrinks_refl|].
  simpl. apply (shrinks_trans _ (removeClient k w)); [apply shrinks_removeClient|apply IH].
Qed.

Lemma shrinks_fanOut skip channel payload oracle w :
  shrinks w (fanOut skip channel payload oracle w).
Proof.
  unfold fanOut, fanOutPass.
  pose proof (shrinks_pass skip channel payload oracle (map_to_list (clients w)) w []) as Hp.
  destruct (foldl _ _ _) as [w' rem]. simpl in Hp.
  apply (shrinks_trans _ w'); [done|apply shrinks_removeAll].
Qed.

Lemma shrinks_runTask t oracle w : shrinks w (runTask t oracle w).
Proof.
  destruct t; simpl; unfold withSocket, broadcastMetrics, broadcastChatMessage;
    repeat case_match; try apply shrinks_fanOut; repeat shrink_step.
Qed.

Lemma shrinks_recordRequest w w' : recordRequest w = Some w' -> shrinks w w'.
Proof.
  unfold recordRequest, withStatsLock. simpl. destruct (statsLock w); [done|].
  intros [= <-]. repeat split; try done. intros ws. apply socketKept_refl.
Qed.

Lemma shrinks_metricsTick w w' : metricsTick w = Some w' -> shrinks w w'.
Proof.
  unfold metricsTick, withStatsLock. destruct (statsLock w); [done|].
  intros [= <-]. repeat split; try done. intros ws. apply socketKept_refl.
Qed.

(** *** The callbacks that arm timers *)

(** Splits a hypothesis about a lookup after an insertion. *)
Ltac split_insert H :=
  rewrite lookup_insert in H; case_decide; simplify_eq.

Lemma timersWF_initial t0 : timersWF (initialWorld t0).
Proof. constructor; simpl; intros; simplify_map_eq. Qed.

(** An interval that fired is due again one period later. *)
Lemma timersWF_rearm h ws d w :
  timersWF w -> timers w !! h = Some (HeartbeatInterval ws d) ->
  timersWF (setTimers (<[h := HeartbeatInterval ws (clock w + HEARTBEAT_INTERVAL)]> (timers w)) w).
Proof.
  intros Hwf Hh. unfold HEARTBEAT_INTERVAL.
  constructor; simpl.
  - intros h' tm H. split_insert H; eapply wf_fresh_timer; eauto.
  - apply Hwf.
  - apply Hwf.
  - intros h' ws' i d' H. split_insert H. eapply wf_fresh_captured; eauto.
  - intros h' ws' i d' H. split_insert H. eapply wf_pending_is_field; eauto.
  - intros ws' s h' tm Hs Hp H. split_insert H.
    + destruct (wf_field_is_own w Hwf ws' s h' _ Hs Hp Hh) as (? & ? & ?). done.
    + eapply wf_field_is_own; eauto.
  - intros h' ws' i d' tm H Hi. split_insert H. split_insert Hi.
    + destruct (wf_captured_is_own w Hwf h' ws' i d' _ H Hh) as (d'' & [= <- _]). eauto.
    + eapply wf_captured_is_own; eauto.
  - intros k h' tm Hk H. split_insert H.
    + destruct (wf_heartbeat_is_own w Hwf k h' _ Hk Hh) as (ws' & d' & [= <- _] & Hid). eauto.
    + eapply wf_heartbeat_is_own; eauto.
  - intros h' ws' d' H. split_insert H; eapply wf_owner; eauto.
  - intros h1 h2 ws' d1 d2 H1 H2. split_insert H1; split_insert H2; try done.
    + eapply wf_one_interval; eauto.
    + eapply wf_one_interval; eauto.
    + eapply wf_one_interval; eauto.
  - intros h' ws' d' H. split_insert H; [unfold HEARTBEAT_INTERVAL; lia|].
    eapply wf_interval_soon; eauto.
Qed.

(** The probe arms a pong timeout on a socket whose previous one, if any,
    has left the table, and stores it in [pingTimeout]. *)
Lemma timersWF_armPong h ws d s w :
  timersWF w -> heap w !! ws = Some s ->
  (forall t, pingTimeout s = Some t -> timers w !! t = None) ->
  timers w !! h = Some (HeartbeatInterval ws d) ->
  timersWF (updateSocket ws (setPingTimeout (Some (nextHandle w)))
              (armTimer (PongTimeout ws h (clock w + PING_TIMEOUT)) w).2).
Proof.
  intros Hwf Hs Hgone Hh. unfold PING_TIMEOUT.
  pose proof (wf_fresh_timer w Hwf h _ Hh) as Hhn.
  assert (Hfresh : timers w !! nextHandle w = None).
  { destruct (timers w !! nextHandle w) as [tm|] eqn:E; [|done].
    pose proof (wf_fresh_timer w Hwf _ _ E). lia. }
  constructor; simpl.
  - intros h' tm H. split_insert H; [lia|].
    pose proof (wf_fresh_timer w Hwf _ _ H). lia.
  - intros k h' H. pose proof (wf_fresh_heartbeat w Hwf _ _ H). lia.
  - intros ws' s' h' Hs' Hp. rewrite lookup_alter in Hs'. case_decide; subst.
    + rewrite Hs in Hs'. simpl in Hs'. injection Hs' as <-. simpl in Hp.
      injection Hp as <-. lia.
    + pose proof (wf_fresh_ping w Hwf _ _ _ Hs' Hp). lia.
  - intros h' ws' i d' H. split_insert H; [lia|].
    pose proof (wf_fresh_captured w Hwf _ _ _ _ H). lia.
  - intros h' ws' i d' H. rewrite lookup_alter. split_insert H.
    + rewrite decide_True by done. by rewrite Hs.
    + pose proof (wf_pending_is_field w Hwf _ _ _ _ H) as Hf.
      case_decide; [subst|done]. rewrite Hs in Hf. simpl in Hf. injection Hf as Hf.
      by rewrite (Hgone _ Hf) in H.
  - intros ws' s' h' tm Hs' Hp H. rewrite lookup_alter in Hs'. case_decide; subst.
    + rewrite Hs in Hs'. simpl in Hs'. injection Hs' as <-. simpl in Hp.
      injection Hp as <-. rewrite lookup_insert_eq in H. injection H as <-. eauto.
    + pose proof (wf_fresh_ping w Hwf _ _ _ Hs' Hp).
      rewrite lookup_insert_ne in H by lia. eapply wf_field_is_own; eauto.
  - intros h' ws' i d' tm H Hi. split_insert H.
    + rewrite lookup_insert_ne in Hi by lia. rewrite Hh in Hi. injection Hi as <-. eauto.
    + pose proof (wf_fresh_captured w Hwf _ _ _ _ H).
      rewrite lookup_insert_ne in Hi by lia. eapply wf_captured_is_own; eauto.
  - intros k h' tm Hk H. pose proof (wf_fresh_heartbeat w Hwf _ _ Hk).
    rewrite lookup_insert_ne in H by lia.
    destruct (wf_heartbeat_is_own w Hwf _ _ _ Hk H) as (ws' & d' & -> & Hid).
    exists ws', d'. split; [done|]. by rewrite lookup_alter_id.
  - intros h' ws' d' H. split_insert H.
    destruct (wf_owner w Hwf _ _ _ H) as [s' Hs'].
    rewrite lookup_alter. case_decide; subst; rewrite ?Hs; simpl; eauto.
  - intros h1 h2 ws' d1 d2 H1 H2. split_insert H1. split_insert H2.
    eapply wf_one_interval; eauto.
  - intros h' ws' d' H. split_insert H. eapply wf_interval_soon; eauto.
Qed.

(** An admission: a new socket object, its interval, its heartbeat entry. *)
Lemma timersWF_onConnection ws clientId ip w :
  timersWF w -> heap w !! ws = None -> timersWF (onConnection ws clientId ip w).
Proof.
  intros Hwf Hnew. unfold onConnection.
  destruct (MAX_CONNECTIONS <=? Z.of_nat (size (clients w))).
  { eapply timersWF_shrinks; [done|apply shrinks_emit]. }
  assert (Hfresh : timers w !! nextHandle w = None).
  { destruct (timers w !! nextHandle w) as [tm|] eqn:E; [|done].
    pose proof (wf_fresh_timer w Hwf _ _ E). lia. }
  unfold HEARTBEAT_INTERVAL. constructor; simpl.
  - intros h' tm H. split_insert H; [lia|].
    pose proof (wf_fresh_timer w Hwf _ _ H). lia.
  - intros k h' H. split_insert H; [lia|].
    pose proof (wf_fresh_heartbeat w Hwf _ _ H). lia.
  - intros ws' s' h' Hs' Hp. split_insert Hs'.
    pose proof (wf_fresh_ping w Hwf _ _ _ Hs' Hp). lia.
  - intros h' ws' i d' H. split_insert H.
    pose proof (wf_fresh_captured w Hwf _ _ _ _ H). lia.
  - intros h' ws' i d' H. split_insert H.
    pose proof (wf_pending_is_field w Hwf _ _ _ _ H) as Hf.
    rewrite lookup_insert. case_decide; [subst|done]. by rewrite Hnew in Hf.
  - intros ws' s' h' tm Hs' Hp H. split_insert Hs'.
    pose proof (wf_fresh_ping w Hwf _ _ _ Hs' Hp).
    rewrite lookup_insert_ne in H by lia. eapply wf_field_is_own; eauto.
  - intros h' ws' i d' tm H Hi. split_insert H.
    pose proof (wf_fresh_captured w Hwf _ _ _ _ H).
    rewrite lookup_insert_ne in Hi by lia. eapply wf_captured_is_own; eauto.
  - intros k h' tm Hk H. split_insert Hk.
    + rewrite lookup_insert_eq in H. injection H as <-.
      eexists _, _. split; [done|]. by rewrite lookup_insert_eq.
    + pose proof (wf_fresh_heartbeat w Hwf _ _ Hk).
      rewrite lookup_insert_ne in H by lia.
      destruct (wf_heartbeat_is_own w Hwf _ _ _ Hk H) as (ws' & d' & -> & Hid).
      exists ws', d'. split; [done|]. rewrite lookup_insert_ne; [done|].
      intros <-. by rewrite Hnew in Hid.
  - intros h' ws' d' H. split_insert H.
    + rewrite lookup_insert_eq. eauto.
    + destruct (wf_owner w Hwf _ _ _ H) as [s' Hs'].
      rewrite lookup_insert_ne; [eauto|]. intros <-. by rewrite Hnew in Hs'.
  - intros h1 h2 ws' d1 d2 H1 H2. split_insert H1; split_insert H2; try done.
    + destruct (wf_owner w Hwf _ _ _ H2) as [s' Hs']. by rewrite Hnew in Hs'.
    + destruct (wf_owner w Hwf _ _ _ H1) as [s' Hs']. by rewrite Hnew in Hs'.
    + eapply wf_one_interval; eauto.
  - intros h' ws' d' H. split_insert H; [unfold HEARTBEAT_INTERVAL; lia|].
    eapply wf_interval_soon; eauto.
Qed.

(** Time moves on. *)
Lemma timersWF_advance t w : timersWF w -> clock w <= t -> timersWF (setClock t w).
Proof.
  intros Hwf Hle. constructor; simpl; try apply Hwf.
  intros h ws d H. pose proof (wf_interval_soon w Hwf _ _ _ H).
  unfold HEARTBEAT_INTERVAL in *. lia.
Qed.

(** *** Every event keeps the timers well formed *)

Lemma let_armTimer {A} tm w (k : handle -> World -> A) :
  (let '(t, w') := armTimer tm w in k t w') = k (nextHandle w) (armTimer tm w).2.
Proof. reflexivity. Qed.

Lemma clearPingTimeout_heap ws w : heap (clearPingTimeout ws w) = heap w.
Proof.
  unfold clearPingTimeout, withSocket. destruct (heap w !! ws) as [s|]; [|done].
  by destruct (pingTimeout s).
Qed.

Lemma clearPingTimeout_gone ws s t w :
  heap w !! ws = Some s -> pingTimeout s = Some t ->
  timers (clearPingTimeout ws w) !! t = None.
Proof.
  intros Hs Hp. unfold clearPingTimeout, withSocket. rewrite Hs, Hp. simpl.
  apply lookup_delete_eq.
Qed.

Lemma clearPingTimeout_interval ws h r d w :
  timersWF w -> timers w !! h = Some (HeartbeatInterval r d) ->
  timers (clearPingTimeout ws w) !! h = Some (HeartbeatInterval r d).
Proof.
  intros Hwf Hh. unfold clearPingTimeout, withSocket.
  destruct (heap w !! ws) as [s|] eqn:Hs; [|done].
  destruct (pingTimeout s) as [t|] eqn:Hp; [|done]. simpl.
  rewrite lookup_delete_ne; [done|]. intros ->.
  destruct (wf_field_is_own w Hwf ws s h _ Hs Hp Hh) as (? & ? & ?). done.
Qed.

Lemma timersWF_heartbeatTick h ws d p w :
  timersWF w -> timers w !! h = Some (HeartbeatInterval ws d) ->
  timersWF (heartbeatTick h ws p w).
Proof.
  intros Hwf Hh. unfold heartbeatTick, withSocket.
  destruct (heap w !! ws) as [s|] eqn:Hs; [|done].
  destruct (isAlive s); cbn [negb]; cbv zeta.
  2:{ eapply timersWF_shrinks; [done|by apply shrinks_reapOnTick]. }
  set (w1 := emit (Ping ws) (updateSocket ws (setIsAlive false) w)).
  assert (Hwf1 : timersWF w1).
  { eapply timersWF_shrinks; [done|]. unfold w1. repeat shrink_step. }
  destruct p.
  { eapply timersWF_shrinks; [done|by apply shrinks_reapOnTick]. }
  rewrite let_armTimer.
  assert (Hs1 : heap w1 !! ws = Some (setIsAlive false s)).
  { unfold w1. simpl. rewrite lookup_alter_eq. by rewrite Hs. }
  eapply (timersWF_armPong h ws d (setIsAlive false s) (clearPingTimeout ws w1)).
  - eapply timersWF_shrinks; [done|apply shrinks_clearPingTimeout].
  - by rewrite clearPingTimeout_heap.
  - intros t Ht. by eapply clearPingTimeout_gone.
  - by apply clearPingTimeout_interval.
Qed.

Lemma timersWF_fireTimer h p w :
  timersWF w -> enabled (ETimer h p) w = true -> timersWF (fireTimer h p w).
Proof.
  intros Hwf Hen. unfold fireTimer. simpl in Hen.
  destruct (timers w !! h) as [[ws d|ws i d]|] eqn:Hh; [| |done].
  - eapply timersWF_heartbeatTick.
    + by eapply timersWF_rearm.
    + simpl. apply lookup_insert_eq.
  - eapply timersWF_shrinks; [done|]. by eapply shrinks_pongTimeoutFired.
Qed.

Lemma step_timersWF e w w' : timersWF w -> step e w = Some w' -> timersWF w'.
Proof.
  intros Hwf. unfold step. destruct (enabled e w) eqn:Hen; [|done].
  destruct e; simpl; intros Hf; try (injection Hf as <-).
  - apply timersWF_onConnection; [done|]. simpl in Hen.
    by apply bool_decide_eq_true in Hen.
  - eapply timersWF_shrinks; [done|apply shrinks_onMessage].
  - eapply timersWF_shrinks; [done|by apply shrinks_onPong].
  - eapply timersWF_shrinks; [done|by apply shrinks_onClose].
  - eapply timersWF_shrinks; [done|apply shrinks_onError].
  - eapply timersWF_shrinks; [done|by apply shrinks_updateSocket].
  - by apply timersWF_fireTimer.
  - destruct (immediates w) as [|t rest]; injection Hf as <-; [done|].
    eapply timersWF_shrinks; [done|].
    apply (shrinks_trans _ (setImmediates rest w));
      [apply shrinks_setImmediates|apply shrinks_runTask].
  - eapply timersWF_shrinks; [done|by apply shrinks_recordRequest].
  - eapply timersWF_shrinks; [done|by apply shrinks_metricsTick].
  - eapply timersWF_shrinks; [done|]. unfold broadcastMetrics. shrink_step. shrink_step.
  - simpl in Hen. apply Z.leb_le in Hen. by apply timersWF_advance.
Qed.

Lemma run_timersWF es t0 w : run es (initialWorld t0) = Some w -> timersWF w.
Proof. apply (run_invariant timersWF step_timersWF). apply timersWF_initial. Qed.

(** ** One pong timeout per socket *)

Lemma heap_updateSocket ws f w : heap (updateSocket ws f w) = alter f ws (heap w).
Proof. reflexivity. Qed.

Lemma timers_updateSocket ws f w : timers (updateSocket ws f w) = timers w.
Proof. reflexivity. Qed.

Lemma heap_armTimer tm w : heap (armTimer tm w).2 = heap w.
Proof. reflexivity. Qed.

Lemma timers_armTimer tm w :
  timers (armTimer tm w).2 = <[nextHandle w := tm]> (timers w).
Proof. reflexivity. Qed.

Lemma heap_emit c w : heap (emit c w) = heap w.
Proof. reflexivity. Qed.

Lemma clearPingTimeout_clock ws w : clock (clearPingTimeout ws w) = clock w.
Proof.
  unfold clearPingTimeout, withSocket. destruct (heap w !! ws) as [s|]; [|done].
  by destruct (pingTimeout s).
Qed.

Lemma clearPingTimeout_nextHandle ws w :
  nextHandle (clearPingTimeout ws w) = nextHandle w.
Proof.
  unfold clearPingTimeout, withSocket. destruct (heap w !! ws) as [s|]; [|done].
  by destruct (pingTimeout s).
Qed.

(** The interval of an alive socket fires and the probe goes out. *)
Lemma fireTimer_probe h ws d s w :
  timers w !! h = Some (HeartbeatInterval ws d) ->
  heap w !! ws = Some s -> isAlive s = true ->
  fireTimer h false w =
    updateSocket ws (setPingTimeout (Some (nextHandle w)))
      (armTimer (PongTimeout ws h (clock w + PING_TIMEOUT))
         (clearPingTimeout ws
            (emit (Ping ws)
               (updateSocket ws (setIsAlive false)
                  (setTimers (<[h := HeartbeatInterval ws (clock w + HEARTBEAT_INTERVAL)]>
                                (timers w))
                             w))))).2.
Proof.
  intros Hh Hs Halive. unfold fireTimer. rewrite Hh.
  unfold heartbeatTick, withSocket. simpl heap. rewrite Hs, Halive.
  cbn [negb]. cbv zeta. rewrite let_armTimer.
  by rewrite clearPingTimeout_clock, clearPingTimeout_nextHandle.
Qed.

Lemma onPong_socket ws s w :
  heap w !! ws = Some s ->
  heap (onPong ws w) !! ws = Some (setPingTimeout None (setIsAlive true s)).
Proof.
  intros Hs. unfold onPong. apply dropPingTimeout_socket.
  simpl. rewrite lookup_alter_eq. by rewrite Hs.
Qed.

Lemma dropPingTimeout_gone ws s t w :
  heap w !! ws = Some s -> pingTimeout s = Some t ->
  timers (dropPingTimeout ws w) !! t = None.
Proof.
  intros Hs Hp. unfold dropPingTimeout, withSocket. rewrite Hs, Hp. simpl.
  apply lookup_delete_eq.
Qed.

(** Claim C5.  In every world the server reaches, a socket has at most one
    pending pong timeout, and it is the one held in its [pingTimeout].  This
    follows from [timersWF] alone, which every world the server reaches
    satisfies, and so do worlds in which an alive socket still holds a
    pending timeout (in the worlds the server reaches an alive socket holds
    none, see [run_aliveIdle], so that there the tick finds nothing to
    cancel).  In every such world: when the interval of an alive socket fires,
    the timeout held in [pingTimeout] is cancelled, as is every pong timeout
    of the socket that was pending, and a new one, due [PING_TIMEOUT] later,
    is armed and stored: it is then the only one pending for the socket.  The
    pong handler sets [isAlive], cancels the timeout held in [pingTimeout] and
    clears the field: no pong timeout of the socket is pending after it. *)
Theorem one_pending_pong_timeout :
  (forall es t0 w, run es (initialWorld t0) = Some w -> timersWF w)
  /\ forall w, timersWF w ->
    (forall ws h1 h2 i1 i2 d1 d2,
        timers w !! h1 = Some (PongTimeout ws i1 d1) ->
        timers w !! h2 = Some (PongTimeout ws i2 d2) -> h1 = h2)
    /\ (forall ws h i d,
          timers w !! h = Some (PongTimeout ws i d) ->
          pingTimeout <$> heap w !! ws = Some (Some h))
    /\ (forall h ws d s,
          timers w !! h = Some (HeartbeatInterval ws d) -> d <= clock w ->
          heap w !! ws = Some s -> isAlive s = true ->
          let w' := fireTimer h false w in
          (forall t, pingTimeout s = Some t -> timers w' !! t = None)
          /\ (forall t i d', timers w !! t = Some (PongTimeout ws i d') ->
                             timers w' !! t = None)
          /\ pingTimeout <$> heap w' !! ws = Some (Some (nextHandle w))
          /\ timers w' !! nextHandle w = Some (PongTimeout ws h (clock w + PING_TIMEOUT))
          /\ (forall h' i d', timers w' !! h' = Some (PongTimeout ws i d') ->
                              h' = nextHandle w))
    /\ (forall ws s,
          heap w !! ws = Some s ->
          let w' := onPong ws w in
          (exists s', heap w' !! ws = Some s' /\ isAlive s' = true /\ pingTimeout s' = None)
          /\ (forall t, pingTimeout s = Some t -> timers w' !! t = None)
          /\ (forall h i d, timers w' !! h <> Some (PongTimeout ws i d))).
Proof.
  split; [exact run_timersWF|]. intros w Hwf.
  assert (Hfield : forall w ws h i d, timersWF w ->
            timers w !! h = Some (PongTimeout ws i d) ->
            pingTimeout <$> heap w !! ws = Some (Some h)).
  { intros w0 ws h i d Hwf0. apply (wf_pending_is_field w0 Hwf0). }
  split; [|split; [|split]].
  - intros ws h1 h2 i1 i2 d1 d2 H1 H2.
    pose proof (Hfield _ _ _ _ _ Hwf H1) as F1. pose proof (Hfield _ _ _ _ _ Hwf H2) as F2.
    congruence.
  - intros ws h i d. by apply Hfield.
  - intros h ws d s Hh Hd Hs Halive w'.
    assert (Hwf' : timersWF w').
    { apply timersWF_fireTimer; [done|]. simpl. rewrite Hh. simpl. by apply Z.leb_le. }
    assert (Hheap : pingTimeout <$> heap w' !! ws = Some (Some (nextHandle w))).
    { unfold w'. rewrite (fireTimer_probe _ _ _ _ _ Hh Hs Halive).
      rewrite heap_updateSocket, heap_armTimer, clearPingTimeout_heap, heap_emit,
        heap_updateSocket.
      rewrite !lookup_alter_eq. simpl. by rewrite Hs. }
    assert (Htimers : forall t, timers w' !! t =
              if decide (nextHandle w = t)
              then Some (PongTimeout ws h (clock w + PING_TIMEOUT))
              else timers (clearPingTimeout ws
                     (emit (Ping ws) (updateSocket ws (setIsAlive false)
                        (setTimers (<[h := HeartbeatInterval ws (clock w + HEARTBEAT_INTERVAL)]>
                                      (timers w)) w)))) !! t).
    { intros t. unfold w'. rewrite (fireTimer_probe _ _ _ _ _ Hh Hs Halive).
      rewrite timers_updateSocket, timers_armTimer, lookup_insert.
      by rewrite clearPingTimeout_nextHandle. }
    assert (Hgone : forall t, pingTimeout s = Some t -> timers w' !! t = None).
    { intros t Ht. rewrite Htimers.
      pose proof (wf_fresh_ping w Hwf ws s t Hs Ht) as Hlt.
      rewrite decide_False by lia.
      eapply (clearPingTimeout_gone ws (setIsAlive false s)); [|done].
      simpl. rewrite lookup_alter_eq. by rewrite Hs. }
    split; [exact Hgone|]. split; [|split; [done|split]].
    + intros t i d' Ht. apply Hgone.
      pose proof (Hfield _ _ _ _ _ Hwf Ht) as F. rewrite Hs in F. by injection F.
    + rewrite Htimers. by rewrite decide_True.
    + intros h' i d' Hh'. pose proof (Hfield _ _ _ _ _ Hwf' Hh') as F.
      rewrite Hheap in F. by injection F.
  - intros ws s Hs w'.
    pose proof (onPong_socket _ _ _ Hs) as Hs'. fold w' in Hs'.
    split; [eauto|]. split.
    + intros t Ht. unfold w', onPong.
      eapply (dropPingTimeout_gone ws (setIsAlive true s)); [|done].
      simpl. rewrite lookup_alter_eq. by rewrite Hs.
    + intros h i d Hh.
      assert (Hwf' : timersWF w').
      { eapply timersWF_shrinks; [done|by apply shrinks_onPong]. }
      pose proof (Hfield _ _ _ _ _ Hwf' Hh) as F. rewrite Hs' in F. done.
Qed.

Lemma one_pending_pong_timeout_witness :
  run probedEvents (initialWorld 0) = Some probedWorld
  /\ timers probedWorld !! 1%nat = Some (PongTimeout 0%nat 0%nat 40000)
  /\ pingTimeout <$> heap probedWorld !! 0%nat = Some (Some 1%nat)
  /\ (forall h i d, timers (onPong 0%nat probedWorld) !! h <> Some (PongTimeout 0%nat i d))
  /\ timersWF staleWorld
  /\ heap staleWorld !! 0%nat
     = Some (mkSession (js "k3x9a2f7q") (js "10.0.0.1") [] true 0 (Some 1%nat) 1)
  /\ timers staleWorld !! 1%nat = Some (PongTimeout 0%nat 0%nat 40000)
  /\ timers (fireTimer 0%nat false staleWorld) !! 1%nat = None
  /\ timers (fireTimer 0%nat false staleWorld) !! 2%nat
     = Some (PongTimeout 0%nat 0%nat 70000)
  /\ (forall h' i d', timers (fireTimer 0%nat false staleWorld) !! h'
                        = Some (PongTimeout 0%nat i d') -> h' = 2%nat).
Proof.
  assert (Hrun : run probedEvents (initialWorld 0) = Some probedWorld)
    by (vm_compute; reflexivity).
  assert (Ht : timers probedWorld !! 1%nat = Some (PongTimeout 0%nat 0%nat 40000))
    by (vm_compute; reflexivity).
  assert (Hs : heap probedWorld !! 0%nat
               = Some (mkSession (js "k3x9a2f7q") (js "10.0.0.1") [] false 0 (Some 1%nat) 1))
    by (vm_compute; reflexivity).
  destruct one_pending_pong_timeout as (Hreach & Hall).
  pose proof (Hreach _ _ _ Hrun) as Hwf.
  destruct (Hall probedWorld Hwf) as (_ & Hfield & _ & Hpong).
  assert (Hwfs : timersWF staleWorld).
  { unfold staleWorld. apply timersWF_advance; [|vm_compute; discriminate].
    apply (timersWF_shrinks probedWorld); [exact Hwf|].
    apply shrinks_updateSocket; intros []; reflexivity. }
  assert (Hss : heap staleWorld !! 0%nat
                = Some (mkSession (js "k3x9a2f7q") (js "10.0.0.1") [] true 0 (Some 1%nat) 1))
    by (vm_compute; reflexivity).
  assert (Hts : timers staleWorld !! 1%nat = Some (PongTimeout 0%nat 0%nat 40000))
    by (vm_compute; reflexivity).
  assert (Hi : timers staleWorld !! 0%nat = Some (HeartbeatInterval 0%nat 60000))
    by (vm_compute; reflexivity).
  assert (Hd : 60000 <= clock staleWorld) by (vm_compute; discriminate).
  destruct (Hall staleWorld Hwfs) as (_ & _ & Htick & _).
  destruct (Htick 0%nat 0%nat 60000 _ Hi Hd Hss eq_refl)
    as (_ & Hcancel & _ & Harmed & Honly).
  split; [exact Hrun|]. split; [exact Ht|]. split; [exact (Hfield _ _ _ _ Ht)|].
  split; [exact (proj2 (proj2 (Hpong _ _ Hs)))|].
  split; [exact Hwfs|]. split; [exact Hss|]. split; [exact Hts|].
  split; [exact (Hcancel _ _ _ Hts)|]. split; [exact Harmed|exact Honly].
Defined.

(** ** What an event on one socket leaves of another *)

Section Keeps.
Variable r : ref.
Variable clientId : jsstring.

Lemma keeps_refl w : keeps r clientId w w.
Proof. by repeat split. Qed.

Lemma keeps_trans w1 w2 w3 :
  keeps r clientId w1 w2 -> keeps r clientId w2 w3 -> keeps r clientId w1 w3.
Proof.
  intros (Hv1 & Ht1 & Hh1) (Hv2 & Ht2 & Hh2).
  split; [congruence|]. split; [|congruence].
  intros h tm Ho. rewrite (Ht2 h tm Ho). by apply Ht1.
Qed.

Lemma keeps_emit c w : keeps r clientId w (emit c w).
Proof. by repeat split. Qed.

Lemma keeps_setImmediate t w : keeps r clientId w (setImmediate t w).
Proof. by repeat split. Qed.

Lemma keeps_setImmediates t w : keeps r clientId w (setImmediates t w).
Proof. by repeat split. Qed.

Lemma keeps_removeClient k w : keeps r clientId w (removeClient k w).
Proof. by repeat split. Qed.

Lemma keeps_setClock t w : keeps r clientId w (setClock t w).
Proof. by repeat split. Qed.

(** A cancelled timer was stale or another socket's. *)
Lemma keeps_clearTimer h w :
  (forall tm, timers w !! h = Some tm -> owner tm <> r) ->
  keeps r clientId w (clearTimer h w).
Proof.
  intros Hother. split; [done|]. split; [|done].
  intros h' tm Ho. simpl. rewrite lookup_delete. case_decide; [subst|done].
  split; [done|]. intros Hh. by destruct (Hother tm Hh).
Qed.

Lemma keeps_updateOther ws f w : ws <> r -> keeps r clientId w (updateSocket ws f w).
Proof.
  intros Hne. split; [|done]. simpl. by rewrite lookup_alter_ne.
Qed.

Lemma keeps_updateVitals ws f w :
  (forall s, vitals (f s) = vitals s) -> keeps r clientId w (updateSocket ws f w).
Proof.
  intros Hf. split; [|done]. simpl. rewrite lookup_alter.
  case_decide; [subst|done]. destruct (heap w !! r); simpl; [by rewrite Hf|done].
Qed.

Lemma keeps_updateSame ws f w :
  (ws = r -> forall s, heap w !! r = Some s -> vitals (f s) = vitals s) ->
  keeps r clientId w (updateSocket ws f w).
Proof.
  intros Hf. split; [|done]. simpl. rewrite lookup_alter.
  case_decide; [subst|done].
  destruct (heap w !! r) as [s|] eqn:Hs; simpl; [|done]. by rewrite (Hf eq_refl s).
Qed.

Lemma keeps_deleteHeartbeat k w :
  k <> clientId -> keeps r clientId w (setHeartbeats (delete k (heartbeats w)) w).
Proof.
  intros Hne. split; [done|]. split; [done|]. simpl. by rewrite lookup_delete_ne.
Qed.

(** A timer armed for another socket on a fresh handle. *)
Lemma keeps_armTimer tm w :
  timers w !! nextHandle w = None -> owner tm <> r ->
  keeps r clientId w (armTimer tm w).2.
Proof.
  intros Hfresh Ho. split; [done|]. split; [|done].
  intros h tm' Ho'. simpl. rewrite lookup_insert. case_decide; [subst|done].
  rewrite Hfresh. split; [|done]. intros [= <-]. done.
Qed.

(** The interval of another socket due again. *)
Lemma keeps_rearm h ws d d' w :
  timers w !! h = Some (HeartbeatInterval ws d) -> ws <> r ->
  keeps r clientId w (setTimers (<[h := HeartbeatInterval ws d']> (timers w)) w).
Proof.
  intros Hh Hne. split; [done|]. split; [|done].
  intros h' tm Ho. simpl. rewrite lookup_insert. case_decide; [subst|done].
  rewrite Hh. split; intros [= <-]; done.
Qed.

Lemma keeps_dropPingTimeout ws w :
  timersWF w -> ws <> r -> keeps r clientId w (dropPingTimeout ws w).
Proof.
  intros Hwf Hne. unfold dropPingTimeout, withSocket.
  destruct (heap w !! ws) as [s|] eqn:Hs; [|apply keeps_refl].
  destruct (pingTimeout s) as [t|] eqn:Hp; [|apply keeps_refl].
  apply (keeps_trans _ (clearTimer t w)); [|by apply keeps_updateOther].
  apply keeps_clearTimer. intros tm Ht.
  destruct (wf_field_is_own w Hwf ws s t tm Hs Hp Ht) as (i & d & ->). done.
Qed.

Lemma keeps_clearPingTimeout ws w :
  timersWF w -> ws <> r -> keeps r clientId w (clearPingTimeout ws w).
Proof.
  intros Hwf Hne. unfold clearPingTimeout, withSocket.
  destruct (heap w !! ws) as [s|] eqn:Hs; [|apply keeps_refl].
  destruct (pingTimeout s) as [t|] eqn:Hp; [|apply keeps_refl].
  apply keeps_clearTimer. intros tm Ht.
  destruct (wf_field_is_own w Hwf ws s t tm Hs Hp Ht) as (i & d & ->). done.
Qed.

Lemma keeps_dropHeartbeat k w :
  timersWF w -> soleId r clientId w -> k <> clientId ->
  keeps r clientId w (dropHeartbeat k w).
Proof.
  intros Hwf Hsole Hne. unfold dropHeartbeat.
  destruct (heartbeats w !! k) as [hb|] eqn:Hk; [|apply keeps_refl].
  apply (keeps_trans _ (clearTimer hb w));
    [|by apply (keeps_deleteHeartbeat k (clearTimer hb w))].
  apply keeps_clearTimer. intros tm Ht.
  destruct (wf_heartbeat_is_own w Hwf k hb tm Hk Ht) as (ws & d & -> & Hid).
  simpl. intros ->. apply Hne.
  pose proof (proj2 (Hsole r) eq_refl) as Hr. congruence.
Qed.
End Keeps.

Section KeepsCallbacks.
Variable r : ref.
Variable clientId : jsstring.

Ltac keep_step :=
  lazymatch goal with
  | |- keeps _ _ ?w ?w => apply keeps_refl
  | |- keeps _ _ ?w (emit ?c ?w') =>
      apply (keeps_trans _ _ w w'); [|apply keeps_emit]
  | |- keeps _ _ ?w (setImmediate ?t ?w') =>
      apply (keeps_trans _ _ w w'); [|apply keeps_setImmediate]
  | |- keeps _ _ ?w (setImmediates ?t ?w') =>
      apply (keeps_trans _ _ w w'); [|apply keeps_setImmediates]
  | |- keeps _ _ ?w (removeClient ?k ?w') =>
      apply (keeps_trans _ _ w w'); [|apply keeps_removeClient]
  | |- keeps _ _ ?w (updateSocket ?ws (setSubscriptions ?v) ?w') =>
      apply (keeps_trans _ _ w w'); [|by apply keeps_updateVitals]
  end.

Lemma keeps_onMessage ws parsed w : keeps r clientId w (onMessage ws parsed w).
Proof.
  unfold onMessage, handleWebSocketMessage, handleChatMessage, handleDrawing,
    handleSubscription, withSocket.
  repeat case_match; repeat keep_step.
Qed.

Lemma soleId_other ws s w :
  soleId r clientId w -> heap w !! ws = Some s -> ws <> r -> id s <> clientId.
Proof.
  intros Hsole Hs Hne Hid. apply Hne, (Hsole ws). by rewrite Hs, <- Hid.
Qed.

Lemma keeps_onPong ws w :
  timersWF w -> ws <> r -> keeps r clientId w (onPong ws w).
Proof.
  intros Hwf Hne. unfold onPong.
  apply (keeps_trans _ _ _ (updateSocket ws (setIsAlive true) w));
    [by apply keeps_updateOther|].
  apply keeps_dropPingTimeout; [|done].
  eapply timersWF_shrinks; [done|by apply shrinks_updateSocket].
Qed.

Lemma keeps_onClose ws w :
  timersWF w -> soleId r clientId w -> ws <> r -> keeps r clientId w (onClose ws w).
Proof.
  intros Hwf Hsole Hne. unfold onClose, withSocket.
  destruct (heap w !! ws) as [s|] eqn:Hs; [|apply keeps_refl].
  do 3 keep_step.
  apply (keeps_trans _ _ _ (dropHeartbeat (id s) w)).
  - apply keeps_dropHeartbeat; [done|done|by eapply soleId_other].
  - apply keeps_dropPingTimeout; [|done].
    eapply timersWF_shrinks; [done|apply shrinks_dropHeartbeat].
Qed.

Lemma keeps_onError ws w :
  timersWF w -> soleId r clientId w -> ws <> r -> keeps r clientId w (onError ws w).
Proof.
  intros Hwf Hsole Hne. unfold onError, withSocket.
  destruct (heap w !! ws) as [s|] eqn:Hs; [|apply keeps_refl].
  keep_step. apply keeps_dropHeartbeat; [done|done|by eapply soleId_other].
Qed.

Lemma keeps_reapOnTick h ws d w :
  timersWF w -> soleId r clientId w -> ws <> r ->
  timers w !! h = Some (HeartbeatInterval ws d) ->
  keeps r clientId w (reapOnTick h ws w).
Proof.
  intros Hwf Hsole Hne Hh. unfold reapOnTick, withSocket.
  destruct (heap w !! ws) as [s|] eqn:Hs; [|apply keeps_refl].
  keep_step.
  assert (Hk1 : keeps r clientId w (clearTimer h w)).
  { apply keeps_clearTimer. intros tm. rewrite Hh. by intros [= <-]. }
  assert (Hwf1 : timersWF (clearTimer h w)).
  { eapply timersWF_shrinks; [done|apply shrinks_clearTimer]. }
  assert (Hk2 : keeps r clientId w (dropPingTimeout ws (clearTimer h w))).
  { apply (keeps_trans _ _ _ (clearTimer h w)); [done|].
    by apply keeps_dropPingTimeout. }
  apply (keeps_trans _ _ _ _ _ Hk2).
  apply (keeps_deleteHeartbeat r clientId (id s) (dropPingTimeout ws (clearTimer h w))).
  by eapply soleId_other.
Qed.

Lemma keeps_heartbeatTick h ws d p w :
  timersWF w -> soleId r clientId w -> ws <> r ->
  timers w !! h = Some (HeartbeatInterval ws d) ->
  keeps r clientId w (heartbeatTick h ws p w).
Proof.
  intros Hwf Hsole Hne Hh. unfold heartbeatTick, withSocket.
  destruct (heap w !! ws) as [s|] eqn:Hs; [|apply keeps_refl].
  destruct (isAlive s); cbn [negb]; cbv zeta.
  2:{ by eapply keeps_reapOnTick. }
  set (w1 := emit (Ping ws) (updateSocket ws (setIsAlive false) w)).
  assert (Hsh1 : shrinks w w1) by (unfold w1; repeat shrink_step).
  assert (Hwf1 : timersWF w1) by (by eapply timersWF_shrinks).
  assert (Hk1 : keeps r clientId w w1).
  { unfold w1. apply (keeps_trans _ _ _ (updateSocket ws (setIsAlive false) w));
      [by apply keeps_updateOther|apply keeps_emit]. }
  assert (Hsole1 : soleId r clientId w1).
  { intros ws'. rewrite <- (Hsole ws'). unfold w1. simpl.
    by rewrite lookup_alter_id. }
  destruct p.
  { apply (keeps_trans _ _ _ _ _ Hk1). by eapply keeps_reapOnTick. }
  rewrite let_armTimer.
  set (w2 := clearPingTimeout ws w1).
  assert (Hwf2 : timersWF w2).
  { eapply timersWF_shrinks; [done|apply shrinks_clearPingTimeout]. }
  apply (keeps_trans _ _ _ _ _ Hk1).
  apply (keeps_trans _ _ _ w2); [by apply keeps_clearPingTimeout|].
  apply (keeps_trans _ _ _ (armTimer (PongTimeout ws h (clock w2 + PING_TIMEOUT)) w2).2);
    [|by apply keeps_updateOther].
  apply keeps_armTimer; [|done].
  destruct (timers w2 !! nextHandle w2) as [tm|] eqn:E; [|done].
  pose proof (wf_fresh_timer w2 Hwf2 _ _ E). lia.
Qed.

Lemma keeps_fireTimer h p w :
  timersWF w -> soleId r clientId w -> enabled (ETimer h p) w = true ->
  (forall tm, timers w !! h = Some tm -> owner tm <> r) ->
  keeps r clientId w (fireTimer h p w).
Proof.
  intros Hwf Hsole Hen Hother. unfold fireTimer. simpl in Hen.
  destruct (timers w !! h) as [[ws d|ws i d]|] eqn:Hh; [| |apply keeps_refl].
  - assert (Hne : ws <> r) by (by apply (Hother _ eq_refl)).
    set (w0 := setTimers (<[h := HeartbeatInterval ws (clock w + HEARTBEAT_INTERVAL)]> (timers w)) w).
    apply (keeps_trans _ _ _ w0); [by eapply keeps_rearm|].
    eapply keeps_heartbeatTick; [by eapply timersWF_rearm|done|done|].
    unfold w0. simpl. apply lookup_insert_eq.
  - assert (Hne : ws <> r) by (by apply (Hother _ eq_refl)).
    assert (Hk1 : keeps r clientId w (clearTimer h w)).
    { apply keeps_clearTimer. intros tm. rewrite Hh. by intros [= <-]. }
    apply (keeps_trans _ _ _ _ _ Hk1).
    unfold pongTimeoutFired, withSocket.
    destruct (heap (clearTimer h w) !! ws) as [s|] eqn:Hs; [|apply keeps_refl].
    case_match; [|apply keeps_refl].
    keep_step.
    assert (Hk2 : keeps r clientId (clearTimer h w) (clearTimer i (clearTimer h w))).
    { apply keeps_clearTimer. intros tm Hi. simpl in Hi.
      rewrite lookup_delete in Hi. case_decide; [done|].
      destruct (wf_captured_is_own w Hwf h ws i d tm Hh Hi) as (d' & ->). done. }
    apply (keeps_trans _ _ _ (setHeartbeats (delete (id s) (heartbeats (clearTimer i (clearTimer h w))))
                                (clearTimer i (clearTimer h w))));
      [|by apply keeps_updateOther].
    apply (keeps_trans _ _ _ _ _ Hk2).
    apply (keeps_deleteHeartbeat r clientId (id s) (clearTimer i (clearTimer h w))).
    by eapply soleId_other.
Qed.

Lemma keeps_onConnection ws k ip w :
  timersWF w -> heap w !! ws = None -> is_Some (heap w !! r) -> k <> clientId ->
  keeps r clientId w (onConnection ws k ip w).
Proof.
  intros Hwf Hnew [s Hs] Hne. unfold onConnection.
  destruct (MAX_CONNECTIONS <=? Z.of_nat (size (clients w))); [apply keeps_emit|].
  assert (Hfresh : timers w !! nextHandle w = None).
  { destruct (timers w !! nextHandle w) as [tm|] eqn:E; [|done].
    pose proof (wf_fresh_timer w Hwf _ _ E). lia. }
  assert (Hwsr : ws <> r) by (intros ->; by rewrite Hs in Hnew).
  split; [|split]; simpl.
  - by rewrite lookup_insert_ne.
  - intros h tm Ho. rewrite lookup_insert. case_decide; [subst|done].
    rewrite Hfresh. split; [|done]. by intros [= <-].
  - by rewrite lookup_insert_ne.
Qed.

(** A fan-out whose sends leave the socket of [r] open. *)
Lemma keeps_visit skip channel payload oracle w rem e :
  (e.2 = r -> e.1 = clientId) ->
  (forall rs, oracle clientId = SendThrows rs -> rs = 1) ->
  keeps r clientId w (visit skip channel payload oracle (w, rem) e).1.
Proof.
  intros He Hq. destruct e as [k client]. unfold visit. simpl in *.
  destruct (bool_decide (skip = Some k)); [apply keeps_refl|].
  destruct (heap w !! client) as [c|] eqn:Hc; [|apply keeps_refl].
  destruct (readyState c =? 1) eqn:Hopen; [|apply keeps_refl].
  destruct (wantsChannel c channel); [|apply keeps_refl].
  destruct (oracle k) as [|rs] eqn:Ho; [apply keeps_emit|].
  assert (Hk : keeps r clientId w
                 (updateSocket client (setReadyState rs) (emit (Send client payload) w))).
  { apply (keeps_trans _ _ _ (emit (Send client payload) w)); [apply keeps_emit|].
    apply keeps_updateSame. intros -> s Hs. simpl in Hs. rewrite Hc in Hs.
    injection Hs as <-. rewrite (He eq_refl) in Ho. rewrite (Hq _ Ho).
    apply Z.eqb_eq in Hopen. unfold vitals. simpl. by rewrite Hopen. }
  by destruct (rs =? 1).
Qed.

Lemma keeps_pass skip channel payload oracle l : forall w rem,
  Forall (fun e => id <$> heap w !! e.2 = Some e.1) l ->
  soleId r clientId w ->
  (forall rs, oracle clientId = SendThrows rs -> rs = 1) ->
  keeps r clientId w (foldl (visit skip channel payload oracle) (w, rem) l).1.
Proof.
  induction l as [|e l IH]; intros w rem Hl Hsole Hq; [apply keeps_refl|].
  rewrite foldl_step. apply Forall_cons in Hl as [He Hl].
  pose proof (keeps_visit skip channel payload oracle w rem e) as Hk.
  pose proof (visit_props skip channel payload oracle w rem e) as Hp.
  cbv zeta in Hp.
  destruct (visit skip channel payload oracle (w, rem) e) as [w1 rem1].
  simpl in *. destruct Hp as (_ & _ & _ & _ & Hid).
  apply (keeps_trans _ _ _ w1).
  - apply Hk; [|done]. intros Her. rewrite Her in He.
    pose proof (proj2 (Hsole r) eq_refl). congruence.
  - apply IH; [|by intros ws; rewrite Hid|done].
    eapply Forall_impl; [exact Hl|]. intros e' He'. simpl in *. by rewrite Hid.
Qed.

Lemma keeps_removeAll l : forall w, keeps r clientId w (removeAll l w).
Proof.
  unfold removeAll. induction l as [|k l IH]; intros w; [apply keeps_refl|].
  simpl. apply (keeps_trans _ _ _ (removeClient k w)); [apply keeps_removeClient|apply IH].
Qed.

Lemma keeps_fanOut skip channel payload oracle w :
  registryWF w -> soleId r clientId w ->
  (forall rs, oracle clientId = SendThrows rs -> rs = 1) ->
  keeps r clientId w (fanOut skip channel payload oracle w).
Proof.
  intros Hwf Hsole Hq. unfold fanOut, fanOutPass.
  pose proof (keeps_pass skip channel payload oracle (map_to_list (clients w)) w []) as Hp.
  destruct (foldl _ _ _) as [w' rem]. simpl in Hp.
  apply (keeps_trans _ _ _ w'); [|apply keeps_removeAll].
  apply Hp; [|done|done]. apply Forall_forall. intros [k c] He.
  apply elem_of_map_to_list in He. by apply (Hwf k c).
Qed.

Lemma keeps_runTask t oracle w :
  registryWF w -> soleId r clientId w ->
  (forall rs, oracle clientId = SendThrows rs -> rs = 1) ->
  keeps r clientId w (runTask t oracle w).
Proof.
  intros Hwf Hsole Hq.
  destruct t; simpl; unfold withSocket, broadcastMetrics, broadcastChatMessage;
    repeat case_match; try (by apply keeps_fanOut); try apply keeps_refl;
    apply keeps_setImmediate.
Qed.
End KeepsCallbacks.

(** ** Calls are never taken back *)

Ltac calls_kept := frame; rewrite ?in_app_iff; tauto.

Lemma out_onMessage ws parsed w c : In c (out w) -> In c (out (onMessage ws parsed w)).
Proof. calls_kept. Qed.

Lemma out_onPong ws w c : In c (out w) -> In c (out (onPong ws w)).
Proof. calls_kept. Qed.

Lemma out_onClose ws w c : In c (out w) -> In c (out (onClose ws w)).
Proof. unfold onClose, removeClient. calls_kept. Qed.

Lemma out_onError ws w c : In c (out w) -> In c (out (onError ws w)).
Proof. unfold removeClient. calls_kept. Qed.

Lemma out_fireTimer h p w c : In c (out w) -> In c (out (fireTimer h p w)).
Proof. calls_kept. Qed.

Lemma out_onConnection ws k ip w c :
  In c (out w) -> In c (out (onConnection ws k ip w)).
Proof. unfold onConnection. calls_kept. Qed.

Lemma out_pass skip channel payload oracle l : forall w rem c,
  In c (out w) -> In c (out (foldl (visit skip channel payload oracle) (w, rem) l).1).
Proof.
  induction l as [|e l IH]; intros w rem c Hc; [done|].
  rewrite foldl_step.
  pose proof (visit_props skip channel payload oracle w rem e) as Hp. cbv zeta in Hp.
  destruct (visit skip channel payload oracle (w, rem) e) as [w1 rem1].
  simpl in Hp. destruct Hp as (Hout & _). apply IH. rewrite Hout, in_app_iff. by left.
Qed.

Lemma out_runTask t oracle w c : In c (out w) -> In c (out (runTask t oracle w)).
Proof.
  intros Hc.
  assert (Hf : forall skip channel payload,
            In c (out (fanOut skip channel payload oracle w))).
  { intros skip channel payload. unfold fanOut, fanOutPass.
    pose proof (out_pass skip channel payload oracle (map_to_list (clients w)) w [] c Hc) as Hp.
    destruct (foldl _ _ _) as [w' rem]. simpl in Hp.
    by destruct (removeAll_frame rem w') as (_ & -> & _). }
  destruct t; simpl; unfold withSocket; repeat case_match; done.
Qed.

Lemma step_out e w w' c : step e w = Some w' -> In c (out w) -> In c (out w').
Proof.
  unfold step. destruct (enabled e w); [|done].
  destruct e; simpl; intros Hf Hc; try (injection Hf as <-).
  - by apply out_onConnection.
  - by apply out_onMessage.
  - by apply out_onPong.
  - by apply out_onClose.
  - by apply out_onError.
  - done.
  - by apply out_fireTimer.
  - destruct (immediates w) as [|t rest]; injection Hf as <-; [done|].
    by apply (out_runTask t oracle (setImmediates rest w)).
  - unfold recordRequest, withStatsLock in Hf. simpl in Hf.
    destruct (statsLock w); [done|]. by injection Hf as <-.
  - unfold metricsTick, withStatsLock in Hf.
    destruct (statsLock w); [done|]. by injection Hf as <-.
  - done.
  - done.
Qed.

(** ** A silent peer: what the other events preserve *)

Section Silent.
Variable r : ref.
Variable clientId : jsstring.

Lemma soleId_step e w w' :
  soleId r clientId w -> quiet r clientId e -> step e w = Some w' ->
  soleId r clientId w'.
Proof.
  intros Hsole Hq Hstep. pose proof (fun ws => step_ids e w w' ws Hstep) as Hid.
  destruct e; try (intros ws'; rewrite (Hid ws'); apply Hsole).
  unfold step in Hstep. simpl in Hstep, Hq.
  destruct (bool_decide (heap w !! ws = None)) eqn:Hnew; [|done].
  apply bool_decide_eq_true in Hnew. injection Hstep as <-.
  unfold onConnection.
  destruct (MAX_CONNECTIONS <=? Z.of_nat (size (clients w))); [apply Hsole|].
  intros ws'. simpl. rewrite lookup_insert. case_decide; [subst|apply Hsole].
  simpl. split; [by intros [= ?]|]. intros ->.
  pose proof (proj2 (Hsole r) eq_refl) as Hr. by rewrite Hnew in Hr.
Qed.

Lemma armed_keeps deadline w w' :
  keeps r clientId w w' -> id <$> heap w !! r = Some clientId ->
  armed r deadline w -> armed r deadline w'.
Proof.
  intros (Hv & Ht & Hh) Hid (s & hi & Ti & Hs & Hopen & Hhb & Hi & Hcase).
  rewrite Hs in Hv, Hid. simpl in Hv, Hid. injection Hid as Hid.
  destruct (heap w' !! r) as [s'|] eqn:Hs'; [|done]. simpl in Hv.
  injection Hv as Hvid Hva Hvp Hvr.
  exists s', hi, Ti. split; [done|]. split; [congruence|].
  split; [rewrite Hvid, Hid, Hh; congruence|].
  split; [by apply (Ht hi (HeartbeatInterval r Ti) eq_refl)|].
  destruct Hcase as [(Ha & Hp & Hd)|(Ha & ho & To & Hp & Ho & Hd)].
  - left. repeat split; congruence.
  - right. split; [congruence|]. exists ho, To. split; [congruence|].
    split; [by apply (Ht ho (PongTimeout r hi To) eq_refl)|done].
Qed.

Lemma fading_keeps deadline w w' :
  keeps r clientId w w' ->
  (forall c, In c (out w) -> In c (out w')) ->
  (clients w !! clientId = None -> clients w' !! clientId = None) ->
  fading r clientId deadline w -> fading r clientId deadline w'.
Proof.
  intros (_ & Ht & Hh) Hout Hcl (Hhb & Hown & Hend).
  split; [congruence|]. split.
  - intros h tm Hh' Ho. apply (Hown h tm); [|done]. by apply (Ht h tm Ho).
  - destruct Hend; [left|right]; auto.
Qed.

Lemma fading_shrinks deadline w w' :
  shrinks w w' ->
  (forall c, In c (out w) -> In c (out w')) ->
  (clients w !! clientId = None -> clients w' !! clientId = None) ->
  fading r clientId deadline w -> fading r clientId deadline w'.
Proof.
  intros (Hts & Hhs & _) Hout Hcl (Hhb & Hown & Hend).
  split; [by eapply lookup_weaken_None|]. split.
  - intros h tm Hh' Ho. apply (Hown h tm); [|done]. exact (lookup_weaken _ _ _ _ Hh' Hts).
  - destruct Hend; [left|right]; auto.
Qed.

Lemma reaped_fading deadline w : reaped r clientId w -> fading r clientId deadline w.
Proof.
  intros (Hhb & Hnone & Hend). split; [done|]. split; [|done].
  intros h tm Hh Ho. by destruct (Hnone h tm Hh).
Qed.

(** A socket on its way out has no timer left once the deadline is past. *)
Lemma fading_late deadline w :
  onTime w -> fading r clientId deadline w -> deadline < clock w -> reaped r clientId w.
Proof.
  intros Hon (Hhb & Hown & Hend) Hlate. split; [done|]. split; [|done].
  intros h tm Hh Ho. destruct (Hown h tm Hh Ho) as (i & d & -> & Hd).
  pose proof (Hon h _ Hh) as Hdue. simpl in Hdue. lia.
Qed.

(** Every event that is not about [r] shows [r] as before. *)
Lemma keeps_step e w w' :
  timersWF w -> registryWF w -> soleId r clientId w ->
  quiet r clientId e -> foreign r e w -> step e w = Some w' ->
  keeps r clientId w w'.
Proof.
  intros Hwf Hreg Hsole Hq Hforeign Hstep.
  assert (Hr : is_Some (heap w !! r)).
  { pose proof (proj2 (Hsole r) eq_refl) as Hr. destruct (heap w !! r); eauto. done. }
  unfold step in Hstep. destruct (enabled e w) eqn:Hen; [|done].
  destruct e; simpl in *; try (injection Hstep as <-).
  - apply keeps_onConnection; try done. by apply bool_decide_eq_true in Hen.
  - apply keeps_onMessage.
  - by apply keeps_onPong.
  - by apply keeps_onClose.
  - by apply keeps_onError.
  - by apply keeps_updateOther.
  - by apply keeps_fireTimer.
  - destruct (immediates w) as [|t rest]; injection Hstep as <-; [apply keeps_refl|].
    apply (keeps_trans _ _ _ (setImmediates rest w)); [apply keeps_setImmediates|].
    by apply keeps_runTask.
  - unfold recordRequest, withStatsLock in Hstep. simpl in Hstep.
    destruct (statsLock w); [done|]. injection Hstep as <-. by repeat split.
  - unfold metricsTick, withStatsLock in Hstep.
    destruct (statsLock w); [done|]. injection Hstep as <-. by repeat split.
  - apply keeps_setImmediate.
  - apply keeps_setClock.
Qed.
End Silent.


(** ** Timers that fire on time *)

Lemma runOnTime_run es : forall w w', runOnTime es w = Some w' -> run es w = Some w'.
Proof.
  induction es as [|e es IH]; intros w w' H; simpl in *; [done|].
  unfold stepOnTime in H. destruct (punctual e w); [|done].
  destruct (step e w) as [w1|]; [|done]. simpl in *. by apply IH.
Qed.

Lemma arms_refl w : arms w w.
Proof. split; [done|]. intros h tm H. by left. Qed.

Lemma arms_trans w1 w2 w3 : arms w1 w2 -> arms w2 w3 -> arms w1 w3.
Proof.
  intros [Hc1 Ht1] [Hc2 Ht2]. split; [congruence|].
  intros h tm H. destruct (Ht2 h tm H) as [H2|H2]; [by apply Ht1|].
  right. by rewrite <- Hc1.
Qed.

Lemma shrinks_arms w w' : shrinks w w' -> arms w w'.
Proof.
  intros (Hsub & _ & _ & Hc & _). split; [done|].
  intros h tm H. left. exact (lookup_weaken _ _ _ _ H Hsub).
Qed.

Lemma onTime_arms w w' : onTime w -> arms w w' -> onTime w'.
Proof.
  intros Hon [Hc Ht] h tm H. rewrite Hc.
  destruct (Ht h tm H) as [H0|H0]; [by apply (Hon h)|done].
Qed.

Lemma arms_insert h tm w :
  clock w <= due tm -> arms w (setTimers (<[h := tm]> (timers w)) w).
Proof.
  intros Hd. split; [done|]. intros h' tm' H. simpl in H.
  rewrite lookup_insert in H. case_decide; simplify_eq; [by right|by left].
Qed.

Lemma arms_armTimer tm w : clock w <= due tm -> arms w (armTimer tm w).2.
Proof.
  intros Hd. split; [done|]. intros h' tm' H. simpl in H.
  rewrite lookup_insert in H. case_decide; simplify_eq; [by right|by left].
Qed.

Lemma arms_heap f w : arms w (setHeap f w).
Proof. split; [done|]. intros h tm H. by left. Qed.

Lemma arms_heartbeatTick h ws p w : timersWF w -> arms w (heartbeatTick h ws p w).
Proof.
  intros Hwf. unfold heartbeatTick, withSocket.
  destruct (heap w !! ws) as [s|] eqn:Hs; [|apply arms_refl].
  destruct (isAlive s); cbn [negb]; cbv zeta.
  2:{ apply shrinks_arms. by apply shrinks_reapOnTick. }
  set (w1 := emit (Ping ws) (updateSocket ws (setIsAlive false) w)).
  assert (Hsh1 : shrinks w w1) by (unfold w1; repeat shrink_step).
  destruct p.
  { apply shrinks_arms. apply (shrinks_trans _ w1); [done|].
    apply shrinks_reapOnTick. by eapply timersWF_shrinks. }
  rewrite let_armTimer.
  apply (arms_trans _ w1); [by apply shrinks_arms|].
  apply (arms_trans _ (clearPingTimeout ws w1));
    [apply shrinks_arms, shrinks_clearPingTimeout|].
  eapply arms_trans; [|apply arms_heap].
  apply arms_armTimer. simpl. unfold PING_TIMEOUT. lia.
Qed.

Lemma arms_fireTimer h p w : timersWF w -> arms w (fireTimer h p w).
Proof.
  intros Hwf. unfold fireTimer.
  destruct (timers w !! h) as [[ws d|ws i d]|] eqn:Hh; [| |apply arms_refl].
  - set (w0 := setTimers (<[h := HeartbeatInterval ws (clock w + HEARTBEAT_INTERVAL)]> (timers w)) w).
    apply (arms_trans _ w0).
    + apply arms_insert. simpl. unfold HEARTBEAT_INTERVAL. lia.
    + apply arms_heartbeatTick. by eapply timersWF_rearm.
  - apply shrinks_arms. by eapply shrinks_pongTimeoutFired.
Qed.

Lemma arms_onConnection ws clientId ip w : arms w (onConnection ws clientId ip w).
Proof.
  unfold onConnection.
  destruct (MAX_CONNECTIONS <=? Z.of_nat (size (clients w))).
  { apply shrinks_arms, shrinks_emit. }
  split; [done|]. intros h tm H. simpl in H.
  rewrite lookup_insert in H. case_decide; simplify_eq; [|by left].
  right. simpl. unfold HEARTBEAT_INTERVAL. lia.
Qed.

(** Every callback arms its timers for later; only the clock can make a
    timer overdue. *)
Lemma step_arms e w w' :
  timersWF w -> (forall t, e <> EAdvance t) -> step e w = Some w' -> arms w w'.
Proof.
  intros Hwf Hne. unfold step. destruct (enabled e w) eqn:Hen; [|done].
  destruct e; simpl; intros Hf; try (injection Hf as <-).
  - apply arms_onConnection.
  - apply shrinks_arms, shrinks_onMessage.
  - by apply shrinks_arms, shrinks_onPong.
  - by apply shrinks_arms, shrinks_onClose.
  - apply shrinks_arms, shrinks_onError.
  - by apply shrinks_arms, shrinks_updateSocket.
  - by apply arms_fireTimer.
  - destruct (immediates w) as [|t rest]; injection Hf as <-; [apply arms_refl|].
    apply shrinks_arms.
    apply (shrinks_trans _ (setImmediates rest w));
      [apply shrinks_setImmediates|apply shrinks_runTask].
  - by apply shrinks_arms, shrinks_recordRequest.
  - by apply shrinks_arms, shrinks_metricsTick.
  - apply shrinks_arms. unfold broadcastMetrics. shrink_step. shrink_step.
  - by destruct (Hne _ eq_refl).
Qed.

Lemma stepOnTime_step e w w' : stepOnTime e w = Some w' -> step e w = Some w'.
Proof. unfold stepOnTime. by destruct (punctual e w). Qed.

Lemma stepOnTime_onTime e w w' :
  timersWF w -> onTime w -> stepOnTime e w = Some w' -> onTime w'.
Proof.
  intros Hwf Hon. unfold stepOnTime. destruct (punctual e w) eqn:Hp; [|done].
  intros Hstep. destruct e;
    try (eapply onTime_arms; [done|]; eapply step_arms; [done| |done]; by intros t).
  simpl in Hp. apply bool_decide_eq_true in Hp.
  unfold step in Hstep. destruct (enabled (EAdvance t) w); [|done].
  injection Hstep as <-. intros h tm H. apply (Hp h tm H).
Qed.

Lemma onTime_initial t0 : onTime (initialWorld t0).
Proof. intros h tm H. simpl in H. by rewrite lookup_empty in H. Qed.

Lemma runOnTime_invariant es : forall w w',
  timersWF w -> onTime w -> runOnTime es w = Some w' -> timersWF w' /\ onTime w'.
Proof.
  induction es as [|e es IH]; intros w w' Hwf Hon Hrun; simpl in Hrun.
  - by injection Hrun as <-.
  - destruct (stepOnTime e w) as [w1|] eqn:Hstep; [|done]. simpl in Hrun.
    apply (IH w1 w'); [| |done].
    + eapply step_timersWF; [done|]. by apply stepOnTime_step.
    + by eapply stepOnTime_onTime.
Qed.

Lemma runOnTime_onTime es t0 w : runOnTime es (initialWorld t0) = Some w -> onTime w.
Proof.
  intros Hrun.
  by destruct (runOnTime_invariant es _ _ (timersWF_initial t0) (onTime_initial t0) Hrun).
Qed.

(** ** A silent peer: its own timers, its close and its error *)

Section Reap.
Variable r : ref.
Variable clientId : jsstring.

(** A pending timer of [r] is its interval or the timeout it holds. *)
Lemma owned_timer w s h tm :
  timersWF w -> heap w !! r = Some s -> timers w !! h = Some tm -> owner tm = r ->
  (exists d, tm = HeartbeatInterval r d) \/ pingTimeout s = Some h.
Proof.
  intros Hwf Hs Hh Ho. destruct tm as [ws d|ws i d]; simpl in Ho; subst.
  - left. eauto.
  - right. pose proof (wf_pending_is_field w Hwf _ _ _ _ Hh) as Hf.
    rewrite Hs in Hf. by injection Hf.
Qed.

Lemma reapOnTick_reaped hi d s w :
  timersWF w -> heap w !! r = Some s -> id s = clientId ->
  timers w !! hi = Some (HeartbeatInterval r d) ->
  reaped r clientId (reapOnTick hi r w).
Proof.
  intros Hwf Hs Hid Hi. unfold reapOnTick. rewrite (withSocket_some _ _ _ _ Hs).
  cbv zeta. set (w2 := dropPingTimeout r (clearTimer hi w)).
  assert (Hwf1 : timersWF (clearTimer hi w)).
  { eapply timersWF_shrinks; [done|apply shrinks_clearTimer]. }
  assert (Hsh : shrinks (clearTimer hi w) w2) by (by apply shrinks_dropPingTimeout).
  split; [|split].
  - simpl. rewrite Hid. apply lookup_delete_eq.
  - simpl. intros h tm Hh Ho.
    assert (Hh1 : timers (clearTimer hi w) !! h = Some tm).
    { destruct Hsh as (Hsub & _). exact (lookup_weaken _ _ _ _ Hh Hsub). }
    simpl in Hh1. rewrite lookup_delete in Hh1. case_decide; [done|].
    destruct (owned_timer w s h tm Hwf Hs Hh1 Ho) as [[d' ->]|Hp].
    + by pose proof (wf_one_interval w Hwf _ _ _ _ _ Hi Hh1).
    + assert (Hgone : timers w2 !! h = None).
      { unfold w2. by eapply (dropPingTimeout_gone r s). }
      by rewrite Hgone in Hh.
  - left. simpl. rewrite in_app_iff. right. by left.
Qed.

Lemma pongTimeoutFired_reaped hi ho Ti To s w :
  timersWF w -> heap w !! r = Some s -> id s = clientId ->
  isAlive s = false -> readyState s = 1 ->
  timers w !! ho = Some (PongTimeout r hi To) ->
  timers w !! hi = Some (HeartbeatInterval r Ti) ->
  reaped r clientId (pongTimeoutFired hi r (clearTimer ho w)).
Proof.
  intros Hwf Hs Hid Ha Hopen Ho Hi. unfold pongTimeoutFired, withSocket.
  simpl heap. rewrite Hs, Ha, Hopen. simpl.
  split; [|split]; simpl.
  - rewrite Hid. apply lookup_delete_eq.
  - intros h tm Hh Hown. rewrite !lookup_delete in Hh.
    repeat case_decide; try done.
    destruct (owned_timer w s h tm Hwf Hs Hh Hown) as [[d' ->]|Hp].
    + by pose proof (wf_one_interval w Hwf _ _ _ _ _ Hi Hh).
    + pose proof (wf_pending_is_field w Hwf _ _ _ _ Ho) as Hf.
      rewrite Hs in Hf. simpl in Hf. congruence.
  - left. rewrite in_app_iff. right. by left.
Qed.

Lemma onClose_reaped deadline s w :
  timersWF w -> heap w !! r = Some s -> id s = clientId ->
  armed r deadline w -> reaped r clientId (onClose r w).
Proof.
  intros Hwf Hs Hid (s0 & hi & Ti & Hs0 & _ & Hhb0 & Hi & _).
  destruct (onClose_post r s w Hs) as (_ & Hhb & Hcl). rewrite Hid in Hhb, Hcl.
  split; [done|]. split; [|by right].
  intros h tm Hh Ho.
  assert (Hh0 : timers w !! h = Some tm).
  { destruct (shrinks_onClose r w Hwf) as (Hsub & _).
    exact (lookup_weaken _ _ _ _ Hh Hsub). }
  rewrite Hs in Hs0. injection Hs0 as <-.
  unfold onClose in Hh. rewrite (withSocket_some _ _ _ _ Hs) in Hh. simpl in Hh.
  assert (Hheap : heap (dropHeartbeat (id s) w) !! r = Some s)
    by (by rewrite dropHeartbeat_heap).
  destruct (owned_timer w s h tm Hwf Hs Hh0 Ho) as [[d' ->]|Hp].
  - pose proof (wf_one_interval w Hwf _ _ _ _ _ Hi Hh0) as <-.
    assert (Hsh : shrinks (dropHeartbeat (id s) w) (dropPingTimeout r (dropHeartbeat (id s) w))).
    { apply shrinks_dropPingTimeout.
      eapply timersWF_shrinks; [done|apply shrinks_dropHeartbeat]. }
    destruct Hsh as (Hsub & _).
    pose proof (lookup_weaken _ _ _ _ Hh Hsub) as Hh1.
    unfold dropHeartbeat in Hh1. rewrite Hhb0 in Hh1. simpl in Hh1.
    by rewrite lookup_delete_eq in Hh1.
  - by rewrite (dropPingTimeout_gone r s h _ Hheap Hp) in Hh.
Qed.

(** The error handler cancels the interval and deletes both entries; a pong
    timeout that is pending stays pending. *)
Lemma onError_fading deadline s w :
  timersWF w -> heap w !! r = Some s -> id s = clientId ->
  armed r deadline w -> fading r clientId deadline (onError r w).
Proof.
  intros Hwf Hs Hid (s0 & hi & Ti & Hs0 & _ & Hhb0 & Hi & Hcase).
  rewrite Hs in Hs0. injection Hs0 as <-.
  unfold onError. rewrite (withSocket_some _ _ _ _ Hs). rewrite Hid in *.
  unfold dropHeartbeat. rewrite Hhb0. simpl.
  split; [apply lookup_delete_eq|]. split; [|right; apply lookup_delete_eq].
  intros h tm Hh Ho. simpl in Hh. rewrite lookup_delete in Hh. case_decide; [done|].
  destruct (owned_timer w s h tm Hwf Hs Hh Ho) as [[d' ->]|Hp].
  - by pose proof (wf_one_interval w Hwf _ _ _ _ _ Hi Hh).
  - destruct Hcase as [(_ & Hnone & _)|(_ & ho & To & Hp' & Hto & Hd)]; [congruence|].
    assert (ho = h) as -> by congruence.
    rewrite Hh in Hto. injection Hto as ->. eauto.
Qed.

Lemma clearPingTimeout_none ws s w :
  heap w !! ws = Some s -> pingTimeout s = None -> clearPingTimeout ws w = w.
Proof. intros Hs Hp. unfold clearPingTimeout, withSocket. by rewrite Hs, Hp. Qed.

(** A timer of an armed socket fires on time: the probe goes out, or the
    socket is reaped. *)
Lemma ownTimer_step deadline h p tm w :
  timersWF w -> onTime w -> id <$> heap w !! r = Some clientId -> armed r deadline w ->
  timers w !! h = Some tm -> owner tm = r ->
  armed r deadline (fireTimer h p w) \/ reaped r clientId (fireTimer h p w).
Proof.
  intros Hwf Hon Hid (s & hi & Ti & Hs & Hopen & Hhb & Hi & Hcase) Hh Ho.
  rewrite Hs in Hid. injection Hid as Hid.
  pose proof (Hon _ _ Hh) as Hnot.
  destruct tm as [ws d|ws i d]; simpl in Ho, Hnot; subst ws.
  - pose proof (wf_one_interval w Hwf _ _ _ _ _ Hi Hh) as <-.
    rewrite Hh in Hi. injection Hi as <-.
    set (w0 := setTimers (<[hi := HeartbeatInterval r (clock w + HEARTBEAT_INTERVAL)]>
                            (timers w)) w).
    assert (Hwf0 : timersWF w0) by (by eapply timersWF_rearm).
    assert (Hi0 : timers w0 !! hi = Some (HeartbeatInterval r (clock w + HEARTBEAT_INTERVAL)))
      by apply lookup_insert_eq.
    destruct Hcase as [(Ha & Hp & Hd)|(Ha & ho & To & Hp & Hto & Hd)].
    + destruct p.
      * right. unfold fireTimer. rewrite Hh. fold w0.
        unfold heartbeatTick. rewrite (withSocket_some _ w0 _ _ Hs), Ha.
        cbn [negb]. cbv zeta.
        set (w1 := emit (Ping r) (updateSocket r (setIsAlive false) w0)).
        eapply (reapOnTick_reaped hi _ (setIsAlive false s) w1).
        -- eapply timersWF_shrinks; [done|]. unfold w1. repeat shrink_step.
        -- unfold w1. simpl. rewrite lookup_alter_eq. by rewrite Hs.
        -- done.
        -- done.
      * left. rewrite (fireTimer_probe _ _ _ _ _ Hh Hs Ha). fold w0.
        set (w1 := emit (Ping r) (updateSocket r (setIsAlive false) w0)).
        assert (Hs1 : heap w1 !! r = Some (setIsAlive false s)).
        { unfold w1. simpl. rewrite lookup_alter_eq. by rewrite Hs. }
        rewrite (clearPingTimeout_none r _ w1 Hs1 Hp).
        pose proof (wf_fresh_timer w Hwf _ _ Hh) as Hfresh.
        exists (setPingTimeout (Some (nextHandle w)) (setIsAlive false s)), hi,
          (clock w + HEARTBEAT_INTERVAL).
        split; [simpl; rewrite !lookup_alter_eq; by rewrite Hs|].
        split; [done|]. split; [done|].
        split; [simpl; rewrite lookup_insert_ne by lia; apply lookup_insert_eq|].
        right. split; [done|]. exists (nextHandle w), (clock w + PING_TIMEOUT).
        split; [done|]. split; [simpl; apply lookup_insert_eq|]. lia.
    + right. unfold fireTimer. rewrite Hh. fold w0.
      unfold heartbeatTick. rewrite (withSocket_some _ w0 _ _ Hs), Ha. cbn [negb].
      by eapply (reapOnTick_reaped hi _ s w0).
  - right. unfold fireTimer. rewrite Hh.
    pose proof (wf_pending_is_field w Hwf _ _ _ _ Hh) as Hf.
    rewrite Hs in Hf. simpl in Hf. injection Hf as Hf.
    destruct Hcase as [(Ha & Hp & Hd)|(Ha & ho & To & Hp & Hto & Hd)]; [congruence|].
    assert (ho = h) as -> by congruence.
    rewrite Hh in Hto. injection Hto as -> ->.
    by eapply (pongTimeoutFired_reaped hi h Ti To s w).
Qed.
End Reap.

(** ** A silent peer is reaped by the deadline *)

Section Deadline.
Variable r : ref.
Variable clientId : jsstring.

Lemma clients_none_step e w w' :
  quiet r clientId e -> step e w = Some w' ->
  clients w !! clientId = None -> clients w' !! clientId = None.
Proof.
  intros Hq Hstep Hnone. pose proof (step_clients e w w' Hstep) as Hc.
  destruct e; try (by eapply lookup_weaken_None).
  subst w'. unfold onConnection.
  destruct (MAX_CONNECTIONS <=? Z.of_nat (size (clients w))); [done|].
  simpl in *. by rewrite lookup_insert_ne.
Qed.

(** What an event does to [r] that is not about it: nothing. *)
Lemma foreign_step deadline e w w' :
  timersWF w -> registryWF w -> soleId r clientId w -> quiet r clientId e ->
  foreign r e w ->
  armed r deadline w \/ fading r clientId deadline w -> step e w = Some w' ->
  armed r deadline w' \/ fading r clientId deadline w'.
Proof.
  intros Hwf Hreg Hsole Hq Hf Hstate Hstep.
  pose proof (proj2 (Hsole r) eq_refl) as Hid.
  pose proof (keeps_step r clientId e w w' Hwf Hreg Hsole Hq Hf Hstep) as Hk.
  destruct Hstate as [Ha|Hr].
  - left. by eapply armed_keeps.
  - right. eapply fading_keeps; [done| |by eapply clients_none_step|done].
    intros c. by apply (step_out e w w').
Qed.

(** Once [r] is on its way out, its own callbacks only cancel and delete. *)
Lemma fading_step deadline e w w' :
  timersWF w -> quiet r clientId e -> fading r clientId deadline w ->
  (forall ws k ip, e <> EConnection ws k ip) -> (forall t, e <> EAdvance t) ->
  (forall h p tm, e = ETimer h p -> timers w !! h = Some tm -> owner tm = r) ->
  step e w = Some w' -> fading r clientId deadline w'.
Proof.
  intros Hwf Hq Hfade Hnc Hna Hown Hstep.
  assert (Hout : forall c, In c (out w) -> In c (out w'))
    by (intros c; by apply (step_out e w w')).
  assert (Hcl : clients w !! clientId = None -> clients w' !! clientId = None)
    by (by eapply clients_none_step).
  eapply fading_shrinks; [|done|done|done].
  unfold step in Hstep. destruct (enabled e w) eqn:Hen; [|done].
  destruct e; simpl in Hstep; try (injection Hstep as <-).
  - by destruct (Hnc _ _ _ eq_refl).
  - apply shrinks_onMessage.
  - by apply shrinks_onPong.
  - by apply shrinks_onClose.
  - apply shrinks_onError.
  - by apply shrinks_updateSocket.
  - unfold fireTimer. destruct (timers w !! h) as [tm|] eqn:Hh; [|apply shrinks_refl].
    destruct Hfade as (_ & Hpong & _).
    destruct (Hpong h tm Hh (Hown _ _ tm eq_refl Hh)) as (i & d & -> & _).
    by eapply shrinks_pongTimeoutFired.
  - destruct (immediates w) as [|t rest]; injection Hstep as <-; [apply shrinks_refl|].
    apply (shrinks_trans _ (setImmediates rest w));
      [apply shrinks_setImmediates|apply shrinks_runTask].
  - by apply shrinks_recordRequest.
  - by apply shrinks_metricsTick.
  - unfold broadcastMetrics. shrink_step. shrink_step.
  - by destruct (Hna _ eq_refl).
Qed.

Lemma silent_step deadline e w w' :
  timersWF w -> onTime w -> registryWF w -> soleId r clientId w ->
  quiet r clientId e ->
  armed r deadline w \/ fading r clientId deadline w -> step e w = Some w' ->
  armed r deadline w' \/ fading r clientId deadline w'.
Proof.
  intros Hwf Hon Hreg Hsole Hq Hstate Hstep.
  pose proof (proj2 (Hsole r) eq_refl) as Hid.
  destruct (heap w !! r) as [s|] eqn:Hs; [|done]. injection Hid as Hid.
  assert (Hforeign : foreign r e w ->
            armed r deadline w' \/ fading r clientId deadline w')
    by (intros Hf; by eapply foreign_step).
  destruct e as [ws k ip|ws parsed|ws|ws|ws|ws rs|h p|oracle| | | |t];
    try (by apply Hforeign).
  - destruct (decide (ws = r)) as [->|Hne]; [|by apply Hforeign].
    right. destruct Hstate as [Ha|Hfade].
    + unfold step in Hstep. destruct (enabled (EClose r) w); [|done].
      injection Hstep as <-. apply reaped_fading. by eapply onClose_reaped.
    + eapply fading_step; try done.
  - destruct (decide (ws = r)) as [->|Hne]; [|by apply Hforeign].
    right. destruct Hstate as [Ha|Hfade].
    + unfold step in Hstep. destruct (enabled (EError r) w); [|done].
      injection Hstep as <-. by eapply onError_fading.
    + eapply fading_step; try done.
  - destruct (timers w !! h) as [tm|] eqn:Hh; [|by apply Hforeign; intros tm; rewrite Hh].
    destruct (decide (owner tm = r)) as [Ho|Ho].
    2:{ apply Hforeign. intros tm'. rewrite Hh. by intros [= <-]. }
    destruct Hstate as [Ha|Hfade].
    + unfold step in Hstep. destruct (enabled (ETimer h p) w) eqn:Hen; [|done].
      injection Hstep as <-.
      destruct (ownTimer_step r clientId deadline h p tm w) as [H|H];
        try done; [by rewrite Hs; simpl; rewrite Hid|by left|].
      right. by apply reaped_fading.
    + right. eapply fading_step; try done.
      intros h' p' tm' [= <- <-]. rewrite Hh. by intros [= <-].
Qed.

Lemma silent_run deadline es : forall w w',
  timersWF w -> onTime w -> registryWF w -> soleId r clientId w ->
  Forall (quiet r clientId) es ->
  armed r deadline w \/ fading r clientId deadline w -> runOnTime es w = Some w' ->
  timersWF w' /\ onTime w' /\ (armed r deadline w' \/ fading r clientId deadline w').
Proof.
  induction es as [|e es IH]; intros w w' Hwf Hon Hreg Hsole Hq Hstate Hrun;
    simpl in Hrun.
  - by injection Hrun as <-.
  - destruct (stepOnTime e w) as [w1|] eqn:Hstep; [|done]. simpl in Hrun.
    apply Forall_cons in Hq as [Hqe Hq].
    pose proof (stepOnTime_step _ _ _ Hstep) as Hstep'.
    apply (IH w1 w'); try done.
    + by eapply step_timersWF.
    + by eapply stepOnTime_onTime.
    + by eapply step_registryWF.
    + by eapply soleId_step.
    + by eapply silent_step.
Qed.

(** Once the close event or an error event of [r] has been handled, [r] is
    out of the registry for good. *)
Lemma closed_run es : forall w w',
  Forall (quiet r clientId) es -> id <$> heap w !! r = Some clientId ->
  run es w = Some w' ->
  (In (EClose r) es \/ In (EError r) es \/ clients w !! clientId = None) ->
  clients w' !! clientId = None.
Proof.
  induction es as [|e es IH]; intros w w' Hq Hid Hrun Hin; simpl in Hrun.
  - injection Hrun as <-. by destruct Hin as [[]|[[]|]].
  - destruct (step e w) as [w1|] eqn:Hstep; [|done]. simpl in Hrun.
    apply Forall_cons in Hq as [Hqe Hq].
    assert (Hid1 : id <$> heap w1 !! r = Some clientId).
    { pose proof (step_ids e w w1 r Hstep) as Hi.
      destruct e; try (by rewrite Hi).
      unfold step in Hstep. simpl in Hstep.
      destruct (bool_decide (heap w !! ws = None)) eqn:Hnew; [|done].
      apply bool_decide_eq_true in Hnew. injection Hstep as <-.
      unfold onConnection.
      destruct (MAX_CONNECTIONS <=? Z.of_nat (size (clients w))); [done|].
      simpl. rewrite lookup_insert_ne; [done|]. intros ->. by rewrite Hnew in Hid. }
    apply (IH w1 w' Hq Hid1 Hrun).
    destruct (heap w !! r) as [s|] eqn:Hs; [|done]. injection Hid as Hid.
    destruct Hin as [[->|Hin]|[[->|Hin]|Hnone]]; [|by left| |by right; left|].
    + right; right. unfold step in Hstep. destruct (enabled (EClose r) w); [|done].
      injection Hstep as <-.
      destruct (onClose_post r s w Hs) as (_ & _ & Hcl). by rewrite Hid in Hcl.
    + right; right. unfold step in Hstep. destruct (enabled (EError r) w); [|done].
      injection Hstep as <-. unfold onError. rewrite (withSocket_some _ _ _ _ Hs).
      simpl. rewrite Hid. apply lookup_delete_eq.
    + right; right. by eapply clients_none_step.
Qed.

Lemma armed_clock deadline w :
  onTime w -> armed r deadline w -> clock w <= deadline.
Proof.
  intros Hon (s & hi & Ti & _ & _ & _ & Hi & Hcase).
  pose proof (Hon _ _ Hi) as H1. simpl in H1.
  destruct Hcase as [(_ & _ & Hd)|(_ & ho & To & _ & Ho & Hd)].
  - unfold PING_TIMEOUT in Hd. lia.
  - pose proof (Hon _ _ Ho) as H2. simpl in H2. lia.
Qed.

Lemma acknowledged_armed w :
  timersWF w -> acknowledged r w ->
  armed r (clock w + HEARTBEAT_INTERVAL + PING_TIMEOUT) w.
Proof.
  intros Hwf (s & hi & Ti & Hs & Hopen & Ha & Hp & Hhb & Hi).
  exists s, hi, Ti. repeat (split; [done|]). left. repeat (split; [done|]).
  pose proof (wf_interval_soon w Hwf _ _ _ Hi). lia.
Qed.
End Deadline.

(** The two ways a socket comes to be acknowledged. *)
Lemma onConnection_acknowledged ws k ip w :
  Z.of_nat (size (clients w)) < MAX_CONNECTIONS ->
  acknowledged ws (onConnection ws k ip w).
Proof.
  intros Hroom. unfold onConnection.
  replace (MAX_CONNECTIONS <=? Z.of_nat (size (clients w))) with false
    by (symmetry; by apply Z.leb_gt).
  exists (mkSession k ip [] true (clock w) None 1), (nextHandle w),
    (clock w + HEARTBEAT_INTERVAL).
  simpl. rewrite !lookup_insert_eq. done.
Qed.

Lemma onPong_acknowledged r s hi Ti w :
  timersWF w -> heap w !! r = Some s -> readyState s = 1 ->
  heartbeats w !! id s = Some hi -> timers w !! hi = Some (HeartbeatInterval r Ti) ->
  acknowledged r (onPong r w).
Proof.
  intros Hwf Hs Hopen Hhb Hi.
  exists (setPingTimeout None (setIsAlive true s)), hi, Ti.
  split; [by apply onPong_socket|]. repeat (split; [done|]).
  unfold onPong. split; [by rewrite dropPingTimeout_heartbeats|].
  unfold dropPingTimeout, withSocket. simpl. rewrite lookup_alter_eq, Hs. simpl.
  destruct (pingTimeout s) as [t|] eqn:Hp; [|done]. simpl.
  rewrite lookup_delete_ne; [done|]. intros ->.
  destruct (wf_field_is_own w Hwf r s hi _ Hs Hp Hi) as (? & ? & ?). done.
Qed.

(** A timer callback touches no socket but its own. *)
Lemma fireTimer_heap_other h p tm w r' :
  timers w !! h = Some tm -> r' <> owner tm ->
  heap (fireTimer h p w) !! r' = heap w !! r'.
Proof.
  intros Hh Hne. unfold fireTimer. rewrite Hh.
  destruct tm as [ws d|ws i d]; simpl in Hne;
    unfold heartbeatTick, reapOnTick, pongTimeoutFired, dropPingTimeout,
      clearPingTimeout, withSocket, armTimer, updateSocket, clearTimer, emit;
    simpl; split_tests; simpl; rewrite ?lookup_alter_ne by done; done.
Qed.

(** Claim C6 as worded fails when the socket is no longer open as its pong
    timeout fires.  Socket 0 is admitted at 0 and never acknowledges; it is
    probed at 30000; it enters the closing handshake; the timeout fires at
    40000, on time, and does nothing.  At 40001 the socket is still
    registered, its interval and heartbeat entry are still there, and
    [terminate] was never called. *)
Lemma stalled_peer_counterexample :
  runOnTime stalledEvents oneClient = Some stalledWorld
  /\ acknowledged 0%nat oneClient
  /\ clock oneClient + HEARTBEAT_INTERVAL + PING_TIMEOUT < clock stalledWorld
  /\ clients stalledWorld !! js "k3x9a2f7q" = Some 0%nat
  /\ heartbeats stalledWorld !! js "k3x9a2f7q" = Some 0%nat
  /\ timers stalledWorld !! 0%nat = Some (HeartbeatInterval 0%nat 60000)
  /\ ~ In (Terminate 0%nat) (out stalledWorld)
  /\ ~ reapedInTime 0%nat oneClient stalledEvents.
Proof.
  assert (Hrun : runOnTime stalledEvents oneClient = Some stalledWorld)
    by (vm_compute; reflexivity).
  assert (Hack : acknowledged 0%nat oneClient).
  { exists (freshSession (js "k3x9a2f7q") 0), 0%nat, 30000.
    repeat split; vm_compute; reflexivity. }
  assert (Hlate : clock oneClient + HEARTBEAT_INTERVAL + PING_TIMEOUT < clock stalledWorld)
    by (vm_compute; reflexivity).
  assert (Hcl : clients stalledWorld !! js "k3x9a2f7q" = Some 0%nat)
    by (vm_compute; reflexivity).
  split; [exact Hrun|]. split; [exact Hack|]. split; [exact Hlate|].
  split; [exact Hcl|]. split; [vm_compute; reflexivity|].
  split; [vm_compute; reflexivity|]. split.
  - vm_compute. intros H. repeat (destruct H as [H|H]; [discriminate H|]). exact H.
  - intros Hclaim.
    destruct (Hclaim (freshSession (js "k3x9a2f7q") 0) stalledWorld) as (Hgone & _).
    + vm_compute. reflexivity.
    + exact Hack.
    + unfold stalledEvents. repeat constructor; discriminate.
    + exact Hrun.
    + exact Hlate.
    + simpl in Hgone. rewrite Hcl in Hgone. discriminate Hgone.
Qed.

(** The heartbeat terminates the socket and leaves the registry to the close
    handler: as socket 0 is terminated at 40000, its registry entry is still
    there. *)
Lemma terminated_still_registered :
  exists w,
    runOnTime [EAdvance 30000; ETimer 0%nat false; EAdvance 40000; ETimer 1%nat false]
      oneClient = Some w
    /\ In (Terminate 0%nat) (out w)
    /\ clients w !! js "k3x9a2f7q" = Some 0%nat.
Proof.
  eexists. split; [vm_compute; reflexivity|].
  split; [|vm_compute; reflexivity].
  vm_compute. tauto.
Qed.

(** Claim C6, amended.  Take a socket [r] that is open and has just
    acknowledged (or has just been admitted), in a world the server reaches
    with no timer overdue, and whose id no other socket carries.  Let any
    events follow during which [r] sends no pong and stays open, every timer
    firing on time.  Then:
    - once [HEARTBEAT_INTERVAL + PING_TIMEOUT] (30 s + 10 s) have passed since
      the acknowledgment, [r] is reaped: its interval and pong timeout are
      cancelled, its heartbeat entry is deleted, and [terminate] has been
      called on it (or its close or error handler has already taken it out of
      the registry);
    - the registry entry is deleted by the close handler or the error
      handler: if the close event or an error event of [r] is among the
      events, [r] is out of the registry at the end;
    - a timer of [r] that fires leaves every other socket object, the
      registry, the pending timers and the heartbeat entries of the other
      sockets as they were. *)
Theorem silent_peer_reaped es0 t0 w r s es w'
    (Hreach : run es0 (initialWorld t0) = Some w)
    (Hon : onTime w)
    (Hs : heap w !! r = Some s)
    (Hack : acknowledged r w)
    (Hsole : soleId r (id s) w)
    (Hquiet : Forall (quiet r (id s)) es)
    (Hrun : runOnTime es w = Some w') :
  (clock w + HEARTBEAT_INTERVAL + PING_TIMEOUT < clock w' -> reaped r (id s) w')
  /\ (In (EClose r) es \/ In (EError r) es -> clients w' !! id s = None)
  /\ (forall h p tm r' k,
        timers w' !! h = Some tm -> owner tm = r ->
        enabled (ETimer h p) w' = true -> r' <> r -> soleId r' k w' ->
        let w'' := fireTimer h p w' in
        heap w'' !! r' = heap w' !! r'
        /\ clients w'' = clients w'
        /\ (forall h' tm', owner tm' = r' ->
              (timers w'' !! h' = Some tm' <-> timers w' !! h' = Some tm'))
        /\ heartbeats w'' !! k = heartbeats w' !! k).
Proof.
  pose proof (run_timersWF _ _ _ Hreach) as Hwf.
  pose proof (run_registryWF _ _ _ Hreach) as Hreg.
  pose proof (acknowledged_armed r w Hwf Hack) as Harmed.
  destruct (silent_run r (id s) _ es w w' Hwf Hon Hreg Hsole Hquiet (or_introl Harmed) Hrun)
    as (Hwf' & Hon' & Hstate).
  split; [|split].
  - intros Hlate. destruct Hstate as [Ha|Hfade].
    + pose proof (armed_clock r _ w' Hon' Ha). lia.
    + by eapply fading_late.
  - intros Hin. eapply (closed_run r (id s) es w w'); try done.
    + by rewrite Hs.
    + by apply runOnTime_run.
    + tauto.
  - intros h p tm r' k Hh Ho Hen Hne Hsole' w''.
    destruct (keeps_fireTimer r' k h p w' Hwf' Hsole' Hen) as (_ & Ht & Hhb).
    { intros tm'. rewrite Hh. intros [= <-]. congruence. }
    split; [|split; [apply fireTimer_clients|split; [exact Ht|exact Hhb]]].
    apply (fireTimer_heap_other h p tm w' r' Hh). congruence.
Qed.

Lemma silent_peer_reaped_witness :
  run [EConnection 0%nat (js "k3x9a2f7q") (js "10.0.0.1")] (initialWorld 0)
    = Some oneClient
  /\ onTime oneClient
  /\ runOnTime silentEvents oneClient = Some silentWorld
  /\ clock oneClient + HEARTBEAT_INTERVAL + PING_TIMEOUT < clock silentWorld
  /\ reaped 0%nat (js "k3x9a2f7q") silentWorld
  /\ clients silentWorld !! js "k3x9a2f7q" = None.
Proof.
  assert (Hreach : run [EConnection 0%nat (js "k3x9a2f7q") (js "10.0.0.1")]
                     (initialWorld 0) = Some oneClient) by (vm_compute; reflexivity).
  assert (Hon : onTime oneClient).
  { apply (bool_decide_eq_true_1 (onTime oneClient)). vm_compute. reflexivity. }
  assert (Hrun : runOnTime silentEvents oneClient = Some silentWorld)
    by (vm_compute; reflexivity).
  assert (Hs : heap oneClient !! 0%nat = Some (freshSession (js "k3x9a2f7q") 0))
    by (vm_compute; reflexivity).
  assert (Hack : acknowledged 0%nat oneClient).
  { exists (freshSession (js "k3x9a2f7q") 0), 0%nat, 30000.
    repeat split; vm_compute; reflexivity. }
  assert (Hsole : soleId 0%nat (js "k3x9a2f7q") oneClient).
  { assert (Hheap : heap oneClient = {[0%nat := freshSession (js "k3x9a2f7q") 0]})
      by (vm_compute; reflexivity).
    intros ws. rewrite Hheap. clear. destruct (decide (ws = 0%nat)) as [->|Hne].
    - rewrite lookup_singleton_eq. split; reflexivity.
    - rewrite lookup_singleton_ne by (intros H; by destruct Hne).
      split; [discriminate|]. intros H. by destruct Hne. }
  assert (Hquiet : Forall (quiet 0%nat (js "k3x9a2f7q")) silentEvents)
    by (unfold silentEvents; repeat constructor).
  assert (Hlate : clock oneClient + HEARTBEAT_INTERVAL + PING_TIMEOUT < clock silentWorld)
    by (vm_compute; reflexivity).
  destruct (silent_peer_reaped _ _ _ _ _ _ _ Hreach Hon Hs Hack Hsole Hquiet Hrun)
    as (Hreaped & Hclosed & _).
  split; [exact Hreach|]. split; [exact Hon|]. split; [exact Hrun|].
  split; [exact Hlate|].
  split; [exact (Hreaped Hlate)|].
  apply Hclosed. left. unfold silentEvents. simpl. tauto.
Defined.

(** * Further properties of the handlers *)

(** ** Every frame is answered or relayed *)

(** A conversion to a string raises only on an object with a property
    [toString] of its own. *)
Lemma toString_plain : forall v, plain v = true -> is_Some (toString v).
Proof.
  fix IH 1. intros [|b|x|s|items|fields] Hp; simpl in *.
  - by eexists.
  - destruct b; by eexists.
  - by eexists.
  - by eexists.
  - assert (He : is_Some
              ((fix elements (l : list json) : option (list jsstring) :=
                  match l with
                  | [] => Some []
                  | x :: rest =>
                      match (match x with JNull => Some [] | _ => toString x end) with
                      | Some text =>
                          match elements rest with
                          | Some texts => Some (text :: texts)
                          | None => None
                          end
                      | None => None
                      end
                  end) items)).
    { induction items as [|x rest IHl]; [by eexists|].
      simpl in Hp. apply andb_true_iff in Hp as [Hx Hrest].
      destruct (IHl Hrest) as [texts Htexts]. rewrite Htexts.
      destruct (IH x Hx) as [text Htext].
      destruct x; try (rewrite Htext); by eexists. }
    destruct He as [texts ->]. by eexists.
  - apply andb_true_iff in Hp as [Hown _].
    apply negb_true_iff in Hown. rewrite Hown. by eexists.
Qed.

Lemma elementTexts_plain arr :
  forallb plain arr = true -> is_Some (elementTexts arr).
Proof.
  induction arr as [|x rest IH]; [by eexists|].
  simpl. intros Hp. apply andb_true_iff in Hp as [Hx Hrest].
  destruct (IH Hrest) as [texts ->].
  destruct (toString_plain x Hx) as [text Htext].
  destruct x; try (rewrite Htext); by eexists.
Qed.

Lemma plain_prop k v x : plain v = true -> prop k v = Some x -> plain x = true.
Proof.
  destruct v as [| | | | |fields]; try done. simpl.
  intros Hp. apply andb_true_iff in Hp as [_ Hp].
  induction fields as [|[k' x'] rest IH]; [done|].
  simpl in *. apply andb_true_iff in Hp as [Hx Hrest].
  destruct (decide (k = k')); [by intros [= <-]|by apply IH].
Qed.

Lemma plain_field k data x :
  (forall v, data = Some v -> plain v = true) -> field k data = Some x ->
  plain x = true.
Proof.
  intros Hp. unfold field. destruct data as [v|]; [|done].
  simpl. apply plain_prop. by apply Hp.
Qed.

Lemma plain_invalidChannels data :
  (forall v, data = Some v -> plain v = true) ->
  is_Some (joinValues (js ", ") (invalidChannels (asArray (field "channels" data)))).
Proof.
  intros Hp. unfold joinValues.
  destruct (elementTexts_plain (invalidChannels (asArray (field "channels" data))))
    as [texts ->]; [|by eexists].
  destruct (field "channels" data) as [[| | | |items|]|] eqn:Hf; try done.
  pose proof (plain_field _ _ _ Hp Hf) as Hitems. simpl in Hitems. simpl.
  unfold invalidChannels. rewrite forallb_forall in *.
  intros x Hx. apply filter_In in Hx as [Hx _]. by apply Hitems.
Qed.

(** X1.  Whatever a socket sends, the message handler does one of three
    things: it sends the sender exactly one message (an error, a pong or a
    subscription acknowledgment) and defers nothing; or it sends nothing and
    defers exactly one chat or draw fan-out; or it does nothing at all.  The
    last happens only when the frame holds an object with a property
    [toString]: building the text of the error then raises inside the [try]
    whose [catch] only logs, as for a frame whose type is such an object.
    Every other frame is answered or relayed.  The handler never touches the
    registry, the timers, the heartbeat map or another socket, and of the
    sender it changes at most the subscriptions. *)
Theorem onMessage_replies_or_defers ws parsed w s (Hs : heap w !! ws = Some s) :
  let w' := onMessage ws parsed w in
  ((exists m, out w' = out w ++ [Send ws m] /\ immediates w' = immediates w)
   \/ (exists p, out w' = out w
                 /\ (immediates w' = immediates w ++ [ChatFanOut ws p]
                     \/ immediates w' = immediates w ++ [DrawFanOut ws p]))
   \/ (w' = w /\ exists message, parsed = Some message /\ plain message = false))
  /\ onMessage ws (Some oddType) w = w
  /\ clients w' = clients w /\ timers w' = timers w /\ heartbeats w' = heartbeats w
  /\ (forall r, r <> ws -> heap w' !! r = heap w !! r)
  /\ vitals <$> heap w' !! ws = Some (vitals s).
Proof.
  intros w'.
  assert (Hplain : forall message, parsed = Some message -> plain message = true ->
            is_Some (interpolate (prop (js "type") message))
            /\ is_Some (joinValues (js ", ")
                          (invalidChannels
                             (asArray (field "channels" (prop (js "data") message)))))).
  { intros message _ Hp. split.
    - unfold interpolate. destruct (prop (js "type") message) as [x|] eqn:Hx; [|by eexists].
      apply toString_plain. by eapply plain_prop.
    - apply plain_invalidChannels. intros v Hv. by eapply plain_prop. }
  split; [|split; [reflexivity|]].
  - destruct parsed as [message|].
    2:{ left. eexists. split; reflexivity. }
    destruct (plain message) eqn:Hp.
    2:{ unfold w', onMessage, handleWebSocketMessage, handleChatMessage,
          handleDrawing, handleSubscription.
        split_tests; rewrite ?(withSocket_some _ _ _ _ Hs); simpl;
          try (left; eexists; split; reflexivity);
          try (right; left; eexists; split;
                 [reflexivity|(left; reflexivity) || (right; reflexivity)]);
          try (right; right; split; [reflexivity|eexists; split; [reflexivity|done]]).
        all: unfold withSocket, updateSocket; simpl; rewrite lookup_alter_eq, Hs; simpl;
          left; eexists; split; reflexivity. }
    destruct (Hplain message eq_refl Hp) as [[type Htype] [names Hnames]].
    unfold w', onMessage, handleWebSocketMessage, handleChatMessage,
      handleDrawing, handleSubscription. rewrite Htype, Hnames.
    split_tests; rewrite ?(withSocket_some _ _ _ _ Hs); simpl;
      try (left; eexists; split; reflexivity);
      try (right; left; eexists; split;
             [reflexivity|(left; reflexivity) || (right; reflexivity)]).
    all: unfold withSocket, updateSocket; simpl; rewrite lookup_alter_eq, Hs; simpl;
      left; eexists; split; reflexivity.
  - unfold w', onMessage, handleWebSocketMessage, handleChatMessage,
      handleDrawing, handleSubscription.
    split_tests; rewrite ?(withSocket_some _ _ _ _ Hs); simpl;
      try (rewrite Hs; repeat split; done).
    all: unfold withSocket, updateSocket; simpl; rewrite lookup_alter_eq, Hs; simpl;
      (split; [done|]); (split; [done|]); (split; [done|]);
      (split; [intros r Hr; by rewrite lookup_alter_ne|by rewrite lookup_alter_eq, Hs]).
Qed.

Lemma onMessage_replies_or_defers_witness :
  heap oneClient !! 0%nat = Some (freshSession (js "k3x9a2f7q") 0)
  /\ (exists m, out (onMessage 0%nat None oneClient) = out oneClient ++ [Send 0%nat m])
  /\ onMessage 0%nat (Some oddType) oneClient = oneClient.
Proof.
  assert (Hs : heap oneClient !! 0%nat = Some (freshSession (js "k3x9a2f7q") 0))
    by (vm_compute; reflexivity).
  split; [exact Hs|].
  destruct (onMessage_replies_or_defers 0%nat None oneClient _ Hs)
    as [[(m & Hm & _)|[Hd|Hn]] [Hodd _]].
  - split; [exists m; exact Hm|exact Hodd].
  - destruct Hd as (p & _ & [H|H]); vm_compute in H; discriminate H.
  - destruct Hn as (_ & message & Hm & _). discriminate Hm.
Defined.

(** ** Subscriptions of any shape *)

Lemma invalidChannels_nil channels :
  invalidChannels channels = [] <-> forallb (strIncludes validChannels) channels = true.
Proof.
  unfold invalidChannels. rewrite filter_nil_iff, forallb_forall.
  split; intros H x Hx; specialize (H x Hx); by destruct (strIncludes validChannels x).
Qed.

Lemma handleSubscription_cases ws s data w :
  heap w !! ws = Some s ->
  (subscribeAccepted data = false ->
     match joinValues (js ", ") (invalidChannels (asArray (field "channels" data))) with
     | Some _ => exists e, handleSubscription ws data w = emit (Send ws (MsgError e)) w
     | None => handleSubscription ws data w = w
     end)
  /\ (subscribeAccepted data = true ->
      handleSubscription ws data w =
        emit (Send ws (MsgSubscription (js "Subscriptions updated")
                         (asArray (field "channels" data)) (clock w)))
             (setHeap (<[ws := setSubscriptions (asArray (field "channels" data)) s]>
                         (heap w)) w)).
Proof.
  intros Hs. unfold subscribeAccepted, handleSubscription. split.
  - destruct (field "channels" data) as [[| | | |channels|]|] eqn:Hc; simpl;
      try (rewrite ?orb_true_r; eauto).
    intros Hbad. rewrite (field_some_truthy _ _ _ Hc). simpl.
    destruct (invalidChannels channels) as [|c rest] eqn:Hinv.
    { apply invalidChannels_nil in Hinv. congruence. }
    simpl. destruct (joinValues _ _); [eauto|done].
  - destruct (field "channels" data) as [[| | | |channels|]|] eqn:Hc; try done.
    intros Hok. apply invalidChannels_nil in Hok.
    rewrite (field_some_truthy _ _ _ Hc). simpl. rewrite Hok. simpl.
    rewrite (updateSocket_insert _ _ _ _ Hs).
    unfold withSocket. simpl. by rewrite lookup_insert_eq.
Qed.

(** X2.  A subscribe request of any shape is applied entirely or not at all.
    Unless [data.channels] is an array whose entries are all whitelisted
    channel names (numbers, [null], objects and unknown names are not), the
    subscriptions and the rest of the world stay as they are, and the sender
    is sent one error; or nothing at all, when [join] raises on a channel
    that is or holds an object with a property [toString], inside the [try]
    whose [catch] only logs.  If the request is accepted, the sender's
    subscriptions become that array and the sender is sent the acknowledgment
    carrying it. *)
Theorem handleSubscription_all_or_nothing ws s data w (Hs : heap w !! ws = Some s) :
  (subscribeAccepted data = false ->
     match joinValues (js ", ") (invalidChannels (asArray (field "channels" data))) with
     | Some _ => exists e, handleSubscription ws data w = emit (Send ws (MsgError e)) w
     | None => handleSubscription ws data w = w
     end)
  /\ ((forall v, data = Some v -> plain v = true) ->
      is_Some (joinValues (js ", ") (invalidChannels (asArray (field "channels" data)))))
  /\ (subscribeAccepted oddChannel = false /\ handleSubscription ws oddChannel w = w)
  /\ (subscribeAccepted data = true ->
      let channels := asArray (field "channels" data) in
      handleSubscription ws data w =
        emit (Send ws (MsgSubscription (js "Subscriptions updated") channels (clock w)))
             (setHeap (<[ws := setSubscriptions channels s]> (heap w)) w)
      /\ forallb (strIncludes validChannels) channels = true).
Proof.
  destruct (handleSubscription_cases ws s data w Hs) as [Hbad Hok].
  split; [exact Hbad|]. split; [apply plain_invalidChannels|].
  split; [split; reflexivity|].
  intros Hacc channels. split; [by apply Hok|].
  unfold channels, subscribeAccepted in *.
  by destruct (field "channels" data) as [[| | | |items|]|].
Qed.

Lemma handleSubscription_all_or_nothing_witness :
  heap oneClient !! 0%nat = Some (freshSession (js "k3x9a2f7q") 0)
  /\ subscribeAccepted oddRequest = false
  /\ (exists e, handleSubscription 0%nat oddRequest oneClient
                = emit (Send 0%nat (MsgError e)) oneClient)
  /\ handleSubscription 0%nat oddChannel oneClient = oneClient.
Proof.
  assert (Hs : heap oneClient !! 0%nat = Some (freshSession (js "k3x9a2f7q") 0))
    by (vm_compute; reflexivity).
  assert (Hbad : subscribeAccepted oddRequest = false) by reflexivity.
  split; [exact Hs|]. split; [exact Hbad|].
  destruct (handleSubscription_all_or_nothing 0%nat _ oddRequest oneClient Hs)
    as (Hno & _ & _ & _).
  destruct (handleSubscription_all_or_nothing 0%nat _ oddChannel oneClient Hs)
    as (_ & _ & [_ Hodd] & _).
  split; [exact (Hno Hbad)|exact Hodd].
Defined.

(** ** What the callbacks change of a socket *)

Lemma lookup_alter_proj {A} (proj : Session -> A) (f : Session -> Session) ws
    (m : gmap ref Session) r :
  (forall s, proj (f s) = proj s) -> proj <$> alter f ws m !! r = proj <$> m !! r.
Proof.
  intros Hf. rewrite lookup_alter. case_decide; [subst|done].
  destruct (m !! r); simpl; [by rewrite Hf|done].
Qed.

Lemma visit_static skip channel payload oracle w rem e r :
  static <$> heap (visit skip channel payload oracle (w, rem) e).1 !! r
  = static <$> heap w !! r.
Proof.
  destruct e as [k c]. unfold visit. simpl. split_tests; simpl; try done;
    by apply lookup_alter_proj.
Qed.

Lemma pass_static skip channel payload oracle l : forall w rem r,
  static <$> heap (foldl (visit skip channel payload oracle) (w, rem) l).1 !! r
  = static <$> heap w !! r.
Proof.
  induction l as [|e l IH]; intros w rem r; [done|].
  rewrite foldl_step.
  pose proof (visit_static skip channel payload oracle w rem e r) as Hv.
  destruct (visit skip channel payload oracle (w, rem) e) as [w1 rem1].
  by rewrite IH.
Qed.

Lemma fanOut_static skip channel payload oracle w r :
  static <$> heap (fanOut skip channel payload oracle w) !! r = static <$> heap w !! r.
Proof.
  unfold fanOut, fanOutPass.
  pose proof (pass_static skip channel payload oracle (map_to_list (clients w)) w [] r) as Hi.
  destruct (foldl _ _ _) as [w' rem]. simpl in Hi.
  destruct (removeAll_frame rem w') as [-> _]. done.
Qed.

Lemma runTask_static t oracle w r :
  static <$> heap (runTask t oracle w) !! r = static <$> heap w !! r.
Proof.
  destruct t; simpl; unfold withSocket; try destruct (heap w !! sender);
    try done; apply fanOut_static.
Qed.

Lemma static_subscriptions (o o' : option Session) :
  static <$> o' = static <$> o -> subscriptions <$> o' = subscriptions <$> o.
Proof. destruct o, o'; simpl; intros [= ]; congruence. Qed.

Lemma static_isAlive (o o' : option Session) :
  static <$> o' = static <$> o -> isAlive <$> o' = isAlive <$> o.
Proof. destruct o, o'; simpl; intros [= ]; congruence. Qed.

Ltac same_proj :=
  frame; repeat (rewrite lookup_alter_proj by (by intros [])); try done.

Lemma onPong_subscriptions ws w r :
  subscriptions <$> heap (onPong ws w) !! r = subscriptions <$> heap w !! r.
Proof. same_proj. Qed.

Lemma onClose_subscriptions ws w r :
  subscriptions <$> heap (onClose ws w) !! r = subscriptions <$> heap w !! r.
Proof. unfold onClose, removeClient. same_proj. Qed.

Lemma onError_subscriptions ws w r :
  subscriptions <$> heap (onError ws w) !! r = subscriptions <$> heap w !! r.
Proof. unfold removeClient. same_proj. Qed.

Lemma fireTimer_subscriptions h p w r :
  subscriptions <$> heap (fireTimer h p w) !! r = subscriptions <$> heap w !! r.
Proof. same_proj. Qed.

Lemma onMessage_subscriptions ws parsed w r s' :
  heap (onMessage ws parsed w) !! r = Some s' ->
  heap w !! r = Some s'
  \/ (exists s, heap w !! r = Some s)
     /\ Forall (fun c => strIncludes validChannels c = true) (subscriptions s').
Proof.
  unfold onMessage, handleWebSocketMessage.
  assert (Hsame : forall w0 : World, heap w0 = heap w -> heap w0 !! r = Some s' ->
            heap w !! r = Some s'
            \/ (exists s, heap w !! r = Some s)
               /\ Forall (fun c => strIncludes validChannels c = true) (subscriptions s'))
    by (intros w0 -> H; by left).
  destruct parsed as [message|]; [|by apply Hsame].
  destruct message; try (by apply Hsame).
  destruct (typeIs "chat" (JObj fields)); [apply Hsame; frame|].
  destruct (typeIs "draw" (JObj fields)); [apply Hsame; frame|].
  destruct (typeIs "subscribe" (JObj fields)).
  2:{ destruct (typeIs "ping" (JObj fields)); [by apply Hsame|].
      destruct (interpolate _); by apply Hsame. }
  set (data := prop (js "data") (JObj fields)).
  destruct (heap w !! ws) as [s|] eqn:Hs.
  2:{ apply Hsame. unfold handleSubscription, updateSocket, withSocket.
      split_tests; simpl in *; try done.
      all: apply map_eq; intros i; rewrite lookup_alter; case_decide; subst;
        by rewrite ?Hs. }
  destruct (handleSubscription_cases ws s data w Hs) as [Hbad Hok].
  destruct (subscribeAccepted data) eqn:Hacc.
  - rewrite (Hok eq_refl). simpl. rewrite lookup_insert. case_decide; [subst r|by left].
    intros [= <-]. right. split; [eauto|]. simpl.
    unfold subscribeAccepted in Hacc.
    destruct (field "channels" data) as [[| | | |items|]|]; try done. simpl.
    apply Forall_forall. intros c Hc. rewrite forallb_forall in Hacc.
    apply Hacc. by apply list_elem_of_In.
  - specialize (Hbad eq_refl).
    destruct (joinValues _ _); [destruct Hbad as [e ->]|rewrite Hbad]; by apply Hsame.
Qed.

Lemma step_subscriptions e w w' r s' :
  step e w = Some w' -> heap w' !! r = Some s' ->
  (exists s, heap w !! r = Some s /\ subscriptions s' = subscriptions s)
  \/ Forall (fun c => strIncludes validChannels c = true) (subscriptions s').
Proof.
  intros Hstep Hs'.
  assert (Hsame : subscriptions <$> heap w' !! r = subscriptions <$> heap w !! r ->
            exists s, heap w !! r = Some s /\ subscriptions s' = subscriptions s).
  { rewrite Hs'. simpl. destruct (heap w !! r) as [s|]; [|done].
    intros [= ->]. eauto. }
  unfold step in Hstep. destruct (enabled e w); [|done].
  destruct e; simpl in Hstep; try (injection Hstep as <-).
  - unfold onConnection in Hs'.
    destruct (MAX_CONNECTIONS <=? Z.of_nat (size (clients w))); [left; eauto|].
    simpl in Hs'. rewrite lookup_insert in Hs'. case_decide; [|left; eauto].
    injection Hs' as <-. right. simpl. constructor.
  - destruct (onMessage_subscriptions _ _ _ _ _ Hs') as [H|[_ H]]; [left; eauto|by right].
  - left. apply Hsame, onPong_subscriptions.
  - left. apply Hsame, onClose_subscriptions.
  - left. apply Hsame, onError_subscriptions.
  - left. apply Hsame. simpl. by apply lookup_alter_proj.
  - left. apply Hsame, fireTimer_subscriptions.
  - destruct (immediates w) as [|t rest]; injection Hstep as <-; [left; eauto|].
    left. apply Hsame, static_subscriptions.
    apply (runTask_static t oracle (setImmediates rest w)).
  - unfold recordRequest, withStatsLock in Hstep. simpl in Hstep.
    destruct (statsLock w); [done|]. injection Hstep as <-. left; eauto.
  - unfold metricsTick, withStatsLock in Hstep.
    destruct (statsLock w); [done|]. injection Hstep as <-. left; eauto.
  - left; eauto.
  - left; eauto.
Qed.

Lemma step_subscriptionsValid e w w' :
  subscriptionsValid w -> step e w = Some w' -> subscriptionsValid w'.
Proof.
  intros Hv Hstep r s' Hs'.
  destruct (step_subscriptions e w w' r s' Hstep Hs') as [(s & Hs & ->)|H]; [|done].
  by apply (Hv r).
Qed.

Lemma includesStr_strIncludes (arr : list json) ch :
  Forall (fun c => strIncludes validChannels c = true) arr ->
  includesStr arr ch = true -> ch ∈ validChannels.
Proof.
  intros Hall Hin. unfold includesStr in Hin. apply existsb_exists in Hin as (v & Hv & Hm).
  rewrite Forall_forall in Hall. specialize (Hall v (proj2 (list_elem_of_In _ _) Hv)).
  destruct v; try done. apply bool_decide_eq_true in Hm as ->.
  by apply bool_decide_eq_true in Hall.
Qed.

(** X3.  In every world the server reaches, every socket is subscribed only
    to names of [validChannels], the list chat, metrics, draw, notification
    of [handleSubscription]: a socket starts with no subscription, and the
    only assignment to [subscriptions] is the one [handleSubscription] makes
    after its check.  So a fan-out on a channel outside that list would
    reach nobody. *)
Theorem run_subscriptions_whitelisted es t0 w ws s
    (Hrun : run es (initialWorld t0) = Some w) (Hs : heap w !! ws = Some s) :
  validChannels = [js "chat"; js "metrics"; js "draw"; js "notification"]
  /\ Forall (fun c => exists name, c = JStr name /\ name ∈ validChannels) (subscriptions s)
  /\ forall channel, wantsChannel s channel = true -> channel ∈ validChannels.
Proof.
  assert (Hv : subscriptionsValid w).
  { apply (run_invariant subscriptionsValid step_subscriptionsValid es (initialWorld t0));
      [|done]. intros r s0 H. simpl in H. by rewrite lookup_empty in H. }
  specialize (Hv ws s Hs). split; [reflexivity|]. split.
  - eapply Forall_impl; [exact Hv|]. intros c Hc. simpl in Hc.
    destruct c; try done. exists s0. split; [done|]. by apply bool_decide_eq_true in Hc.
  - intros channel Hw. unfold wantsChannel in Hw. apply andb_prop in Hw as [_ Hw].
    by eapply includesStr_strIncludes.
Qed.

Lemma run_subscriptions_whitelisted_witness :
  run listeningPeerEvents (initialWorld 0) = Some listeningPeerQueued
  /\ (exists s, heap listeningPeerQueued !! 1%nat = Some s
                /\ subscriptions s = [JStr (js "chat")])
  /\ js "chat" ∈ validChannels.
Proof.
  assert (Hrun : run listeningPeerEvents (initialWorld 0) = Some listeningPeerQueued)
    by (vm_compute; reflexivity).
  assert (Hs : heap listeningPeerQueued !! 1%nat
               = Some (mkSession (js "m7p2w8d4z") (js "10.0.0.2") [JStr (js "chat")]
                         true 0 None 1)) by (vm_compute; reflexivity).
  split; [exact Hrun|]. split; [eexists; split; [exact Hs|reflexivity]|].
  destruct (run_subscriptions_whitelisted _ _ _ _ _ Hrun Hs) as [_ [_ Hw]].
  apply Hw. vm_compute. reflexivity.
Defined.

(** ** Draw frames *)

Lemma getProp_setProp {A} k k' (v : A) fields :
  getProp k' (setProp k v fields) = if decide (k' = k) then Some v else getProp k' fields.
Proof.
  induction fields as [|[k0 v0] rest IH]; simpl.
  - destruct (decide (k' = k)); done.
  - destruct (decide (k = k0)) as [->|Hne]; simpl.
    + destruct (decide (k' = k0)); done.
    + destruct (decide (k' = k0)) as [->|Hne'].
      * by rewrite decide_False by done.
      * exact IH.
Qed.

Lemma getProp_map k (f : json -> drawValue) fields :
  getProp k (List.map (fun kv => (kv.1, f kv.2)) fields) = f <$> assoc k fields.
Proof.
  induction fields as [|[k0 v0] rest IH]; simpl; [done|].
  destruct (decide (k = k0)); done.
Qed.

(** X4.  A draw frame is relayed if and only if its [data.action] is truthy;
    otherwise the sender gets one error and nothing is deferred.  The relayed
    object carries every property of the frame's [data] as it came, with no
    further check, except [clientId] and [timestamp]: whatever the frame
    says, these are the sender's id and the instant of the relay, so a
    sender cannot pass for another. *)
Theorem handleDrawing_relays ws s data w (Hs : heap w !! ws = Some s) :
  (truthy (field "action" data) = false ->
     handleDrawing ws data w
     = emit (Send ws (MsgError (js "Invalid drawing message format"))) w)
  /\ (truthy (field "action" data) = true ->
      exists payload,
        handleDrawing ws data w = setImmediate (DrawFanOut ws payload) w
        /\ getProp (js "clientId") (drawData payload) = Some (SenderId (id s))
        /\ getProp (js "timestamp") (drawData payload) = Some (ServerTime (clock w))
        /\ forall k, k <> js "clientId" -> k <> js "timestamp" ->
             getProp k (drawData payload) = FromFrame <$> (data ≫= prop k)).
Proof.
  unfold handleDrawing. split.
  - intros ->. by rewrite orb_true_r.
  - intros Hact.
    assert (Hd : exists fields, data = Some (JObj fields)).
    { destruct data as [[| | | |?|fields]|]; try done. eauto. }
    destruct Hd as [fields ->]. rewrite Hact. simpl.
    rewrite (withSocket_some _ _ _ _ Hs). eexists. split; [reflexivity|].
    cbn [drawData ownFields]. split; [|split].
    + rewrite !getProp_setProp.
      destruct (decide (js "clientId" = js "timestamp")) as [Heq|_]; [discriminate Heq|].
      by rewrite decide_True.
    + rewrite getProp_setProp. by rewrite decide_True.
    + intros k Hc Ht. rewrite !getProp_setProp, !decide_False by done.
      apply getProp_map.
Qed.

Lemma handleDrawing_relays_witness :
  heap oneClient !! 0%nat = Some (freshSession (js "k3x9a2f7q") 0)
  /\ truthy (field "action" forgedStroke) = true
  /\ exists payload,
       handleDrawing 0%nat forgedStroke oneClient
       = setImmediate (DrawFanOut 0%nat payload) oneClient
       /\ getProp (js "clientId") (drawData payload) = Some (SenderId (js "k3x9a2f7q")).
Proof.
  assert (Hs : heap oneClient !! 0%nat = Some (freshSession (js "k3x9a2f7q") 0))
    by (vm_compute; reflexivity).
  assert (Hact : truthy (field "action" forgedStroke) = true) by reflexivity.
  split; [exact Hs|]. split; [exact Hact|].
  destruct (proj2 (handleDrawing_relays 0%nat _ forgedStroke oneClient Hs) Hact)
    as (payload & Hp & Hid & _).
  exists payload. split; [exact Hp|exact Hid].
Defined.

(** ** The passes of the server itself *)

(** X5.  A pass of [broadcastChatMessage] or [broadcastMetrics] skips
    nobody: a socket of the registry is sent the payload if and only if it
    is open and subscribed to the channel ([chat] for system notices,
    [metrics] for metrics). *)
Theorem systemFanOut_delivery t oracle w channel payload k r s
    (Ht : systemChannel t = Some (channel, payload))
    (Hwf : registryWF w)
    (Hk : clients w !! k = Some r) (Hs : heap w !! r = Some s) :
  In (Send r payload) (newCalls w (runTask t oracle w))
  <-> readyState s = 1 /\ includesStr (subscriptions s) channel = true.
Proof.
  assert (Hcalls : newCalls w (runTask t oracle w)
                   = flat_map (callsFor None channel payload w) (map_to_list (clients w))).
  { destruct t; try done; simpl in Ht; injection Ht as <- <-; simpl;
      by apply fanOut_calls. }
  rewrite Hcalls, in_callsFor. split.
  - intros (k' & He & Hel). apply elem_of_map_to_list in He.
    unfold eligible in Hel. simpl in Hel. rewrite Hs, wantsChannel_includes in Hel.
    apply andb_prop in Hel as [Hopen Hsub]. by apply Z.eqb_eq in Hopen.
  - intros (Hopen & Hsub). exists k. split; [by apply elem_of_map_to_list|].
    unfold eligible. simpl. by rewrite Hs, wantsChannel_includes, Hsub, Hopen.
Qed.

Lemma systemFanOut_delivery_witness :
  registryWF listeningPeer
  /\ clients listeningPeer !! js "m7p2w8d4z" = Some 1%nat
  /\ In (Send 1%nat hiPayload)
        (newCalls listeningPeer
           (runTask (SystemChatFanOut hiPayload) (fun _ => SendOk) listeningPeer)).
Proof.
  assert (Hwf : registryWF listeningPeer).
  { apply (bool_decide_eq_true_1 (registryWF listeningPeer)). vm_compute. reflexivity. }
  assert (Hk : clients listeningPeer !! js "m7p2w8d4z" = Some 1%nat)
    by (vm_compute; reflexivity).
  assert (Hs : heap listeningPeer !! 1%nat
               = Some (mkSession (js "m7p2w8d4z") (js "10.0.0.2") [JStr (js "chat")]
                         true 0 None 1)) by (vm_compute; reflexivity).
  split; [exact Hwf|]. split; [exact Hk|].
  apply (systemFanOut_delivery (SystemChatFanOut hiPayload) (fun _ => SendOk) listeningPeer
           (js "chat") hiPayload _ _ _ eq_refl Hwf Hk Hs).
  split; [reflexivity|vm_compute; reflexivity].
Defined.

(** ** One copy each *)

Lemma callsFor_NoDup skip channel payload w l :
  NoDup (l.*2) -> NoDup (flat_map (callsFor skip channel payload w) l).
Proof.
  induction l as [|[k r] l IH]; simpl; [constructor|].
  rewrite NoDup_cons. intros [Hr Hnd]. unfold callsFor at 1.
  destruct (eligible skip channel w (k, r)); simpl; [|by apply IH].
  apply NoDup_cons. split; [|by apply IH].
  rewrite list_elem_of_In, in_callsFor. intros (k' & He & _).
  apply Hr. apply list_elem_of_fmap. by exists (k', r).
Qed.

(** X6.  A fan-out pass, whoever runs it and whatever the sends do, calls
    nothing but [send] with its payload, on sockets of the registry, and on
    each of them at most once: nobody gets two copies, and a pass neither
    pings, closes nor terminates. *)
Theorem fanOut_one_copy skip channel payload oracle w (Hwf : registryWF w) :
  let calls := newCalls w (fanOut skip channel payload oracle w) in
  NoDup calls
  /\ forall c, In c calls ->
       exists k r, c = Send r payload /\ clients w !! k = Some r /\ skip <> Some k.
Proof.
  intros calls. unfold calls. rewrite (fanOut_calls _ _ _ _ _ Hwf). split.
  - apply callsFor_NoDup. by apply snapshot_NoDup.
  - intros c Hc. apply in_flat_map in Hc as ([k r] & He & Hc).
    apply list_elem_of_In, elem_of_map_to_list in He.
    unfold callsFor in Hc. destruct (eligible skip channel w (k, r)) eqn:Hel; [|done].
    destruct Hc as [<-|[]]. exists k, r. split; [done|]. split; [done|].
    unfold eligible in Hel. apply andb_prop in Hel as [Hskip _].
    by apply negb_true_iff, bool_decide_eq_false in Hskip.
Qed.

Lemma fanOut_one_copy_witness :
  registryWF listeningPeer
  /\ NoDup (newCalls listeningPeer
              (fanOut (Some (js "k3x9a2f7q")) (js "chat") hiPayload (fun _ => SendOk)
                 listeningPeer)).
Proof.
  assert (Hwf : registryWF listeningPeer).
  { apply (bool_decide_eq_true_1 (registryWF listeningPeer)). vm_compute. reflexivity. }
  split; [exact Hwf|].
  exact (proj1 (fanOut_one_copy (Some (js "k3x9a2f7q")) (js "chat") hiPayload
                  (fun _ => SendOk) listeningPeer Hwf)).
Defined.

(** ** Who pings and who terminates *)

Lemma adds_refl w : adds w w [].
Proof. unfold adds. by rewrite app_nil_r. Qed.

Lemma adds_trans w1 w2 w3 c1 c2 : adds w1 w2 c1 -> adds w2 w3 c2 -> adds w1 w3 (c1 ++ c2).
Proof. unfold adds. intros H1 H2. by rewrite H2, H1, app_assoc. Qed.

Lemma adds_newCalls w w' calls : adds w w' calls -> newCalls w w' = calls.
Proof. apply newCalls_app. Qed.

Lemma sendsOnly_app c1 c2 : sendsOnly c1 -> sendsOnly c2 -> sendsOnly (c1 ++ c2).
Proof. apply Forall_app_2. Qed.

(** Reads the calls of an unfolded callback off the log. *)
Ltac read_calls :=
  unfold adds, sendsOnly; simpl; rewrite <- ?app_assoc; simpl;
  first [ eexists; split; [reflexivity|repeat constructor]
        | exists []; split; [by rewrite app_nil_r|constructor] ].

Ltac only_sends := frame; read_calls.

Lemma onConnection_sendsOnly ws k ip w :
  exists calls, adds w (onConnection ws k ip w) calls /\ sendsOnly calls.
Proof.
  unfold onConnection. destruct (MAX_CONNECTIONS <=? _); read_calls.
Qed.

Lemma onMessage_sendsOnly ws parsed w :
  exists calls, adds w (onMessage ws parsed w) calls /\ sendsOnly calls.
Proof. only_sends. Qed.

Lemma onPong_sendsOnly ws w :
  exists calls, adds w (onPong ws w) calls /\ sendsOnly calls.
Proof. only_sends. Qed.

Lemma onClose_sendsOnly ws w :
  exists calls, adds w (onClose ws w) calls /\ sendsOnly calls.
Proof. unfold onClose, removeClient. only_sends. Qed.

Lemma onError_sendsOnly ws w :
  exists calls, adds w (onError ws w) calls /\ sendsOnly calls.
Proof. unfold removeClient. only_sends. Qed.

Lemma callsFor_sendsOnly skip channel payload w e :
  sendsOnly (callsFor skip channel payload w e).
Proof. unfold callsFor. destruct (eligible _ _ _ _); repeat constructor. Qed.

Lemma pass_sendsOnly skip channel payload oracle l : forall w rem,
  exists calls,
    adds w (foldl (visit skip channel payload oracle) (w, rem) l).1 calls
    /\ sendsOnly calls.
Proof.
  induction l as [|e l IH]; intros w rem.
  { exists []. split; [apply adds_refl|constructor]. }
  rewrite foldl_step.
  pose proof (visit_props skip channel payload oracle w rem e) as Hp.
  cbv zeta in Hp.
  destruct (visit skip channel payload oracle (w, rem) e) as [w1 rem1]. simpl in Hp.
  destruct Hp as (Hout & _).
  destruct (IH w1 rem1) as (calls & Hadds & Hs).
  exists (callsFor skip channel payload w e ++ calls). split.
  - by apply (adds_trans _ w1).
  - apply sendsOnly_app; [apply callsFor_sendsOnly|done].
Qed.

Lemma fanOut_sendsOnly skip channel payload oracle w :
  exists calls, adds w (fanOut skip channel payload oracle w) calls /\ sendsOnly calls.
Proof.
  unfold fanOut, fanOutPass.
  destruct (pass_sendsOnly skip channel payload oracle (map_to_list (clients w)) w [])
    as (calls & Hadds & Hs).
  destruct (foldl _ _ _) as [w' rem]. simpl in *.
  exists calls. split; [|done]. unfold adds in *.
  by destruct (removeAll_frame rem w') as (_ & -> & _).
Qed.

Lemma runTask_sendsOnly t oracle w :
  exists calls, adds w (runTask t oracle w) calls /\ sendsOnly calls.
Proof.
  assert (Hnone : exists calls, adds w w calls /\ sendsOnly calls)
    by (exists []; split; [apply adds_refl|constructor]).
  destruct t; simpl; unfold withSocket; try destruct (heap w !! sender);
    try apply fanOut_sendsOnly; exact Hnone.
Qed.

(** What a timer callback calls: [ping] on its socket if the socket is
    alive, [terminate] on it if it is not or if the ping raised. *)
Lemma fireTimer_calls h p tm w :
  timers w !! h = Some tm ->
  exists calls,
    adds w (fireTimer h p w) calls
    /\ forall c, In c calls ->
         exists s, heap w !! owner tm = Some s
           /\ ((c = Ping (owner tm) /\ isAlive s = true
                /\ exists d, tm = HeartbeatInterval (owner tm) d)
               \/ (c = Terminate (owner tm)
                   /\ (isAlive s = false
                       \/ (p = true /\ exists d, tm = HeartbeatInterval (owner tm) d)))).
Proof.
  intros Hh. unfold fireTimer. rewrite Hh.
  destruct tm as [ws d|ws i d]; simpl.
  - unfold heartbeatTick, reapOnTick, withSocket. simpl.
    destruct (heap w !! ws) as [s|] eqn:Hs.
    2:{ exists []. split; [unfold adds; simpl; by rewrite app_nil_r|]. intros c []. }
    destruct (isAlive s) eqn:Ha; simpl.
    + destruct p.
      * rewrite lookup_alter_eq, Hs. simpl.
        exists [Ping ws; Terminate ws]. split.
        { unfold adds, dropPingTimeout, withSocket. simpl.
          rewrite lookup_alter_eq, Hs. simpl.
          destruct (pingTimeout s); simpl; by rewrite <- app_assoc. }
        intros c [<-|[<-|[]]]; exists s; split; try done.
        -- left. eauto.
        -- right. split; [done|]. right. eauto.
      * exists [Ping ws]. split.
        { unfold adds, clearPingTimeout, withSocket. simpl.
          rewrite lookup_alter_eq, Hs. simpl. by destruct (pingTimeout s). }
        intros c [<-|[]]. exists s. split; [done|]. left. eauto.
    + exists [Terminate ws]. split.
      { unfold adds, dropPingTimeout, withSocket. simpl. rewrite Hs.
        by destruct (pingTimeout s). }
      intros c [<-|[]]. exists s. split; [done|]. right. eauto.
  - unfold pongTimeoutFired, withSocket. simpl.
    destruct (heap w !! ws) as [s|] eqn:Hs.
    2:{ exists []. split; [unfold adds; simpl; by rewrite app_nil_r|]. intros c []. }
    destruct (isAlive s) eqn:Ha; simpl.
    { exists []. split; [unfold adds; simpl; by rewrite app_nil_r|]. intros c []. }
    destruct (readyState s =? 1).
    + exists [Terminate ws]. split; [done|].
      intros c [<-|[]]. exists s. split; [done|]. right. eauto.
    + exists []. split; [unfold adds; simpl; by rewrite app_nil_r|]. intros c [].
Qed.

(** Every callback only adds to the log; what it adds are sends, unless it
    is a timer callback. *)
Lemma step_calls e w w' :
  step e w = Some w' ->
  exists calls,
    adds w w' calls
    /\ (sendsOnly calls
        \/ exists h p tm,
             e = ETimer h p /\ timers w !! h = Some tm
             /\ forall c, In c calls ->
                  exists s, heap w !! owner tm = Some s
                    /\ ((c = Ping (owner tm) /\ isAlive s = true
                         /\ exists d, tm = HeartbeatInterval (owner tm) d)
                        \/ (c = Terminate (owner tm)
                            /\ (isAlive s = false
                                \/ (p = true
                                    /\ exists d, tm = HeartbeatInterval (owner tm) d))))).
Proof.
  assert (Hnone : exists calls : list call, adds w w calls /\ sendsOnly calls)
    by (exists []; split; [apply adds_refl|constructor]).
  unfold step. destruct (enabled e w) eqn:Hen; [|done].
  destruct e as [ws k ip|ws parsed|ws|ws|ws|ws rs|h p|oracle| | | |t];
    simpl; intros Hstep; try (injection Hstep as <-).
  - destruct (onConnection_sendsOnly ws k ip w) as (c & Ha & Hs). eauto.
  - destruct (onMessage_sendsOnly ws parsed w) as (c & Ha & Hs). eauto.
  - destruct (onPong_sendsOnly ws w) as (c & Ha & Hs). eauto.
  - destruct (onClose_sendsOnly ws w) as (c & Ha & Hs). eauto.
  - destruct (onError_sendsOnly ws w) as (c & Ha & Hs). eauto.
  - destruct Hnone as (c & Ha & Hs). exists c. split; [exact Ha|by left].
  - simpl in Hen. destruct (timers w !! h) as [tm|] eqn:Hh; [|done].
    destruct (fireTimer_calls h p tm w Hh) as (calls & Hadds & Hc).
    exists calls. split; [done|]. right. exists h, p, tm. done.
  - destruct (immediates w) as [|t rest]; injection Hstep as <-.
    { destruct Hnone as (c & Ha & Hs). exists c. split; [exact Ha|by left]. }
    destruct (runTask_sendsOnly t oracle (setImmediates rest w)) as (c & Ha & Hs).
    exists c. split; [exact Ha|by left].
  - unfold recordRequest, withStatsLock in Hstep. simpl in Hstep.
    destruct (statsLock w); [done|]. injection Hstep as <-.
    destruct Hnone as (c & Ha & Hs). exists c. split; [exact Ha|by left].
  - unfold metricsTick, withStatsLock in Hstep.
    destruct (statsLock w); [done|]. injection Hstep as <-.
    destruct Hnone as (c & Ha & Hs). exists c. split; [exact Ha|by left].
  - destruct Hnone as (c & Ha & Hs). exists c. split; [exact Ha|by left].
  - destruct Hnone as (c & Ha & Hs). exists c. split; [exact Ha|by left].
Qed.

Lemma step_terminate e w w' r :
  step e w = Some w' -> In (Terminate r) (newCalls w w') ->
  exists h p tm s,
    e = ETimer h p /\ timers w !! h = Some tm /\ owner tm = r
    /\ heap w !! r = Some s /\ (isAlive s = false \/ p = true).
Proof.
  intros Hstep Hterm.
  destruct (step_calls e w w' Hstep) as (calls & Hadds & Hcase).
  rewrite (adds_newCalls _ _ _ Hadds) in Hterm.
  destruct Hcase as [Hs|(h & p & tm & -> & Hh & Hc)].
  - unfold sendsOnly in Hs. rewrite Forall_forall in Hs.
    destruct (Hs _ (proj2 (list_elem_of_In _ _) Hterm)).
  - destruct (Hc _ Hterm) as (s & Hs & [(Hping & _)|(Ht & Hcase)]); [done|].
    injection Ht as ->. exists h, p, tm, s. repeat split; try done.
    destruct Hcase as [?|[? _]]; auto.
Qed.

(** X7.  The server terminates a socket in one place only: a timer of that
    very socket that finds [isAlive] false, or whose [ping] raised.  No
    message, pong, close or error handler, no fan-out and no timer of
    another socket ever calls [terminate] on it. *)
Theorem terminate_only_unanswered e w w' r
    (Hstep : step e w = Some w')
    (Hterm : In (Terminate r) (newCalls w w')) :
  exists h p tm s,
    e = ETimer h p /\ timers w !! h = Some tm /\ owner tm = r
    /\ heap w !! r = Some s /\ (isAlive s = false \/ p = true).
Proof. exact (step_terminate e w w' r Hstep Hterm). Qed.

Lemma terminate_only_unanswered_witness :
  let w := setClock 40000 probedWorld in
  step (ETimer 1%nat false) w = Some (fireTimer 1%nat false w)
  /\ In (Terminate 0%nat) (newCalls w (fireTimer 1%nat false w))
  /\ exists s, heap w !! 0%nat = Some s /\ isAlive s = false.
Proof.
  intros w.
  assert (Hstep : step (ETimer 1%nat false) w = Some (fireTimer 1%nat false w))
    by (vm_compute; reflexivity).
  assert (Hterm : In (Terminate 0%nat) (newCalls w (fireTimer 1%nat false w)))
    by (vm_compute; tauto).
  split; [exact Hstep|]. split; [exact Hterm|].
  destruct (terminate_only_unanswered _ _ _ _ Hstep Hterm)
    as (h & p & tm & s & He & _ & _ & Hs & [Ha|Hp]).
  - exists s. split; [exact Hs|exact Ha].
  - injection He as _ <-. discriminate Hp.
Defined.

(** ** A peer that answers is never terminated *)

Lemma adds_in w w' calls c :
  adds w w' calls -> In c (out w') -> In c (out w) \/ In c calls.
Proof. unfold adds. intros ->. apply in_app_or. Qed.

Lemma onMessage_isAlive ws parsed w r :
  isAlive <$> heap (onMessage ws parsed w) !! r = isAlive <$> heap w !! r.
Proof. same_proj. Qed.

Lemma onClose_isAlive ws w r :
  isAlive <$> heap (onClose ws w) !! r = isAlive <$> heap w !! r.
Proof. unfold onClose, removeClient. same_proj. Qed.

Lemma onError_isAlive ws w r :
  isAlive <$> heap (onError ws w) !! r = isAlive <$> heap w !! r.
Proof. unfold removeClient. same_proj. Qed.

Lemma onPong_other ws w r : r <> ws -> heap (onPong ws w) !! r = heap w !! r.
Proof.
  intros Hne. unfold onPong, dropPingTimeout, withSocket, updateSocket. simpl.
  split_tests; simpl; rewrite ?lookup_alter_ne by done; done.
Qed.

(** Only its pong, its timers and its admission write the [isAlive] of a
    socket. *)
Lemma step_isAlive e w w' r :
  step e w = Some w' ->
  match e with
  | EConnection ws _ _ | EPong ws => ws <> r
  | ETimer h _ => forall tm, timers w !! h = Some tm -> owner tm <> r
  | _ => True
  end ->
  isAlive <$> heap w' !! r = isAlive <$> heap w !! r.
Proof.
  unfold step. destruct (enabled e w) eqn:Hen; [|done].
  destruct e as [ws k ip|ws parsed|ws|ws|ws|ws rs|h p|oracle| | | |t];
    simpl; intros Hstep Hother; try (injection Hstep as <-).
  - unfold onConnection. destruct (MAX_CONNECTIONS <=? _); [done|].
    simpl. by rewrite lookup_insert_ne.
  - apply onMessage_isAlive.
  - by rewrite onPong_other.
  - apply onClose_isAlive.
  - apply onError_isAlive.
  - simpl. by apply lookup_alter_proj.
  - simpl in Hen. destruct (timers w !! h) as [tm|] eqn:Hh; [|done].
    rewrite (fireTimer_heap_other h p tm w r Hh); [done|].
    intros ->. by apply (Hother tm).
  - destruct (immediates w) as [|t rest]; injection Hstep as <-; [done|].
    apply static_isAlive. apply (runTask_static t oracle (setImmediates rest w)).
  - unfold recordRequest, withStatsLock in Hstep. simpl in Hstep.
    destruct (statsLock w); [done|]. by injection Hstep as <-.
  - unfold metricsTick, withStatsLock in Hstep.
    destruct (statsLock w); [done|]. by injection Hstep as <-.
  - done.
  - done.
Qed.

Lemma answered_run r es : forall w w',
  ~ In (Terminate r) (out w) ->
  ((forall s, heap w !! r = Some s -> isAlive s = true)
   \/ exists rest, es = EPong r :: rest) ->
  run es w = Some w' -> answered r es w = true ->
  ~ In (Terminate r) (out w').
Proof.
  induction es as [|e rest IH]; intros w w' Hno Halive Hrun Hans; simpl in Hrun.
  { by injection Hrun as <-. }
  destruct (step e w) as [w1|] eqn:Hstep; [|done]. simpl in Hrun.
  simpl in Hans. rewrite Hstep in Hans. apply andb_prop in Hans as [Hguard Hans].
  assert (Hkeep : isAlive <$> heap w1 !! r = isAlive <$> heap w !! r ->
            (forall s, heap w !! r = Some s -> isAlive s = true) ->
            forall s, heap w1 !! r = Some s -> isAlive s = true).
  { intros Heq Ha s1 Hs1. rewrite Hs1 in Heq. simpl in Heq.
    destruct (heap w !! r) as [s|]; [|done]. injection Heq as ->. by apply Ha. }
  apply (IH w1 w'); [| |done|done].
  - intros Hin.
    destruct (step_calls e w w1 Hstep) as (calls & Hadds & _).
    destruct (adds_in _ _ _ _ Hadds Hin) as [Hold|Hnew]; [done|].
    rewrite <- (adds_newCalls _ _ _ Hadds) in Hnew.
    destruct (step_terminate e w w1 r Hstep Hnew)
      as (h & p & tm & s & -> & Hh & Ho & Hs & Hcase).
    rewrite Hh in Hguard.
    rewrite (bool_decide_eq_true_2 _ Ho) in Hguard. simpl in Hguard.
    apply andb_prop in Hguard as [Hp _]. apply negb_true_iff in Hp.
    destruct Hcase as [Hdead|Hthrow]; [|congruence].
    destruct Halive as [Ha|(? & [=])]. rewrite (Ha s Hs) in Hdead. done.
  - destruct e as [ws k ip|ws parsed|ws|ws|ws|ws rs|h p|oracle| | | |t];
      try (left; apply Hkeep; [by apply (step_isAlive _ _ _ _ Hstep)|];
           by destruct Halive as [?|(? & [=])]).
    + destruct (decide (ws = r)) as [->|Hne].
      2:{ left. apply Hkeep; [by apply (step_isAlive _ _ _ _ Hstep)|].
          by destruct Halive as [?|(? & [=])]. }
      left. unfold step in Hstep. simpl in Hstep.
      destruct (bool_decide (heap w !! r = None)) eqn:Hnew; [|done].
      apply bool_decide_eq_true in Hnew. injection Hstep as <-.
      unfold onConnection. destruct (MAX_CONNECTIONS <=? _).
      * simpl. intros s. by rewrite Hnew.
      * simpl. rewrite lookup_insert_eq. by intros s [= <-].
    + destruct (decide (ws = r)) as [->|Hne].
      2:{ left. apply Hkeep; [by apply (step_isAlive _ _ _ _ Hstep)|].
          destruct Halive as [?|(? & [= ?])]; done. }
      left. unfold step in Hstep. simpl in Hstep.
      destruct (bool_decide (is_Some (heap w !! r))) eqn:Hin; [|done].
      apply bool_decide_eq_true in Hin as [s Hs]. injection Hstep as <-.
      rewrite (onPong_socket r s w Hs). by intros s1 [= <-].
    + unfold step in Hstep. simpl in Hstep.
      destruct (timers w !! h) as [tm|] eqn:Hh; [|done].
      destruct (decide (owner tm = r)) as [Ho|Ho].
      * right. rewrite (bool_decide_eq_true_2 _ Ho) in Hguard. simpl in Hguard.
        apply andb_prop in Hguard as [_ Hnext].
        destruct rest as [|[] rest']; try done.
        apply bool_decide_eq_true in Hnext as ->. eauto.
      * left. destruct (due tm <=? clock w); [|done]. injection Hstep as <-.
        apply Hkeep; [|by destruct Halive as [?|(? & [=])]].
        rewrite (fireTimer_heap_other h p tm w r Hh); [done|]. congruence.
Qed.

(** X8.  A peer that answers every probe at once is never terminated by the
    server, whatever else happens: other sockets connecting, speaking,
    failing and being reaped, fan-outs whose sends raise, timers of other
    sockets firing late. *)
Theorem responsive_never_terminated es t0 w r
    (Hrun : run es (initialWorld t0) = Some w)
    (Hans : answered r es (initialWorld t0) = true) :
  ~ In (Terminate r) (out w).
Proof.
  apply (answered_run r es (initialWorld t0) w); [|left|exact Hrun|exact Hans].
  - simpl. tauto.
  - intros s H. simpl in H. by rewrite lookup_empty in H.
Qed.

Lemma responsive_never_terminated_witness :
  run answeringEvents (initialWorld 0) = Some answeringWorld
  /\ answered 0%nat answeringEvents (initialWorld 0) = true
  /\ clock answeringWorld = 90000
  /\ ~ In (Terminate 0%nat) (out answeringWorld).
Proof.
  assert (Hrun : run answeringEvents (initialWorld 0) = Some answeringWorld)
    by (vm_compute; reflexivity).
  assert (Hans : answered 0%nat answeringEvents (initialWorld 0) = true)
    by (vm_compute; reflexivity).
  split; [exact Hrun|]. split; [exact Hans|]. split; [vm_compute; reflexivity|].
  exact (responsive_never_terminated _ _ _ _ Hrun Hans).
Defined.

(** ** Requests and the window *)

Lemma visit_stats skip channel payload oracle w rem e :
  stats (visit skip channel payload oracle (w, rem) e).1 = stats w.
Proof. destruct e as [k c]. unfold visit. simpl. split_tests; done. Qed.

Lemma pass_stats skip channel payload oracle l : forall w rem,
  stats (foldl (visit skip channel payload oracle) (w, rem) l).1 = stats w.
Proof.
  induction l as [|e l IH]; intros w rem; [done|].
  rewrite foldl_step.
  pose proof (visit_stats skip channel payload oracle w rem e) as Hv.
  destruct (visit skip channel payload oracle (w, rem) e) as [w1 rem1].
  by rewrite IH.
Qed.

Lemma removeAll_stats l : forall w, stats (removeAll l w) = stats w.
Proof.
  unfold removeAll. induction l as [|x l IH]; intros w; [done|].
  simpl. by rewrite IH.
Qed.

Lemma fanOut_stats skip channel payload oracle w :
  stats (fanOut skip channel payload oracle w) = stats w.
Proof.
  unfold fanOut, fanOutPass.
  pose proof (pass_stats skip channel payload oracle (map_to_list (clients w)) w []) as Hp.
  destruct (foldl _ _ _) as [w' rem]. simpl in Hp. by rewrite removeAll_stats.
Qed.

Lemma runTask_stats t oracle w : stats (runTask t oracle w) = stats w.
Proof.
  destruct t; simpl; unfold withSocket; try destruct (heap w !! sender);
    try done; apply fanOut_stats.
Qed.

Ltac same_stats := frame.

Lemma onConnection_stats ws k ip w : stats (onConnection ws k ip w) = stats w.
Proof. unfold onConnection. by destruct (MAX_CONNECTIONS <=? _). Qed.

Lemma onMessage_stats ws parsed w : stats (onMessage ws parsed w) = stats w.
Proof. same_stats. Qed.

Lemma onPong_stats ws w : stats (onPong ws w) = stats w.
Proof. same_stats. Qed.

Lemma onClose_stats ws w : stats (onClose ws w) = stats w.
Proof. unfold onClose, removeClient. same_stats. Qed.

Lemma onError_stats ws w : stats (onError ws w) = stats w.
Proof. unfold removeClient. same_stats. Qed.

Lemma fireTimer_stats h p w : stats (fireTimer h p w) = stats w.
Proof. same_stats. Qed.

(** Only the two tasks of [WebServer] write the statistics. *)
Lemma step_stats e w w' :
  step e w = Some w' ->
  match e with
  | EHttpRequest =>
      stats w' = (increment (totalRequests w), requestsPerSecond w, startTime w,
                  requestTimestamps w ++ [clock w])
  | EMetricsTick =>
      stats w' = (totalRequests w,
                  length (evict (clock w) (requestTimestamps w)), startTime w,
                  evict (clock w) (requestTimestamps w))
  | _ => stats w' = stats w
  end.
Proof.
  unfold step. destruct (enabled e w) eqn:Hen; [|done].
  destruct e as [ws k ip|ws parsed|ws|ws|ws|ws rs|h p|oracle| | | |t];
    simpl; intros Hstep; try (injection Hstep as <-).
  - apply onConnection_stats.
  - apply onMessage_stats.
  - apply onPong_stats.
  - apply onClose_stats.
  - apply onError_stats.
  - done.
  - apply fireTimer_stats.
  - destruct (immediates w) as [|t rest]; injection Hstep as <-; [done|].
    apply (runTask_stats t oracle (setImmediates rest w)).
  - unfold recordRequest, withStatsLock in Hstep. simpl in Hstep.
    destruct (statsLock w); [done|]. by injection Hstep as <-.
  - unfold metricsTick, withStatsLock in Hstep.
    destruct (statsLock w); [done|]. by injection Hstep as <-.
  - done.
  - done.
Qed.

Lemma onMessage_clock ws parsed w : clock (onMessage ws parsed w) = clock w.
Proof. frame. Qed.

Lemma onPong_clock ws w : clock (onPong ws w) = clock w.
Proof. frame. Qed.

Lemma onClose_clock ws w : clock (onClose ws w) = clock w.
Proof. unfold onClose, removeClient. frame. Qed.

Lemma onError_clock ws w : clock (onError ws w) = clock w.
Proof. unfold removeClient. frame. Qed.

Lemma fireTimer_clock h p w : clock (fireTimer h p w) = clock w.
Proof. frame. Qed.

(** Only [EAdvance] moves the clock, and forwards. *)
Lemma step_clock e w w' :
  step e w = Some w' -> clock w <= clock w'.
Proof.
  unfold step. destruct (enabled e w) eqn:Hen; [|done].
  destruct e as [ws k ip|ws parsed|ws|ws|ws|ws rs|h p|oracle| | | |t];
    simpl; intros Hstep; try (injection Hstep as <-).
  - unfold onConnection. destruct (MAX_CONNECTIONS <=? _); simpl; lia.
  - rewrite onMessage_clock. lia.
  - rewrite onPong_clock. lia.
  - rewrite onClose_clock. lia.
  - rewrite onError_clock. lia.
  - simpl. lia.
  - rewrite fireTimer_clock. lia.
  - destruct (immediates w) as [|t rest]; injection Hstep as <-; [lia|].
    destruct (shrinks_runTask t oracle (setImmediates rest w)) as (_ & _ & _ & -> & _).
    simpl. lia.
  - destruct (shrinks_recordRequest _ _ Hstep) as (_ & _ & _ & -> & _). lia.
  - destruct (shrinks_metricsTick _ _ Hstep) as (_ & _ & _ & -> & _). lia.
  - simpl. lia.
  - simpl in *. by apply Z.leb_le.
Qed.

Lemma evict_length now window : (length (evict now window) <= length window)%nat.
Proof.
  unfold evict. induction window as [|x l IH]; simpl; [lia|].
  destruct (now - x <? 1000); simpl; lia.
Qed.

(** The counters, along a run. *)
Lemma run_counters es : forall w w',
  run es w = Some w' -> 0 <= totalRequests w <= MAX_COUNT ->
  totalRequests w'
  = Z.min (totalRequests w + Z.of_nat (length (List.filter isHttpRequest es))) MAX_COUNT
  /\ (length (requestTimestamps w')
      <= length (requestTimestamps w) + length (List.filter isHttpRequest es))%nat
  /\ (requestsPerSecond w'
      <= Nat.max (requestsPerSecond w) (length (requestTimestamps w))
         + length (List.filter isHttpRequest es))%nat.
Proof.
  induction es as [|e es IH]; intros w w' Hrun Hrange; simpl in Hrun.
  { injection Hrun as <-. simpl. repeat split; lia. }
  destruct (step e w) as [w1|] eqn:Hstep; [|done]. simpl in Hrun.
  pose proof (step_stats e w w1 Hstep) as Hs. unfold stats in Hs.
  pose proof (evict_length (clock w) (requestTimestamps w)) as Hev.
  assert (Hinc : increment (totalRequests w) = Z.min (totalRequests w + 1) MAX_COUNT).
  { unfold increment. destruct (totalRequests w <? MAX_COUNT) eqn:E;
      [apply Z.ltb_lt in E|apply Z.ltb_ge in E]; lia. }
  assert (Hrange1 : 0 <= totalRequests w1 <= MAX_COUNT).
  { destruct e; simpl in Hs; injection Hs as Ht1 _ _ _; rewrite Ht1; lia. }
  destruct (IH w1 w' Hrun Hrange1) as (Ht & Hl & Hr).
  destruct e; simpl; injection Hs as Ht1 Hr1 _ Hw1;
    rewrite ?Ht1, ?Hr1, ?Hw1 in *; rewrite ?length_app in *; simpl in *;
    (split; [lia|split; lia]).
Qed.

(** X9.  [totalRequests] counts the requests handled, one by one, as far as
    a double can: up to [2^53], where it stops.  The window and
    [requestsPerSecond] never show more requests than were handled, nor,
    below that bound, more than [totalRequests]. *)
Theorem totalRequests_counts es t0 w (Hrun : run es (initialWorld t0) = Some w) :
  let handled := Z.of_nat (length (List.filter isHttpRequest es)) in
  totalRequests w = Z.min handled MAX_COUNT
  /\ Z.of_nat (length (requestTimestamps w)) <= handled
  /\ Z.of_nat (requestsPerSecond w) <= handled
  /\ (handled <= MAX_COUNT ->
      totalRequests w = handled
      /\ Z.of_nat (length (requestTimestamps w)) <= totalRequests w
      /\ Z.of_nat (requestsPerSecond w) <= totalRequests w)
  /\ increment MAX_COUNT = MAX_COUNT.
Proof.
  intros handled. unfold handled.
  destruct (run_counters es _ _ Hrun) as (Ht & Hl & Hr).
  { simpl. unfold MAX_COUNT. lia. }
  simpl in *. repeat split; try lia.
Qed.

Lemma totalRequests_counts_witness :
  run requestEvents (initialWorld 0) = Some requestWorld
  /\ totalRequests requestWorld = 3
  /\ requestsPerSecond requestWorld = 2%nat.
Proof.
  assert (Hrun : run requestEvents (initialWorld 0) = Some requestWorld)
    by (vm_compute; reflexivity).
  split; [exact Hrun|]. split; [|vm_compute; reflexivity].
  rewrite (proj1 (totalRequests_counts _ _ _ Hrun)). reflexivity.
Defined.

(** *** The window is in order *)

Lemma StronglySorted_snoc (l : list Z) x :
  StronglySorted Z.le l -> Forall (fun y => y <= x) l -> StronglySorted Z.le (l ++ [x]).
Proof.
  induction l as [|a l IH]; simpl; intros Hs Hall.
  - repeat constructor.
  - apply StronglySorted_inv in Hs as [Hs Ha]. apply Forall_cons in Hall as [Hax Hall].
    constructor; [by apply IH|]. apply Forall_app. split; [done|]. by repeat constructor.
Qed.

Lemma evict_In' now window ts : In ts (evict now window) -> In ts window /\ now - ts < 1000.
Proof. unfold evict. rewrite filter_In, Z.ltb_lt. tauto. Qed.

(** On a window in order the eviction drops a prefix: the oldest entries. *)
Lemma evict_sorted now (l : list Z) :
  StronglySorted Z.le l ->
  exists old, l = old ++ evict now l /\ Forall (fun ts => 1000 <= now - ts) old.
Proof.
  induction l as [|x l IH]; intros Hs.
  - by exists [].
  - apply StronglySorted_inv in Hs as [Hs Hx]. unfold evict. simpl.
    destruct (now - x <? 1000) eqn:Hk.
    + exists []. split; [|constructor]. simpl. f_equal.
      apply Z.ltb_lt in Hk. symmetry. apply forallb_filter_id, forallb_forall.
      rewrite Forall_forall in Hx. intros y Hy.
      specialize (Hx y (proj2 (list_elem_of_In _ _) Hy)). apply Z.ltb_lt. lia.
    + destruct (IH Hs) as (old & Hl & Hold). exists (x :: old). split.
      * simpl. f_equal. exact Hl.
      * constructor; [|done]. apply Z.ltb_ge in Hk. lia.
Qed.

Lemma evict_keeps_sorted now (l : list Z) :
  StronglySorted Z.le l -> StronglySorted Z.le (evict now l).
Proof.
  induction l as [|x l IH]; intros Hs; [constructor|].
  apply StronglySorted_inv in Hs as [Hs Hx]. unfold evict. simpl.
  destruct (now - x <? 1000); [|by apply IH].
  constructor; [by apply IH|].
  apply Forall_forall. intros y Hy. rewrite Forall_forall in Hx. apply Hx.
  apply list_elem_of_In in Hy. apply list_elem_of_In.
  by apply evict_In' in Hy as [Hy _].
Qed.

Lemma step_windowOrdered e w w' :
  windowOrdered w -> step e w = Some w' -> windowOrdered w'.
Proof.
  intros (Hs & Hall & Hstart) Hstep.
  pose proof (step_clock e w w' Hstep) as Hclock.
  pose proof (step_stats e w w' Hstep) as Hst. unfold stats in Hst.
  assert (Hwide : Forall (fun ts => startTime w <= ts <= clock w') (requestTimestamps w)).
  { eapply Forall_impl; [exact Hall|]. intros ts Hts. simpl in *. lia. }
  assert (Hsame : startTime w' = startTime w -> requestTimestamps w' = requestTimestamps w ->
            windowOrdered w').
  { intros Hs0 Hw. unfold windowOrdered. rewrite Hw, Hs0. split; [done|]. split; [done|lia]. }
  destruct e; injection Hst as _ _ Hs0 Hw; try (by apply Hsame).
  - unfold windowOrdered. rewrite Hw, Hs0. split; [|split; [|lia]].
    + apply StronglySorted_snoc; [done|].
      eapply Forall_impl; [exact Hall|]. intros ts Hts. simpl in *. lia.
    + apply Forall_app. split; [done|]. repeat constructor; lia.
  - unfold windowOrdered. rewrite Hw, Hs0. split; [|split; [|lia]].
    + by apply evict_keeps_sorted.
    + apply Forall_forall. intros ts Hts. rewrite Forall_forall in Hwide.
      apply list_elem_of_In, evict_In' in Hts as [Hts _].
      exact (Hwide ts (proj2 (list_elem_of_In _ _) Hts)).
Qed.

Lemma run_windowOrdered es t0 w : run es (initialWorld t0) = Some w -> windowOrdered w.
Proof.
  apply (run_invariant windowOrdered step_windowOrdered).
  split; [constructor|]. split; [constructor|]. simpl. lia.
Qed.

Lemma run_startTime es : forall w w', run es w = Some w' -> startTime w' = startTime w.
Proof.
  induction es as [|e es IH]; intros w w' Hrun; simpl in Hrun.
  { by injection Hrun as <-. }
  destruct (step e w) as [w1|] eqn:Hstep; [|done]. simpl in Hrun.
  rewrite (IH w1 w' Hrun).
  pose proof (step_stats e w w1 Hstep) as Hst. unfold stats in Hst.
  destruct e; by injection Hst as _ _ Hs0 _.
Qed.

Lemma StronglySorted_snoc_inv (l : list Z) x :
  StronglySorted Z.le (l ++ [x]) -> Forall (fun y => y <= x) l.
Proof.
  induction l as [|a l IH]; simpl; intros Hs; [constructor|].
  apply StronglySorted_inv in Hs as [Hs Ha].
  constructor; [|by apply IH].
  rewrite Forall_forall in Ha. apply Ha, list_elem_of_In, in_app_iff. right. by left.
Qed.

(** X10.  As long as [Date.now()] does not step back, the window lists
    instants between the start of the server and now, oldest first; so the
    periodic task drops a prefix of the window, the entries at least 1000 ms
    old, and what it keeps are the requests of the last second.  The runs
    have one clock, for the timers and for [Date.now()], which only moves
    forward, so this holds in every world a run reaches.  It is owed to the
    clock alone: whatever [Date.now()] reads when a request is recorded, the
    window is in order afterwards exactly if no stamp in it is later than
    that reading. *)
Theorem window_in_order es t0 w (Hrun : run es (initialWorld t0) = Some w) :
  StronglySorted Z.le (requestTimestamps w)
  /\ Forall (fun ts => t0 <= ts <= clock w) (requestTimestamps w)
  /\ (exists old,
        requestTimestamps w = old ++ evict (clock w) (requestTimestamps w)
        /\ Forall (fun ts => 1000 <= clock w - ts) old
        /\ Forall (fun ts => 0 <= clock w - ts < 1000)
                  (evict (clock w) (requestTimestamps w)))
  /\ recordRequest w = recordRequestAt (clock w) w
  /\ (forall now, exists w1,
        recordRequestAt now w = Some w1
        /\ requestTimestamps w1 = requestTimestamps w ++ [now]
        /\ (StronglySorted Z.le (requestTimestamps w1)
            <-> Forall (fun ts => ts <= now) (requestTimestamps w))).
Proof.
  destruct (run_windowOrdered _ _ _ Hrun) as (Hs & Hall & _).
  rewrite (run_startTime _ _ _ Hrun) in Hall. simpl in Hall.
  split; [done|]. split; [done|]. split; [|split; [reflexivity|]].
  - destruct (evict_sorted (clock w) _ Hs) as (old & Hl & Hold).
    exists old. split; [done|]. split; [done|].
    apply Forall_forall. intros ts Hts. rewrite Forall_forall in Hall.
    apply list_elem_of_In, evict_In' in Hts as [Hts Hlt].
    specialize (Hall ts (proj2 (list_elem_of_In _ _) Hts)). simpl in Hall. lia.
  - intros now. unfold recordRequestAt, withStatsLock. simpl.
    rewrite (run_statsLock _ _ _ Hrun). eexists. split; [reflexivity|].
    simpl. split; [reflexivity|]. split.
    + apply StronglySorted_snoc_inv.
    + by apply StronglySorted_snoc.
Qed.

Lemma window_in_order_witness :
  run requestEvents (initialWorld 0) = Some requestWorld
  /\ requestTimestamps requestWorld = [400; 1200]
  /\ StronglySorted Z.le (requestTimestamps requestWorld)
  /\ (exists w1, recordRequestAt 500 requestWorld = Some w1
                 /\ requestTimestamps w1 = [400; 1200; 500]
                 /\ ~ StronglySorted Z.le (requestTimestamps w1)).
Proof.
  assert (Hrun : run requestEvents (initialWorld 0) = Some requestWorld)
    by (vm_compute; reflexivity).
  assert (Hw : requestTimestamps requestWorld = [400; 1200]) by (vm_compute; reflexivity).
  destruct (window_in_order _ _ _ Hrun) as (Hsorted & _ & _ & _ & Hat).
  split; [exact Hrun|]. split; [exact Hw|]. split; [exact Hsorted|].
  destruct (Hat 500) as (w1 & Hrec & Hstamps & Hiff).
  exists w1. split; [exact Hrec|]. rewrite Hw in Hstamps, Hiff.
  split; [exact Hstamps|].
  intros Hs1. apply Hiff in Hs1.
  apply Forall_cons in Hs1 as [_ Hs1]. apply Forall_cons in Hs1 as [Hle _]. lia.
Defined.

(** ** Teardown: ids, intervals and their registration *)

Lemma shrinks_ids w w' r : shrinks w w' -> id <$> heap w' !! r = id <$> heap w !! r.
Proof.
  intros (_ & _ & _ & _ & Hk). specialize (Hk r). unfold socketKept in Hk.
  destruct (heap w !! r) as [s|], (heap w' !! r) as [s'|]; try done.
  simpl. f_equal. tauto.
Qed.

Lemma uniqueIds_same_ids w w' :
  (forall r, id <$> heap w' !! r = id <$> heap w !! r) -> uniqueIds w -> uniqueIds w'.
Proof. intros Hid Hu ws1 ws2 k. rewrite !Hid. apply Hu. Qed.

Lemma step_uniqueIds e w w' :
  uniqueIds w -> freshId e w = true -> step e w = Some w' -> uniqueIds w'.
Proof.
  intros Hu Hfresh Hstep.
  pose proof (fun r => step_ids e w w' r Hstep) as Hid.
  destruct e as [ws k ip|ws parsed|ws|ws|ws|ws rs|h p|oracle| | | |t];
    try (by apply (uniqueIds_same_ids w)).
  unfold step in Hstep. simpl in Hstep, Hfresh.
  destruct (bool_decide (heap w !! ws = None)) eqn:Hnew; [|done].
  apply bool_decide_eq_true in Hnew, Hfresh. injection Hstep as <-.
  unfold onConnection. destruct (MAX_CONNECTIONS <=? _); [done|].
  assert (Hnot : forall r, id <$> heap w !! r = Some k -> False).
  { intros r Hr. destruct (heap w !! r) as [s|] eqn:Hs; [|done].
    injection Hr as Hr. by apply (Hfresh r s Hs). }
  intros ws1 ws2 k'. simpl. rewrite !lookup_insert.
  destruct (decide (ws = ws1)) as [E1|E1], (decide (ws = ws2)) as [E2|E2];
    simpl; intros Hk1 Hk2.
  - congruence.
  - injection Hk1 as <-. by destruct (Hnot ws2).
  - injection Hk2 as <-. by destruct (Hnot ws1).
  - by apply (Hu ws1 ws2 k').
Qed.

(** Every callback but an admission, a timer and the clock only cancels,
    deletes and updates. *)
Lemma step_shrinks e w w' :
  timersWF w -> step e w = Some w' ->
  (forall ws k ip, e <> EConnection ws k ip) -> (forall h p, e <> ETimer h p) ->
  (forall t, e <> EAdvance t) -> shrinks w w'.
Proof.
  intros Hwf Hstep Hnc Hnt Hna.
  unfold step in Hstep. destruct (enabled e w) eqn:Hen; [|done].
  destruct e as [ws k ip|ws parsed|ws|ws|ws|ws rs|h p|oracle| | | |t];
    simpl in Hstep; try (injection Hstep as <-).
  - by destruct (Hnc _ _ _ eq_refl).
  - apply shrinks_onMessage.
  - by apply shrinks_onPong.
  - by apply shrinks_onClose.
  - apply shrinks_onError.
  - by apply shrinks_updateSocket.
  - by destruct (Hnt _ _ eq_refl).
  - destruct (immediates w) as [|t rest]; injection Hstep as <-; [apply shrinks_refl|].
    apply (shrinks_trans _ (setImmediates rest w));
      [apply shrinks_setImmediates|apply shrinks_runTask].
  - by apply shrinks_recordRequest.
  - by apply shrinks_metricsTick.
  - unfold broadcastMetrics. shrink_step. shrink_step.
  - by destruct (Hna _ eq_refl).
Qed.

(** *** The interval a pong timeout captured *)

Lemma captured_shrinks w w' :
  capturedIsInterval w -> shrinks w w' -> capturedIsInterval w'.
Proof.
  intros Hc (Hsub & _) h ws i d h' d' H1 H2.
  apply (Hc h ws i d h' d'); eapply lookup_weaken; eauto.
Qed.

Lemma captured_rearm h ws d d' w :
  capturedIsInterval w -> timers w !! h = Some (HeartbeatInterval ws d) ->
  capturedIsInterval (setTimers (<[h := HeartbeatInterval ws d']> (timers w)) w).
Proof.
  intros Hc Hh h1 ws1 i1 d1 h2 d2. simpl. rewrite !lookup_insert.
  destruct (decide (h = h1)) as [E1|E1], (decide (h = h2)) as [E2|E2];
    intros H1 H2; simplify_eq.
  - eapply Hc; eassumption.
  - eapply Hc; eassumption.
Qed.

Lemma captured_armPong h ws d dd f w :
  timersWF w -> capturedIsInterval w ->
  timers w !! h = Some (HeartbeatInterval ws d) ->
  capturedIsInterval (updateSocket ws f (armTimer (PongTimeout ws h dd) w).2).
Proof.
  intros Hwf Hc Hh h1 ws1 i1 d1 h2 d2. simpl. rewrite !lookup_insert.
  destruct (decide (nextHandle w = h1)) as [E1|E1],
    (decide (nextHandle w = h2)) as [E2|E2]; intros H1 H2; simplify_eq.
  - exact (wf_one_interval w Hwf _ _ _ _ _ Hh H2).
  - eapply Hc; eassumption.
Qed.

Lemma captured_onConnection ws k ip w :
  timersWF w -> capturedIsInterval w -> heap w !! ws = None ->
  capturedIsInterval (onConnection ws k ip w).
Proof.
  intros Hwf Hc Hnew. unfold onConnection.
  destruct (MAX_CONNECTIONS <=? _); [exact Hc|].
  intros h1 ws1 i1 d1 h2 d2. simpl. rewrite !lookup_insert.
  destruct (decide (nextHandle w = h1)) as [E1|E1],
    (decide (nextHandle w = h2)) as [E2|E2]; intros H1 H2; simplify_eq.
  - pose proof (wf_pending_is_field w Hwf _ _ _ _ H1) as Hf.
    rewrite Hnew in Hf. discriminate Hf.
  - eapply Hc; eassumption.
Qed.

Lemma captured_heartbeatTick h ws d p w :
  timersWF w -> capturedIsInterval w ->
  timers w !! h = Some (HeartbeatInterval ws d) ->
  capturedIsInterval (heartbeatTick h ws p w).
Proof.
  intros Hwf Hc Hh. unfold heartbeatTick, withSocket.
  destruct (heap w !! ws) as [s|] eqn:Hs; [|done].
  destruct (isAlive s); cbn [negb]; cbv zeta.
  2:{ eapply captured_shrinks; [done|by apply shrinks_reapOnTick]. }
  set (w1 := emit (Ping ws) (updateSocket ws (setIsAlive false) w)).
  assert (Hsh1 : shrinks w w1) by (unfold w1; repeat shrink_step).
  destruct p.
  { eapply captured_shrinks; [done|]. apply (shrinks_trans _ w1); [done|].
    apply shrinks_reapOnTick. by eapply timersWF_shrinks. }
  rewrite let_armTimer.
  assert (Hsh2 : shrinks w (clearPingTimeout ws w1))
    by (apply (shrinks_trans _ w1); [done|apply shrinks_clearPingTimeout]).
  apply captured_armPong with d.
  - by eapply timersWF_shrinks.
  - by eapply captured_shrinks.
  - apply clearPingTimeout_interval; [by eapply timersWF_shrinks|exact Hh].
Qed.

Lemma step_captured e w w' :
  timersWF w -> capturedIsInterval w -> step e w = Some w' -> capturedIsInterval w'.
Proof.
  intros Hwf Hc Hstep.
  destruct e as [ws k ip|ws parsed|ws|ws|ws|ws rs|h p|oracle| | | |t];
    try (eapply captured_shrinks; [done|]; by eapply step_shrinks).
  - unfold step in Hstep. simpl in Hstep.
    destruct (bool_decide (heap w !! ws = None)) eqn:Hnew; [|done].
    apply bool_decide_eq_true in Hnew. injection Hstep as <-.
    by apply captured_onConnection.
  - unfold step in Hstep. destruct (enabled (ETimer h p) w); [|done].
    injection Hstep as <-. unfold fireTimer.
    destruct (timers w !! h) as [[ws d|ws i d]|] eqn:Hh; [| |done].
    + apply captured_heartbeatTick with (clock w + HEARTBEAT_INTERVAL).
      * by eapply timersWF_rearm.
      * by eapply captured_rearm.
      * simpl. apply lookup_insert_eq.
    + eapply captured_shrinks; [done|]. by eapply shrinks_pongTimeoutFired.
  - unfold step in Hstep. destruct (enabled (EAdvance t) w); [|done].
    by injection Hstep as <-.
Qed.

Lemma run_captured es t0 w :
  run es (initialWorld t0) = Some w -> capturedIsInterval w.
Proof.
  assert (Hgen : forall es w0 w, timersWF w0 -> capturedIsInterval w0 ->
            run es w0 = Some w -> capturedIsInterval w).
  { clear. induction es as [|e es IH]; intros w0 w Hwf Hc Hrun; simpl in Hrun.
    - by injection Hrun as <-.
    - destruct (step e w0) as [w1|] eqn:Hstep; [|done]. simpl in Hrun.
      apply (IH w1 w); [by eapply step_timersWF|by eapply step_captured|done]. }
  apply Hgen; [apply timersWF_initial|].
  intros h ws i d h' d' H. simpl in H. by rewrite lookup_empty in H.
Qed.

Lemma visit_heartbeats skip channel payload oracle w rem e :
  heartbeats (visit skip channel payload oracle (w, rem) e).1 = heartbeats w.
Proof. destruct e as [k c]. unfold visit. simpl. split_tests; done. Qed.

Lemma pass_heartbeats skip channel payload oracle l : forall w rem,
  heartbeats (foldl (visit skip channel payload oracle) (w, rem) l).1 = heartbeats w.
Proof.
  induction l as [|e l IH]; intros w rem; [done|].
  rewrite foldl_step.
  pose proof (visit_heartbeats skip channel payload oracle w rem e) as Hv.
  destruct (visit skip channel payload oracle (w, rem) e) as [w1 rem1].
  by rewrite IH.
Qed.

Lemma removeAll_heartbeats l : forall w, heartbeats (removeAll l w) = heartbeats w.
Proof.
  unfold removeAll. induction l as [|x l IH]; intros w; [done|].
  simpl. by rewrite IH.
Qed.

Lemma fanOut_heartbeats skip channel payload oracle w :
  heartbeats (fanOut skip channel payload oracle w) = heartbeats w.
Proof.
  unfold fanOut, fanOutPass.
  pose proof (pass_heartbeats skip channel payload oracle (map_to_list (clients w)) w [])
    as Hp.
  destruct (foldl _ _ _) as [w' rem]. simpl in Hp. by rewrite removeAll_heartbeats.
Qed.

Lemma runTask_heartbeats t oracle w : heartbeats (runTask t oracle w) = heartbeats w.
Proof.
  destruct t; simpl; unfold withSocket; try destruct (heap w !! sender);
    try done; apply fanOut_heartbeats.
Qed.

(** *** The registration of the intervals *)

(** Cancelling keeps the registration of the intervals that stay, as long
    as an entry of [heartbeats] goes only when no interval of the socket
    with that id stays. *)
Lemma registered_shrinks w w' :
  intervalsRegistered w -> shrinks w w' ->
  (forall k, heartbeats w' !! k = heartbeats w !! k
             \/ forall h ws d s, timers w' !! h = Some (HeartbeatInterval ws d) ->
                  heap w !! ws = Some s -> id s <> k) ->
  intervalsRegistered w'.
Proof.
  intros Hreg Hsh Hhb h ws d Hh.
  assert (Hh0 : timers w !! h = Some (HeartbeatInterval ws d)).
  { destruct Hsh as (Hsub & _). exact (lookup_weaken _ _ _ _ Hh Hsub). }
  destruct (Hreg h ws d Hh0) as (s & Hs & Hk).
  pose proof (shrinks_ids w w' ws Hsh) as Hid. rewrite Hs in Hid.
  destruct (heap w' !! ws) as [s'|]; [|done]. injection Hid as Hid.
  exists s'. split; [done|]. rewrite Hid.
  destruct (Hhb (id s)) as [->|Hno]; [done|].
  by destruct (Hno h ws d s Hh Hs).
Qed.

Lemma registered_same w w' :
  intervalsRegistered w -> shrinks w w' -> heartbeats w' = heartbeats w ->
  intervalsRegistered w'.
Proof.
  intros Hreg Hsh Hhb. apply (registered_shrinks w); [done|done|].
  intros k. left. by rewrite Hhb.
Qed.

Lemma same_socket w ws ws' s s' :
  uniqueIds w -> heap w !! ws = Some s -> heap w !! ws' = Some s' ->
  id s' = id s -> ws' = ws.
Proof.
  intros Hu Hs Hs' Hid. apply (Hu ws' ws (id s)).
  - rewrite Hs'. simpl. by rewrite Hid.
  - by rewrite Hs.
Qed.

Lemma registered_rearm h ws d d' w :
  intervalsRegistered w -> timers w !! h = Some (HeartbeatInterval ws d) ->
  intervalsRegistered (setTimers (<[h := HeartbeatInterval ws d']> (timers w)) w).
Proof.
  intros Hr Hh h1 ws1 d1. simpl. rewrite lookup_insert.
  destruct (decide (h = h1)) as [E1|E1]; intros H1; simplify_eq.
  - eapply Hr; eassumption.
  - eapply Hr; eassumption.
Qed.

Lemma registered_armPong h ws dd f w :
  (forall s, id (f s) = id s) -> intervalsRegistered w ->
  intervalsRegistered (updateSocket ws f (armTimer (PongTimeout ws h dd) w).2).
Proof.
  intros Hf Hr h1 ws1 d1. simpl. rewrite lookup_insert.
  destruct (decide (nextHandle w = h1)) as [E1|E1]; intros H1; simplify_eq.
  destruct (Hr h1 ws1 d1 H1) as (s & Hs & Hk).
  destruct (decide (ws = ws1)) as [E|E].
  - subst. exists (f s). rewrite lookup_alter_eq, Hs. split; [done|]. by rewrite Hf.
  - exists s. by rewrite lookup_alter_ne.
Qed.

Lemma registered_onConnection ws k ip w :
  intervalsRegistered w -> heap w !! ws = None ->
  map_Forall (fun _ s => id s <> k) (heap w) ->
  intervalsRegistered (onConnection ws k ip w).
Proof.
  intros Hr Hnew Hfresh. unfold onConnection.
  destruct (MAX_CONNECTIONS <=? _); [exact Hr|].
  intros h1 ws1 d1. simpl. rewrite lookup_insert.
  destruct (decide (nextHandle w = h1)) as [E1|E1]; intros H1; simplify_eq.
  - eexists. rewrite lookup_insert_eq. split; [done|]. simpl.
    by rewrite lookup_insert_eq.
  - destruct (Hr h1 ws1 d1 H1) as (s & Hs & Hk). exists s.
    rewrite lookup_insert_ne by (intros ->; congruence). split; [done|].
    simpl. rewrite lookup_insert_ne; [done|]. intros ->. by apply (Hfresh ws1 s Hs).
Qed.

Lemma reapOnTick_cancels h ws s w :
  timersWF w -> heap w !! ws = Some s -> timers (reapOnTick h ws w) !! h = None.
Proof.
  intros Hwf Hs. unfold reapOnTick. rewrite (withSocket_some _ _ _ _ Hs).
  assert (Hsh : shrinks (clearTimer h w) (dropPingTimeout ws (clearTimer h w))).
  { apply shrinks_dropPingTimeout.
    eapply timersWF_shrinks; [done|apply shrinks_clearTimer]. }
  destruct Hsh as (Hsub & _).
  change (timers (dropPingTimeout ws (clearTimer h w)) !! h = None).
  eapply lookup_weaken_None; [|exact Hsub]. simpl. apply lookup_delete_eq.
Qed.

Lemma reapOnTick_heartbeats h ws s w k :
  heap w !! ws = Some s -> k <> id s ->
  heartbeats (reapOnTick h ws w) !! k = heartbeats w !! k.
Proof.
  intros Hs Hne. unfold reapOnTick. rewrite (withSocket_some _ _ _ _ Hs).
  change (delete (id s) (heartbeats (dropPingTimeout ws (clearTimer h w))) !! k
          = heartbeats w !! k).
  rewrite lookup_delete_ne by done. by rewrite dropPingTimeout_heartbeats.
Qed.

Lemma registered_reapOnTick h ws d w :
  timersWF w -> uniqueIds w -> intervalsRegistered w ->
  timers w !! h = Some (HeartbeatInterval ws d) ->
  intervalsRegistered (reapOnTick h ws w).
Proof.
  intros Hwf Hu Hr Hh.
  destruct (wf_owner w Hwf _ _ _ Hh) as [s Hs].
  pose proof (shrinks_reapOnTick h ws w Hwf) as Hsh.
  apply (registered_shrinks w); [done|done|].
  intros k. destruct (decide (k = id s)) as [->|Hne];
    [right|left; by apply (reapOnTick_heartbeats h ws s)].
  intros h' ws' d' s' Hh' Hs' Hid.
  pose proof (same_socket w ws ws' s s' Hu Hs Hs' Hid) as ->.
  destruct Hsh as (Hsub & _). pose proof (lookup_weaken _ _ _ _ Hh' Hsub) as Hh0.
  pose proof (wf_one_interval w Hwf _ _ _ _ _ Hh Hh0) as <-.
  rewrite (reapOnTick_cancels h ws s w Hwf Hs) in Hh'. discriminate Hh'.
Qed.

Lemma clearPingTimeout_heartbeats ws w :
  heartbeats (clearPingTimeout ws w) = heartbeats w.
Proof.
  unfold clearPingTimeout, withSocket. destruct (heap w !! ws) as [s|]; [|done].
  by destruct (pingTimeout s).
Qed.

Lemma registered_heartbeatTick h ws d p w :
  timersWF w -> uniqueIds w -> intervalsRegistered w ->
  timers w !! h = Some (HeartbeatInterval ws d) ->
  intervalsRegistered (heartbeatTick h ws p w).
Proof.
  intros Hwf Hu Hr Hh. unfold heartbeatTick, withSocket.
  destruct (heap w !! ws) as [s|] eqn:Hs; [|done].
  destruct (isAlive s); cbn [negb]; cbv zeta.
  2:{ by eapply registered_reapOnTick. }
  set (w1 := emit (Ping ws) (updateSocket ws (setIsAlive false) w)).
  assert (Hsh1 : shrinks w w1) by (unfold w1; repeat shrink_step).
  assert (Hr1 : intervalsRegistered w1) by (by apply (registered_same w)).
  destruct p.
  { apply registered_reapOnTick with d; [by eapply timersWF_shrinks| |done|exact Hh].
    apply (uniqueIds_same_ids w); [|done]. intros r. by apply shrinks_ids. }
  rewrite let_armTimer. apply registered_armPong; [by intros []|].
  apply (registered_same w1); [done|apply shrinks_clearPingTimeout|].
  apply clearPingTimeout_heartbeats.
Qed.

Lemma registered_pongTimeoutFired h ws i d w :
  timersWF w -> uniqueIds w -> intervalsRegistered w -> capturedIsInterval w ->
  timers w !! h = Some (PongTimeout ws i d) ->
  intervalsRegistered (pongTimeoutFired i ws (clearTimer h w)).
Proof.
  intros Hwf Hu Hr Hc Hh.
  pose proof (shrinks_pongTimeoutFired h ws i d w Hwf Hh) as Hsh.
  apply (registered_shrinks w); [done|done|].
  intros k. unfold pongTimeoutFired, withSocket. simpl.
  destruct (heap w !! ws) as [s|] eqn:Hs; [|by left].
  destruct (negb (isAlive s) && (readyState s =? 1)); [|by left].
  simpl. destruct (decide (k = id s)) as [->|Hne];
    [right|left; by rewrite lookup_delete_ne].
  intros h' ws' d' s' Hh' Hs' Hid.
  pose proof (same_socket w ws ws' s s' Hu Hs Hs' Hid) as ->.
  apply lookup_delete_Some in Hh' as [Hni Hh'].
  apply lookup_delete_Some in Hh' as [_ Hh'].
  apply Hni. eapply Hc; eassumption.
Qed.

Lemma dropHeartbeat_other k k' w :
  k <> k' -> heartbeats (dropHeartbeat k' w) !! k = heartbeats w !! k.
Proof.
  intros Hne. unfold dropHeartbeat. destruct (heartbeats w !! k'); [|done].
  simpl. by rewrite lookup_delete_ne.
Qed.

(** The close and the error handler: what they leave has lost the interval
    registered under the id of the socket. *)
Lemma registered_closing ws s w w1 :
  uniqueIds w -> intervalsRegistered w -> heap w !! ws = Some s ->
  shrinks w w1 -> timers w1 ⊆ timers (dropHeartbeat (id s) w) ->
  (forall k, k <> id s -> heartbeats w1 !! k = heartbeats w !! k) ->
  intervalsRegistered w1.
Proof.
  intros Hu Hr Hs Hsh Hsub Hhb. apply (registered_shrinks w); [done|done|].
  intros k. destruct (decide (k = id s)) as [->|Hne]; [right|left; by apply Hhb].
  intros h' ws' d' s' Hh' Hs' Hid.
  pose proof (same_socket w ws ws' s s' Hu Hs Hs' Hid) as ->.
  pose proof (lookup_weaken _ _ _ _ Hh' Hsub) as Hh1.
  destruct Hsh as (Hsub0 & _). pose proof (lookup_weaken _ _ _ _ Hh' Hsub0) as Hh0.
  destruct (Hr h' ws d' Hh0) as (s0 & Hs0 & Hk).
  rewrite Hs in Hs0. injection Hs0 as <-.
  unfold dropHeartbeat in Hh1. rewrite Hk in Hh1. simpl in Hh1.
  rewrite lookup_delete_eq in Hh1. discriminate Hh1.
Qed.

Lemma onClose_timers ws s w :
  timersWF w -> heap w !! ws = Some s ->
  timers (onClose ws w) ⊆ timers (dropHeartbeat (id s) w).
Proof.
  intros Hwf Hs. unfold onClose. rewrite (withSocket_some _ _ _ _ Hs).
  change (timers (dropPingTimeout ws (dropHeartbeat (id s) w))
          ⊆ timers (dropHeartbeat (id s) w)).
  assert (Hsh : shrinks (dropHeartbeat (id s) w)
                  (dropPingTimeout ws (dropHeartbeat (id s) w))).
  { apply shrinks_dropPingTimeout.
    eapply timersWF_shrinks; [done|apply shrinks_dropHeartbeat]. }
  by destruct Hsh as (Hsub & _).
Qed.

Lemma onClose_heartbeats ws s w k :
  heap w !! ws = Some s -> k <> id s ->
  heartbeats (onClose ws w) !! k = heartbeats w !! k.
Proof.
  intros Hs Hne. unfold onClose. rewrite (withSocket_some _ _ _ _ Hs).
  change (heartbeats (dropPingTimeout ws (dropHeartbeat (id s) w)) !! k
          = heartbeats w !! k).
  rewrite dropPingTimeout_heartbeats. by apply dropHeartbeat_other.
Qed.

Lemma step_registered e w w' :
  timersWF w -> uniqueIds w -> capturedIsInterval w -> intervalsRegistered w ->
  freshId e w = true -> step e w = Some w' -> intervalsRegistered w'.
Proof.
  intros Hwf Hu Hc Hr Hfresh Hstep.
  destruct e as [ws k ip|ws parsed|ws|ws|ws|ws rs|h p|oracle| | | |t].
  - unfold step in Hstep. simpl in Hstep, Hfresh.
    destruct (bool_decide (heap w !! ws = None)) eqn:Hnew; [|done].
    apply bool_decide_eq_true in Hnew, Hfresh. injection Hstep as <-.
    by apply registered_onConnection.
  - apply (registered_same w); [done|by eapply step_shrinks|].
    unfold step in Hstep. destruct (enabled _ w); [|done].
    injection Hstep as <-. clear. frame.
  - apply (registered_same w); [done|by eapply step_shrinks|].
    unfold step in Hstep. destruct (enabled _ w); [|done].
    injection Hstep as <-. clear. frame.
  - pose proof (step_shrinks _ w w' Hwf Hstep) as Hsh.
    unfold step in Hstep. destruct (enabled _ w) eqn:Hen; [|done].
    injection Hstep as <-. simpl in Hen. apply bool_decide_eq_true in Hen.
    destruct Hen as [s Hs].
    apply (registered_closing ws s w); [done|done|done| | |].
    + by apply Hsh.
    + by apply onClose_timers.
    + intros k Hne. by apply (onClose_heartbeats ws s).
  - pose proof (step_shrinks _ w w' Hwf Hstep) as Hsh.
    unfold step in Hstep. destruct (enabled _ w) eqn:Hen; [|done].
    injection Hstep as <-. simpl in Hen. apply bool_decide_eq_true in Hen.
    destruct Hen as [s Hs].
    apply (registered_closing ws s w); [done|done|done| | |].
    + by apply Hsh.
    + unfold onError. by rewrite (withSocket_some _ _ _ _ Hs).
    + intros k Hne. unfold onError. rewrite (withSocket_some _ _ _ _ Hs).
      by apply dropHeartbeat_other.
  - apply (registered_same w); [done|by eapply step_shrinks|].
    unfold step in Hstep. destruct (enabled _ w); [|done]. by injection Hstep as <-.
  - unfold step in Hstep. destruct (enabled (ETimer h p) w); [|done].
    injection Hstep as <-. unfold fireTimer.
    destruct (timers w !! h) as [[ws d|ws i d]|] eqn:Hh; [| |done].
    + apply registered_heartbeatTick with (clock w + HEARTBEAT_INTERVAL).
      * by eapply timersWF_rearm.
      * done.
      * by eapply registered_rearm.
      * simpl. apply lookup_insert_eq.
    + by eapply registered_pongTimeoutFired.
  - apply (registered_same w); [done|by eapply step_shrinks|].
    unfold step in Hstep. destruct (enabled _ w); [|done]. simpl in Hstep.
    destruct (immediates w) as [|t rest]; injection Hstep as <-; [done|].
    apply (runTask_heartbeats t oracle (setImmediates rest w)).
  - apply (registered_same w); [done|by eapply step_shrinks|].
    unfold step in Hstep. destruct (enabled _ w); [|done]. simpl in Hstep.
    unfold recordRequest, withStatsLock in Hstep. simpl in Hstep.
    destruct (statsLock w); [done|]. by injection Hstep as <-.
  - apply (registered_same w); [done|by eapply step_shrinks|].
    unfold step in Hstep. destruct (enabled _ w); [|done]. simpl in Hstep.
    unfold metricsTick, withStatsLock in Hstep.
    destruct (statsLock w); [done|]. by injection Hstep as <-.
  - apply (registered_same w); [done|by eapply step_shrinks|].
    unfold step in Hstep. destruct (enabled _ w); [|done]. by injection Hstep as <-.
  - unfold step in Hstep. destruct (enabled (EAdvance t) w); [|done].
    by injection Hstep as <-.
Qed.

(** *** Runs in which every connection draws a new id *)

Lemma freshIds_app es1 : forall es2 w w1,
  freshIds (es1 ++ es2) w = true -> run es1 w = Some w1 ->
  freshIds es1 w = true /\ freshIds es2 w1 = true.
Proof.
  induction es1 as [|e es1 IH]; intros es2 w w1 Hf Hrun; simpl in *.
  - by injection Hrun as <-.
  - destruct (step e w) as [w0|] eqn:Hstep; [|done]. simpl in Hrun.
    apply andb_true_iff in Hf as [He Hf].
    destruct (IH es2 w0 w1 Hf Hrun) as [H1 H2]. by rewrite He, H1, H2.
Qed.

Lemma run_monitored es : forall w w',
  timersWF w -> uniqueIds w -> capturedIsInterval w -> intervalsRegistered w ->
  run es w = Some w' -> freshIds es w = true ->
  timersWF w' /\ uniqueIds w' /\ capturedIsInterval w' /\ intervalsRegistered w'.
Proof.
  induction es as [|e es IH]; intros w w' Hwf Hu Hc Hr Hrun Hf; simpl in Hrun, Hf.
  - by injection Hrun as <-.
  - destruct (step e w) as [w1|] eqn:Hstep; [|done]. simpl in Hrun.
    apply andb_true_iff in Hf as [He Hf].
    apply (IH w1 w'); [| | | |done|done].
    + by eapply step_timersWF.
    + by eapply step_uniqueIds.
    + by eapply step_captured.
    + by eapply step_registered.
Qed.

Lemma monitored_initial t0 :
  uniqueIds (initialWorld t0) /\ capturedIsInterval (initialWorld t0)
  /\ intervalsRegistered (initialWorld t0).
Proof.
  split; [|split].
  - intros ws1 ws2 k H. simpl in H. by rewrite lookup_empty in H.
  - intros h ws i d h' d' H. simpl in H. by rewrite lookup_empty in H.
  - intros h ws d H. simpl in H. by rewrite lookup_empty in H.
Qed.

(** A socket object keeps its id, whatever happens. *)
Lemma step_id_kept e w w' r k :
  step e w = Some w' -> id <$> heap w !! r = Some k -> id <$> heap w' !! r = Some k.
Proof.
  intros Hstep Hid. pose proof (step_ids e w w' r Hstep) as Hi.
  destruct e as [ws k' ip|ws parsed|ws|ws|ws|ws rs|h p|oracle| | | |t];
    try (by rewrite Hi).
  unfold step in Hstep. simpl in Hstep.
  destruct (bool_decide (heap w !! ws = None)) eqn:Hnew; [|done].
  apply bool_decide_eq_true in Hnew. injection Hstep as <-.
  unfold onConnection.
  destruct (MAX_CONNECTIONS <=? Z.of_nat (size (clients w))); [done|].
  simpl. rewrite lookup_insert_ne; [done|]. intros ->. by rewrite Hnew in Hid.
Qed.

(** *** After the close handler *)

Lemma onClose_cancels r s w :
  timersWF w -> intervalsRegistered w -> heap w !! r = Some s ->
  forall h tm, timers (onClose r w) !! h = Some tm -> owner tm <> r.
Proof.
  intros Hwf Hr Hs h tm Hh Ho.
  pose proof (lookup_weaken _ _ _ _ Hh (onClose_timers r s w Hwf Hs)) as Hh1.
  assert (Hh0 : timers w !! h = Some tm).
  { destruct (shrinks_dropHeartbeat (id s) w) as (Hsub & _).
    exact (lookup_weaken _ _ _ _ Hh1 Hsub). }
  destruct tm as [ws d|ws i d]; simpl in Ho; subst ws.
  - destruct (Hr h r d Hh0) as (s0 & Hs0 & Hk).
    rewrite Hs in Hs0. injection Hs0 as <-.
    unfold dropHeartbeat in Hh1. rewrite Hk in Hh1. simpl in Hh1.
    rewrite lookup_delete_eq in Hh1. discriminate Hh1.
  - pose proof (wf_pending_is_field w Hwf _ _ _ _ Hh0) as Hf.
    rewrite Hs in Hf. injection Hf as Hp.
    unfold onClose in Hh. rewrite (withSocket_some _ _ _ _ Hs) in Hh.
    change (timers (dropPingTimeout r (dropHeartbeat (id s) w)) !! h
            = Some (PongTimeout r i d)) in Hh.
    assert (Hheap : heap (dropHeartbeat (id s) w) !! r = Some s)
      by (by rewrite dropHeartbeat_heap).
    rewrite (dropPingTimeout_gone r s h _ Hheap Hp) in Hh. discriminate Hh.
Qed.

(** What a heartbeat callback arms is a timer of its own socket. *)
Lemma heartbeatTick_grows h ws p w :
  timersWF w ->
  heartbeats (heartbeatTick h ws p w) ⊆ heartbeats w
  /\ forall h' tm', timers (heartbeatTick h ws p w) !! h' = Some tm' ->
       owner tm' = ws \/ timers w !! h' = Some tm'.
Proof.
  intros Hwf.
  assert (Hshr : forall w', shrinks w w' ->
            heartbeats w' ⊆ heartbeats w
            /\ forall h' tm', timers w' !! h' = Some tm' ->
                 owner tm' = ws \/ timers w !! h' = Some tm').
  { intros w' (Hsub & Hhsub & _). split; [done|]. intros h' tm' Hh'. right.
    exact (lookup_weaken _ _ _ _ Hh' Hsub). }
  unfold heartbeatTick, withSocket.
  destruct (heap w !! ws) as [s|] eqn:Hs; [|apply Hshr, shrinks_refl].
  destruct (isAlive s); cbn [negb]; cbv zeta.
  2:{ by apply Hshr, shrinks_reapOnTick. }
  set (w1 := emit (Ping ws) (updateSocket ws (setIsAlive false) w)).
  assert (Hsh1 : shrinks w w1) by (unfold w1; repeat shrink_step).
  destruct p.
  { apply Hshr. apply (shrinks_trans _ w1); [done|].
    apply shrinks_reapOnTick. by eapply timersWF_shrinks. }
  rewrite let_armTimer.
  assert (Hsh2 : shrinks w (clearPingTimeout ws w1))
    by (apply (shrinks_trans _ w1); [done|apply shrinks_clearPingTimeout]).
  destruct Hsh2 as (Hsub & Hhsub & _). split; [exact Hhsub|].
  intros h' tm'. simpl. rewrite lookup_insert.
  destruct (decide (nextHandle (clearPingTimeout ws w1) = h')) as [E|E]; intros Hh'.
  - injection Hh' as <-. by left.
  - right. exact (lookup_weaken _ _ _ _ Hh' Hsub).
Qed.

Lemma fireTimer_grows h p tm w :
  timersWF w -> timers w !! h = Some tm ->
  heartbeats (fireTimer h p w) ⊆ heartbeats w
  /\ forall h' tm', timers (fireTimer h p w) !! h' = Some tm' ->
       owner tm' = owner tm \/ timers w !! h' = Some tm'.
Proof.
  intros Hwf Hh. unfold fireTimer. rewrite Hh. destruct tm as [ws d|ws i d].
  - set (w0 := setTimers (<[h := HeartbeatInterval ws (clock w + HEARTBEAT_INTERVAL)]>
                            (timers w)) w).
    destruct (heartbeatTick_grows h ws p w0) as (Hhb & Ht);
      [by eapply timersWF_rearm|].
    split; [exact Hhb|]. intros h' tm' Hh'.
    destruct (Ht h' tm' Hh') as [Ho|Hh0]; [by left|].
    unfold w0 in Hh0. simpl in Hh0. rewrite lookup_insert in Hh0.
    destruct (decide (h = h')) as [E|E]; [|by right].
    injection Hh0 as <-. by left.
  - destruct (shrinks_pongTimeoutFired h ws i d w Hwf Hh) as (Hsub & Hhsub & _).
    split; [exact Hhsub|]. intros h' tm' Hh'. right.
    exact (lookup_weaken _ _ _ _ Hh' Hsub).
Qed.

(** Once no timer of socket [r] is pending and both entries of its id are
    deleted, this stays so. *)
Lemma tornDown_step r k e w w' :
  timersWF w -> id <$> heap w !! r = Some k -> freshId e w = true ->
  step e w = Some w' ->
  (forall h tm, timers w !! h = Some tm -> owner tm <> r) ->
  heartbeats w !! k = None -> clients w !! k = None ->
  (forall h tm, timers w' !! h = Some tm -> owner tm <> r)
  /\ heartbeats w' !! k = None /\ clients w' !! k = None.
Proof.
  intros Hwf Hid Hfresh Hstep Ht Hhb Hcl.
  assert (Hshr : shrinks w w' -> clients w' ⊆ clients w ->
            (forall h tm, timers w' !! h = Some tm -> owner tm <> r)
            /\ heartbeats w' !! k = None /\ clients w' !! k = None).
  { intros (Hsub & Hhsub & _) Hcsub. split; [|split].
    - intros h' tm' Hh'. apply (Ht h' tm'). exact (lookup_weaken _ _ _ _ Hh' Hsub).
    - eapply lookup_weaken_None; [exact Hhb|exact Hhsub].
    - eapply lookup_weaken_None; [exact Hcl|exact Hcsub]. }
  pose proof (step_clients e w w' Hstep) as Hcsub.
  destruct e as [ws k' ip|ws parsed|ws|ws|ws|ws rs|h p|oracle| | | |t];
    try (apply Hshr; [by eapply step_shrinks|exact Hcsub]).
  - unfold step in Hstep. simpl in Hstep, Hfresh.
    destruct (bool_decide (heap w !! ws = None)) eqn:Hnew; [|done].
    apply bool_decide_eq_true in Hnew, Hfresh. injection Hstep as <-.
    destruct (heap w !! r) as [s|] eqn:Hs; [|done]. injection Hid as Hid.
    pose proof (Hfresh r s Hs) as Hne. simpl in Hne. rewrite Hid in Hne.
    unfold onConnection. destruct (MAX_CONNECTIONS <=? _); [done|].
    simpl. split; [|split].
    + intros h' tm'. rewrite lookup_insert.
      destruct (decide (nextHandle w = h')) as [E|E]; [|apply Ht].
      intros [= <-]. simpl. intros ->. by rewrite Hnew in Hs.
    + rewrite lookup_insert_ne; [done|]. by intros ->.
    + rewrite lookup_insert_ne; [done|]. by intros ->.
  - unfold step in Hstep. destruct (enabled (ETimer h p) w) eqn:Hen; [|done].
    injection Hstep as <-. simpl in Hen.
    destruct (timers w !! h) as [tm|] eqn:Hh; [|done].
    destruct (fireTimer_grows h p tm w Hwf Hh) as (Hhsub & Hgrow).
    split; [|split].
    + intros h' tm' Hh'. destruct (Hgrow h' tm' Hh') as [Ho|Hh0].
      * rewrite Ho. by apply (Ht h tm).
      * by apply (Ht h' tm').
    + eapply lookup_weaken_None; [exact Hhb|exact Hhsub].
    + by rewrite fireTimer_clients.
  - unfold step in Hstep. destruct (enabled (EAdvance t) w); [|done].
    by injection Hstep as <-.
Qed.

Lemma tornDown_run r k es : forall w w',
  timersWF w -> id <$> heap w !! r = Some k -> freshIds es w = true ->
  run es w = Some w' ->
  (forall h tm, timers w !! h = Some tm -> owner tm <> r) ->
  heartbeats w !! k = None -> clients w !! k = None ->
  id <$> heap w' !! r = Some k
  /\ (forall h tm, timers w' !! h = Some tm -> owner tm <> r)
  /\ heartbeats w' !! k = None /\ clients w' !! k = None.
Proof.
  induction es as [|e es IH]; intros w w' Hwf Hid Hf Hrun Ht Hhb Hcl;
    simpl in Hrun, Hf.
  - by injection Hrun as <-.
  - destruct (step e w) as [w1|] eqn:Hstep; [|done]. simpl in Hrun.
    apply andb_true_iff in Hf as [He Hf].
    destruct (tornDown_step r k e w w1 Hwf Hid He Hstep Ht Hhb Hcl) as (Ht1 & Hhb1 & Hcl1).
    apply (IH w1 w'); try done.
    + by eapply step_timersWF.
    + by eapply step_id_kept.
Qed.

(** X11.  The close handler is final.  In a run in which every connection
    draws a new id, once the close event of a socket has been handled no
    timer of that socket is pending, and its id is neither in [heartbeats]
    nor in the registry, at any later time: the handler leaves no interval
    and no pong timeout behind, whatever the state of the heartbeat was, and
    nothing arms or registers the socket again. *)
Theorem close_is_final es0 r es t0 w'
    (Hrun : run (es0 ++ EClose r :: es) (initialWorld t0) = Some w')
    (Hfresh : freshIds (es0 ++ EClose r :: es) (initialWorld t0) = true) :
  exists s,
    heap w' !! r = Some s
    /\ (forall h tm, timers w' !! h = Some tm -> owner tm <> r)
    /\ heartbeats w' !! id s = None
    /\ clients w' !! id s = None.
Proof.
  rewrite run_app in Hrun.
  destruct (run es0 (initialWorld t0)) as [w|] eqn:Hrun0; [|done].
  destruct (freshIds_app es0 _ _ _ Hfresh Hrun0) as [Hf0 Hf1].
  destruct (monitored_initial t0) as (Hu0 & Hc0 & Hr0).
  destruct (run_monitored es0 _ _ (timersWF_initial t0) Hu0 Hc0 Hr0 Hrun0 Hf0)
    as (Hwf & Hu & Hc & Hr).
  simpl in Hrun, Hf1.
  destruct (step (EClose r) w) as [w1|] eqn:Hstep; [|done]. simpl in Hrun, Hf1.
  pose proof (step_timersWF _ _ _ Hwf Hstep) as Hwf1.
  unfold step in Hstep. destruct (enabled (EClose r) w) eqn:Hen; [|done].
  injection Hstep as <-. simpl in Hen. apply bool_decide_eq_true in Hen.
  destruct Hen as [s Hs].
  destruct (onClose_post r s w Hs) as (Hs1 & Hhb1 & Hcl1).
  destruct (tornDown_run r (id s) es (onClose r w) w') as (Hid & Ht & Hhb & Hcl);
    [done|by rewrite Hs1|done|done|by apply (onClose_cancels r s)|done|done|].
  destruct (heap w' !! r) as [s'|] eqn:Hs'; [|done]. injection Hid as Hid.
  exists s'. rewrite Hid. done.
Qed.

Lemma close_is_final_witness :
  run closedEvents (initialWorld 0) = Some closedWorld
  /\ freshIds closedEvents (initialWorld 0) = true
  /\ exists s,
       heap closedWorld !! 0%nat = Some s
       /\ (forall h tm, timers closedWorld !! h = Some tm -> owner tm <> 0%nat)
       /\ heartbeats closedWorld !! id s = None
       /\ clients closedWorld !! id s = None.
Proof.
  assert (Hrun : run closedEvents (initialWorld 0) = Some closedWorld)
    by (vm_compute; reflexivity).
  assert (Hfresh : freshIds closedEvents (initialWorld 0) = true)
    by (vm_compute; reflexivity).
  split; [exact Hrun|]. split; [exact Hfresh|].
  exact (close_is_final
           [EConnection 0%nat (js "k3x9a2f7q") (js "10.0.0.1"); EAdvance 30000;
            ETimer 0%nat false; EAdvance 35000]
           0%nat
           [EConnection 1%nat (js "m7p2w8d4z") (js "10.0.0.2"); EAdvance 70000]
           0 closedWorld Hrun Hfresh).
Defined.

(** *** Shutdown of the WebSocket server *)

Lemma clearAll_timers (l : list (jsstring * handle)) : forall w h,
  timers (foldl (fun w entry => clearTimer entry.2 w) w l) !! h
  = if decide (h ∈ l.*2) then None else timers w !! h.
Proof.
  induction l as [|e l IH]; intros w h.
  - destruct (decide (h ∈ ([] : list (jsstring * handle)).*2)) as [Hin|_]; [|done].
    by apply elem_of_nil in Hin.
  - change (foldl (fun w entry => clearTimer entry.2 w) w (e :: l))
      with (foldl (fun w entry => clearTimer entry.2 w) (clearTimer e.2 w) l).
    rewrite IH. change ((e :: l).*2) with (e.2 :: l.*2).
    change (timers (clearTimer e.2 w)) with (delete e.2 (timers w)).
    destruct (decide (h ∈ l.*2)) as [Hin|Hin].
    + rewrite decide_True; [done|]. apply elem_of_cons; by right.
    + destruct (decide (h = e.2)) as [->|Hne].
      * rewrite decide_True by (apply elem_of_cons; by left). apply lookup_delete_eq.
      * rewrite decide_False, lookup_delete_ne; [done|congruence|].
        intros [?|?]%elem_of_cons; tauto.
Qed.

Lemma clearAll_frame (l : list (jsstring * handle)) : forall w,
  let w' := foldl (fun w entry => clearTimer entry.2 w) w l in
  heap w' = heap w /\ clients w' = clients w /\ out w' = out w
  /\ immediates w' = immediates w.
Proof.
  induction l as [|e l IH]; intros w; simpl; [done|].
  destruct (IH (clearTimer e.2 w)) as (H1 & H2 & H3 & H4). by rewrite H1, H2, H3, H4.
Qed.

(** X12.  When the WebSocket server closes, in a run in which every
    connection drew a new id, the handler cancels every heartbeat interval
    and empties [heartbeats], and that is all: the pong timeouts that are
    pending stay pending, no socket is closed or terminated, and the
    registry keeps its entries. *)
Theorem onServerClose_intervals es t0 w
    (Hrun : run es (initialWorld t0) = Some w)
    (Hfresh : freshIds es (initialWorld t0) = true) :
  let w' := onServerClose w in
  heartbeats w' = ∅
  /\ (forall h tm, timers w' !! h = Some tm
        <-> timers w !! h = Some tm /\ exists ws i d, tm = PongTimeout ws i d)
  /\ heap w' = heap w /\ clients w' = clients w /\ out w' = out w.
Proof.
  destruct (monitored_initial t0) as (Hu0 & Hc0 & Hr0).
  destruct (run_monitored es _ _ (timersWF_initial t0) Hu0 Hc0 Hr0 Hrun Hfresh)
    as (Hwf & Hu & Hc & Hr).
  unfold onServerClose.
  destruct (clearAll_frame (map_to_list (heartbeats w)) w) as (Hheap & Hcl & Hout & _).
  split; [done|]. split; [|done].
  intros h tm. simpl. rewrite clearAll_timers.
  assert (Hin : h ∈ (map_to_list (heartbeats w)).*2 <-> exists k, heartbeats w !! k = Some h).
  { rewrite list_elem_of_fmap. split.
    - intros ([k h'] & -> & He). exists k. by apply elem_of_map_to_list in He.
    - intros (k & Hk). exists (k, h). split; [done|]. by apply elem_of_map_to_list. }
  destruct (decide (h ∈ (map_to_list (heartbeats w)).*2)) as [Hd|Hd].
  - split; [done|]. intros (Hh & ws & i & d & ->).
    apply Hin in Hd as (k & Hk).
    destruct (wf_heartbeat_is_own w Hwf k h _ Hk Hh) as (ws' & d' & Heq & _).
    discriminate Heq.
  - split; [|tauto]. intros Hh. split; [done|].
    destruct tm as [ws d|ws i d]; [|by exists ws, i, d].
    destruct (Hr h ws d Hh) as (s & Hs & Hk).
    destruct Hd. apply Hin. by exists (id s).
Qed.

Lemma onServerClose_intervals_witness :
  run probedEvents (initialWorld 0) = Some probedWorld
  /\ freshIds probedEvents (initialWorld 0) = true
  /\ heartbeats (onServerClose probedWorld) = ∅
  /\ timers (onServerClose probedWorld) !! 1%nat = Some (PongTimeout 0%nat 0%nat 40000)
  /\ timers (onServerClose probedWorld) !! 0%nat = None.
Proof.
  assert (Hrun : run probedEvents (initialWorld 0) = Some probedWorld)
    by (vm_compute; reflexivity).
  assert (Hfresh : freshIds probedEvents (initialWorld 0) = true)
    by (vm_compute; reflexivity).
  destruct (onServerClose_intervals probedEvents 0 probedWorld Hrun Hfresh)
    as (Hhb & Ht & _).
  split; [exact Hrun|]. split; [exact Hfresh|]. split; [exact Hhb|].
  split; [vm_compute; reflexivity|vm_compute; reflexivity].
Defined.

(** *** The probe and the next probe *)

Lemma probeGap_shrinks w w' : probeGap w -> shrinks w w' -> probeGap w'.
Proof.
  intros Hg (Hsub & _) h ws i d di H1 H2.
  apply (Hg h ws i d di); eapply lookup_weaken; eauto.
Qed.

Lemma probeGap_onConnection ws k ip w :
  timersWF w -> probeGap w -> probeGap (onConnection ws k ip w).
Proof.
  intros Hwf Hg. unfold onConnection.
  destruct (MAX_CONNECTIONS <=? _); [exact Hg|].
  intros h1 ws1 i1 d1 di. simpl. rewrite !lookup_insert.
  destruct (decide (nextHandle w = h1)) as [E1|E1]; [done|].
  intros H1. pose proof (wf_fresh_captured w Hwf _ _ _ _ H1) as Hlt.
  destruct (decide (nextHandle w = i1)) as [E2|E2]; [lia|].
  intros H2. by apply (Hg h1 ws1 i1 d1 di).
Qed.

Lemma probeGap_fireInterval h ws d p w :
  timersWF w -> probeGap w -> timers w !! h = Some (HeartbeatInterval ws d) ->
  probeGap (heartbeatTick h ws p
    (setTimers (<[h := HeartbeatInterval ws (clock w + HEARTBEAT_INTERVAL)]> (timers w)) w)).
Proof.
  intros Hwf Hg Hh.
  set (w0 := setTimers (<[h := HeartbeatInterval ws (clock w + HEARTBEAT_INTERVAL)]>
                          (timers w)) w).
  assert (Hwf0 : timersWF w0) by (by eapply timersWF_rearm).
  assert (Hh0 : timers w0 !! h = Some (HeartbeatInterval ws (clock w + HEARTBEAT_INTERVAL)))
    by (simpl; apply lookup_insert_eq).
  destruct (wf_owner w Hwf _ _ _ Hh) as [s Hs].
  (* a pong timeout and its interval, both other than [h], are as in [w] *)
  assert (Hold : forall h1 ws1 i1 d1 di,
            timers w0 !! h1 = Some (PongTimeout ws1 i1 d1) ->
            timers w0 !! i1 = Some (HeartbeatInterval ws1 di) -> i1 <> h ->
            di = d1 + (HEARTBEAT_INTERVAL - PING_TIMEOUT)).
  { intros h1 ws1 i1 d1 di H1 H2 Hne. simpl in H1, H2.
    rewrite lookup_insert in H1. destruct (decide (h = h1)) as [E|E]; [done|].
    rewrite lookup_insert_ne in H2 by done. by apply (Hg h1 ws1 i1 d1 di). }
  assert (Hreap : forall w1, shrinks w0 w1 -> timers w1 !! h = None -> probeGap w1).
  { intros w1 (Hsub & _) Hnone h1 ws1 i1 d1 di H1 H2.
    apply (Hold h1 ws1 i1 d1 di); [by eapply lookup_weaken|by eapply lookup_weaken|].
    intros ->. by rewrite Hnone in H2. }
  unfold heartbeatTick, withSocket. change (heap w0) with (heap w). rewrite Hs.
  destruct (isAlive s); cbn [negb]; cbv zeta.
  2:{ apply Hreap; [by apply shrinks_reapOnTick|].
      by apply (reapOnTick_cancels h ws s). }
  set (w1 := emit (Ping ws) (updateSocket ws (setIsAlive false) w0)).
  assert (Hsh1 : shrinks w0 w1) by (unfold w1; repeat shrink_step).
  assert (Hs1 : heap w1 !! ws = Some (setIsAlive false s)).
  { unfold w1. simpl. rewrite lookup_alter_eq. by rewrite Hs. }
  destruct p.
  { apply Hreap.
    - apply (shrinks_trans _ w1); [done|].
      apply shrinks_reapOnTick. by eapply timersWF_shrinks.
    - apply (reapOnTick_cancels h ws (setIsAlive false s)); [|done].
      by eapply timersWF_shrinks. }
  rewrite let_armTimer.
  set (w2 := clearPingTimeout ws w1).
  assert (Hsh2 : shrinks w0 w2)
    by (apply (shrinks_trans _ w1); [done|apply shrinks_clearPingTimeout]).
  assert (Hwf2 : timersWF w2) by (by eapply timersWF_shrinks).
  assert (Hclock : clock w2 = clock w).
  { unfold w2. by rewrite clearPingTimeout_clock. }
  destruct Hsh2 as (Hsub & _).
  intros h1 ws1 i1 d1 di. simpl. rewrite !lookup_insert.
  destruct (decide (nextHandle w2 = h1)) as [E1|E1]; intros H1.
  - injection H1 as <- <- <-.
    destruct (decide (nextHandle w2 = h)) as [E2|E2]; [done|].
    intros H2. pose proof (lookup_weaken _ _ _ _ H2 Hsub) as H2'.
    rewrite Hh0 in H2'. injection H2' as <-.
    rewrite Hclock. unfold HEARTBEAT_INTERVAL, PING_TIMEOUT. lia.
  - destruct (decide (nextHandle w2 = i1)) as [E2|E2]; [done|]. intros H2.
    pose proof (lookup_weaken _ _ _ _ H1 Hsub) as H1'.
    pose proof (lookup_weaken _ _ _ _ H2 Hsub) as H2'.
    apply (Hold h1 ws1 i1 d1 di H1' H2'). intros ->.
    rewrite Hh0 in H2'. injection H2' as <- <-.
    pose proof (wf_pending_is_field w0 Hwf0 _ _ _ _ H1') as Hf.
    change (heap w0) with (heap w) in Hf. rewrite Hs in Hf. injection Hf as Hp.
    unfold w2 in H1.
    rewrite (clearPingTimeout_gone ws (setIsAlive false s) h1 w1 Hs1) in H1; [done|].
    by destruct s.
Qed.

Lemma step_probeGap e w w' :
  timersWF w -> probeGap w -> step e w = Some w' -> probeGap w'.
Proof.
  intros Hwf Hg Hstep.
  destruct e as [ws k ip|ws parsed|ws|ws|ws|ws rs|h p|oracle| | | |t];
    try (eapply probeGap_shrinks; [done|]; by eapply step_shrinks).
  - unfold step in Hstep. destruct (enabled _ w); [|done].
    injection Hstep as <-. by apply probeGap_onConnection.
  - unfold step in Hstep. destruct (enabled (ETimer h p) w); [|done].
    injection Hstep as <-. unfold fireTimer.
    destruct (timers w !! h) as [[ws d|ws i d]|] eqn:Hh; [| |done].
    + by apply (probeGap_fireInterval h ws d).
    + eapply probeGap_shrinks; [done|]. by eapply shrinks_pongTimeoutFired.
  - unfold step in Hstep. destruct (enabled (EAdvance t) w); [|done].
    by injection Hstep as <-.
Qed.

Lemma run_probeGap es t0 w : run es (initialWorld t0) = Some w -> probeGap w.
Proof.
  intros Hrun.
  apply (run_invariant (fun w => timersWF w /\ probeGap w)) with (es := es) (w' := w)
    (w := initialWorld t0); [| |done].
  - intros e w0 w1 [Hwf Hg] Hstep. split; [by eapply step_timersWF|by eapply step_probeGap].
  - split; [apply timersWF_initial|].
    intros h ws i d di H. simpl in H. by rewrite lookup_empty in H.
Qed.

(** X13.  While a pong timeout of a socket is pending, the interval of
    that socket, if it is still pending, is the one the timeout would
    cancel, and the next probe is due exactly [HEARTBEAT_INTERVAL -
    PING_TIMEOUT] (20 s) after the timeout.  So as long as timers fire on
    time, a probe is never sent while the previous one is unsettled. *)
Theorem pong_timeout_before_next_probe es t0 w h ws i d h' d'
    (Hrun : run es (initialWorld t0) = Some w)
    (Hh : timers w !! h = Some (PongTimeout ws i d))
    (Hi : timers w !! h' = Some (HeartbeatInterval ws d')) :
  i = h'
  /\ d' = d + (HEARTBEAT_INTERVAL - PING_TIMEOUT)
  /\ (onTime w -> clock w < d').
Proof.
  pose proof (run_captured es t0 w Hrun h ws i d h' d' Hh Hi) as ->.
  pose proof (run_probeGap es t0 w Hrun h ws h' d d' Hh Hi) as ->.
  split; [done|]. split; [done|].
  intros Hon. pose proof (Hon h _ Hh) as Hdue. simpl in Hdue.
  unfold HEARTBEAT_INTERVAL, PING_TIMEOUT. lia.
Qed.

Lemma pong_timeout_before_next_probe_witness :
  run probedEvents (initialWorld 0) = Some probedWorld
  /\ timers probedWorld !! 1%nat = Some (PongTimeout 0%nat 0%nat 40000)
  /\ timers probedWorld !! 0%nat = Some (HeartbeatInterval 0%nat 60000)
  /\ 60000 = 40000 + (HEARTBEAT_INTERVAL - PING_TIMEOUT).
Proof.
  assert (Hrun : run probedEvents (initialWorld 0) = Some probedWorld)
    by (vm_compute; reflexivity).
  assert (Hh : timers probedWorld !! 1%nat = Some (PongTimeout 0%nat 0%nat 40000))
    by (vm_compute; reflexivity).
  assert (Hi : timers probedWorld !! 0%nat = Some (HeartbeatInterval 0%nat 60000))
    by (vm_compute; reflexivity).
  split; [exact Hrun|]. split; [exact Hh|]. split; [exact Hi|].
  exact (proj1 (proj2 (pong_timeout_before_next_probe _ _ _ _ _ _ _ _ _ Hrun Hh Hi))).
Defined.

(** ** File names *)

Lemma lastIndexOf_range c s :
  Filename.lastIndexOf c s = -1
  \/ 0 <= Filename.lastIndexOf c s < Z.of_nat (length s).
Proof.
  induction s as [|x s IH]; simpl; [by left|].
  destruct (0 <=? Filename.lastIndexOf c s) eqn:E.
  - right. apply Z.leb_le in E. lia.
  - destruct (x =? c)%N; [right; lia|by left].
Qed.

Lemma substring_Forall (P : N -> Prop) a b s :
  Forall P s -> Forall P (Filename.substring a b s).
Proof. intros H. unfold Filename.substring. by apply Forall_take, Forall_drop. Qed.

Lemma substring_prefix n s :
  Filename.substring 0 n s = take (Z.to_nat n) s.
Proof.
  unfold Filename.substring, Filename.clamp.
  replace (Z.to_nat (Z.min (Z.max 0 0) (Z.of_nat (length s)))) with 0%nat by lia.
  rewrite Nat.min_0_l, Nat.max_0_l, Nat.sub_0_r, drop_0.
  destruct (decide (Z.to_nat n <= length s)%nat) as [Hle|Hgt].
  - f_equal. lia.
  - rewrite !take_ge; [done|lia|lia].
Qed.

Lemma substringFrom_drop n s :
  0 <= n -> Filename.substringFrom n s = drop (Z.to_nat n) s.
Proof.
  intros Hn. unfold Filename.substringFrom, Filename.substring, Filename.clamp.
  replace (Z.to_nat (Z.min (Z.max (Z.of_nat (length s)) 0) (Z.of_nat (length s))))
    with (length s) by lia.
  set (a := Z.to_nat (Z.min (Z.max n 0) (Z.of_nat (length s)))).
  assert (Ha : (a <= length s)%nat) by (unfold a; lia).
  rewrite Nat.min_l, Nat.max_r by done.
  rewrite take_ge by (rewrite length_drop; lia).
  destruct (decide (Z.to_nat n <= length s)%nat) as [Hle|Hgt].
  - f_equal. unfold a. lia.
  - rewrite !drop_ge; [done|lia|unfold a; lia].
Qed.

Lemma clean_safe filename :
  Forall (fun c => Filename.isSafe c = true) (Filename.clean filename).
Proof.
  unfold Filename.clean. apply Forall_forall. intros c Hin.
  apply list_elem_of_In, in_map_iff in Hin as (x & <- & _).
  by destruct (Filename.isSafe x) eqn:E.
Qed.

(** X14.  Whatever the name of an uploaded file is, the sanitized name is
    made of letters, digits, dots, underscores and hyphens only: it holds no
    slash, no backslash, no NUL and no control character, so it cannot name a
    file in another directory.  This is owed to the last replacement: the
    removal of [../] makes one pass and can leave [../] behind. *)
Theorem sanitizeFilename_safe filename :
  Forall (fun c => Filename.isSafe c = true) (Filename.sanitizeFilename filename)
  /\ (forall c, In c (Filename.sanitizeFilename filename) ->
        c <> 47%N /\ c <> 92%N /\ Filename.isControl c = false)
  /\ Filename.removeLiteral (js "../") 0 Filename.dottedName = js "../etc/passwd".
Proof.
  assert (Hsafe : Forall (fun c => Filename.isSafe c = true)
                    (Filename.sanitizeFilename filename)).
  { pose proof (clean_safe filename) as Hc.
    unfold Filename.sanitizeFilename, Filename.limitLength.
    destruct (255 <? _); [|done].
    destruct (0 <? _); [|by apply substring_Forall].
    apply Forall_app. split; by repeat apply substring_Forall. }
  split; [exact Hsafe|]. split; [|vm_compute; reflexivity].
  intros c Hin. rewrite Forall_forall in Hsafe.
  pose proof (Hsafe c (proj2 (list_elem_of_In _ _) Hin)) as Hc.
  unfold Filename.isSafe in Hc. unfold Filename.isControl.
  repeat split; try (intros ->; vm_compute in Hc; discriminate Hc).
  apply orb_false_iff. split; [apply N.leb_gt|apply N.eqb_neq];
    repeat (apply orb_true_iff in Hc as [Hc|Hc]);
    repeat (apply andb_true_iff in Hc as [? ?]);
    repeat match goal with
      | H : (_ <=? _)%N = true |- _ => apply N.leb_le in H
      | H : (_ =? _)%N = true |- _ => apply N.eqb_eq in H
      end; lia.
Qed.

(** X15.  The sanitized name is the cleaned name when that has at most
    255 code units, and otherwise it is cut.  The cut keeps the part from the
    last dot on whole, so the result is longer than 255 exactly when the
    cleaned name is and its last dot, not at the start, has more than 254
    code units after it; then the result is that part alone.  In all other
    cases a name that is cut has exactly 255 code units. *)
Theorem sanitizeFilename_length filename :
  let cleaned := Filename.clean filename in
  let extIndex := Filename.lastIndexOf 46 cleaned in
  let result := Filename.sanitizeFilename filename in
  ((length cleaned <= 255)%nat -> result = cleaned)
  /\ ((255 < length cleaned)%nat ->
      if bool_decide (0 < extIndex /\ 255 < Z.of_nat (length cleaned) - extIndex)
      then result = drop (Z.to_nat extIndex) cleaned /\ (255 < length result)%nat
      else length result = 255%nat)
  /\ (255 < length (Filename.sanitizeFilename Filename.earlyDot))%nat.
Proof.
  intros cleaned extIndex result. unfold result, Filename.sanitizeFilename.
  fold cleaned. unfold Filename.limitLength. fold extIndex.
  split; [|split].
  - intros Hle. destruct (255 <? Z.of_nat (length cleaned)) eqn:E; [|done].
    apply Z.ltb_lt in E. lia.
  - intros Hgt. destruct (255 <? Z.of_nat (length cleaned)) eqn:E.
    2:{ apply Z.ltb_ge in E. lia. }
    pose proof (lastIndexOf_range 46 cleaned) as Hrange.
    change (Filename.lastIndexOf 46 cleaned) with extIndex in Hrange.
    destruct Hrange as [Hnone|Hrange].
    + destruct (0 <? extIndex) eqn:E0; [apply Z.ltb_lt in E0; lia|].
      rewrite bool_decide_eq_false_2 by lia.
      rewrite substring_prefix, length_take. lia.
    + destruct (0 <? extIndex) eqn:E0.
      2:{ apply Z.ltb_ge in E0. rewrite bool_decide_eq_false_2 by lia.
          rewrite substring_prefix, length_take. lia. }
      apply Z.ltb_lt in E0.
      rewrite substringFrom_drop by lia. rewrite !substring_prefix.
      rewrite length_drop, take_take.
      case_bool_decide as Hlong.
      * replace (Z.to_nat (255 - Z.of_nat (length cleaned - Z.to_nat extIndex)))
          with 0%nat by lia.
        rewrite Nat.min_0_l. simpl. split; [done|]. rewrite length_drop. lia.
      * rewrite length_app, length_take, length_drop. lia.
  - vm_compute. lia.
Qed.

(** ** Routing *)

Section RouterFacts.
Context {handler : Type}.
Variable test : jsstring -> jsstring -> option bool.

Lemma mapGet_mapSet k k' (v : handler) (m : list (jsstring * handler)) :
  Router.mapGet k (Router.mapSet k' v m)
  = if decide (k = k') then Some v else Router.mapGet k m.
Proof.
  induction m as [|[k0 v0] m IH]; simpl.
  - done.
  - destruct (decide (k' = k0)) as [->|Hne]; simpl.
    + by destruct (decide (k = k0)).
    + rewrite IH. destruct (decide (k = k0)) as [->|]; [|done].
      by rewrite decide_False by congruence.
Qed.

Lemma mapSet_keys k (v : handler) (m : list (jsstring * handler)) e :
  In e (Router.mapSet k v m) -> e.1 = k \/ exists e0, In e0 m /\ e0.1 = e.1.
Proof.
  induction m as [|[k0 v0] m IH]; simpl.
  - intros [<-|[]]. by left.
  - destruct (decide (k = k0)) as [->|Hne]; simpl.
    + intros [<-|Hin]; [by left|]. right. exists e. by split; [right|].
    + intros [<-|Hin]; [right; exists (k0, v0); by split; [left|]|].
      destruct (IH Hin) as [?|(e0 & H0 & ?)]; [by left|].
      right. exists e0. by split; [right|].
Qed.

Lemma mapGet_registerAll v path (regs : list (Router.verb * jsstring * handler)) :
  forall r,
    Router.mapGet path (Router.registerAll regs r v)
    = match Router.lastRegistered v path regs with
      | Some h => Some h
      | None => Router.mapGet path (r v)
      end.
Proof.
  induction regs as [|[[v0 p0] h0] regs IH]; intros r; [done|].
  unfold Router.registerAll in *. simpl. rewrite IH.
  destruct (Router.lastRegistered v path regs) as [h|]; [done|].
  unfold Router.register. simpl.
  destruct (decide (v = v0)) as [->|Hv].
  - rewrite mapGet_mapSet. destruct (decide (path = p0)) as [->|Hp].
    + by rewrite decide_True.
    + rewrite decide_False; [done|]. intros [_ ?]. congruence.
  - rewrite decide_False; [done|]. intros [? _]. congruence.
Qed.

Lemma keys_registerAll v (regs : list (Router.verb * jsstring * handler)) :
  forall r e, In e (Router.registerAll regs r v) ->
    (exists reg, In reg regs /\ reg.1.1 = v /\ reg.1.2 = e.1)
    \/ exists e0, In e0 (r v) /\ e0.1 = e.1.
Proof.
  induction regs as [|[[v0 p0] h0] regs IH]; intros r e Hin; [right; by exists e|].
  unfold Router.registerAll in *. simpl in Hin.
  destruct (IH _ e Hin) as [(reg & Hr & Hv & Hp)|(e0 & H0 & Hk)].
  - left. exists reg. by split; [right|].
  - unfold Router.register in H0. simpl in H0.
    destruct (decide (v = v0)) as [->|Hv]; [|right; by exists e0].
    destruct (mapSet_keys _ _ _ _ H0) as [Hk0|(e1 & H1 & Hk1)].
    + left. exists (v0, p0, h0). split; [by left|]. simpl. split; [done|congruence].
    + right. exists e1. split; [done|congruence].
Qed.

Lemma dynamic_static (m : list (jsstring * handler)) pathname :
  (forall e, In e m -> Router.includesColon e.1 = false) ->
  Router.dynamic test m pathname = Router.NotFound.
Proof.
  induction m as [|[route h] m IH]; intros Hno; simpl; [done|].
  pose proof (Hno (route, h) (or_introl eq_refl)) as Hc. simpl in Hc.
  rewrite Hc. apply IH. intros e He. apply Hno. by right.
Qed.

(** X16.  For a router filled by any series of registrations, [find] on one
    of the five methods answers as follows.  A path that was registered is
    answered by the handler it was last registered with, whatever else is
    registered.  Otherwise, if [*] was registered, by the last handler of
    [*]: with a catch-all the routes with parameters are never tried.
    Otherwise, if no route of the method holds a colon, [find] returns
    [null]. *)
Theorem find_registered (regs : list (Router.verb * jsstring * handler))
    method v pathname (Hv : Router.verbOf method = Some v) :
  let r := Router.registerAll regs Router.empty in
  (forall h, Router.lastRegistered v pathname regs = Some h ->
     Router.find test r method pathname = Router.Found h)
  /\ (forall h, Router.lastRegistered v pathname regs = None ->
        Router.lastRegistered v (js "*") regs = Some h ->
        Router.find test r method pathname = Router.Found h)
  /\ (Router.lastRegistered v pathname regs = None ->
      Router.lastRegistered v (js "*") regs = None ->
      (forall reg, In reg regs -> reg.1.1 = v -> Router.includesColon reg.1.2 = false) ->
      Router.find test r method pathname = Router.NotFound).
Proof.
  intros r. unfold Router.find. rewrite Hv. cbv zeta. unfold r.
  rewrite !mapGet_registerAll. split; [|split].
  - by intros h ->.
  - by intros h -> ->.
  - intros -> -> Hno. simpl. apply dynamic_static.
    intros e He. destruct (keys_registerAll v regs _ e He) as [(reg & Hr & Hv' & Hp)|(e0 & [] & _)].
    rewrite <- Hp. by apply Hno.
Qed.

End RouterFacts.

Lemma find_registered_witness :
  Router.verbOf (js "GET") = Some Router.GET
  /\ Router.lastRegistered Router.GET (js "/a")
       [(Router.GET, js "/a", 1%nat); (Router.GET, js "*", 2%nat);
        (Router.GET, js "/a", 3%nat)] = Some 3%nat
  /\ Router.find (fun _ _ => None)
       (Router.registerAll
          [(Router.GET, js "/a", 1%nat); (Router.GET, js "*", 2%nat);
           (Router.GET, js "/a", 3%nat)] Router.empty)
       (js "GET") (js "/a") = Router.Found 3%nat.
Proof.
  assert (Hv : Router.verbOf (js "GET") = Some Router.GET) by (vm_compute; reflexivity).
  assert (Hl : Router.lastRegistered Router.GET (js "/a")
                 [(Router.GET, js "/a", 1%nat); (Router.GET, js "*", 2%nat);
                  (Router.GET, js "/a", 3%nat)] = Some 3%nat)
    by (vm_compute; reflexivity).
  split; [exact Hv|]. split; [exact Hl|].
  exact (proj1 (find_registered (fun _ _ => None) _ (js "GET") Router.GET (js "/a") Hv)
           3%nat Hl).
Defined.

Ltac distinct_strings :=
  let H := fresh in intros H; vm_compute in H; discriminate H.

Lemma setupRoutes_tables :
  Router.setupRoutes Router.empty Router.GET
  = [(js "/", Router.ServePage (js "/index.html"));
     (js "/websocket-demo", Router.ServePage (js "/websocket-demo.html"));
     (js "/whiteboard", Router.ServePage (js "/whiteboard.html"));
     (js "/upload", Router.ServePage (js "/upload.html"));
     (js "/api/stats", Router.ApiStats); (js "/api/data", Router.ApiData);
     (js "/api/evolution", Router.ApiEvolution);
     (js "/uploads/*", Router.ServeUploaded); (js "*", Router.ServeStaticPath)]
  /\ Router.setupRoutes Router.empty Router.POST
     = [(js "/upload", Router.HandleUpload); (js "/api/data", Router.ApiPostData)]
  /\ Router.setupRoutes Router.empty Router.PUT = []
  /\ Router.setupRoutes Router.empty Router.DELETE = []
  /\ Router.setupRoutes Router.empty Router.PATCH = [].
Proof. repeat split; vm_compute; reflexivity. Qed.

Lemma dispatch_GET test pathname :
  Router.dispatch test (Router.setupRoutes Router.empty) (js "GET") pathname
  = Router.Run
      (default Router.ServeStaticPath
         (Router.mapGet pathname (Router.setupRoutes Router.empty Router.GET))).
Proof.
  unfold Router.dispatch, Router.find.
  rewrite decide_False by distinct_strings.
  replace (Router.verbOf (js "GET")) with (Some Router.GET) by (vm_compute; reflexivity).
  cbv zeta. destruct setupRoutes_tables as (-> & _).
  destruct (Router.mapGet pathname _) as [h|] eqn:E; [done|].
  replace (Router.mapGet (js "*") _) with (Some Router.ServeStaticPath); [done|].
  vm_compute. reflexivity.
Qed.

Lemma dispatch_POST test pathname :
  Router.dispatch test (Router.setupRoutes Router.empty) (js "POST") pathname
  = if decide (pathname = js "/upload") then Router.Run Router.HandleUpload
    else if decide (pathname = js "/api/data") then Router.Run Router.ApiPostData
    else Router.ServeStatic pathname.
Proof.
  unfold Router.dispatch, Router.find.
  rewrite decide_False by distinct_strings.
  replace (Router.verbOf (js "POST")) with (Some Router.POST) by (vm_compute; reflexivity).
  cbv zeta. destruct setupRoutes_tables as (_ & -> & _).
  cbn [Router.mapGet].
  destruct (decide (pathname = js "/upload")) as [->|H1]; [done|].
  destruct (decide (pathname = js "/api/data")) as [->|H2]; [done|].
  rewrite !decide_False by distinct_strings. reflexivity.
Qed.

(** X17.  How the server routes a request.  A GET always finds a handler:
    the one registered for its path, or else the catch-all, which serves the
    path as a static file.  The handler registered under [/uploads/*] is
    found for that literal path only, so a GET of [/uploads/name] goes to
    the catch-all.  A POST runs a handler for [/upload] and [/api/data] only.
    Every other request but a preflight, whatever its method, is answered by
    serving its path as a static file. *)
Theorem setupRoutes_dispatch test pathname :
  let r := Router.setupRoutes Router.empty in
  (exists h, Router.dispatch test r (js "GET") pathname = Router.Run h)
  /\ (Router.dispatch test r (js "GET") pathname = Router.Run Router.ServeUploaded
      <-> pathname = js "/uploads/*")
  /\ (~ In pathname Router.pages ->
      Router.dispatch test r (js "GET") pathname = Router.Run Router.ServeStaticPath)
  /\ (Router.dispatch test r (js "POST") pathname = Router.ServeStatic pathname
      <-> pathname <> js "/upload" /\ pathname <> js "/api/data")
  /\ (forall method,
        ~ In method [js "GET"; js "POST"; js "OPTIONS"] ->
        method ∉ Router.inheritedNames ->
        Router.dispatch test r method pathname = Router.ServeStatic pathname).
Proof.
  intros r. unfold r. split; [|split; [|split; [|split]]].
  - rewrite dispatch_GET. by eexists.
  - rewrite dispatch_GET. destruct setupRoutes_tables as (-> & _).
    destruct (decide (pathname = js "/uploads/*")) as [->|Hne].
    { split; intros _; [reflexivity|vm_compute; reflexivity]. }
    split; [|intros Heq; by destruct Hne]. intros Hup. exfalso.
    cbn [Router.mapGet] in Hup.
    repeat match type of Hup with
      | context [decide (pathname = ?k)] =>
          destruct (decide (pathname = k)) as [Heq|Hneq];
          [try discriminate Hup; try (by destruct Hne)|clear Hneq]
      end.
    discriminate Hup.
  - intros Hnot. rewrite dispatch_GET. destruct setupRoutes_tables as (-> & _).
    assert (Hne : forall k, In k Router.pages -> pathname <> k)
      by (intros k Hk ->; exact (Hnot Hk)).
    cbn [Router.mapGet].
    repeat rewrite decide_False by (apply Hne; unfold Router.pages; simpl; tauto).
    by destruct (decide (pathname = js "*")).
  - rewrite dispatch_POST.
    destruct (decide (pathname = js "/upload")) as [->|H1];
      [split; [discriminate|tauto]|].
    destruct (decide (pathname = js "/api/data")) as [->|H2];
      [split; [discriminate|tauto]|].
    tauto.
  - intros method Hm Hi. unfold Router.dispatch, Router.find.
    assert (Hg : method <> js "GET") by (intros ->; apply Hm; simpl; tauto).
    assert (Hp : method <> js "POST") by (intros ->; apply Hm; simpl; tauto).
    assert (Ho : method <> js "OPTIONS") by (intros ->; apply Hm; simpl; tauto).
    rewrite (decide_False (P := method = js "OPTIONS")) by done.
    unfold Router.verbOf.
    rewrite (decide_False (P := method = js "GET")) by done.
    rewrite (decide_False (P := method = js "POST")) by done.
    destruct setupRoutes_tables as (_ & _ & Hput & Hdel & Hpatch).
    destruct (decide (method = js "PUT")); [cbv zeta; by rewrite Hput|].
    destruct (decide (method = js "DELETE")); [cbv zeta; by rewrite Hdel|].
    destruct (decide (method = js "PATCH")); [cbv zeta; by rewrite Hpatch|].
    by rewrite bool_decide_eq_false_2.
Qed.

(** ** The registry and the heartbeat *)

Lemma visit_timers skip channel payload oracle w rem e :
  timers (visit skip channel payload oracle (w, rem) e).1 = timers w.
Proof. destruct e as [k c]. unfold visit. simpl. split_tests; done. Qed.

Lemma pass_timers skip channel payload oracle l : forall w rem,
  timers (foldl (visit skip channel payload oracle) (w, rem) l).1 = timers w.
Proof.
  induction l as [|e l IH]; intros w rem; [done|].
  rewrite foldl_step.
  pose proof (visit_timers skip channel payload oracle w rem e) as Hv.
  destruct (visit skip channel payload oracle (w, rem) e) as [w1 rem1].
  by rewrite IH.
Qed.

Lemma removeAll_timers l : forall w, timers (removeAll l w) = timers w.
Proof.
  unfold removeAll. induction l as [|x l IH]; intros w; [done|].
  simpl. by rewrite IH.
Qed.

Lemma fanOut_timers skip channel payload oracle w :
  timers (fanOut skip channel payload oracle w) = timers w.
Proof.
  unfold fanOut, fanOutPass.
  pose proof (pass_timers skip channel payload oracle (map_to_list (clients w)) w [])
    as Hp.
  destruct (foldl _ _ _) as [w' rem]. simpl in Hp. by rewrite removeAll_timers.
Qed.

Lemma runTask_timers t oracle w : timers (runTask t oracle w) = timers w.
Proof.
  destruct t; simpl; unfold withSocket; try destruct (heap w !! sender);
    try done; apply fanOut_timers.
Qed.

Lemma dropPingTimeout_interval ws h r d w :
  timersWF w -> timers w !! h = Some (HeartbeatInterval r d) ->
  timers (dropPingTimeout ws w) !! h = Some (HeartbeatInterval r d).
Proof.
  intros Hwf Hh. unfold dropPingTimeout, withSocket.
  destruct (heap w !! ws) as [s|] eqn:Hs; [|done].
  destruct (pingTimeout s) as [t|] eqn:Hp; [|done]. simpl.
  rewrite lookup_delete_ne; [done|]. intros ->.
  destruct (wf_field_is_own w Hwf ws s h _ Hs Hp Hh) as (i & d' & Heq).
  discriminate Heq.
Qed.

Lemma dropHeartbeat_interval k h w :
  heartbeats w !! k <> Some h -> timers (dropHeartbeat k w) !! h = timers w !! h.
Proof.
  intros Hne. unfold dropHeartbeat.
  destruct (heartbeats w !! k) as [hb|] eqn:Hk; [|done].
  simpl. rewrite lookup_delete_ne; [done|]. intros ->. by destruct Hne.
Qed.

Lemma reapOnTick_interval h0 ws s h r d w :
  timersWF w -> heap w !! ws = Some s ->
  timers w !! h = Some (HeartbeatInterval r d) -> h <> h0 ->
  timers (reapOnTick h0 ws w) !! h = Some (HeartbeatInterval r d).
Proof.
  intros Hwf Hs Hh Hne. unfold reapOnTick. rewrite (withSocket_some _ _ _ _ Hs).
  change (timers (dropPingTimeout ws (clearTimer h0 w)) !! h
          = Some (HeartbeatInterval r d)).
  apply dropPingTimeout_interval.
  - eapply timersWF_shrinks; [done|apply shrinks_clearTimer].
  - simpl. rewrite lookup_delete_ne; [done|congruence].
Qed.

Lemma reapOnTick_terminates h0 ws s w :
  heap w !! ws = Some s -> In (Terminate ws) (out (reapOnTick h0 ws w)).
Proof.
  intros Hs. unfold reapOnTick. rewrite (withSocket_some _ _ _ _ Hs).
  simpl. apply in_app_iff. right. by left.
Qed.

Lemma heartbeatTick_interval h0 ws d0 p h r d w :
  timersWF w -> timers w !! h0 = Some (HeartbeatInterval ws d0) ->
  timers w !! h = Some (HeartbeatInterval r d) ->
  timers (heartbeatTick h0 ws p w) !! h = Some (HeartbeatInterval r d)
  \/ In (Terminate r) (out (heartbeatTick h0 ws p w)).
Proof.
  intros Hwf Hh0 Hh. unfold heartbeatTick, withSocket.
  destruct (heap w !! ws) as [s|] eqn:Hs; [|by left].
  assert (Hreap : forall w1 s1, timersWF w1 -> heap w1 !! ws = Some s1 ->
            timers w1 = timers w ->
            timers (reapOnTick h0 ws w1) !! h = Some (HeartbeatInterval r d)
            \/ In (Terminate r) (out (reapOnTick h0 ws w1))).
  { intros w1 s1 Hwf1 Hs1 Ht. destruct (decide (h = h0)) as [->|Hne].
    - right. rewrite Hh0 in Hh. injection Hh as <- <-.
      by apply (reapOnTick_terminates h0 ws s1).
    - left. apply (reapOnTick_interval h0 ws s1); [done|done|by rewrite Ht|done]. }
  destruct (isAlive s); cbn [negb]; cbv zeta.
  2:{ by apply (Hreap w s). }
  set (w1 := emit (Ping ws) (updateSocket ws (setIsAlive false) w)).
  assert (Hsh1 : shrinks w w1) by (unfold w1; repeat shrink_step).
  assert (Hwf1 : timersWF w1) by (by eapply timersWF_shrinks).
  destruct p.
  { apply (Hreap w1 (setIsAlive false s)); [done| |done].
    unfold w1. simpl. rewrite lookup_alter_eq. by rewrite Hs. }
  rewrite let_armTimer. left.
  pose proof (clearPingTimeout_interval ws h r d w1 Hwf1 Hh) as Hh2.
  assert (Hwf2 : timersWF (clearPingTimeout ws w1))
    by (eapply timersWF_shrinks; [done|apply shrinks_clearPingTimeout]).
  pose proof (wf_fresh_timer _ Hwf2 _ _ Hh2) as Hlt.
  simpl. rewrite lookup_insert_ne; [done|lia].
Qed.

(** An interval stays pending until its socket is terminated or closes or
    fails. *)
Lemma step_interval e w w' h r d :
  timersWF w -> step e w = Some w' ->
  timers w !! h = Some (HeartbeatInterval r d) ->
  (exists d', timers w' !! h = Some (HeartbeatInterval r d')
              /\ d' <= clock w' + HEARTBEAT_INTERVAL)
  \/ In (Terminate r) (out w')
  \/ exists ws s, (e = EClose ws \/ e = EError ws)
                  /\ heap w !! ws = Some s /\ heartbeats w !! id s = Some h.
Proof.
  intros Hwf Hstep Hh.
  pose proof (step_timersWF e w w' Hwf Hstep) as Hwf'.
  assert (Hkept : forall d', timers w' !! h = Some (HeartbeatInterval r d') ->
            (exists d', timers w' !! h = Some (HeartbeatInterval r d')
                        /\ d' <= clock w' + HEARTBEAT_INTERVAL)
            \/ In (Terminate r) (out w')
            \/ exists ws s, (e = EClose ws \/ e = EError ws)
                            /\ heap w !! ws = Some s /\ heartbeats w !! id s = Some h).
  { intros d' Hd. left. exists d'. split; [done|].
    by apply (wf_interval_soon w' Hwf' h r). }
  unfold step in Hstep. destruct (enabled e w) eqn:Hen; [|done].
  destruct e as [ws k ip|ws parsed|ws|ws|ws|ws rs|h0 p|oracle| | | |t];
    simpl in Hstep; try (injection Hstep as <-).
  - apply (Hkept d). unfold onConnection.
    destruct (MAX_CONNECTIONS <=? _); [done|].
    pose proof (wf_fresh_timer w Hwf _ _ Hh) as Hlt.
    simpl. rewrite lookup_insert_ne; [done|lia].
  - apply (Hkept d). by rewrite onMessage_timers.
  - apply (Hkept d). unfold onPong. apply dropPingTimeout_interval; [|done].
    apply (timersWF_shrinks w); [exact Hwf|by apply shrinks_updateSocket].
  - simpl in Hen. apply bool_decide_eq_true in Hen. destruct Hen as [s Hs].
    destruct (decide (heartbeats w !! id s = Some h)) as [Hhb|Hhb].
    { right; right. exists ws, s. split; [by left|done]. }
    apply (Hkept d). unfold onClose. rewrite (withSocket_some _ _ _ _ Hs).
    change (timers (dropPingTimeout ws (dropHeartbeat (id s) w)) !! h
            = Some (HeartbeatInterval r d)).
    apply dropPingTimeout_interval.
    + apply (timersWF_shrinks w); [exact Hwf|apply shrinks_dropHeartbeat].
    + by rewrite dropHeartbeat_interval.
  - simpl in Hen. apply bool_decide_eq_true in Hen. destruct Hen as [s Hs].
    destruct (decide (heartbeats w !! id s = Some h)) as [Hhb|Hhb].
    { right; right. exists ws, s. split; [by right|done]. }
    apply (Hkept d). unfold onError. rewrite (withSocket_some _ _ _ _ Hs).
    change (timers (dropHeartbeat (id s) w) !! h = Some (HeartbeatInterval r d)).
    by rewrite dropHeartbeat_interval.
  - by apply (Hkept d).
  - simpl in Hen. unfold fireTimer in *.
    destruct (timers w !! h0) as [[ws d0|ws i d0]|] eqn:Hh0; [| |done].
    + set (d1 := clock w + HEARTBEAT_INTERVAL) in *.
      set (w0 := setTimers (<[h0 := HeartbeatInterval ws d1]> (timers w)) w) in *.
      assert (Hwf0 : timersWF w0) by (exact (timersWF_rearm h0 ws d0 w Hwf Hh0)).
      assert (Hh' : exists d', timers w0 !! h = Some (HeartbeatInterval r d')).
      { unfold w0. simpl. rewrite lookup_insert.
        destruct (decide (h0 = h)) as [->|Hne]; [|by exists d].
        rewrite Hh0 in Hh. injection Hh as <- <-. by exists d1. }
      destruct Hh' as [d' Hh'].
      destruct (heartbeatTick_interval h0 ws d1 p h r d' w0 Hwf0) as [Hk|Ht];
        [unfold w0; simpl; apply lookup_insert_eq|done|by apply (Hkept d')|].
      right. by left.
    + assert (Hne : h <> h0) by (intros ->; rewrite Hh0 in Hh; discriminate Hh).
      unfold pongTimeoutFired, withSocket in *. simpl in *.
      destruct (heap w !! ws) as [s|] eqn:Hs.
      2:{ apply (Hkept d). simpl. by rewrite lookup_delete_ne. }
      destruct (negb (isAlive s) && (readyState s =? 1)).
      2:{ apply (Hkept d). simpl. by rewrite lookup_delete_ne. }
      destruct (decide (h = i)) as [->|Hni].
      * right; left.
        destruct (wf_captured_is_own w Hwf _ _ _ _ _ Hh0 Hh) as [d' Heq].
        injection Heq as <- <-. simpl. apply in_app_iff. right. by left.
      * apply (Hkept d). simpl. by rewrite !lookup_delete_ne.
  - destruct (immediates w) as [|t rest]; injection Hstep as <-; [by apply (Hkept d)|].
    apply (Hkept d). by rewrite runTask_timers.
  - unfold recordRequest, withStatsLock in Hstep. simpl in Hstep.
    destruct (statsLock w); [done|]. injection Hstep as <-. by apply (Hkept d).
  - unfold metricsTick, withStatsLock in Hstep.
    destruct (statsLock w); [done|]. injection Hstep as <-. by apply (Hkept d).
  - by apply (Hkept d).
  - by apply (Hkept d).
Qed.

Lemma step_watched e w w' :
  timersWF w -> registryWF w -> watched w -> step e w = Some w' -> watched w'.
Proof.
  intros Hwf Hreg Hw Hstep k r Hk.
  pose proof (step_timersWF e w w' Hwf Hstep) as Hwf'.
  assert (Hold : clients w !! k = Some r ->
            (exists h d, timers w' !! h = Some (HeartbeatInterval r d)
                         /\ d <= clock w' + HEARTBEAT_INTERVAL)
            \/ In (Terminate r) (out w')).
  { intros Hk0. destruct (Hw k r Hk0) as [(h & d & Hh & _)|Ht].
    2:{ right. by apply (step_out e w w'). }
    destruct (step_interval e w w' h r d Hwf Hstep Hh)
      as [(d' & Hh' & Hd')|[Ht|(ws & s & He & Hs & Hhb)]].
    - left. by exists h, d'.
    - by right.
    - exfalso.
      destruct (wf_heartbeat_is_own w Hwf _ _ _ Hhb Hh) as (ws0 & d0 & Heq & Hid).
      injection Heq as <- <-.
      pose proof (Hreg k r Hk0) as Hidk. simpl in Hidk.
      rewrite Hidk in Hid. injection Hid as Hid. subst k.
      unfold step in Hstep. destruct (enabled e w); [|done].
      destruct He as [-> | ->]; simpl in Hstep; injection Hstep as <-.
      + destruct (onClose_post ws s w Hs) as (_ & _ & Hcl). by rewrite Hcl in Hk.
      + unfold onError in Hk. rewrite (withSocket_some _ _ _ _ Hs) in Hk.
        simpl in Hk. by rewrite lookup_delete_eq in Hk. }
  pose proof (step_clients e w w' Hstep) as Hc.
  destruct e as [ws k' ip|ws parsed|ws|ws|ws|ws rs|h0 p|oracle| | | |t];
    try (apply Hold; exact (lookup_weaken _ _ _ _ Hk Hc)).
  subst w'. unfold onConnection in *.
  destruct (MAX_CONNECTIONS <=? _); [by apply Hold|].
  simpl in Hk. rewrite lookup_insert in Hk.
  destruct (decide (k' = k)) as [->|Hne]; [|by apply Hold].
  injection Hk as <-. left. exists (nextHandle w), (clock w + HEARTBEAT_INTERVAL).
  simpl. rewrite lookup_insert_eq. split; [done|lia].
Qed.

(** X18.  Until the WebSocket server is closed, a socket never sits in the
    registry unwatched.  In every world a run reaches (the events of a run
    are those of a server whose WebSocket server is open) each socket of the
    registry has its heartbeat interval pending, the next probe due within
    [HEARTBEAT_INTERVAL], unless the heartbeat has already called [terminate]
    on it and its close event is still to come.  The close of the WebSocket
    server ends this: its callback leaves the socket in the registry and,
    every connection having drawn a new id, no interval of it pending. *)
Theorem registry_watched es t0 w k r
    (Hrun : run es (initialWorld t0) = Some w)
    (Hk : clients w !! k = Some r) :
  ((exists h d, timers w !! h = Some (HeartbeatInterval r d)
                /\ d <= clock w + HEARTBEAT_INTERVAL)
   \/ In (Terminate r) (out w))
  /\ clients (onServerClose w) !! k = Some r
  /\ (freshIds es (initialWorld t0) = true ->
      forall h d, timers (onServerClose w) !! h <> Some (HeartbeatInterval r d)).
Proof.
  split; [|split].
  - revert k r Hk. change (watched w).
    assert (Hinv : timersWF w /\ registryWF w /\ watched w).
    { apply (run_invariant (fun w => timersWF w /\ registryWF w /\ watched w))
        with (es := es) (w := initialWorld t0); [| |done].
      - intros e w0 w1 (Hwf & Hreg & Hw) Hstep. split; [|split].
        + by eapply step_timersWF.
        + by eapply step_registryWF.
        + by eapply step_watched.
      - split; [apply timersWF_initial|]. split.
        + unfold registryWF. simpl. apply map_Forall_empty.
        + intros k r H. simpl in H. by rewrite lookup_empty in H. }
    tauto.
  - unfold onServerClose.
    destruct (clearAll_frame (map_to_list (heartbeats w)) w) as (_ & Hcl & _).
    simpl. by rewrite Hcl.
  - intros Hfresh h d Hh.
    destruct (monitored_initial t0) as (Hu0 & Hc0 & Hr0).
    destruct (run_monitored es _ _ (timersWF_initial t0) Hu0 Hc0 Hr0 Hrun Hfresh)
      as (Hwf & Hu & Hc & Hr).
    unfold onServerClose in Hh. simpl in Hh. rewrite clearAll_timers in Hh.
    destruct (decide (h ∈ (map_to_list (heartbeats w)).*2)) as [Hd|Hd]; [done|].
    destruct (Hr h r d Hh) as (s & Hs & Hhb).
    apply Hd, list_elem_of_fmap. exists (id s, h). split; [done|].
    by apply elem_of_map_to_list.
Qed.

Lemma registry_watched_witness :
  run probedEvents (initialWorld 0) = Some probedWorld
  /\ clients probedWorld !! js "k3x9a2f7q" = Some 0%nat
  /\ freshIds probedEvents (initialWorld 0) = true
  /\ ((exists h d, timers probedWorld !! h = Some (HeartbeatInterval 0%nat d)
                   /\ d <= clock probedWorld + HEARTBEAT_INTERVAL)
      \/ In (Terminate 0%nat) (out probedWorld))
  /\ clients (onServerClose probedWorld) !! js "k3x9a2f7q" = Some 0%nat
  /\ (forall h d, timers (onServerClose probedWorld) !! h
                  <> Some (HeartbeatInterval 0%nat d)).
Proof.
  assert (Hrun : run probedEvents (initialWorld 0) = Some probedWorld)
    by (vm_compute; reflexivity).
  assert (Hk : clients probedWorld !! js "k3x9a2f7q" = Some 0%nat)
    by (vm_compute; reflexivity).
  assert (Hfresh : freshIds probedEvents (initialWorld 0) = true)
    by (vm_compute; reflexivity).
  destruct (registry_watched probedEvents 0 probedWorld (js "k3x9a2f7q") 0%nat Hrun Hk)
    as (Hw & Hreg & Hoff).
  split; [exact Hrun|]. split; [exact Hk|]. split; [exact Hfresh|].
  split; [exact Hw|]. split; [exact Hreg|exact (Hoff Hfresh)].
Defined.

(** ** No callback waits for the lock *)

(** X19.  No callback spins.  The two tasks that take [statsLock] wait in a
    loop while it is held, which in one thread would never end; but every
    callback that takes the lock releases it before it returns.  So in every
    world the server reaches the lock is free, and every event that can occur
    is handled to completion. *)
Theorem enabled_event_returns es t0 w e
    (Hrun : run es (initialWorld t0) = Some w)
    (Hen : enabled e w = true) :
  statsLock w = false /\ exists w', step e w = Some w'.
Proof.
  pose proof (run_statsLock _ _ _ Hrun) as Hfree. split; [exact Hfree|].
  unfold step. rewrite Hen.
  destruct e as [ws k ip|ws parsed|ws|ws|ws|ws rs|h p|oracle| | | |t]; simpl;
    try (eexists; reflexivity).
  - destruct (immediates w); eexists; reflexivity.
  - unfold recordRequest, withStatsLock. simpl. rewrite Hfree. eexists; reflexivity.
  - unfold metricsTick, withStatsLock. rewrite Hfree. eexists; reflexivity.
Qed.

Lemma enabled_event_returns_witness :
  run requestEvents (initialWorld 0) = Some requestWorld
  /\ enabled EHttpRequest requestWorld = true
  /\ exists w', step EHttpRequest requestWorld = Some w'.
Proof.
  assert (Hrun : run requestEvents (initialWorld 0) = Some requestWorld)
    by (vm_compute; reflexivity).
  assert (Hen : enabled EHttpRequest requestWorld = true) by reflexivity.
  split; [exact Hrun|]. split; [exact Hen|].
  exact (proj2 (enabled_event_returns requestEvents 0 requestWorld EHttpRequest Hrun Hen)).
Defined.

(** ** An alive socket holds no pong timeout *)

Lemma reapOnTick_socket h ws s w :
  heap w !! ws = Some s ->
  heap (reapOnTick h ws w) !! ws = Some (setPingTimeout None s).
Proof.
  intros Hs. unfold reapOnTick. rewrite (withSocket_some _ _ _ _ Hs).
  change (heap (dropPingTimeout ws (clearTimer h w)) !! ws
          = Some (setPingTimeout None s)).
  by apply dropPingTimeout_socket.
Qed.

Lemma step_aliveIdle e w w' :
  timersWF w -> aliveIdle w -> step e w = Some w' -> aliveIdle w'.
Proof.
  intros Hwf Hw Hstep r s' Hs' Ha.
  assert (Hkept : shrinks w w' -> isAlive <$> heap w' !! r = isAlive <$> heap w !! r ->
            pingTimeout s' = None).
  { intros (_ & _ & _ & _ & Hk) Hal. specialize (Hk r). rewrite Hs' in Hk, Hal.
    unfold socketKept in Hk. destruct (heap w !! r) as [s|] eqn:Hs; [|done].
    simpl in Hal. injection Hal as Hal. destruct Hk as [_ [Hp|[Hp _]]]; [|done].
    rewrite Hp. apply (Hw r s Hs). congruence. }
  destruct e as [ws k ip|ws parsed|ws|ws|ws|ws rs|h p|oracle| | | |t];
    try (apply Hkept; [by eapply step_shrinks|by apply (step_isAlive _ w w' r Hstep)]).
  - unfold step in Hstep. destruct (enabled _ w); [|done]. injection Hstep as <-.
    unfold onConnection in Hs'. destruct (MAX_CONNECTIONS <=? _); [by apply (Hw r)|].
    simpl in Hs'. rewrite lookup_insert in Hs'.
    destruct (decide (ws = r)) as [->|Hne]; [by injection Hs' as <-|by apply (Hw r)].
  - unfold step in Hstep. destruct (enabled _ w) eqn:Hen; [|done]. injection Hstep as <-.
    simpl in Hen. apply bool_decide_eq_true in Hen. destruct Hen as [s Hs].
    destruct (decide (r = ws)) as [->|Hne].
    + rewrite (onPong_socket ws s w Hs) in Hs'. by injection Hs' as <-.
    + rewrite (onPong_other ws w r Hne) in Hs'. by apply (Hw r).
  - unfold step in Hstep. destruct (enabled _ w) eqn:Hen; [|done]. injection Hstep as <-.
    simpl in Hen. destruct (timers w !! h) as [tm|] eqn:Hh; [|done].
    destruct (decide (r = owner tm)) as [->|Hne].
    2:{ rewrite (fireTimer_heap_other h p tm w r Hh Hne) in Hs'. by apply (Hw r s'). }
    unfold fireTimer in Hs'. rewrite Hh in Hs'.
    destruct tm as [ws d|ws i d]; simpl in Hs', Ha |- *.
    + set (w0 := setTimers (<[h := HeartbeatInterval ws (clock w + HEARTBEAT_INTERVAL)]>
                              (timers w)) w) in Hs'.
      destruct (wf_owner w Hwf _ _ _ Hh) as [s Hs].
      assert (Hs0 : heap w0 !! ws = Some s) by exact Hs.
      unfold heartbeatTick in Hs'. rewrite (withSocket_some _ _ _ _ Hs0) in Hs'.
      destruct (isAlive s) eqn:Hal; cbn [negb] in Hs'; cbv zeta in Hs'.
      2:{ rewrite (reapOnTick_socket h ws s w0 Hs0) in Hs'. by injection Hs' as <-. }
      set (w1 := emit (Ping ws) (updateSocket ws (setIsAlive false) w0)) in Hs'.
      assert (Hs1 : heap w1 !! ws = Some (setIsAlive false s)).
      { unfold w1. simpl. rewrite lookup_alter_eq. by rewrite Hs. }
      destruct p.
      { rewrite (reapOnTick_socket h ws _ w1 Hs1) in Hs'. by injection Hs' as <-. }
      rewrite let_armTimer in Hs'. simpl in Hs'.
      rewrite lookup_alter_eq, clearPingTimeout_heap, Hs1 in Hs'.
      injection Hs' as <-. simpl in Ha. by rewrite Ha in *.
    + unfold pongTimeoutFired in Hs'.
      destruct (heap w !! ws) as [s|] eqn:Hs.
      2:{ unfold withSocket in Hs'. simpl in Hs'. rewrite Hs in Hs'. simpl in Hs'.
          by rewrite Hs in Hs'. }
      assert (Hs0 : heap (clearTimer h w) !! ws = Some s) by exact Hs.
      rewrite (withSocket_some _ _ _ _ Hs0) in Hs'.
      destruct (negb (isAlive s) && (readyState s =? 1)); simpl in Hs'.
      * rewrite lookup_alter_eq, Hs in Hs'. by injection Hs' as <-.
      * rewrite Hs in Hs'. injection Hs' as <-. by apply (Hw ws).
  - unfold step in Hstep. destruct (enabled _ w); [|done]. injection Hstep as <-.
    by apply (Hw r).
Qed.

Lemma run_aliveIdle es t0 w : run es (initialWorld t0) = Some w -> aliveIdle w.
Proof.
  intros Hrun.
  apply (run_invariant (fun w => timersWF w /\ aliveIdle w)) with (es := es) (w' := w)
    (w := initialWorld t0); [| |done].
  - intros e w0 w1 [Hwf Hw] Hstep. split; [by eapply step_timersWF|by eapply step_aliveIdle].
  - split; [apply timersWF_initial|].
    intros r s H. simpl in H. by rewrite lookup_empty in H.
Qed.
